(** * Quasar: a shallow embedding of the circuit model and the state-vector simulator

    The development follows [quasar.py]: the [Matrix] constants, the [Gate]
    and [Circuit] classes with [add_gate] and the whole-circuit transforms,
    the canonical parameter view, the simulator ([simulate_steps],
    [apply_gate_1], [apply_gate_2]), the reduced density matrix and Pauli
    routines, and the three-pass compressor.

    Python integers are [Z]; [np.complex128] amplitudes are exact complex
    numbers (pairs of reals); one-dimensional arrays are lists, matrices are
    lists of rows; an [OrderedDict] is an association list in insertion
    order; numpy arrays that the simulator mutates live in an explicit store
    and are passed around by reference. *)

From Stdlib Require Import String ZArith List Bool Lia Reals Lra Permutation Sorted.
Import ListNotations.
Local Open Scope Z_scope.

(** ** Exceptions and the error monad *)

Inductive exn : Type :=
| RuntimeError (msg : string)
| KeyError
| IndexError
| TypeError
| ValueError.

Inductive result (A : Type) : Type :=
| Ok (a : A)
| Raise (e : exn).
Arguments Ok {A} a.
Arguments Raise {A} e.

Definition bind {A B} (m : result A) (k : A -> result B) : result B :=
  match m with
  | Ok a => k a
  | Raise e => Raise e
  end.

Notation "'do' x <- m ;; k" := (bind m (fun x => k))
  (at level 10, x name, m at level 100, k at level 200).

Definition raises {A} (m : result A) : Prop := exists e, m = Raise e.

(** ** Python lists, sorting, dictionaries *)

Definition zlen {A} (l : list A) : Z := Z.of_nat (length l).

(** [range(n)] *)
Definition range (n : Z) : list Z := map Z.of_nat (seq 0 (Z.to_nat n)).

(** [range(a, b)] *)
Definition range2 (a b : Z) : list Z := map (fun i => a + Z.of_nat i) (seq 0 (Z.to_nat (b - a))).

(** [l[i]] for [0 <= i]; out of range is Python's IndexError. *)
Definition getitem {A} (l : list A) (i : Z) : result A :=
  if i <? 0 then Raise IndexError
  else match nth_error l (Z.to_nat i) with
       | Some x => Ok x
       | None => Raise IndexError
       end.

(** Python's [sorted] and [list.sort] are stable; a stable insertion sort
    computes the same list. [leb] compares the sort keys. *)
Fixpoint insert_by {A} (leb : A -> A -> bool) (x : A) (l : list A) : list A :=
  match l with
  | [] => [x]
  | y :: l' => if leb x y then x :: l else y :: insert_by leb x l'
  end.

Definition sort_by {A} (leb : A -> A -> bool) (l : list A) : list A :=
  fold_right (insert_by leb) [] l.

Definition sorted (l : list Z) : list Z := sort_by Z.leb l.

(** Tuples of integers compare lexicographically. *)
Fixpoint tuple_compare (k1 k2 : list Z) : comparison :=
  match k1, k2 with
  | [], [] => Eq
  | [], _ :: _ => Lt
  | _ :: _, [] => Gt
  | a :: k1', b :: k2' =>
      match a ?= b with
      | Eq => tuple_compare k1' k2'
      | c => c
      end
  end.

Definition tuple_eqb (k1 k2 : list Z) : bool :=
  match tuple_compare k1 k2 with Eq => true | _ => false end.

(** A circuit coordinate [(T, key)]: a moment and a tuple of qubit indices. *)
Abbreviation coord := (Z * list Z)%type.

Definition coord_compare (c1 c2 : coord) : comparison :=
  match fst c1 ?= fst c2 with
  | Eq => tuple_compare (snd c1) (snd c2)
  | c => c
  end.

Definition coord_eqb (c1 c2 : coord) : bool :=
  match coord_compare c1 c2 with Eq => true | _ => false end.

Definition coord_leb (c1 c2 : coord) : bool :=
  match coord_compare c1 c2 with Gt => false | _ => true end.

(** [OrderedDict] keyed by circuit coordinates. *)
Section Dict.
Context {V : Type}.

Fixpoint dict_get (d : list (coord * V)) (k : coord) : option V :=
  match d with
  | [] => None
  | (k', v) :: d' => if coord_eqb k k' then Some v else dict_get d' k
  end.

Definition dict_mem (d : list (coord * V)) (k : coord) : bool :=
  match dict_get d k with Some _ => true | None => false end.

(** [d[k] = v]: an existing key keeps its position, a new one goes last. *)
Fixpoint dict_set (d : list (coord * V)) (k : coord) (v : V) : list (coord * V) :=
  match d with
  | [] => [(k, v)]
  | (k', v') :: d' =>
      if coord_eqb k k' then (k, v) :: d' else (k', v') :: dict_set d' k v
  end.

(** [d[k]], a KeyError when absent. *)
Definition dict_item (d : list (coord * V)) (k : coord) : result V :=
  match dict_get d k with
  | Some v => Ok v
  | None => Raise KeyError
  end.
End Dict.

(** A [set] of occupied slots [(T, A)]. *)
Abbreviation slot := (Z * Z)%type.

Definition slot_eqb (s1 s2 : slot) : bool :=
  (fst s1 =? fst s2) && (snd s1 =? snd s2).

Definition set_mem (s : slot) (S : list slot) : bool := existsb (slot_eqb s) S.

Definition set_add (s : slot) (S : list slot) : list slot :=
  if set_mem s S then S else S ++ [s].

(** ** Complex amplitudes *)

Definition C : Type := (R * R)%type.

Definition RtoC (x : R) : C := (x, 0%R).
Definition C0 : C := RtoC 0.
Definition C1 : C := RtoC 1.
Definition Ci : C := (0%R, 1%R).
Definition Cadd (a b : C) : C := ((fst a + fst b)%R, (snd a + snd b)%R).
Definition Copp (a : C) : C := ((- fst a)%R, (- snd a)%R).
Definition Csub (a b : C) : C := Cadd a (Copp b).
Definition Cmul (a b : C) : C :=
  ((fst a * fst b - snd a * snd b)%R, (fst a * snd b + snd a * fst b)%R).
Definition Cconj (a : C) : C := (fst a, (- snd a)%R).
Definition Cre (a : C) : R := fst a.
Definition Cim (a : C) : R := snd a.

Declare Scope C_scope.
Delimit Scope C_scope with C.
Bind Scope C_scope with C.
Infix "+" := Cadd : C_scope.
Infix "-" := Csub : C_scope.
Infix "*" := Cmul : C_scope.
Notation "- x" := (Copp x) : C_scope.

(** [sum(l)] over complex numbers. *)
Definition Csum (l : list C) : C := fold_right Cadd C0 l.

(** ** Arrays and matrices *)

(** A one-dimensional array of amplitudes. *)
Definition vec : Type := list C.

(** A two-dimensional array, as the list of its rows. *)
Definition matrix : Type := list (list C).

(** [M.shape == (r, c)] *)
Definition has_shape (M : matrix) (r c : nat) : bool :=
  (length M =? r)%nat && forallb (fun row => (length row =? c)%nat) M.

(** [M[i, j]] *)
Definition mget (M : matrix) (i j : nat) : C := nth j (nth i M []) C0.

Definition ncols (M : matrix) : nat :=
  match M with
  | [] => 0%nat
  | row :: _ => length row
  end.

Definition dotp (u v : list C) : C := Csum (map (fun p => (fst p * snd p)%C) (combine u v)).

Definition column (M : matrix) (j : nat) : list C := map (fun row => nth j row C0) M.

(** [np.dot(A, B)] of two matrices. *)
Definition mdot (A B : matrix) : matrix :=
  map (fun row => map (fun j => dotp row (column B j)) (seq 0 (ncols B))) A.

(** [np.kron(A, B)] *)
Definition kron (A B : matrix) : matrix :=
  flat_map (fun ra => map (fun rb => flat_map (fun a => map (Cmul a) rb) ra) B) A.

(** [np.eye(2)] *)
Definition eye2 : matrix := [[C1; C0]; [C0; C1]].

(** A rank-4 array of shape (2,2,2,2). *)
Definition tensor4 : Type := list (list (list (list C))).

Definition tget (U : tensor4) (i j k l : nat) : C :=
  nth l (nth k (nth j (nth i U []) []) []) C0.

Definition bits2 : list nat := [0; 1]%nat.

(** [np.reshape(U, (2,2,2,2))] of a (4,4) matrix: row index [2i+j], column index [2k+l]. *)
Definition reshape2222 (U : matrix) : tensor4 :=
  map (fun i => map (fun j => map (fun k => map (fun l =>
    mget U (2 * i + j) (2 * k + l)) bits2) bits2) bits2) bits2.

(** [np.reshape(U2, (4,4))] of a (2,2,2,2) array. *)
Definition reshape44 (U2 : tensor4) : matrix :=
  map (fun r => map (fun c =>
    tget U2 (r / 2) (r mod 2) (c / 2) (c mod 2)) [0; 1; 2; 3]%nat) [0; 1; 2; 3]%nat.

(** [np.einsum('ijkl->jilk', U2)]: the result at [j,i,l,k] is the argument at [i,j,k,l]. *)
Definition einsum_ijkl_jilk (U2 : tensor4) : tensor4 :=
  map (fun j => map (fun i => map (fun l => map (fun k =>
    tget U2 i j k l) bits2) bits2) bits2) bits2.

(** ** The [Matrix] class: the constant matrices *)

Module Matrix.
Definition I : matrix := [[C1; C0]; [C0; C1]].
Definition X : matrix := [[C0; C1]; [C1; C0]].
Definition Y : matrix := [[C0; Copp Ci]; [Ci; C0]].
Definition Z : matrix := [[C1; C0]; [C0; Copp C1]].
Definition S : matrix := [[C1; C0]; [C0; Ci]].
Definition inv_sqrt2 : C := RtoC (1 / sqrt 2).
Definition H : matrix :=
  map (map (Cmul inv_sqrt2)) [[C1; C1]; [C1; Copp C1]].
Definition CX : matrix :=
  [[C1; C0; C0; C0]; [C0; C1; C0; C0]; [C0; C0; C0; C1]; [C0; C0; C1; C0]].
Definition CNOT : matrix := CX.
Definition CZ : matrix :=
  [[C1; C0; C0; C0]; [C0; C1; C0; C0]; [C0; C0; C1; C0]; [C0; C0; C0; Copp C1]].
Definition SWAP : matrix :=
  [[C1; C0; C0; C0]; [C0; C0; C1; C0]; [C0; C1; C0; C0]; [C0; C0; C0; C1]].
End Matrix.

(** ** The [Gate] class *)

(** [params]: an [OrderedDict] from parameter names to floats. *)
Definition params_t : Type := list (string * R).

Record Gate : Type := mkGate {
  gN : Z;
  Ufun : params_t -> matrix;
  params : params_t;
  name : string;
  ascii_symbols : list string
}.

(** The property [Gate.U]: the unitary at the current parameter values. *)
Definition Gate_U (g : Gate) : matrix := Ufun g (params g).

(** [Gate.__init__]: the validity checks of the constructor (the
    [isinstance] checks hold by typing). *)
Definition Gate_init (N : Z) (Uf : params_t -> matrix) (ps : params_t)
    (nm : string) (syms : list string) : result Gate :=
  if N <=? 0 then Raise (RuntimeError "N <= 0")
  else if negb (has_shape (Uf ps) (Z.to_nat (2 ^ N)) (Z.to_nat (2 ^ N)))
  then Raise (RuntimeError "U must be shape (2**N,)*2")
  else if negb (zlen syms =? N) then Raise (RuntimeError "len(ascii_symbols) != N")
  else Ok (mkGate N Uf ps nm syms).

(** [Gate.copy] *)
Definition Gate_copy (g : Gate) : result Gate :=
  Gate_init (gN g) (Ufun g) (params g) (name g) (ascii_symbols g).

(** [Gate.U1(U)] and [Gate.U2(U)]: explicit gates without parameters. *)
Definition Gate_U1 (U : matrix) : result Gate :=
  Gate_init 1 (fun _ => U) [] "U1" ["U1"%string].

Definition Gate_U2 (U : matrix) : result Gate :=
  Gate_init 2 (fun _ => U) [] "U2" ["U2A"%string; "U2B"%string].

(** The standard gates used below. *)
Definition Gate_const (N : Z) (U : matrix) (nm : string) (syms : list string) : Gate :=
  mkGate N (fun _ => U) [] nm syms.

Definition Gate_I : Gate := Gate_const 1 Matrix.I "I" ["I"%string].
Definition Gate_X : Gate := Gate_const 1 Matrix.X "X" ["X"%string].
Definition Gate_Z : Gate := Gate_const 1 Matrix.Z "Z" ["Z"%string].
Definition Gate_H : Gate := Gate_const 1 Matrix.H "H" ["H"%string].
Definition Gate_CNOT : Gate := Gate_const 2 Matrix.CX "CNOT" ["@"%string; "X"%string].
Definition Gate_CZ : Gate := Gate_const 2 Matrix.CZ "CZ" ["@"%string; "Z"%string].

(** [params[key]] inside a generator (the generators below read only names
    that their gate holds). *)
Fixpoint params_get (ps : params_t) (key : string) : R :=
  match ps with
  | [] => 0%R
  | (k, v) :: ps' => if String.eqb k key then v else params_get ps' key
  end.

(** [Gate.Ry(theta)]: a gate with one mutable parameter. *)
Definition Gate_Ry (theta : R) : Gate :=
  mkGate 1
    (fun ps =>
       let th := params_get ps "theta" in
       [[RtoC (cos th); RtoC (- sin th)]; [RtoC (sin th); RtoC (cos th)]])
    [("theta"%string, theta)] "Ry" ["Ry"%string].

(** ** The [Circuit] class *)

Record Circuit : Type := mkCircuit {
  cN : Z;
  gates : list (coord * Gate);
  Ts : list Z;
  TAs : list slot
}.

(** [Circuit.__init__] *)
Definition Circuit_init (N : Z) : result Circuit :=
  if N <=? 0 then Raise (RuntimeError "N <= 0")
  else Ok (mkCircuit N [] [] []).

(** [nmoment]: [self.Ts[-1] + 1 if len(self.Ts) else 0] *)
Definition nmoment (self : Circuit) : Z :=
  match Ts self with
  | [] => 0
  | t :: rest => last rest t + 1
  end.

(** [ngate] *)
Definition ngate (self : Circuit) : Z := zlen (gates self).

(** [ngate1] and [ngate2] *)
Definition ngate1 (self : Circuit) : Z :=
  zlen (filter (fun kg => gN (snd kg) =? 1) (gates self)).
Definition ngate2 (self : Circuit) : Z :=
  zlen (filter (fun kg => gN (snd kg) =? 2) (gates self)).

(** The [key] argument: one qubit index or a tuple of them. *)
Inductive key_arg : Type :=
| KeyInt (A : Z)
| KeyTuple (As : list Z).

(** [key2 = (key,) if isinstance(key, int) else key] *)
Definition key_tuple (key : key_arg) : list Z :=
  match key with
  | KeyInt A => [A]
  | KeyTuple As => As
  end.

(** The loop of [add_gate] that checks that the requested locations are open. *)
Fixpoint check_open (self : Circuit) (T : Z) (key2 : list Z) : result unit :=
  match key2 with
  | [] => Ok tt
  | A :: rest =>
      if set_mem (T, A) (TAs self)
      then Raise (RuntimeError "circuit location is already occupied")
      else if A >=? cN self then Raise (RuntimeError "No qubit location")
      else check_open self T rest
  end.

(** [add_gate] mutates [self]: the model returns the circuit after the call
    together with the outcome. *)
Definition add_gate (self : Circuit) (T : Z) (key : key_arg) (gate : Gate)
    : Circuit * result unit :=
  let key2 := key_tuple key in
  if T <? 0 then (self, Raise (RuntimeError "Negative T"))
  else if negb (zlen key2 =? gN gate)
  then (self, Raise (RuntimeError "key entries provided for N-body gate"))
  else match check_open self T key2 with
       | Raise e => (self, Raise e)
       | Ok _ =>
           (mkCircuit (cN self)
              (dict_set (gates self) (T, key2) gate)
              (if existsb (Z.eqb T) (Ts self) then Ts self else sorted (Ts self ++ [T]))
              (fold_left (fun s A => set_add (T, A) s) key2 (TAs self)),
            Ok tt)
       end.

(** [circuit.add_gate(T, key2, gate)] on a circuit under construction. *)
Definition add_gate_to (circuit : Circuit) (T : Z) (key2 : list Z) (gate : Gate)
    : result Circuit :=
  match add_gate circuit T (KeyTuple key2) gate with
  | (circuit', Ok _) => Ok circuit'
  | (_, Raise e) => Raise e
  end.

(** [gate(T, key)] *)
Definition gate_at (self : Circuit) (T : Z) (key : key_arg) : result Gate :=
  dict_item (gates self) (T, key_tuple key).

(** A [for] loop whose body may raise. *)
Fixpoint foldM {A St : Type} (body : St -> A -> result St) (l : list A) (s : St) : result St :=
  match l with
  | [] => Ok s
  | x :: l' => do s' <- body s x ;; foldM body l' s'
  end.

(** [copy] *)
Definition copy (self : Circuit) : result Circuit :=
  do circuit <- Circuit_init (cN self) ;;
  foldM (fun circuit kg =>
           let '((T, key2), gate) := kg in
           do gate' <- Gate_copy gate ;;
           add_gate_to circuit T key2 gate')
        (gates self) circuit.

(** The first index of [T] in [l]: [[i for i, x in enumerate(l) if x == T][0]]. *)
Fixpoint index_of (T : Z) (l : list Z) : result Z :=
  match l with
  | [] => Raise IndexError
  | x :: l' => if x =? T then Ok 0 else do i <- index_of T l' ;; Ok (i + 1)
  end.

(** [subset(Ts, copy)] *)
Definition subset (self : Circuit) (Ts' : list Z) (cp : bool) : result Circuit :=
  do circuit <- Circuit_init (cN self) ;;
  if existsb (fun Tref => Tref >=? nmoment self) Ts'
  then Raise (RuntimeError "T >= self.nmoment")
  else
    foldM (fun circuit kg =>
             let '((T, key2), gate) := kg in
             if existsb (Z.eqb T) Ts' then
               do T2 <- index_of T Ts' ;;
               do gate' <- (if cp then Gate_copy gate else Ok gate) ;;
               add_gate_to circuit T2 key2 gate'
             else Ok circuit)
          (gates self) circuit.

(** [reversed(copy)]: the argument [copy] is not used by the source. *)
Definition reversed (self : Circuit) : result Circuit :=
  do circuit <- Circuit_init (cN self) ;;
  foldM (fun circuit kg =>
           let '((T, key2), gate) := kg in
           add_gate_to circuit (nmoment self - T - 1) key2 gate)
        (gates self) circuit.

(** [Tmap = { v : k for k, v in enumerate(sorted(self.Ts)) }] and [Tmap[T]]:
    the last index holding [T]. *)
Fixpoint Tmap_get (l : list Z) (i : Z) (T : Z) : result Z :=
  match l with
  | [] => Raise KeyError
  | x :: l' =>
      match Tmap_get l' (i + 1) T with
      | Ok j => Ok j
      | Raise e => if x =? T then Ok i else Raise e
      end
  end.

(** [nonredundant(copy)] *)
Definition nonredundant (self : Circuit) : result Circuit :=
  do circuit <- Circuit_init (cN self) ;;
  foldM (fun circuit kg =>
           let '((T, key2), gate) := kg in
           do T2 <- Tmap_get (sorted (Ts self)) 0 T ;;
           add_gate_to circuit T2 key2 gate)
        (gates self) circuit.

(** Circuits are built by [Circuit(N)] and calls of [add_gate] that return. *)
Inductive reachable : Circuit -> Prop :=
| reach_init N c : Circuit_init N = Ok c -> reachable c
| reach_add c T key gate c' :
    reachable c -> add_gate c T key gate = (c', Ok tt) -> reachable c'.

(** ** The canonical parameter view *)

(** A triple [(T, key, name)]. *)
Abbreviation param_key := (Z * list Z * string)%type.

(** [param_keys] *)
Definition param_keys (self : Circuit) : list param_key :=
  let keys :=
    flat_map (fun kg => map (fun nv => (fst (fst kg), snd (fst kg), fst nv))
                            (params (snd kg)))
             (gates self) in
  sort_by (fun x y => coord_leb (fst x) (fst y)) keys.

(** ** Well-formed circuits *)

(** The slots [(T, A)] that a coordinate claims. *)
Definition key_slots (k : coord) : list slot := map (fun A => (fst k, A)) (snd k).

Definition entry_ok (N : Z) (kg : coord * Gate) : Prop :=
  0 <= fst (fst kg)
  /\ zlen (snd (fst kg)) = gN (snd kg)
  /\ Forall (fun A => A < N) (snd (fst kg)).

Definition disjoint_keys (k1 k2 : coord) : Prop :=
  forall s, In s (key_slots k1) -> ~ In s (key_slots k2).

(** What [add_gate] maintains about the dictionary of gates. *)
Definition placeable (N : Z) (l : list (coord * Gate)) : Prop :=
  NoDup (map fst l)
  /\ Forall (entry_ok N) l
  /\ ForallOrdPairs disjoint_keys (map fst l).

Record circuit_inv (c : Circuit) : Prop := mk_circuit_inv {
  inv_N : 0 < cN c;
  inv_gates : placeable (cN c) (gates c);
  inv_TAs : forall s, In s (TAs c) <-> exists kg, In kg (gates c) /\ In s (key_slots (fst kg));
  inv_Ts_sorted : StronglySorted Z.lt (Ts c);
  inv_Ts : forall T, In T (Ts c) <-> exists kg, In kg (gates c) /\ fst (fst kg) = T
}.

(** The body of the loops that place one entry of a dictionary of gates. *)
Definition add_entry (circuit : Circuit) (kg : coord * Gate) : result Circuit :=
  add_gate_to circuit (fst (fst kg)) (snd (fst kg)) (snd kg).

(** [reversed] relabels the moment of a coordinate. *)
Definition flip_time (n : Z) (kg : coord * Gate) : coord * Gate :=
  ((n - fst (fst kg) - 1, snd (fst kg)), snd kg).

(** ** Example circuits *)

(** [Circuit(N=2)] with [H] on qubit 0 at moment 0 and [CNOT] on (0, 1) at moment 1. *)
Definition circuit_H0_X1 : Circuit :=
  fst (add_gate (fst (add_gate (mkCircuit 2 [] [] []) 0 (KeyInt 0) Gate_H)) 1 (KeyTuple [0; 1]) Gate_CNOT).

(** The parameter triples of one entry of the dictionary of gates, in the
    order of the gate's own parameters. *)
Definition entry_param_keys (kg : coord * Gate) : list param_key :=
  map (fun nv => (fst (fst kg), snd (fst kg), fst nv)) (params (snd kg)).

(** The sort key of [param_keys]: [(x[0], x[1])]. *)
Definition param_key_leb (x y : Z * list Z * string) : bool := coord_leb (fst x) (fst y).

(** The order of the entries of the dictionary of gates by coordinate. *)
Definition entry_leb (x y : coord * Gate) : bool := coord_leb (fst x) (fst y).

(** A circuit with two parametrized gates, and the same placements made in
    the other order. *)
Definition circuit_Ry_01 : Circuit :=
  fst (add_gate (fst (add_gate (mkCircuit 2 [] [] []) 0 (KeyInt 0) (Gate_Ry 1))) 1 (KeyInt 1) (Gate_Ry 2)).

Definition circuit_Ry_10 : Circuit :=
  fst (add_gate (fst (add_gate (mkCircuit 2 [] [] []) 1 (KeyInt 1) (Gate_Ry 2))) 0 (KeyInt 0) (Gate_Ry 1)).

(** ** The store of numpy arrays *)

(** The state buffers are mutable arrays passed by reference: a reference is
    an index into the store, and an allocation extends the store. *)
Abbreviation ref := nat.
Definition store : Type := list vec.

(** Computations that read and write the store and may raise. *)
Definition M (A : Type) : Type := store -> store * result A.

Definition ret {A} (a : A) : M A := fun h => (h, Ok a).
Definition throw {A} (e : exn) : M A := fun h => (h, Raise e).
Definition bindM {A B} (m : M A) (k : A -> M B) : M B :=
  fun h => match m h with
           | (h', Ok a) => k a h'
           | (h', Raise e) => (h', Raise e)
           end.
Definition lift {A} (r : result A) : M A := fun h => (h, r).

Notation "'run' x <- m ;; k" := (bindM m (fun x => k))
  (at level 10, x name, m at level 100, k at level 200).

(** A new array holding [v]. *)
Definition alloc (v : vec) : M ref := fun h => (h ++ [v], Ok (length h)).

(** The contents of an array. *)
Definition load (r : ref) : M vec :=
  fun h => match nth_error h r with
           | Some v => (h, Ok v)
           | None => (h, Raise IndexError)
           end.

Fixpoint update {A} (l : list A) (i : nat) (x : A) : list A :=
  match l, i with
  | [], _ => []
  | _ :: l', O => x :: l'
  | y :: l', S i' => y :: update l' i' x
  end.

(** Overwrite the contents of an array. *)
Definition write (r : ref) (v : vec) : M unit := fun h => (update h r v, Ok tt).

(** [np.zeros((n,))] *)
Definition zeros (n : Z) : vec := repeat C0 (Z.to_nat n).

(** ** Applying gates *)

(** [int.bit_length] *)
Definition bit_length (z : Z) : Z := if z =? 0 then 0 else Z.log2 (Z.abs z) + 1.

(** [N = (wfn1.shape[0] & -wfn1.shape[0]).bit_length() - 1] *)
Definition infer_N (w : vec) : Z := bit_length (Z.land (zlen w) (- zlen w)) - 1.

(** [w.shape == (2**N,)]; for a negative [N] the power is a float that is no length. *)
Definition shape_pow2 (w : vec) (N : Z) : bool := (0 <=? N) && (zlen w =? 2 ^ N).

(** [np.einsum('LjR,ij->LiR', wfn1v, U)] on the view of [w] of shape (L,2,R). *)
Definition einsum_LjR_ij (L R : nat) (w : vec) (U : matrix) : vec :=
  flat_map (fun l => flat_map (fun i => map (fun r =>
    Csum (map (fun j => (nth ((l * 2 + j) * R + r) w C0 * mget U i j)%C) bits2))
    (seq 0 R)) bits2) (seq 0 L).

(** [np.einsum('LkMlR,ijkl->LiMjR', wfn1v, U2)] on the view of [w] of shape (L,2,M,2,R). *)
Definition einsum_LkMlR_ijkl (L M R : nat) (w : vec) (U2 : tensor4) : vec :=
  flat_map (fun l => flat_map (fun i => flat_map (fun m => flat_map (fun j => map (fun r =>
    Csum (flat_map (fun k => map (fun l' =>
      (nth ((((l * 2 + k) * M + m) * 2 + l') * R + r) w C0 * tget U2 i j k l')%C) bits2) bits2))
    (seq 0 R)) bits2) (seq 0 M)) bits2) (seq 0 L).

(** The checks and the contraction of [apply_gate_1] on the contents of the
    two arrays. A negative [A] passes the checks and fails when the view is
    given the shape [(2**A, 2, R)], whose first entry is then a float. *)
Definition apply_gate_1_array (w1 w2 : vec) (U : matrix) (A : Z) : result vec :=
  let N := infer_N w1 in
  if A >=? N then Raise (RuntimeError "A >= N")
  else if negb (has_shape U 2 2) then Raise (RuntimeError "1-body gate must be (2,2)")
  else if negb (shape_pow2 w1 N) then Raise (RuntimeError "wfn1 should be (2**N,) shape")
  else if negb (shape_pow2 w2 N) then Raise (RuntimeError "wfn2 should be (2**N,) shape")
  else if A <? 0 then Raise TypeError
  else Ok (einsum_LjR_ij (Z.to_nat (2 ^ A)) (Z.to_nat (2 ^ (N - A - 1))) w1 U).

(** [apply_gate_1(wfn1, wfn2, U, A)]: the result is written into [wfn2],
    which is returned. *)
Definition apply_gate_1 (wfn1 wfn2 : ref) (U : matrix) (A : Z) : M ref :=
  run w1 <- load wfn1 ;;
  run w2 <- load wfn2 ;;
  run out <- lift (apply_gate_1_array w1 w2 U A) ;;
  run _ <- write wfn2 out ;;
  ret wfn2.

Definition apply_gate_2_array (w1 w2 : vec) (U : matrix) (A B : Z) : result vec :=
  let N := infer_N w1 in
  if A >=? N then Raise (RuntimeError "A >= N")
  else if B >=? N then Raise (RuntimeError "B >= N")
  else if A =? B then Raise (RuntimeError "A == B")
  else if negb (has_shape U 4 4) then Raise (RuntimeError "2-body gate must be (4,4)")
  else if negb (shape_pow2 w1 N) then Raise (RuntimeError "wfn1 should be (2**N,) shape")
  else if negb (shape_pow2 w2 N) then Raise (RuntimeError "wfn2 should be (2**N,) shape")
  else
    let U2 := reshape2222 U in
    let '(A2, B2, U2) := if A >? B then (B, A, einsum_ijkl_jilk U2) else (A, B, U2) in
    if A2 <? 0 then Raise TypeError
    else Ok (einsum_LkMlR_ijkl (Z.to_nat (2 ^ A2)) (Z.to_nat (2 ^ (B2 - A2 - 1)))
               (Z.to_nat (2 ^ (N - B2 - 1))) w1 U2).

(** [apply_gate_2(wfn1, wfn2, U, A, B)] *)
Definition apply_gate_2 (wfn1 wfn2 : ref) (U : matrix) (A B : Z) : M ref :=
  run w1 <- load wfn1 ;;
  run w2 <- load wfn2 ;;
  run out <- lift (apply_gate_2_array w1 w2 U A B) ;;
  run _ <- write wfn2 out ;;
  ret wfn2.

(** ** Simulation *)

(** The body of the inner loop of [simulate_steps]: one gate of the moment
    is applied from [wfn1] into [wfn2], and the two buffers are swapped. *)
Definition apply_entry (bufs : ref * ref) (kg : coord * Gate) : M (ref * ref) :=
  let '(wfn1, wfn2) := bufs in
  let '((_, key2), gate) := kg in
  if gN gate =? 1 then
    run A <- lift (getitem key2 0) ;;
    run wfn2' <- apply_gate_1 wfn1 wfn2 (Gate_U gate) A ;;
    ret (wfn2', wfn1)
  else if gN gate =? 2 then
    run A <- lift (getitem key2 0) ;;
    run B <- lift (getitem key2 1) ;;
    run wfn2' <- apply_gate_2 wfn1 wfn2 (Gate_U gate) A B ;;
    ret (wfn2', wfn1)
  else throw (RuntimeError "Cannot apply gates with N > 2").

Fixpoint forM {A St : Type} (body : St -> A -> M St) (l : list A) (s : St) : M St :=
  match l with
  | [] => ret s
  | x :: l' => run s' <- body s x ;; forM body l' s'
  end.

(** The outer loop of [simulate_steps] over the moments [Ts'], collecting
    the pairs [(T, wfn1)] that the generator yields. *)
Fixpoint simulate_moments (self : Circuit) (Ts' : list Z) (bufs : ref * ref)
    : M (list (Z * ref)) :=
  match Ts' with
  | [] => ret []
  | T :: rest =>
      run circuit <- lift (subset self [T] true) ;;
      run bufs' <- forM apply_entry (gates circuit) bufs ;;
      run yields <- simulate_moments self rest bufs' ;;
      ret ((T, fst bufs') :: yields)
  end.

(** [simulate_steps(wfn)], consumed to its end: the list of the yielded
    pairs. The argument is [None] or a reference to the caller's array. *)
Definition simulate_steps (self : Circuit) (wfn : option ref) : M (list (Z * ref)) :=
  run wfn' <- match wfn with
              | None => alloc (update (zeros (2 ^ cN self)) 0 C1)
              | Some r => run w <- load r ;; alloc w
              end ;;
  run w <- load wfn' ;;
  run wfn1 <- alloc w ;;
  run wfn2 <- alloc (zeros (zlen w)) ;;
  simulate_moments self (range (nmoment self)) (wfn1, wfn2).

(** [simulate(wfn)]: the loop variable [wfn] is rebound at each yield, and
    is the argument itself when the generator yields nothing. *)
Definition simulate (self : Circuit) (wfn : option ref) : M (option ref) :=
  run yields <- simulate_steps self wfn ;;
  ret (fold_left (fun _ y => Some (snd y)) yields wfn).

(** ** Reduced density matrices and Pauli expectation values *)

(** [np.einsum('LiR,LjR->ij', wfn1v.conj(), wfn2v)] *)
Definition einsum_LiR_LjR (L R : nat) (w1 w2 : vec) : matrix :=
  map (fun i => map (fun j =>
    Csum (flat_map (fun l => map (fun r =>
      (Cconj (nth ((l * 2 + i) * R + r) w1 C0) * nth ((l * 2 + j) * R + r) w2 C0)%C)
      (seq 0 R)) (seq 0 L))) bits2) bits2.

(** [compute_1pdm(wfn1, wfn2, A)]: reads the two arrays, writes nothing. *)
Definition compute_1pdm (w1 w2 : vec) (A : Z) : result matrix :=
  let N := infer_N w1 in
  if A >=? N then Raise (RuntimeError "A >= N")
  else if negb (shape_pow2 w1 N) then Raise (RuntimeError "wfn1 should be (2**N,) shape")
  else if negb (shape_pow2 w2 N) then Raise (RuntimeError "wfn2 should be (2**N,) shape")
  else if A <? 0 then Raise TypeError
  else Ok (einsum_LiR_LjR (Z.to_nat (2 ^ A)) (Z.to_nat (2 ^ (N - A - 1))) w1 w2).

(** [compute_pauli_1(wfn, A)]: the real array [[I, X, Y, Z]]. *)
Definition compute_pauli_1 (w : vec) (A : Z) : result (list R) :=
  do D <- compute_1pdm w w A ;;
  let I := Cre (mget D 0 0 + mget D 1 1)%C in
  let Z := Cre (mget D 0 0 - mget D 1 1)%C in
  let X := Cre (mget D 1 0 + mget D 0 1)%C in
  let Y := Cim (mget D 1 0 - mget D 0 1)%C in
  Ok [I; X; Y; Z].

(** ** Frame conditions on the store *)

(** [m] keeps the first [n] arrays of the store as they are, never shrinks
    the store, and its results satisfy [P]. *)
Definition preserves (n : nat) {A} (m : M A) (P : A -> Prop) : Prop :=
  forall h, (n <= length h)%nat ->
    (length h <= length (fst (m h)))%nat
    /\ (forall i, (i < n)%nat -> nth_error (fst (m h)) i = nth_error h i)
    /\ (forall a, snd (m h) = Ok a -> P a).

(** Both buffers were allocated after the first [n] arrays of the store. *)
Definition fresh_bufs (n : nat) (bufs : ref * ref) : Prop :=
  (n <= fst bufs)%nat /\ (n <= snd bufs)%nat.

(** A store with the state [|00>] and a second buffer, for two qubits. *)
Definition store_00 : store := [[C1; C0; C0; C0]; [C0; C0; C0; C0]].

(** [Circuit(N=2)] without gates. *)
Definition circuit_empty2 : Circuit := mkCircuit 2 [] [] [].

(** ** Basis states and amplitudes *)

(** The index of the basis state [|b0 b1 ... >]: qubit 0 is the most
    significant bit. *)
Definition idx_of_bits (bs : list bool) : nat :=
  fold_left (fun acc b => (2 * acc + Nat.b2n b)%nat) bs 0%nat.

(** The amplitude of a basis state in a state vector. *)
Definition amp (w : vec) (bs : list bool) : C := nth (idx_of_bits bs) w C0.

(** The value of qubit [A] in a basis state. *)
Definition bit (bs : list bool) (A : nat) : nat := Nat.b2n (nth A bs false).

Definition bools : list bool := [false; true].

(** The action of a one-qubit matrix on qubit [A] of a wave function. *)
Definition act1 (U : matrix) (A : nat) (psi : list bool -> C) : list bool -> C :=
  fun bs =>
    Csum (map (fun j => (psi (update bs A j) * mget U (bit bs A) (Nat.b2n j))%C) bools).

(** The action of a two-qubit matrix, packed for [|A> (x) |B>], on the
    qubits [A] and [B]. *)
Definition act2 (U : matrix) (A B : nat) (psi : list bool -> C) : list bool -> C :=
  fun bs =>
    Csum (flat_map (fun k => map (fun l =>
      (psi (update (update bs A k) B l)
       * mget U (2 * bit bs A + bit bs B) (2 * Nat.b2n k + Nat.b2n l))%C) bools) bools).

(** Two wave functions agree on the basis states of [n] qubits. *)
Definition agree (n : nat) (psi phi : list bool -> C) : Prop :=
  forall bs, length bs = n -> psi bs = phi bs.

(** ** The state after a run, as a function of the gates *)

(** What one gate application writes, given the contents [w] of the source
    buffer of [2^n] amplitudes (the contraction of [apply_gate_1] or
    [apply_gate_2] after their checks). *)
Definition gate_apply (n : Z) (w : vec) (kg : coord * Gate) : vec :=
  match snd (fst kg) with
  | [A] =>
      einsum_LjR_ij (Z.to_nat (2 ^ A)) (Z.to_nat (2 ^ (n - A - 1))) w (Gate_U (snd kg))
  | [A; B] =>
      if A >? B
      then einsum_LkMlR_ijkl (Z.to_nat (2 ^ B)) (Z.to_nat (2 ^ (A - B - 1)))
             (Z.to_nat (2 ^ (n - A - 1))) w (einsum_ijkl_jilk (reshape2222 (Gate_U (snd kg))))
      else einsum_LkMlR_ijkl (Z.to_nat (2 ^ A)) (Z.to_nat (2 ^ (B - A - 1)))
             (Z.to_nat (2 ^ (n - B - 1))) w (reshape2222 (Gate_U (snd kg)))
  | _ => w
  end.

Definition run_gates (n : Z) (l : list (coord * Gate)) (w : vec) : vec :=
  fold_left (gate_apply n) l w.

(** The gates of moment [T], in the order of the dictionary. *)
Definition moment_gates (c : Circuit) (T : Z) : list (coord * Gate) :=
  filter (fun kg => fst (fst kg) =? T) (gates c).

(** The gates in the order in which [simulate_steps] applies them. *)
Definition schedule (c : Circuit) : list (coord * Gate) :=
  flat_map (moment_gates c) (range (nmoment c)).

(** A gate that the simulator can apply on [n] qubits: it passes the checks
    of the [Gate] constructor, is a 1- or 2-body gate, and sits on distinct
    qubits [0 <= A < n]. *)
Definition simulable (n : Z) (kg : coord * Gate) : Prop :=
  Gate_copy (snd kg) = Ok (snd kg)
  /\ (gN (snd kg) = 1 \/ gN (snd kg) = 2)
  /\ zlen (snd (fst kg)) = gN (snd kg)
  /\ Forall (fun A => 0 <= A < n) (snd (fst kg))
  /\ NoDup (snd (fst kg)).

(** The state that a result of [simulate] refers to. *)
Definition state_of (h : store) (res : option ref) : option vec :=
  match res with
  | Some r => nth_error h r
  | None => None
  end.

(** The default initial state [|00...0>] on [n] qubits. *)
Definition zero_state (n : Z) : vec := update (zeros (2 ^ n)) 0 C1.

(** The action of a placed gate on a wave function. *)
Definition act (kg : coord * Gate) (psi : list bool -> C) : list bool -> C :=
  match snd (fst kg) with
  | [A] => act1 (Gate_U (snd kg)) (Z.to_nat A) psi
  | [A; B] => act2 (Gate_U (snd kg)) (Z.to_nat A) (Z.to_nat B) psi
  | _ => psi
  end.

Definition act_all (l : list (coord * Gate)) (psi : list bool -> C) : list bool -> C :=
  fold_left (fun p kg => act kg p) l psi.

(** [subset([T])] relabels the moment [T] to 0. *)
Definition at_moment_0 (kg : coord * Gate) : coord * Gate := ((0, snd (fst kg)), snd kg).

(** [Circuit(N)] with a single Hadamard gate on qubit 0 at moment 0. *)
Definition circuit_H0 (N : Z) : Circuit :=
  fst (add_gate (mkCircuit N [] [] []) 0 (KeyInt 0) Gate_H).

(** ** The compressor *)

(** [l[i]] with Python's negative indices. *)
Definition py_index (len i : Z) : result nat :=
  if (0 <=? i) && (i <? len) then Ok (Z.to_nat i)
  else if (- len <=? i) && (i <? 0) then Ok (Z.to_nat (len + i))
  else Raise IndexError.

Definition py_get {A} (l : list A) (i : Z) : result A :=
  do k <- py_index (zlen l) i ;;
  match nth_error l k with
  | Some x => Ok x
  | None => Raise IndexError
  end.

(** [enumerate(l)] *)
Definition enumerate {A} (l : list A) : list (Z * A) := combine (range (zlen l)) l.

(** The occupancy plan: one row per qubit, one entry per moment, with 0 for
    an empty slot, 1 for a 1-body gate, 2 and -2 for the first and the
    second qubit of a 2-body gate. *)
Definition plan_t : Type := list (list Z).

(** [plan[A][T] = v] *)
Definition plan_set (plan : plan_t) (A T v : Z) : result plan_t :=
  do a <- py_index (zlen plan) A ;;
  do row <- py_get plan A ;;
  do t <- py_index (zlen row) T ;;
  Ok (update plan a (update row t v)).

(** [plan[A][T]] *)
Definition plan_get (plan : plan_t) (A T : Z) : result Z :=
  do row <- py_get plan A ;;
  py_get row T.

(** The loop that fills the plan from the gates of [circuit1]. *)
Definition plan_step (plan : plan_t) (kg : coord * Gate) : result plan_t :=
  let '((T, key2), gate) := kg in
  if gN gate =? 1 then
    match key2 with
    | [A] => plan_set plan A T 1
    | _ => Raise ValueError
    end
  else if gN gate =? 2 then
    match key2 with
    | [A; B] => do plan' <- plan_set plan A T 2 ;; plan_set plan' B T (-2)
    | _ => Raise ValueError
    end
  else Raise (RuntimeError "N > 2").

Definition make_plan (nm N : Z) (gs : list (coord * Gate)) : result plan_t :=
  foldM plan_step gs (repeat (repeat 0 (Z.to_nat nm)) (Z.to_nat N)).

(** *** Pass 1: chains of 1-body gates *)

(** The chain under construction: [None] when [U is None], else [(Tstar, U)]. *)
Definition chain : Type := option (Z * matrix).

(** One iteration of [for T, V in enumerate(row)]. *)
Definition jam1_step (nm : Z) (circuit1 : Circuit) (A : Z)
    (st : Circuit * chain) (TV : Z * Z) : result (Circuit * chain) :=
  let '(circuit2, ch) := st in
  let '(T, V) := TV in
  do ch1 <- (if V =? 1 then
               do g <- dict_item (gates circuit1) (T, [A]) ;;
               match ch with
               | None => Ok (Some (T, Gate_U g))
               | Some (Tstar, U) => Ok (Some (Tstar, mdot (Gate_U g) U))
               end
             else Ok ch) ;;
  match ch1 with
  | Some (Tstar, U) =>
      if (V =? 2) || (V =? -2) || (T =? nm - 1) then
        do g <- Gate_U1 U ;;
        do circuit2' <- add_gate_to circuit2 Tstar [A] g ;;
        Ok (circuit2', None)
      else Ok (circuit2, ch1)
  | None => Ok (circuit2, None)
  end.

(** One iteration of [for A, row in enumerate(plan)]. *)
Definition jam1_row (nm : Z) (circuit1 circuit2 : Circuit) (Arow : Z * list Z)
    : result Circuit :=
  do st <- foldM (jam1_step nm circuit1 (fst Arow)) (enumerate (snd Arow)) (circuit2, None) ;;
  Ok (fst st).

(** The loops that place the gates of a given arity that are not jammed. *)
Definition add_2body (circuit2 : Circuit) (kg : coord * Gate) : result Circuit :=
  if gN (snd kg) =? 2 then add_entry circuit2 kg else Ok circuit2.

Definition compress_pass1 (self : Circuit) : result Circuit :=
  do circuit1 <- copy self ;;
  do plan <- make_plan (nmoment self) (cN self) (gates circuit1) ;;
  do circuit2 <- Circuit_init (cN self) ;;
  do circuit2' <- foldM (jam1_row (nmoment self) circuit1) (enumerate plan) circuit2 ;;
  foldM add_2body (gates circuit1) circuit2'.

(** *** Pass 2: 1-body gates into 2-body gates *)

(** [jammed_gates]: a dictionary from coordinates to gates. *)
Definition jammed_t : Type := list (coord * Gate).

(** [range(T-1, -1, -1)] *)
Definition range_down (T : Z) : list Z := rev (range T).

(** The loop [for T2 in range(T-1,-1,-1)] over the plan row of qubit [A]:
    the 1-body gate that it finds before a 2-body entry, if any. *)
Fixpoint scan_left (plan : plan_t) (circuit1 : Circuit) (A : Z) (T2s : list Z)
    : result (option (Z * Gate)) :=
  match T2s with
  | [] => Ok None
  | T2 :: rest =>
      do v <- plan_get plan A T2 ;;
      if (v =? 2) || (v =? -2) then Ok None
      else if v =? 1 then
        do gate1 <- dict_item (gates circuit1) (T2, [A]) ;;
        Ok (Some (T2, gate1))
      else scan_left plan circuit1 A rest
  end.

(** [max(l)] of a non-empty list. *)
Definition py_max (l : list Z) : result Z :=
  match l with
  | [] => Raise ValueError
  | x :: l' => Ok (fold_left Z.max l' x)
  end.

(** [l[a:b]] for [0 <= a]. *)
Definition slice {A} (l : list A) (a b : Z) : list A :=
  firstn (Z.to_nat (b - a)) (skipn (Z.to_nat a) l).

Fixpoint mapM {A B} (f : A -> result B) (l : list A) : result (list B) :=
  match l with
  | [] => Ok []
  | x :: l' => do y <- f x ;; do ys <- mapM f l' ;; Ok (y :: ys)
  end.

(** The right-side test and lookup for qubit [A] of a 2-body gate at
    moment [T]: the first 1-body gate after [T] when the rest of the row has
    1-body entries and no 2-body entry. *)
Definition scan_right (nm : Z) (plan : plan_t) (circuit1 : Circuit) (A T : Z)
    : result (option (Z * Gate)) :=
  if T + 1 <? nm then
    do vals <- mapM (fun T2 => do v <- plan_get plan A T2 ;; Ok (Z.abs v)) (range2 (T + 1) nm) ;;
    do m <- py_max vals ;;
    if m =? 1 then
      do row <- py_get plan A ;;
      do T3 <- getitem (map fst (filter (fun TP => snd TP =? 1)
                                        (enumerate (slice row (T + 1) nm)))) 0 ;;
      let T2 := T3 + T + 1 in
      do gate1 <- dict_item (gates circuit1) (T2, [A]) ;;
      Ok (Some (T2, gate1))
    else Ok None
  else Ok None.

(** Folding a found 1-body gate into [U] and recording it as jammed. *)
Definition jam_into (side : matrix -> matrix -> matrix) (A : Z)
    (found : option (Z * Gate)) (Uj : matrix * jammed_t) : matrix * jammed_t :=
  match found with
  | Some (T2, gate1) =>
      (side (fst Uj) (Gate_U gate1), dict_set (snd Uj) (T2, [A]) gate1)
  | None => Uj
  end.

(** The four ways a 1-body matrix enters the 2-body matrix. *)
Definition left_A (U g : matrix) : matrix := mdot U (kron g eye2).
Definition left_B (U g : matrix) : matrix := mdot U (kron eye2 g).
Definition right_A (U g : matrix) : matrix := mdot (kron g eye2) U.
Definition right_B (U g : matrix) : matrix := mdot (kron eye2 g) U.

(** The body of the loop over the 2-body gates of [circuit1]. *)
Definition jam2_gate (nm : Z) (plan : plan_t) (circuit1 : Circuit)
    (st : Circuit * jammed_t) (kg : coord * Gate) : result (Circuit * jammed_t) :=
  let '(circuit2, jammed_gates) := st in
  let '((T, key2), gate) := kg in
  if negb (gN gate =? 2) then Ok st
  else
    match key2 with
    | [A; B] =>
        let Uj := (Gate_U gate, jammed_gates) in
        do lA <- scan_left plan circuit1 A (range_down T) ;;
        let Uj := jam_into left_A A lA Uj in
        do lB <- scan_left plan circuit1 B (range_down T) ;;
        let Uj := jam_into left_B B lB Uj in
        do rA <- scan_right nm plan circuit1 A T ;;
        let Uj := jam_into right_A A rA Uj in
        do rB <- scan_right nm plan circuit1 B T ;;
        let Uj := jam_into right_B B rB Uj in
        do g <- Gate_U2 (fst Uj) ;;
        do circuit2' <- add_gate_to circuit2 T key2 g ;;
        Ok (circuit2', snd Uj)
    | _ => Raise ValueError
    end.

(** The loop over the 1-body gates that were not jammed. *)
Definition add_unjammed (jammed_gates : jammed_t) (circuit2 : Circuit) (kg : coord * Gate)
    : result Circuit :=
  if negb (gN (snd kg) =? 1) then Ok circuit2
  else if dict_mem jammed_gates (fst kg) then Ok circuit2
  else add_entry circuit2 kg.

Definition compress_pass2 (self : Circuit) (circuit1 : Circuit) : result Circuit :=
  do plan <- make_plan (nmoment self) (cN self) (gates circuit1) ;;
  do circuit2 <- Circuit_init (cN self) ;;
  do st <- foldM (jam2_gate (nmoment self) plan circuit1) (gates circuit1) (circuit2, []) ;;
  foldM (add_unjammed (snd st)) (gates circuit1) (fst st).

(** *** Pass 3: runs of 2-body gates on one pair of qubits *)

(** An entry of [jams]: [((T, key), gate, trans)]. *)
Abbreviation jam_t := (Z * list Z * Gate * bool)%type.

(** The loop [for T2 in range(T+1, self.nmoment)] that collects the later
    2-body gates on the pair, up to the first interference. *)
Fixpoint collect_jams (circuit1 : Circuit) (A B : Z) (T2s : list Z) (jams : list jam_t)
    : list jam_t :=
  match T2s with
  | [] => jams
  | T2 :: rest =>
      match dict_get (gates circuit1) (T2, [A; B]) with
      | Some g => collect_jams circuit1 A B rest (jams ++ [((T2, [A; B]), g, false)])
      | None =>
          match dict_get (gates circuit1) (T2, [B; A]) with
          | Some g => collect_jams circuit1 A B rest (jams ++ [((T2, [B; A]), g, true)])
          | None =>
              if set_mem (T2, A) (TAs circuit1) then jams
              else if set_mem (T2, B) (TAs circuit1) then jams
              else collect_jams circuit1 A B rest jams
          end
      end
  end.

(** [np.reshape(np.einsum('ijkl->jilk', np.reshape(U2, (2,)*4)), (4,)*2)] *)
Definition swap_legs (U2 : matrix) : matrix := reshape44 (einsum_ijkl_jilk (reshape2222 U2)).

(** The product of the matrices of [jams], the later ones on the left. *)
Definition jams_product (jams : list jam_t) : result matrix :=
  do first <- getitem jams 0 ;;
  Ok (fold_left (fun (U : matrix) (j : jam_t) =>
        let U2 := Gate_U (snd (fst j)) in
        mdot (if snd j then swap_legs U2 else U2) U)
      (tl jams) (Gate_U (snd (fst first)))).

(** The body of [for key, gate in circuit3.gates.items()] at moment [T]. *)
Definition jam3_gate (nm : Z) (circuit1 : Circuit) (T : Z)
    (st : Circuit * jammed_t) (kg : coord * Gate) : result (Circuit * jammed_t) :=
  let '(circuit2, jammed_gates) := st in
  let '((_, key2), gate) := kg in
  if negb (gN gate =? 2) then Ok st
  else if dict_mem jammed_gates (T, key2) then Ok st
  else
    match key2 with
    | [A; B] =>
        let jams := collect_jams circuit1 A B (range2 (T + 1) nm) [((T, key2), gate, false)] in
        do U <- jams_product jams ;;
        do g <- Gate_U2 U ;;
        do circuit2' <- add_gate_to circuit2 T [A; B] g ;;
        Ok (circuit2',
            fold_left (fun (jam : jammed_t) (j : jam_t) => dict_set jam (fst (fst j)) (snd (fst j)))
              jams jammed_gates)
    | _ => Raise ValueError
    end.

(** The body of [for T in range(circuit1.nmoment)]. *)
Definition jam3_moment (nm : Z) (circuit1 : Circuit)
    (st : Circuit * jammed_t) (T : Z) : result (Circuit * jammed_t) :=
  do circuit3 <- subset circuit1 [T] true ;;
  foldM (jam3_gate nm circuit1 T) (gates circuit3) st.

Definition compress_pass3 (self : Circuit) (circuit1 : Circuit) : result Circuit :=
  do circuit2 <- Circuit_init (cN self) ;;
  do st <- foldM (jam3_moment (nmoment self) circuit1) (range (nmoment circuit1)) (circuit2, []) ;;
  foldM (add_unjammed (snd st)) (gates circuit1) (fst st).

(** [compressed] *)
Definition compressed (self : Circuit) : result Circuit :=
  do circuit2 <- compress_pass1 self ;;
  do circuit2' <- compress_pass2 self circuit2 ;;
  do circuit2'' <- compress_pass3 self circuit2' ;;
  nonredundant circuit2''.

(** *** The right-side rule of pass 2, as the specification words it *)

(** Scanning forward over the moments [T2s] of a plan row: the nearest
    1-body entry, unless a 2-body entry comes first. *)
Fixpoint spec_nearest_following (row : list Z) (T2s : list Z) : option Z :=
  match T2s with
  | [] => None
  | T2 :: rest =>
      let v := nth (Z.to_nat T2) row 0 in
      if (v =? 2) || (v =? -2) then None
      else if v =? 1 then Some T2
      else spec_nearest_following row rest
  end.

(** The specification's rule for a circuit [self]: in pass 2, for each
    2-body gate and each of its qubits, the nearest following unblocked
    1-body gate is the one that the right-side step folds in. *)
Definition right_fold_nearest (self : Circuit) : Prop :=
  forall circuit1 plan T A B gate q row T2,
    compress_pass1 self = Ok circuit1 ->
    make_plan (nmoment self) (cN self) (gates circuit1) = Ok plan ->
    In ((T, [A; B]), gate) (gates circuit1) -> gN gate = 2 ->
    q = A \/ q = B ->
    py_get plan q = Ok row ->
    spec_nearest_following row (range2 (T + 1) (nmoment self)) = Some T2 ->
    exists gate1, scan_right (nmoment self) plan circuit1 q T = Ok (Some (T2, gate1)).

(** [CNOT(0,1)] at moment 0, [X] on qubit 0 at moment 1, [CNOT(0,2)] at moment 2. *)
Definition circuit_X_between : Circuit :=
  fst (add_gate (fst (add_gate (fst (add_gate (mkCircuit 3 [] [] [])
    0 (KeyTuple [0; 1]) Gate_CNOT)) 1 (KeyInt 0) Gate_X)) 2 (KeyTuple [0; 2]) Gate_CNOT).

(** [CNOT(0,1)] at moment 0 and [X] on qubit 0 at moment 1. *)
Definition circuit_X_after : Circuit :=
  fst (add_gate (fst (add_gate (mkCircuit 2 [] [] [])
    0 (KeyTuple [0; 1]) Gate_CNOT)) 1 (KeyInt 0) Gate_X).

(** An entry of a plan row. *)
Definition plan_value (v : Z) : Prop := v = 0 \/ v = 1 \/ v = 2 \/ v = -2.

(** ** Vocabulary of the compressor's correctness *)

Definition touches (q : Z) (e : coord * Gate) : bool := existsb (Z.eqb q) (snd (fst e)).
Definition wire (q : Z) (l : list (coord * Gate)) : list (coord * Gate) := filter (touches q) l.
Definition time_lt (e1 e2 : coord * Gate) : Prop := fst (fst e1) < fst (fst e2).
Definition wire_sorted (l : list (coord * Gate)) : Prop :=
  forall q, StronglySorted time_lt (wire q l).
Definition overlaps (e x : coord * Gate) : bool :=
  existsb (fun q => touches q x) (snd (fst e)).
Definition peq (psi phi : list bool -> C) : Prop := forall bs, psi bs = phi bs.

(** No two gates of [L] sit on one qubit at one moment. *)
Definition slot_unique (L : list (coord * Gate)) : Prop :=
  forall e1 e2 q, In e1 L -> In e2 L -> touches q e1 = true -> touches q e2 = true ->
    fst (fst e1) = fst (fst e2) -> e1 = e2.

(** A gate of the compressed circuit together with the gates of [L] that it
    stands for, in the order in which they act. *)
Record group_ok (N : Z) (L : list (coord * Gate)) (g : (coord * Gate) * list (coord * Gate))
    : Prop := mk_group_ok {
  go_pivot : exists p, In p (snd g) /\ fst p = fst (fst g);
  go_keys : forall m q, In m (snd g) -> touches q m = true -> touches q (fst g) = true;
  go_sorted : wire_sorted (snd g);
  go_convex : forall q m1 m2 x, In m1 (snd g) -> In m2 (snd g) -> In x L ->
      touches q m1 = true -> touches q m2 = true -> touches q x = true ->
      time_lt m1 x -> time_lt x m2 -> In x (snd g);
  go_act : forall psi, agree (Z.to_nat N) (act (fst g) psi) (act_all (snd g) psi);
  go_host : simulable N (fst g)
}.

(** The gates [L'] stand for the gates [L], group by group. *)
Definition fuses (N : Z) (L L' : list (coord * Gate)) : Prop :=
  exists F : list ((coord * Gate) * list (coord * Gate)),
    Permutation (map fst F) L' /\ Permutation (flat_map snd F) L /\ Forall (group_ok N L) F.

(** What the loops of a compressor pass maintain: the circuit under
    construction holds the hosts of the groups [F] of gates of [L]. *)
Definition fusion_inv (N : Z) (L : list (coord * Gate)) (c2 : Circuit)
    (F : list ((coord * Gate) * list (coord * Gate))) : Prop :=
  circuit_inv c2 /\ cN c2 = N /\ gates c2 = map fst F
  /\ Forall (group_ok N L) F /\ NoDup (flat_map snd F) /\ incl (flat_map snd F) L.

(** ** The occupancy plan, as a table of slots *)

(** The gate of [L] that sits on qubit [A] at moment [T]. *)
Definition at_slot (L : list (coord * Gate)) (T A : Z) : option (coord * Gate) :=
  find (fun e => (fst (fst e) =? T) && touches A e) L.

(** The value that the plan holds for a gate on one of its qubits. *)
Definition code (e : coord * Gate) (A : Z) : Z :=
  match snd (fst e) with
  | [_] => 1
  | [A1; _] => if A1 =? A then 2 else -2
  | _ => 0
  end.

Definition slot_val (L : list (coord * Gate)) (T A : Z) : Z :=
  match at_slot L T A with
  | Some e => code e A
  | None => 0
  end.

(** The plan [plan] tabulates [f] over [N] qubits and [nm] moments. *)
Definition plan_is (nm N : Z) (f : Z -> Z -> Z) (plan : plan_t) : Prop :=
  zlen plan = N
  /\ forall A, 0 <= A < N ->
       exists row, nth_error plan (Z.to_nat A) = Some row /\ zlen row = nm
                   /\ forall T, 0 <= T < nm -> nth (Z.to_nat T) row 0 = f T A.

(** ** Pass 2: the 1-body gates that a 2-body gate takes in *)

(** In pass 2 the 2-body gate [e] takes in the 1-body gate [x]: nothing
    sits between them on the qubit of [x], and on the right no 2-body gate
    follows [e] on that qubit. *)
Definition absorbed (L : list (coord * Gate)) (e x : coord * Gate) : Prop :=
  In x L /\ exists q, snd (fst x) = [q] /\ touches q e = true /\
    ((time_lt x e /\ forall t, fst (fst x) < t < fst (fst e) -> at_slot L t q = None)
     \/ (time_lt e x
         /\ (forall t, fst (fst e) < t < fst (fst x) -> at_slot L t q = None)
         /\ forall t y, fst (fst e) < t -> at_slot L t q = Some y -> zlen (snd (fst y)) = 1)).

(** The 1-body gate that a scan of pass 2 has found, as a gate of the circuit. *)
Definition found_gate (q : Z) (found : option (Z * Gate)) : list (coord * Gate) :=
  match found with
  | Some (T2, gate1) => [((T2, [q]), gate1)]
  | None => []
  end.

(** ** Moving gates in time *)

(** An entry of the dictionary of gates moved to the moment [f T]. *)
Definition retime (f : Z -> Z) (kg : coord * Gate) : coord * Gate :=
  ((f (fst (fst kg)), snd (fst kg)), snd kg).

(** The position of the first [T] in [Ts'], 0 when there is none. *)
Definition first_index (Ts' : list Z) (T : Z) : Z :=
  match index_of T Ts' with
  | Ok i => i
  | Raise _ => 0
  end.

(** The gates whose matrix still has the shape that the constructor checked. *)
Definition gates_valid (c : Circuit) : Prop :=
  Forall (fun kg => Gate_copy (snd kg) = Ok (snd kg)) (gates c).

(** ** The initial state of a simulation *)

(** The initial state that [simulate] starts from: the reference state for
    [None], the contents of the caller's array otherwise. *)
Definition initial_state (c : Circuit) (wfn : option ref) (h : store) (w0 : vec) : Prop :=
  match wfn with
  | None => w0 = zero_state (cN c)
  | Some r => nth_error h r = Some w0 /\ zlen w0 = 2 ^ cN c
  end.

(** ** The moments of [nonredundant] *)

(** [Tmap[T]] for [Tmap = {v: k for k, v in enumerate(l)}], 0 when [T] is no key. *)
Definition rank_in (l : list Z) (T : Z) : Z :=
  match Tmap_get l 0 T with
  | Ok i => i
  | Raise _ => 0
  end.
(** [Circuit(N=2)] with [H] on qubit 0 at moment 1 and [CNOT] on (0, 1) at
    moment 3: the moments 0 and 2 are empty. *)
Definition circuit_gaps : Circuit :=
  fst (add_gate (fst (add_gate (mkCircuit 2 [] [] []) 1 (KeyInt 0) Gate_H))
                3 (KeyTuple [0; 1]) Gate_CNOT).

(** ** [concatenate] *)

(** The body of the inner loop of [concatenate]. *)
Definition concatenate_gate (cp : bool) (Tstart : Z) (circuit : Circuit) (kg : coord * Gate)
    : result Circuit :=
  let '((T, key2), gate) := kg in
  do gate' <- (if cp then Gate_copy gate else Ok gate) ;;
  add_gate_to circuit (T + Tstart) key2 gate'.

(** The body of the outer loop of [concatenate]. *)
Definition concatenate_circuit (cp : bool) (st : Circuit * Z) (circuit2 : Circuit)
    : result (Circuit * Z) :=
  let '(circuit, Tstart) := st in
  do circuit' <- foldM (concatenate_gate cp Tstart) (gates circuit2) circuit ;;
  Ok (circuit', Tstart + nmoment circuit2).

(** [Circuit.concatenate(circuits, copy)]; [circuits[0]] of an empty list
    is an IndexError. *)
Definition concatenate (circuits : list Circuit) (cp : bool) : result Circuit :=
  match circuits with
  | [] => Raise IndexError
  | c0 :: _ =>
      if existsb (fun x => negb (cN x =? cN c0)) circuits
      then Raise (RuntimeError "Circuits must all have same N to be concatenated")
      else
        do circuit <- Circuit_init (cN c0) ;;
        do st <- foldM (concatenate_circuit cp) circuits (circuit, 0) ;;
        Ok (fst st)
  end.

(** The gates of the circuits [cs], one circuit after the other in time,
    the first one starting at moment [Tstart]. *)
Fixpoint concat_gates (cs : list Circuit) (Tstart : Z) : list (coord * Gate) :=
  match cs with
  | [] => []
  | c :: rest =>
      map (retime (fun T => T + Tstart)) (gates c) ++ concat_gates rest (Tstart + nmoment c)
  end.

(** Running the circuits [cs] one after the other. *)
Definition run_circuits (N : Z) (cs : list Circuit) (w : vec) : vec :=
  fold_left (fun w c => run_gates N (schedule c) w) cs w.
(** The schedules of the circuits [cs], one after the other. *)
Fixpoint concat_schedule (cs : list Circuit) (Tstart : Z) : list (coord * Gate) :=
  match cs with
  | [] => []
  | c :: rest =>
      map (retime (fun T => T + Tstart)) (schedule c)
      ++ concat_schedule rest (Tstart + nmoment c)
  end.

(** The gate actions of the circuits [cs], one circuit after the other. *)
Definition act_circuits (cs : list Circuit) (psi : list bool -> C) : list bool -> C :=
  fold_left (fun p c => act_all (schedule c) p) cs psi.

(** ** Inner products and unitary matrices *)

(** [np.vdot(u, v)]: the inner product [<u|v>] of two state vectors. *)
Definition inner (u v : vec) : C :=
  Csum (map (fun p => (Cconj (fst p) * snd p)%C) (combine u v)).

(** The columns of the [n] x [n] matrix [U] are orthonormal: [U^+ U = 1]. *)
Definition unitary (n : nat) (U : matrix) : Prop :=
  forall j k, (j < n)%nat -> (k < n)%nat ->
    Csum (map (fun i => (Cconj (mget U i j) * mget U i k)%C) (seq 0 n))
    = if (j =? k)%nat then C1 else C0.

(** The matrix of a placed gate is unitary. *)
Definition unitary_gate (kg : coord * Gate) : Prop :=
  unitary (Z.to_nat (2 ^ gN (snd kg))) (Gate_U (snd kg)).

(** Sums over two and over three ranges. *)
Definition Csum2 (L R : nat) (g : nat -> nat -> C) : C :=
  Csum (map (fun l => Csum (map (g l) (seq 0 R))) (seq 0 L)).

Definition Csum3 (L M R : nat) (g : nat -> nat -> nat -> C) : C :=
  Csum (map (fun l => Csum2 M R (g l)) (seq 0 L)).

(** ** The two-qubit density matrix and Pauli expectation values *)

(** [np.einsum('LiMjR,LkMlR->ijkl', wfn1v.conj(), wfn2v)] on the views of
    shape (L,2,M,2,R). *)
Definition einsum_LiMjR_LkMlR (L M R : nat) (w1 w2 : vec) : tensor4 :=
  map (fun i => map (fun j => map (fun k => map (fun l =>
    Csum (flat_map (fun a => flat_map (fun m => map (fun r =>
      (Cconj (nth ((((a * 2 + i) * M + m) * 2 + j) * R + r) w1 C0)
       * nth ((((a * 2 + k) * M + m) * 2 + l) * R + r) w2 C0)%C)
      (seq 0 R)) (seq 0 M)) (seq 0 L))) bits2) bits2) bits2) bits2.

(** [compute_2pdm(wfn1, wfn2, A, B)]: reads the two arrays, writes nothing.
    A negative smaller qubit index passes the checks and fails when the view
    is given its shape, whose first entry is then a float. *)
Definition compute_2pdm (w1 w2 : vec) (A B : Z) : result matrix :=
  let N := infer_N w1 in
  if A >=? N then Raise (RuntimeError "A >= N")
  else if B >=? N then Raise (RuntimeError "B >= N")
  else if A =? B then Raise (RuntimeError "A == B")
  else if negb (shape_pow2 w1 N) then Raise (RuntimeError "wfn1 should be (2**N,) shape")
  else if negb (shape_pow2 w2 N) then Raise (RuntimeError "wfn2 should be (2**N,) shape")
  else
    let '(A2, B2) := if A >? B then (B, A) else (A, B) in
    if A2 <? 0 then Raise TypeError
    else
      let D := einsum_LiMjR_LkMlR (Z.to_nat (2 ^ A2)) (Z.to_nat (2 ^ (B2 - A2 - 1)))
                 (Z.to_nat (2 ^ (N - B2 - 1))) w1 w2 in
      let D := if A >? B then einsum_ijkl_jilk D else D in
      Ok (reshape44 D).

(** [np.sum(K.conj() * D)] for two (4,4) arrays. *)
Definition sum_conj_times (K D : matrix) : C :=
  Csum (flat_map (fun a => map (fun b => (Cconj (mget K a b) * mget D a b)%C)
                              (seq 0 4)) (seq 0 4)).

(** [compute_pauli_2(wfn, A, B)]: the real (4,4) array of the expectation
    values, rows and columns in the order [I, X, Y, Z]. *)
Definition Pmats : list matrix := [Matrix.I; Matrix.X; Matrix.Y; Matrix.Z].

Definition compute_pauli_2 (w : vec) (A B : Z) : result (list (list R)) :=
  do D <- compute_2pdm w w A B ;;
  Ok (map (fun PA => map (fun PB => Cre (sum_conj_times (kron PA PB) D)) Pmats) Pmats).

(** [sum(U * D)] for two (4,4) arrays. *)
Definition sum_times (U D : matrix) : C :=
  Csum (flat_map (fun a => map (fun b => (mget U a b * mget D a b)%C) (seq 0 4)) (seq 0 4)).

(** The pair density of [compute_2pdm] in terms of the qubit values: for
    either order of the qubits, the entry at row [2 i + j] and column
    [2 k + l] belongs to the values [i, k] of qubit [A] and [j, l] of [B]. *)
Definition pdm2_of (N A B : Z) (w1 w2 : vec) (i j k l : nat) : C :=
  if A <? B
  then tget (einsum_LiMjR_LkMlR (2 ^ Z.to_nat A) (2 ^ (Z.to_nat B - Z.to_nat A - 1))
               (2 ^ (Z.to_nat N - Z.to_nat B - 1)) w1 w2) i j k l
  else tget (einsum_LiMjR_LkMlR (2 ^ Z.to_nat B) (2 ^ (Z.to_nat A - Z.to_nat B - 1))
               (2 ^ (Z.to_nat N - Z.to_nat A - 1)) w1 w2) j i l k.

(** ** [adjoin] and [deadjoin] *)

(** An entry of the dictionary of gates moved to the qubits [f A]. *)
Definition requbit (f : Z -> Z) (kg : coord * Gate) : coord * Gate :=
  ((fst (fst kg), map f (snd (fst kg))), snd kg).

(** The body of the inner loop of [adjoin]. *)
Definition adjoin_gate (cp : bool) (Astart : Z) (circuit : Circuit) (kg : coord * Gate)
    : result Circuit :=
  let '((T, key2), gate) := kg in
  do gate' <- (if cp then Gate_copy gate else Ok gate) ;;
  add_gate_to circuit T (map (fun x => x + Astart) key2) gate'.

(** The body of the outer loop of [adjoin]. *)
Definition adjoin_circuit (cp : bool) (st : Circuit * Z) (circuit2 : Circuit)
    : result (Circuit * Z) :=
  let '(circuit, Astart) := st in
  do circuit' <- foldM (adjoin_gate cp Astart) (gates circuit2) circuit ;;
  Ok (circuit', Astart + cN circuit2).

(** [sum(x.N for x in circuits)] *)
Definition total_N (circuits : list Circuit) : Z := fold_left Z.add (map cN circuits) 0.

(** [Circuit.adjoin(circuits, copy)] *)
Definition adjoin (circuits : list Circuit) (cp : bool) : result Circuit :=
  do circuit <- Circuit_init (total_N circuits) ;;
  do st <- foldM (adjoin_circuit cp) circuits (circuit, 0) ;;
  Ok (fst st).

(** The gates of the circuits [cs] side by side, the qubits of the first one
    starting at [Astart]. *)
Fixpoint adjoin_gates (cs : list Circuit) (Astart : Z) : list (coord * Gate) :=
  match cs with
  | [] => []
  | c :: rest =>
      map (requbit (fun x => x + Astart)) (gates c) ++ adjoin_gates rest (Astart + cN c)
  end.

(** No gate of the circuit sits on a negative qubit index. *)
Definition qubits_nonneg (c : Circuit) : Prop :=
  Forall (fun kg => Forall (fun A => 0 <= A) (snd (fst kg))) (gates c).

(** [all(x in Amap for x in key2)] for [Amap = {v: k for k, v in enumerate(keys)}]. *)
Definition in_keys (keys : list Z) (kg : coord * Gate) : bool :=
  forallb (fun x => existsb (Z.eqb x) keys) (snd (fst kg)).

(** [deadjoin(keys, copy)] *)
Definition deadjoin (self : Circuit) (keys : list Z) (cp : bool) : result Circuit :=
  if existsb (fun Aref => Aref >=? cN self) keys then Raise (RuntimeError "A >= self.A")
  else
    do circuit <- Circuit_init (zlen keys) ;;
    foldM (fun circuit kg =>
             let '((T, key2), gate) := kg in
             if forallb (fun x => existsb (Z.eqb x) keys) key2 then
               do key3 <- mapM (Tmap_get keys 0) key2 ;;
               do gate' <- (if cp then Gate_copy gate else Ok gate) ;;
               add_gate_to circuit T key3 gate'
             else Ok circuit)
          (gates self) circuit.

(** [Circuit(N=1)] with [X] on qubit 0 at moment 0. *)
Definition circuit_X0 : Circuit :=
  fst (add_gate (mkCircuit 1 [] [] []) 0 (KeyInt 0) Gate_X).

(** ** Pass 1 of the compressor: what the loops maintain *)

(** The groups [F] hold exactly the 1-body gates of [L] on the qubits below
    [A], and on qubit [A] before the moment [bound]. *)
Definition covered1 (L : list (coord * Gate))
    (F : list ((coord * Gate) * list (coord * Gate))) (A bound : Z) : Prop :=
  forall x, In x (flat_map snd F) <->
    In x L /\ exists q, snd (fst x) = [q] /\ (q < A \/ (q = A /\ fst (fst x) < bound)).

(** The chain [(Tstar, U)] under construction on qubit [A] stands for the
    gates [M]: all the gates of [L] on this qubit from the moment [Tstar]
    to the moment [t], excluded. *)
Definition chain_of (N : Z) (L : list (coord * Gate)) (A t Tstar : Z) (U : matrix)
    (M : list (coord * Gate)) : Prop :=
  has_shape U 2 2 = true
  /\ (exists g rest, M = ((Tstar, [A]), g) :: rest)
  /\ StronglySorted time_lt M
  /\ Forall (fun x => In x L /\ snd (fst x) = [A] /\ Tstar <= fst (fst x) < t) M
  /\ (forall x, In x L -> touches A x = true -> Tstar <= fst (fst x) < t -> In x M)
  /\ (forall psi, agree (Z.to_nat N) (act1 U (Z.to_nat A) psi) (act_all M psi)).

Definition chain_inv (N : Z) (L : list (coord * Gate)) (A t : Z)
    (F : list ((coord * Gate) * list (coord * Gate))) (ch : chain) : Prop :=
  match ch with
  | None => covered1 L F A t
  | Some (Tstar, U) => covered1 L F A Tstar /\ exists M, chain_of N L A t Tstar U M
  end.

(** The state of the loop over the moments [T < t] of the row of qubit [A]. *)
Definition pass1_inv (nm N : Z) (L : list (coord * Gate)) (A t : Z) (st : Circuit * chain)
    : Prop :=
  (exists F, fusion_inv N L (fst st) F /\ chain_inv N L A t F (snd st))
  /\ (snd st <> None -> t < nm).

(** * Part II: the theorems *)

(** ** Placement: [add_gate] *)

Lemma slot_eqb_eq (s1 s2 : slot) : slot_eqb s1 s2 = true <-> s1 = s2.
Proof.
  destruct s1 as [t1 a1], s2 as [t2 a2]. unfold slot_eqb. simpl.
  rewrite andb_true_iff, !Z.eqb_eq. split.
  - intros [-> ->]. reflexivity.
  - intros H. inversion H. auto.
Qed.

Lemma set_mem_In (s : slot) (S : list slot) : set_mem s S = true <-> In s S.
Proof.
  unfold set_mem. rewrite existsb_exists. split.
  - intros [x [Hx Heq]]. apply slot_eqb_eq in Heq. subst. exact Hx.
  - intros H. exists s. split; [exact H | apply slot_eqb_eq; reflexivity].
Qed.

Lemma check_open_raises (self : Circuit) (T : Z) (key2 : list Z) :
  raises (check_open self T key2) <->
  exists A, In A key2 /\ (In (T, A) (TAs self) \/ A >= cN self).
Proof.
  induction key2 as [|A rest IH]; simpl.
  - split.
    + intros [e He]. discriminate.
    + intros [A [[] _]].
  - destruct (set_mem (T, A) (TAs self)) eqn:Hmem.
    + split; [intros _ | intros _; eexists; reflexivity].
      exists A. split; [now left | left; now apply set_mem_In].
    + destruct (A >=? cN self) eqn:Hge.
      * split; [intros _ | intros _; eexists; reflexivity].
        exists A. split; [now left | right]. apply Z.geb_le in Hge. lia.
      * rewrite IH. split.
        -- intros [B [HB HB']]. exists B. split; [now right | exact HB'].
        -- intros [B [[-> | HB] HB']].
           ++ destruct HB' as [HB' | HB'].
              ** apply set_mem_In in HB'. congruence.
              ** assert ((B >=? cN self) = true) by (apply Z.geb_le; lia). congruence.
           ++ exists B. split; assumption.
Qed.

(** C3. A call [add_gate(T, key, gate)] fails exactly when [T < 0], or the
    length of the key differs from the arity of the gate, or a slot
    [(T, A)] of the key is already occupied, or a qubit index of the key is
    [>= N]; and a call that fails leaves the circuit (gates, occupied slots,
    moment list) as it was. *)
Theorem add_gate_fails_exactly (self : Circuit) (T : Z) (key : key_arg) (gate : Gate) :
  (raises (snd (add_gate self T key gate)) <->
     (T < 0
      \/ zlen (key_tuple key) <> gN gate
      \/ (exists A, In A (key_tuple key) /\ In (T, A) (TAs self))
      \/ (exists A, In A (key_tuple key) /\ A >= cN self)))
  /\ (raises (snd (add_gate self T key gate)) -> fst (add_gate self T key gate) = self).
Proof.
  unfold add_gate.
  destruct (T <? 0) eqn:HT; simpl.
  { split; [|reflexivity]. split; [intros _; left; apply Z.ltb_lt; exact HT|].
    intros _. eexists; reflexivity. }
  apply Z.ltb_ge in HT.
  destruct (zlen (key_tuple key) =? gN gate) eqn:Hlen; simpl.
  2:{ split; [|reflexivity]. split; [|intros _; eexists; reflexivity].
      intros _. right; left. apply Z.eqb_neq. exact Hlen. }
  apply Z.eqb_eq in Hlen.
  pose proof (check_open_raises self T (key_tuple key)) as Hchk.
  destruct (check_open self T (key_tuple key)) as [[]|e] eqn:Hc; simpl.
  - split.
    + split.
      * intros [e He]. discriminate.
      * intros [H | [H | [[A [HA HA']] | [A [HA HA']]]]]; try lia.
        -- destruct (proj2 Hchk) as [e He]; [exists A; auto | discriminate].
        -- destruct (proj2 Hchk) as [e He]; [exists A; auto | discriminate].
    + intros [e He]. discriminate.
  - split; [|reflexivity]. split; [|intros _; eexists; reflexivity].
    intros _. destruct (proj1 Hchk) as [A [HA [HA' | HA']]]; [eexists; reflexivity | |].
    + right; right; left. exists A; auto.
    + right; right; right. exists A; auto.
Qed.

(** ** Coordinates and dictionaries *)

Lemma tuple_compare_eq (k1 k2 : list Z) : tuple_compare k1 k2 = Eq <-> k1 = k2.
Proof.
  revert k2. induction k1 as [|a k1 IH]; intros [|b k2]; simpl; try (split; congruence).
  destruct (a ?= b) eqn:Hab.
  - apply Z.compare_eq in Hab. subst. rewrite IH. split; congruence.
  - split; [discriminate|]. intros H. inversion H. subst. rewrite Z.compare_refl in Hab. discriminate.
  - split; [discriminate|]. intros H. inversion H. subst. rewrite Z.compare_refl in Hab. discriminate.
Qed.

Lemma coord_compare_eq (c1 c2 : coord) : coord_compare c1 c2 = Eq <-> c1 = c2.
Proof.
  destruct c1 as [t1 k1], c2 as [t2 k2]. unfold coord_compare. simpl.
  destruct (t1 ?= t2) eqn:Ht.
  - apply Z.compare_eq in Ht. subst. rewrite tuple_compare_eq. split; congruence.
  - split; [discriminate|]. intros H. inversion H. subst. rewrite Z.compare_refl in Ht. discriminate.
  - split; [discriminate|]. intros H. inversion H. subst. rewrite Z.compare_refl in Ht. discriminate.
Qed.

Lemma coord_eqb_eq (c1 c2 : coord) : coord_eqb c1 c2 = true <-> c1 = c2.
Proof.
  unfold coord_eqb. rewrite <- coord_compare_eq.
  destruct (coord_compare c1 c2); split; congruence.
Qed.

Lemma coord_eqb_refl (c : coord) : coord_eqb c c = true.
Proof. apply coord_eqb_eq. reflexivity. Qed.

Lemma coord_eqb_neq (c1 c2 : coord) : coord_eqb c1 c2 = false <-> c1 <> c2.
Proof.
  rewrite <- coord_eqb_eq. destruct (coord_eqb c1 c2); split; congruence.
Qed.

Section DictFacts.
Context {V : Type}.
Implicit Types (d : list (coord * V)) (k : coord) (v : V).

Lemma dict_get_None d k : dict_get d k = None <-> ~ In k (map fst d).
Proof.
  induction d as [|[k' v'] d IH]; simpl.
  - split; auto.
  - destruct (coord_eqb k k') eqn:E.
    + apply coord_eqb_eq in E. subst. split; [discriminate | intros H; exfalso; apply H; now left].
    + apply coord_eqb_neq in E. rewrite IH. split.
      * intros H [H' | H']; [congruence | contradiction].
      * intros H H'. apply H. now right.
Qed.

Lemma dict_get_In d k v : dict_get d k = Some v -> In (k, v) d.
Proof.
  induction d as [|[k' v'] d IH]; simpl; [discriminate|].
  destruct (coord_eqb k k') eqn:E.
  - apply coord_eqb_eq in E. subst. intros H. inversion H. now left.
  - intros H. right. auto.
Qed.

Lemma dict_get_NoDup d k v : NoDup (map fst d) -> In (k, v) d -> dict_get d k = Some v.
Proof.
  induction d as [|[k' v'] d IH]; simpl; [contradiction|].
  intros Hnd [H | H].
  - inversion H. subst. rewrite coord_eqb_refl. reflexivity.
  - inversion Hnd as [|? ? Hnot Hnd']. subst.
    destruct (coord_eqb k k') eqn:E.
    + apply coord_eqb_eq in E. subst. exfalso. apply Hnot.
      change k' with (fst (k', v)). now apply in_map.
    + auto.
Qed.

Lemma dict_set_fresh d k v : ~ In k (map fst d) -> dict_set d k v = d ++ [(k, v)].
Proof.
  induction d as [|[k' v'] d IH]; simpl; [reflexivity|].
  intros H. destruct (coord_eqb k k') eqn:E.
  - apply coord_eqb_eq in E. subst. exfalso. apply H. now left.
  - rewrite IH; [reflexivity|]. intros H'. apply H. now right.
Qed.

Lemma dict_set_keys_present d k v : In k (map fst d) -> map fst (dict_set d k v) = map fst d.
Proof.
  induction d as [|[k' v'] d IH]; simpl; [contradiction|].
  intros H. destruct (coord_eqb k k') eqn:E.
  - apply coord_eqb_eq in E. subst. reflexivity.
  - apply coord_eqb_neq in E. simpl. rewrite IH; [reflexivity|].
    destruct H as [H | H]; [congruence | exact H].
Qed.

Lemma dict_set_In d k v kv :
  NoDup (map fst d) ->
  (In kv (dict_set d k v) <-> kv = (k, v) \/ (In kv d /\ fst kv <> k)).
Proof.
  induction d as [|[k' v'] d IH]; simpl; intros Hnd.
  - split; [intros [H | []]; auto | intros [H | [[] _]]; auto].
  - inversion Hnd as [|? ? Hnot Hnd']. subst.
    destruct (coord_eqb k k') eqn:E.
    + apply coord_eqb_eq in E. subst. simpl. split.
      * intros [H | H]; [auto|]. right. split; [now right|].
        intros Heq. apply Hnot. rewrite <- Heq. now apply in_map.
      * intros [H | [[H | H] H']]; [auto | subst; simpl in H'; congruence | now right].
    + apply coord_eqb_neq in E. simpl. rewrite (IH Hnd'). split.
      * intros [H | [H | [H H']]]; [|auto|auto].
        subst. right. split; [now left | simpl; congruence].
      * intros [H | [[H | H] H']]; auto.
Qed.
End DictFacts.

(** ** Stable insertion sort *)

Section SortFacts.
Context {A : Type} (leb : A -> A -> bool).
Hypothesis leb_total : forall x y, leb x y = true \/ leb y x = true.
Hypothesis leb_trans : forall x y z, leb x y = true -> leb y z = true -> leb x z = true.

Local Abbreviation le := (fun x y => leb x y = true).

Lemma insert_by_perm (x : A) (l : list A) : Permutation (insert_by leb x l) (x :: l).
Proof.
  induction l as [|y l IH]; simpl; [reflexivity|].
  destruct (leb x y); [reflexivity|].
  rewrite IH. apply perm_swap.
Qed.

Lemma sort_by_perm (l : list A) : Permutation (sort_by leb l) l.
Proof.
  induction l as [|x l IH]; simpl; [reflexivity|].
  unfold sort_by in *. simpl. rewrite insert_by_perm. now constructor.
Qed.

Lemma insert_by_sorted (x : A) (l : list A) :
  StronglySorted le l -> StronglySorted le (insert_by leb x l).
Proof.
  induction 1 as [|y l Hs IH Hall]; simpl.
  - constructor; constructor.
  - destruct (leb x y) eqn:E.
    + constructor; [constructor; assumption|].
      constructor; [exact E|].
      eapply Forall_impl; [|exact Hall]. simpl. intros z Hz. eapply leb_trans; eauto.
    + constructor; [exact IH|].
      assert (Hyx : leb y x = true) by (destruct (leb_total x y); congruence).
      eapply Permutation_Forall; [symmetry; apply insert_by_perm|].
      constructor; assumption.
Qed.

Lemma sort_by_sorted (l : list A) : StronglySorted le (sort_by leb l).
Proof.
  induction l as [|x l IH]; unfold sort_by in *; simpl; [constructor|].
  now apply insert_by_sorted.
Qed.

Lemma sort_by_app (u v : list A) :
  sort_by leb (u ++ v) = fold_right (insert_by leb) (sort_by leb v) u.
Proof. unfold sort_by. apply fold_right_app. Qed.

(** An element not above the whole list goes to the front. *)
Lemma insert_by_front (x : A) (l : list A) :
  Forall (le x) l -> insert_by leb x l = x :: l.
Proof.
  destruct l as [|y l]; simpl; [reflexivity|].
  intros H. inversion H. subst. now rewrite H2.
Qed.

(** An element strictly above a prefix passes it. *)
Lemma insert_by_skip (x : A) (p l : list A) :
  Forall (fun y => leb x y = false) p -> insert_by leb x (p ++ l) = p ++ insert_by leb x l.
Proof.
  induction 1 as [|y p Hy Hp IH]; simpl; [reflexivity|].
  now rewrite Hy, IH.
Qed.
End SortFacts.

Lemma sorted_perm (l : list Z) : Permutation (sorted l) l.
Proof. apply sort_by_perm. Qed.

Lemma sorted_sorted (l : list Z) : StronglySorted Z.le (sorted l).
Proof.
  pose proof (sort_by_sorted Z.leb) as H.
  eapply StronglySorted_ind with (P := fun l => StronglySorted Z.le l);
    [constructor | | apply (H ltac:(intros; lia) ltac:(intros; lia))].
  - intros a l' _ IH Hall. constructor; [exact IH|].
    eapply Forall_impl; [|exact Hall]. simpl. intros b Hb. now apply Z.leb_le.
Qed.

(** ** Invariants of circuits built by [add_gate] *)

Lemma check_open_ok (self : Circuit) (T : Z) (key2 : list Z) :
  check_open self T key2 = Ok tt <->
  forall A, In A key2 -> ~ In (T, A) (TAs self) /\ A < cN self.
Proof.
  pose proof (check_open_raises self T key2) as H.
  destruct (check_open self T key2) as [[]|e] eqn:E.
  - split; [|reflexivity]. intros _ A HA. split.
    + intros Hin. destruct (proj2 H) as [e He]; [exists A; auto | discriminate].
    + destruct (Z_lt_ge_dec A (cN self)) as [Hlt|Hge]; [exact Hlt|].
      destruct (proj2 H) as [e He]; [exists A; auto | discriminate].
  - split; [discriminate|]. intros Hall.
    destruct (proj1 H) as [A [HA HA']]; [eexists; reflexivity|].
    destruct (Hall A HA) as [H1 H2]. destruct HA'; [contradiction | lia].
Qed.

Lemma fold_set_add_In (T : Z) (key2 : list Z) (S : list slot) (s : slot) :
  In s (fold_left (fun S A => set_add (T, A) S) key2 S) <->
  In s S \/ In s (key_slots (T, key2)).
Proof.
  revert S. induction key2 as [|A rest IH]; intros S; simpl.
  - tauto.
  - rewrite IH. unfold set_add, key_slots. simpl.
    destruct (set_mem (T, A) S) eqn:E.
    + apply set_mem_In in E. split; [tauto|].
      intros [H | [H | H]]; auto. subst. auto.
    + rewrite in_app_iff. simpl. tauto.
Qed.

Lemma existsb_eqb_In (T : Z) (l : list Z) : existsb (Z.eqb T) l = true <-> In T l.
Proof.
  rewrite existsb_exists. split.
  - intros [x [Hx Heq]]. apply Z.eqb_eq in Heq. now subst.
  - intros H. exists T. split; [exact H | apply Z.eqb_refl].
Qed.

Lemma sorted_lt_of_le_NoDup (l : list Z) :
  StronglySorted Z.le l -> NoDup l -> StronglySorted Z.lt l.
Proof.
  induction 1 as [|a l Hs IH Hall]; intros Hnd; constructor.
  - apply IH. now inversion Hnd.
  - inversion Hnd as [|? ? Hnot _]. subst.
    rewrite Forall_forall in *. intros b Hb.
    specialize (Hall b Hb). assert (a <> b) by congruence. lia.
Qed.

Lemma sorted_lt_NoDup (l : list Z) : StronglySorted Z.lt l -> NoDup l.
Proof.
  induction 1 as [|a l Hs IH Hall]; constructor; [|exact IH].
  intros Hin. rewrite Forall_forall in Hall. specialize (Hall a Hin). lia.
Qed.

Lemma Ts_update_sorted (T : Z) (l : list Z) :
  StronglySorted Z.lt l ->
  StronglySorted Z.lt (if existsb (Z.eqb T) l then l else sorted (l ++ [T])).
Proof.
  intros Hs. destruct (existsb (Z.eqb T) l) eqn:E; [exact Hs|].
  apply sorted_lt_of_le_NoDup; [apply sorted_sorted|].
  eapply Permutation_NoDup; [symmetry; apply sorted_perm|].
  apply NoDup_app; [now apply sorted_lt_NoDup | repeat constructor; auto |].
  intros x Hx [Hx' | []]. subst.
  apply existsb_eqb_In in Hx. congruence.
Qed.

Lemma Ts_update_In (T : Z) (l : list Z) (x : Z) :
  In x (if existsb (Z.eqb T) l then l else sorted (l ++ [T])) <-> In x l \/ x = T.
Proof.
  destruct (existsb (Z.eqb T) l) eqn:E.
  - apply existsb_eqb_In in E. split; [auto|]. intros [H | ->]; auto.
  - split.
    + intros H. apply (Permutation_in _ (sorted_perm _)) in H.
      apply in_app_iff in H. simpl in H. intuition.
    + intros H. apply (Permutation_in _ (Permutation_sym (sorted_perm _))).
      apply in_app_iff. simpl. intuition.
Qed.

Lemma add_gate_success (c : Circuit) (T : Z) (key : key_arg) (gate : Gate) (c' : Circuit) :
  add_gate c T key gate = (c', Ok tt) <->
  (0 <= T /\ zlen (key_tuple key) = gN gate
   /\ (forall A, In A (key_tuple key) -> ~ In (T, A) (TAs c) /\ A < cN c)
   /\ c' = mkCircuit (cN c)
             (dict_set (gates c) (T, key_tuple key) gate)
             (if existsb (Z.eqb T) (Ts c) then Ts c else sorted (Ts c ++ [T]))
             (fold_left (fun s A => set_add (T, A) s) (key_tuple key) (TAs c))).
Proof.
  unfold add_gate. rewrite <- check_open_ok.
  destruct (T <? 0) eqn:HT.
  { apply Z.ltb_lt in HT. split; [discriminate | lia]. }
  apply Z.ltb_ge in HT.
  destruct (zlen (key_tuple key) =? gN gate) eqn:Hlen; simpl.
  2:{ apply Z.eqb_neq in Hlen. split; [discriminate | tauto]. }
  apply Z.eqb_eq in Hlen.
  destruct (check_open c T (key_tuple key)) as [[]|e].
  - split.
    + intros H. inversion H. auto.
    + intros (_ & _ & _ & ->). reflexivity.
  - split; [discriminate|]. intros (_ & _ & H & _). discriminate.
Qed.

Lemma key_slots_In (k : coord) (s : slot) :
  In s (key_slots k) <-> fst s = fst k /\ In (snd s) (snd k).
Proof.
  unfold key_slots. rewrite in_map_iff. destruct s as [t a]. simpl. split.
  - intros [A [H HA]]. inversion H. subst. auto.
  - intros [-> H]. exists a. auto.
Qed.

Lemma ForallOrdPairs_app_one {A} (R : A -> A -> Prop) (l : list A) (x : A) :
  ForallOrdPairs R l -> Forall (fun y => R y x) l -> ForallOrdPairs R (l ++ [x]).
Proof.
  induction 1 as [|a l Ha Hl IH]; simpl; intros Hx.
  - repeat constructor.
  - inversion Hx. subst. constructor; [|auto].
    apply Forall_app. split; [exact Ha | repeat constructor; assumption].
Qed.

Lemma add_gate_inv (c : Circuit) (T : Z) (key : key_arg) (gate : Gate) (c' : Circuit) :
  circuit_inv c -> add_gate c T key gate = (c', Ok tt) -> circuit_inv c'.
Proof.
  intros [HN [Hnd [Hok Hdis]] HTAs Hsort HTs] Hadd.
  apply add_gate_success in Hadd. destruct Hadd as (HT & Hlen & Hopen & ->).
  set (k := (T, key_tuple key)).
  assert (Hin : forall kv, In kv (dict_set (gates c) k gate) <->
                           kv = (k, gate) \/ (In kv (gates c) /\ fst kv <> k))
    by (intros; now apply dict_set_In).
  constructor; simpl; [exact HN | | | |].
  - split; [|split].
    + destruct (in_dec (fun a b => match coord_eqb a b as r return coord_eqb a b = r -> _ with
                                   | true => fun E => left (proj1 (coord_eqb_eq a b) E)
                                   | false => fun E => right (proj1 (coord_eqb_neq a b) E)
                                   end eq_refl) k (map fst (gates c))) as [Hk | Hk].
      * now rewrite dict_set_keys_present.
      * rewrite dict_set_fresh by exact Hk. rewrite map_app. simpl.
        apply NoDup_app; [exact Hnd | repeat constructor; auto |].
        intros x Hx [<- | []]. contradiction.
    + rewrite Forall_forall in *. intros kv Hkv. apply Hin in Hkv.
      destruct Hkv as [-> | [Hkv _]]; [|auto].
      unfold entry_ok. simpl. repeat split; [exact HT | exact Hlen |].
      rewrite Forall_forall. intros A HA. now apply Hopen.
    + destruct (in_dec (fun a b => match coord_eqb a b as r return coord_eqb a b = r -> _ with
                                   | true => fun E => left (proj1 (coord_eqb_eq a b) E)
                                   | false => fun E => right (proj1 (coord_eqb_neq a b) E)
                                   end eq_refl) k (map fst (gates c))) as [Hk | Hk].
      * now rewrite dict_set_keys_present.
      * rewrite dict_set_fresh by exact Hk. rewrite map_app. simpl.
        apply ForallOrdPairs_app_one; [exact Hdis|].
        rewrite Forall_forall. intros k1 Hk1 s Hs1 Hs2.
        apply in_map_iff in Hk1. destruct Hk1 as [kg [<- Hkg]].
        apply key_slots_In in Hs2. simpl in Hs2. destruct Hs2 as [Hs2 Hs2'].
        destruct (Hopen _ Hs2') as [Hfree _]. apply Hfree.
        apply HTAs. exists kg. split; [exact Hkg|].
        destruct s as [t a]. simpl in *. now subst.
  - intros s. rewrite fold_set_add_In, HTAs. fold k. split.
    + intros [[kg [Hkg Hs]] | Hs].
      * destruct (coord_eqb (fst kg) k) eqn:E.
        -- apply coord_eqb_eq in E. exists (k, gate). split; [apply Hin; auto|].
           simpl. now rewrite <- E.
        -- apply coord_eqb_neq in E. exists kg. split; [apply Hin; auto | exact Hs].
      * exists (k, gate). split; [apply Hin; auto | exact Hs].
    + intros [kg [Hkg Hs]]. apply Hin in Hkg. destruct Hkg as [-> | [Hkg _]]; [now right|].
      left. exists kg. auto.
  - now apply Ts_update_sorted.
  - intros x. rewrite Ts_update_In, HTs. split.
    + intros [[kg [Hkg Hx]] | ->].
      * destruct (coord_eqb (fst kg) k) eqn:E.
        -- apply coord_eqb_eq in E. exists (k, gate). split; [apply Hin; auto|].
           simpl. rewrite <- Hx, E. reflexivity.
        -- apply coord_eqb_neq in E. exists kg. split; [apply Hin; auto | exact Hx].
      * exists (k, gate). split; [apply Hin; auto | reflexivity].
    + intros [kg [Hkg Hx]]. apply Hin in Hkg. destruct Hkg as [-> | [Hkg _]]; [now right|].
      left. exists kg. auto.
Qed.

Lemma Circuit_init_inv (N : Z) (c : Circuit) : Circuit_init N = Ok c -> circuit_inv c.
Proof.
  unfold Circuit_init. destruct (N <=? 0) eqn:E; [discriminate|].
  intros H. inversion H. subst. apply Z.leb_gt in E.
  constructor; simpl.
  - exact E.
  - repeat split; constructor.
  - intros s. split; [contradiction | intros [kg [[] _]]].
  - constructor.
  - intros T. split; [contradiction | intros [kg [[] _]]].
Qed.

Lemma reachable_inv (c : Circuit) : reachable c -> circuit_inv c.
Proof.
  induction 1 as [N c H | c T key gate c' _ IH Hadd].
  - eapply Circuit_init_inv; eauto.
  - eapply add_gate_inv; eauto.
Qed.

Lemma ForallOrdPairs_app {A} (R : A -> A -> Prop) (l1 l2 : list A) :
  ForallOrdPairs R (l1 ++ l2) <->
  ForallOrdPairs R l1 /\ ForallOrdPairs R l2 /\ (forall a b, In a l1 -> In b l2 -> R a b).
Proof.
  induction l1 as [|x l1 IH]; simpl.
  - split; [intros H; repeat split; [constructor | exact H | contradiction] | tauto].
  - split.
    + intros H. inversion H as [|? ? Hx Hrest]. subst.
      apply IH in Hrest. destruct Hrest as (H1 & H2 & H3).
      apply Forall_app in Hx. destruct Hx as [Hx1 Hx2].
      repeat split; [constructor; assumption | assumption |].
      intros a b [<- | Ha] Hb; [|auto].
      rewrite Forall_forall in Hx2. auto.
    + intros (H1 & H2 & H3). inversion H1 as [|? ? Hx Hrest]. subst.
      constructor.
      * apply Forall_app. split; [exact Hx|]. rewrite Forall_forall. auto.
      * apply IH. repeat split; auto.
Qed.

Lemma placeable_app_l (N : Z) (l1 l2 : list (coord * Gate)) :
  placeable N (l1 ++ l2) -> placeable N l1.
Proof.
  intros (Hnd & Hok & Hdis). rewrite map_app in *.
  repeat split.
  - now apply NoDup_app_remove_r in Hnd.
  - now apply Forall_app in Hok.
  - now apply ForallOrdPairs_app in Hdis.
Qed.

Lemma add_entry_ok (c : Circuit) (kg : coord * Gate) :
  circuit_inv c -> placeable (cN c) (gates c ++ [kg]) ->
  exists c', add_entry c kg = Ok c' /\ gates c' = gates c ++ [kg] /\ cN c' = cN c
             /\ Ts c' = (if existsb (Z.eqb (fst (fst kg))) (Ts c) then Ts c
                         else sorted (Ts c ++ [fst (fst kg)]))
             /\ (reachable c -> reachable c').
Proof.
  intros Hinv (Hnd & Hok & Hdis).
  destruct kg as [[T key2] gate].
  rewrite map_app in Hnd, Hdis. simpl in Hnd, Hdis.
  apply Forall_app in Hok. destruct Hok as [_ Hok]. inversion Hok as [|? ? Hkg _]. subst.
  destruct Hkg as (HT & Hlen & HA). simpl in HT, Hlen, HA.
  apply ForallOrdPairs_app in Hdis. destruct Hdis as (_ & _ & Hdis).
  assert (Hfresh : ~ In (T, key2) (map fst (gates c))).
  { apply NoDup_remove_2 in Hnd. rewrite app_nil_r in Hnd. exact Hnd. }
  set (c' := mkCircuit (cN c) (dict_set (gates c) (T, key2) gate)
               (if existsb (Z.eqb T) (Ts c) then Ts c else sorted (Ts c ++ [T]))
               (fold_left (fun s A => set_add (T, A) s) key2 (TAs c))).
  assert (Hadd : add_gate c T (KeyTuple key2) gate = (c', Ok tt)).
  { apply add_gate_success. simpl. repeat split; try assumption.
    - intros Hocc. apply (inv_TAs c Hinv) in Hocc. destruct Hocc as [kg0 [Hkg0 Hs]].
      apply (Hdis (fst kg0) (T, key2)) in Hs; [|now apply in_map | now left].
      apply Hs. apply key_slots_In. auto.
    - rewrite Forall_forall in HA. auto. }
  exists c'. unfold add_entry, add_gate_to. simpl. rewrite Hadd.
  repeat split.
  - simpl. now apply dict_set_fresh.
  - intros Hr. eapply reach_add; eauto.
Qed.

Lemma place_all (l : list (coord * Gate)) (c : Circuit) :
  circuit_inv c -> placeable (cN c) (gates c ++ l) ->
  exists c', foldM add_entry l c = Ok c' /\ gates c' = gates c ++ l /\ cN c' = cN c
             /\ circuit_inv c' /\ (reachable c -> reachable c').
Proof.
  revert c. induction l as [|kg l IH]; intros c Hinv Hpl; simpl.
  - exists c. rewrite app_nil_r. auto.
  - assert (Hpl1 : placeable (cN c) (gates c ++ [kg])).
    { apply placeable_app_l with (l2 := l). now rewrite <- app_assoc. }
    destruct (add_entry_ok c kg Hinv Hpl1) as (c1 & Hadd & Hg & HN & _ & Hr).
    rewrite Hadd. simpl.
    assert (Hinv1 : circuit_inv c1).
    { unfold add_entry, add_gate_to in Hadd.
      destruct (add_gate c (fst (fst kg)) (KeyTuple (snd (fst kg))) (snd kg)) as [c2 [[]|e]] eqn:E;
        [|discriminate].
      inversion Hadd. subst. eapply add_gate_inv; eauto. }
    destruct (IH c1 Hinv1) as (c' & Hf & Hg' & HN' & Hinv' & Hr').
    { rewrite HN, Hg, <- app_assoc. exact Hpl. }
    exists c'. split; [exact Hf|]. split; [rewrite Hg', Hg, <- app_assoc; reflexivity|].
    split; [congruence|]. split; [exact Hinv' | auto].
Qed.

Lemma foldM_ext {A St} (f g : St -> A -> result St) (l : list A) (s : St) :
  (forall s x, In x l -> f s x = g s x) -> foldM f l s = foldM g l s.
Proof.
  revert s. induction l as [|x l IH]; intros s H; simpl; [reflexivity|].
  rewrite H by now left. destruct (g s x); simpl; [|reflexivity].
  apply IH. intros. apply H. now right.
Qed.

Lemma foldM_map {A B St} (h : A -> B) (f : St -> B -> result St) (l : list A) (s : St) :
  foldM (fun s x => f s (h x)) l s = foldM f (map h l) s.
Proof.
  revert s. induction l as [|x l IH]; intros s; simpl; [reflexivity|].
  destruct (f s (h x)); simpl; [apply IH | reflexivity].
Qed.

(** ** Moments *)

Lemma last_sorted_max (l : list Z) (t : Z) :
  StronglySorted Z.lt (t :: l) ->
  In (last l t) (t :: l) /\ forall x, In x (t :: l) -> x <= last l t.
Proof.
  revert t. induction l as [|a l IH]; intros t Hs.
  - simpl. split; [auto|]. intros x [<- | []]. lia.
  - inversion Hs as [|? ? Hs' Hall]. subst.
    destruct (IH a Hs') as [Hin Hmax].
    change (last (a :: l) t) with (match l with [] => a | _ => last l t end).
    assert (Heq : match l with [] => a | _ => last l t end = last l a)
      by (destruct l; [reflexivity | simpl; clear; generalize z; induction l; intros; simpl; [reflexivity | destruct l; auto]]).
    rewrite Heq. split; [now right|].
    intros x [<- | Hx]; [|auto].
    rewrite Forall_forall in Hall. specialize (Hall a (or_introl eq_refl)).
    specialize (Hmax a (or_introl eq_refl)). lia.
Qed.

Lemma nmoment_bound (c : Circuit) (kg : coord * Gate) :
  circuit_inv c -> In kg (gates c) -> 0 <= fst (fst kg) < nmoment c.
Proof.
  intros Hinv Hkg. split.
  - destruct (inv_gates c Hinv) as (_ & Hok & _).
    rewrite Forall_forall in Hok. now apply Hok.
  - assert (HT : In (fst (fst kg)) (Ts c)) by (apply (inv_Ts c Hinv); eauto).
    unfold nmoment. pose proof (inv_Ts_sorted c Hinv) as Hs.
    destruct (Ts c) as [|t l]; [contradiction|].
    destruct (last_sorted_max l t Hs) as [_ Hmax]. specialize (Hmax _ HT). lia.
Qed.

Lemma nmoment_attained (c : Circuit) :
  circuit_inv c -> gates c <> [] ->
  exists kg, In kg (gates c) /\ fst (fst kg) = nmoment c - 1.
Proof.
  intros Hinv Hne. unfold nmoment.
  pose proof (inv_Ts_sorted c Hinv) as Hs.
  destruct (Ts c) as [|t l] eqn:E.
  - destruct (gates c) as [|kg gs] eqn:Eg; [contradiction|].
    assert (In (fst (fst kg)) (Ts c)) by (apply (inv_Ts c Hinv); exists kg; rewrite Eg; simpl; auto).
    rewrite E in H. contradiction.
  - destruct (last_sorted_max l t Hs) as [Hin _].
    rewrite <- E in Hin. apply (inv_Ts c Hinv) in Hin.
    destruct Hin as [kg [Hkg HT]]. exists kg. split; [exact Hkg | lia].
Qed.

Lemma nmoment_nonneg (c : Circuit) : circuit_inv c -> 0 <= nmoment c.
Proof.
  intros Hinv. destruct (gates c) as [|kg l] eqn:E.
  - unfold nmoment. destruct (Ts c) as [|t l] eqn:Et; [lia|].
    assert (H : In t (Ts c)) by (rewrite Et; now left).
    apply (inv_Ts c Hinv) in H. destruct H as [kg [Hkg _]]. rewrite E in Hkg. contradiction.
  - assert (H : In kg (gates c)) by (rewrite E; now left).
    pose proof (nmoment_bound c kg Hinv H). lia.
Qed.

(** ** [reversed] *)

Lemma NoDup_map_inj {A B} (f : A -> B) (l : list A) :
  (forall x y, In x l -> In y l -> f x = f y -> x = y) -> NoDup l -> NoDup (map f l).
Proof.
  intros Hinj. induction 1 as [|a l Hnot Hnd IH]; simpl; constructor.
  - intros Hin. apply in_map_iff in Hin. destruct Hin as [b [Hb Hin]].
    apply Hinj in Hb; [subst; contradiction | now right | now left].
  - apply IH. intros x y Hx Hy. apply Hinj; now right.
Qed.

Lemma ForallOrdPairs_map {A B} (f : A -> B) (R : B -> B -> Prop) (l : list A) :
  ForallOrdPairs (fun x y => R (f x) (f y)) l -> ForallOrdPairs R (map f l).
Proof.
  induction 1 as [|a l Ha Hl IH]; simpl; constructor; [|exact IH].
  rewrite Forall_forall in *. intros b Hb. apply in_map_iff in Hb.
  destruct Hb as [x [<- Hx]]. auto.
Qed.

Lemma flip_time_placeable (n N : Z) (l : list (coord * Gate)) :
  placeable N l -> (forall kg, In kg l -> fst (fst kg) < n) ->
  placeable N (map (flip_time n) l).
Proof.
  intros (Hnd & Hok & Hdis) Hlt. repeat split.
  - rewrite map_map.
    replace (map (fun x => fst (flip_time n x)) l)
      with (map (fun k : coord => (n - fst k - 1, snd k)) (map fst l))
      by (rewrite map_map; reflexivity).
    apply NoDup_map_inj; [|exact Hnd].
    intros [t1 k1] [t2 k2] _ _ H. simpl in H. inversion H. f_equal. lia.
  - rewrite Forall_forall in *. intros kg Hkg. apply in_map_iff in Hkg.
    destruct Hkg as [kg0 [<- Hkg0]]. destruct (Hok kg0 Hkg0) as (H1 & H2 & H3).
    specialize (Hlt kg0 Hkg0). unfold entry_ok, flip_time. simpl.
    repeat split; [lia | exact H2 | exact H3].
  - rewrite map_map.
    replace (map (fun x => fst (flip_time n x)) l)
      with (map (fun k : coord => (n - fst k - 1, snd k)) (map fst l))
      by (rewrite map_map; reflexivity).
    apply ForallOrdPairs_map.
    eapply ForallOrdPairs_ind with (P := fun l => ForallOrdPairs _ l); [constructor | | exact Hdis].
    intros a l' Ha _ IH. constructor; [|exact IH].
    eapply Forall_impl; [|exact Ha]. simpl. intros b Hab s Hs1 Hs2.
    apply key_slots_In in Hs1, Hs2. simpl in Hs1, Hs2.
    destruct Hs1 as [Hs1 Hs1'], Hs2 as [Hs2 Hs2'].
    apply (Hab (fst a, snd s)); apply key_slots_In; simpl; split; auto. lia.
Qed.

Lemma reversed_spec (c : Circuit) :
  circuit_inv c ->
  exists c1, reversed c = Ok c1 /\ gates c1 = map (flip_time (nmoment c)) (gates c)
             /\ cN c1 = cN c /\ circuit_inv c1 /\ reachable c1.
Proof.
  intros Hinv. unfold reversed, Circuit_init.
  pose proof (inv_N c Hinv) as HN.
  destruct (cN c <=? 0) eqn:E; [apply Z.leb_le in E; lia|]. simpl.
  set (c0 := mkCircuit (cN c) [] [] []).
  assert (Hinit : Circuit_init (cN c) = Ok c0) by (unfold Circuit_init; now rewrite E).
  rewrite foldM_ext with (g := fun s x => add_entry s (flip_time (nmoment c) x))
    by (intros s [[T key2] gate] _; reflexivity).
  rewrite foldM_map.
  destruct (place_all (map (flip_time (nmoment c)) (gates c)) c0) as (c1 & Hf & Hg & HN1 & Hinv1 & Hr).
  - eapply Circuit_init_inv; eauto.
  - simpl. apply flip_time_placeable; [apply (inv_gates c Hinv)|].
    intros kg Hkg. now apply nmoment_bound.
  - exists c1. simpl in Hg. split; [exact Hf|]. split; [exact Hg|]. split; [exact HN1|].
    split; [exact Hinv1|]. apply Hr. eapply reach_init; eauto.
Qed.

(** C5. For a circuit with a gate at moment 0, [reversed] relabels the moment
    [T] of every gate to [nmoment - 1 - T] and keeps the qubit tuple and the
    gate object (no matrix is inverted or transposed), and [reversed] applied
    twice gives back every gate at its original [(T, key)]. *)
Theorem reversed_twice (c : Circuit) :
  reachable c ->
  (exists key gate, In ((0, key), gate) (gates c)) ->
  exists c1 c2,
    reversed c = Ok c1 /\ reversed c1 = Ok c2
    /\ gates c1 = map (fun kg => ((nmoment c - fst (fst kg) - 1, snd (fst kg)), snd kg)) (gates c)
    /\ gates c2 = gates c.
Proof.
  intros Hr [key [gate Hin]]. pose proof (reachable_inv c Hr) as Hinv.
  destruct (reversed_spec c Hinv) as (c1 & H1 & Hg1 & _ & Hinv1 & _).
  destruct (reversed_spec c1 Hinv1) as (c2 & H2 & Hg2 & _ & _ & _).
  exists c1, c2. repeat split; [exact H1 | exact H2 | exact Hg1 |].
  assert (Hn : nmoment c1 = nmoment c).
  { assert (Hin1 : In (flip_time (nmoment c) ((0, key), gate)) (gates c1))
      by (rewrite Hg1; now apply in_map).
    pose proof (nmoment_bound c1 _ Hinv1 Hin1) as Hb1. unfold flip_time in Hb1. simpl in Hb1.
    destruct (nmoment_attained c1 Hinv1) as [kg [Hkg Hmax]].
    { intros E. rewrite E in Hin1. contradiction. }
    rewrite Hg1 in Hkg. apply in_map_iff in Hkg. destruct Hkg as [kg0 [<- Hkg0]].
    pose proof (nmoment_bound c _ Hinv Hkg0) as Hb0. unfold flip_time in Hmax. simpl in Hmax. lia. }
  rewrite Hg2, Hg1, Hn, map_map. rewrite <- (map_id (gates c)) at 2.
  apply map_ext. intros [[T k] g]. unfold flip_time. simpl.
  replace (nmoment c - (nmoment c - T - 1) - 1) with T by lia. reflexivity.
Qed.

Lemma reachable_add (c : Circuit) (T : Z) (key : key_arg) (gate : Gate) :
  reachable c -> snd (add_gate c T key gate) = Ok tt ->
  reachable (fst (add_gate c T key gate)).
Proof.
  intros Hr H. apply (reach_add c T key gate); [exact Hr|].
  destruct (add_gate c T key gate) as [c' r]. simpl in *. now subst.
Qed.

Lemma circuit_H0_X1_reachable : reachable circuit_H0_X1.
Proof.
  unfold circuit_H0_X1.
  repeat (apply reachable_add; [|reflexivity]).
  now apply (reach_init 2).
Qed.

Lemma reversed_twice_witness :
  exists c1 c2,
    reversed circuit_H0_X1 = Ok c1 /\ reversed c1 = Ok c2
    /\ gates c1 = map (fun kg => ((nmoment circuit_H0_X1 - fst (fst kg) - 1, snd (fst kg)), snd kg))
                      (gates circuit_H0_X1)
    /\ gates c2 = gates circuit_H0_X1.
Proof.
  apply (reversed_twice circuit_H0_X1).
  - exact circuit_H0_X1_reachable.
  - exists [0], Gate_H. simpl. left. reflexivity.
Defined.

(** ** The order on coordinates *)

Lemma tuple_compare_antisym (k1 k2 : list Z) :
  tuple_compare k2 k1 = CompOpp (tuple_compare k1 k2).
Proof.
  revert k2. induction k1 as [|a k1 IH]; intros [|b k2]; simpl; try reflexivity.
  rewrite (Z.compare_antisym a b). destruct (a ?= b); simpl; auto.
Qed.

Lemma tuple_compare_trans (c : comparison) (k1 k2 k3 : list Z) :
  tuple_compare k1 k2 = c -> tuple_compare k2 k3 = c -> tuple_compare k1 k3 = c.
Proof.
  revert k2 k3. induction k1 as [|a k1 IH]; intros [|b k2] [|d k3]; simpl; try congruence.
  destruct (Z.compare_spec a b), (Z.compare_spec b d), (Z.compare_spec a d);
    subst; try lia; try congruence; intros; eauto.
Qed.

Lemma coord_compare_antisym (c1 c2 : coord) :
  coord_compare c2 c1 = CompOpp (coord_compare c1 c2).
Proof.
  unfold coord_compare. rewrite (Z.compare_antisym (fst c1) (fst c2)).
  destruct (fst c1 ?= fst c2); simpl; auto. apply tuple_compare_antisym.
Qed.

Lemma coord_compare_trans (c : comparison) (c1 c2 c3 : coord) :
  coord_compare c1 c2 = c -> coord_compare c2 c3 = c -> coord_compare c1 c3 = c.
Proof.
  unfold coord_compare.
  destruct (Z.compare_spec (fst c1) (fst c2)), (Z.compare_spec (fst c2) (fst c3)),
    (Z.compare_spec (fst c1) (fst c3));
    try lia; try congruence; intros; eauto using tuple_compare_trans.
Qed.

Lemma coord_leb_total (c1 c2 : coord) : coord_leb c1 c2 = true \/ coord_leb c2 c1 = true.
Proof.
  unfold coord_leb. rewrite (coord_compare_antisym c1 c2).
  destruct (coord_compare c1 c2); simpl; auto.
Qed.

Lemma coord_leb_trans (c1 c2 c3 : coord) :
  coord_leb c1 c2 = true -> coord_leb c2 c3 = true -> coord_leb c1 c3 = true.
Proof.
  unfold coord_leb.
  destruct (coord_compare c1 c2) eqn:H12; [| |discriminate];
    destruct (coord_compare c2 c3) eqn:H23; try discriminate; intros _ _.
  - apply coord_compare_eq in H12, H23. subst. now rewrite (proj2 (coord_compare_eq c3 c3) eq_refl).
  - apply coord_compare_eq in H12. subst. now rewrite H23.
  - apply coord_compare_eq in H23. subst. now rewrite H12.
  - now rewrite (coord_compare_trans Lt c1 c2 c3).
Qed.

Lemma coord_leb_antisym (c1 c2 : coord) :
  coord_leb c1 c2 = true -> coord_leb c2 c1 = true -> c1 = c2.
Proof.
  unfold coord_leb. rewrite (coord_compare_antisym c1 c2).
  destruct (coord_compare c1 c2) eqn:E; simpl; try discriminate.
  intros _ _. now apply coord_compare_eq.
Qed.

(** ** [param_keys] *)

Lemma entry_param_keys_key (kg : coord * Gate) (x : Z * list Z * string) :
  In x (entry_param_keys kg) -> fst x = fst kg.
Proof.
  unfold entry_param_keys. intros H. apply in_map_iff in H.
  destruct H as [nv [<- _]]. simpl. now destruct kg as [[T k] g].
Qed.

Lemma coord_leb_refl (c : coord) : coord_leb c c = true.
Proof. destruct (coord_leb_total c c); assumption. Qed.

Lemma block_front (ka : coord) (blk M : list param_key) :
  Forall (fun x => fst x = ka) blk ->
  Forall (fun y => coord_leb ka (fst y) = true) M ->
  fold_right (insert_by param_key_leb) M blk = blk ++ M.
Proof.
  intros Hblk HM. induction Hblk as [|x blk Hx Hblk IH]; simpl; [reflexivity|].
  rewrite IH. apply insert_by_front. apply Forall_app. split.
  - eapply Forall_impl; [|exact Hblk]. cbv beta. intros y Hy.
    unfold param_key_leb. rewrite Hx, Hy. apply coord_leb_refl.
  - eapply Forall_impl; [|exact HM]. cbv beta. intros y Hy.
    unfold param_key_leb. now rewrite Hx.
Qed.

Lemma block_skip (ka kb : coord) (blk P M : list param_key) :
  coord_leb ka kb = false ->
  Forall (fun x => fst x = ka) blk ->
  Forall (fun y => fst y = kb) P ->
  fold_right (insert_by param_key_leb) (P ++ M) blk
  = P ++ fold_right (insert_by param_key_leb) M blk.
Proof.
  intros Hab Hblk HP. induction Hblk as [|x blk Hx Hblk IH]; simpl; [reflexivity|].
  rewrite IH. apply insert_by_skip.
  eapply Forall_impl; [|exact HP]. cbv beta. intros y Hy.
  unfold param_key_leb. now rewrite Hx, Hy.
Qed.

Lemma block_insert (a : coord * Gate) (L : list (coord * Gate)) :
  StronglySorted (fun x y => entry_leb x y = true) L ->
  fold_right (insert_by param_key_leb) (flat_map entry_param_keys L) (entry_param_keys a)
  = flat_map entry_param_keys (insert_by entry_leb a L).
Proof.
  assert (Hblk : Forall (fun x => fst x = fst a) (entry_param_keys a))
    by (rewrite Forall_forall; apply entry_param_keys_key).
  induction 1 as [|b L Hs IH Hall]; simpl.
  - rewrite app_nil_r. rewrite (block_front (fst a)); [apply app_nil_r | exact Hblk | constructor].
  - destruct (entry_leb a b) eqn:E; simpl.
    + apply (block_front (fst a)); [exact Hblk|].
      rewrite Forall_forall. intros y Hy. apply in_app_iff in Hy.
      destruct Hy as [Hy | Hy].
      * apply entry_param_keys_key in Hy. now rewrite Hy.
      * apply in_flat_map in Hy. destruct Hy as [d [Hd Hy]].
        apply entry_param_keys_key in Hy. rewrite Hy.
        rewrite Forall_forall in Hall. specialize (Hall d Hd).
        eapply coord_leb_trans; [exact E | exact Hall].
    + rewrite (block_skip (fst a) (fst b)); [now rewrite IH | exact E | exact Hblk |].
      rewrite Forall_forall. apply entry_param_keys_key.
Qed.

Lemma entry_leb_sorted (l : list (coord * Gate)) :
  StronglySorted (fun x y => entry_leb x y = true) (sort_by entry_leb l).
Proof.
  apply sort_by_sorted.
  - intros x y. apply coord_leb_total.
  - intros x y z. apply coord_leb_trans.
Qed.

Lemma sort_flat_map (l : list (coord * Gate)) :
  sort_by param_key_leb (flat_map entry_param_keys l)
  = flat_map entry_param_keys (sort_by entry_leb l).
Proof.
  induction l as [|a l IH]; simpl; [reflexivity|].
  rewrite sort_by_app, IH. apply block_insert. apply entry_leb_sorted.
Qed.

Lemma sorted_entries_unique (l1 l2 : list (coord * Gate)) :
  StronglySorted (fun x y => entry_leb x y = true) l1 ->
  StronglySorted (fun x y => entry_leb x y = true) l2 ->
  Permutation l1 l2 -> NoDup (map fst l1) -> l1 = l2.
Proof.
  intros H1. revert l2. induction H1 as [|a l1 Hs1 IH Hall1]; intros l2 H2 Hp Hnd.
  - apply Permutation_nil in Hp. now subst.
  - destruct l2 as [|b l2]; [apply Permutation_sym, Permutation_nil in Hp; discriminate|].
    inversion H2 as [|? ? Hs2 Hall2]. subst.
    assert (Hab : a = b).
    { assert (Ha : In a (b :: l2)) by (eapply Permutation_in; [exact Hp | now left]).
      destruct Ha as [Ha | Ha]; [now subst|].
      assert (Hb : In b (a :: l1)) by (eapply Permutation_in; [symmetry; exact Hp | now left]).
      destruct Hb as [Hb | Hb]; [now subst|].
      rewrite Forall_forall in Hall1, Hall2.
      assert (Hk : fst a = fst b) by (apply coord_leb_antisym; [apply Hall1, Hb | apply Hall2, Ha]).
      inversion Hnd as [|? ? Hnot _]. subst. exfalso. apply Hnot.
      rewrite Hk. now apply in_map. }
    subst. f_equal. apply IH; [exact Hs2 | eapply Permutation_cons_inv; exact Hp |].
    now inversion Hnd.
Qed.

(** C6. [param_keys] returns the triples [(T, key, name)] sorted by
    [(T, key)], and the list depends only on the gate placements: circuits
    with the same placements, added in any order, have the same
    [param_keys]. *)
Theorem param_keys_canonical (c1 c2 : Circuit) :
  reachable c1 -> reachable c2 -> Permutation (gates c1) (gates c2) ->
  param_keys c1 = param_keys c2
  /\ StronglySorted (fun x y => coord_leb (fst x) (fst y) = true) (param_keys c1)
  /\ Permutation (param_keys c1) (flat_map entry_param_keys (gates c1)).
Proof.
  intros Hr1 Hr2 Hp.
  assert (E : forall c, param_keys c = sort_by param_key_leb (flat_map entry_param_keys (gates c)))
    by reflexivity.
  split; [|split].
  - rewrite !E, !sort_flat_map. f_equal.
    apply sorted_entries_unique; try apply entry_leb_sorted.
    + rewrite (sort_by_perm entry_leb (gates c1)), (sort_by_perm entry_leb (gates c2)). exact Hp.
    + eapply Permutation_NoDup; [apply Permutation_map; symmetry; apply sort_by_perm|].
      apply (inv_gates c1 (reachable_inv c1 Hr1)).
  - rewrite E. apply (sort_by_sorted param_key_leb).
    + intros x y. apply coord_leb_total.
    + intros x y z. apply coord_leb_trans.
  - rewrite E. apply sort_by_perm.
Qed.

Lemma param_keys_canonical_witness :
  param_keys circuit_Ry_01 = param_keys circuit_Ry_10
  /\ StronglySorted (fun x y => coord_leb (fst x) (fst y) = true) (param_keys circuit_Ry_01)
  /\ Permutation (param_keys circuit_Ry_01) (flat_map entry_param_keys (gates circuit_Ry_01)).
Proof.
  apply (param_keys_canonical circuit_Ry_01 circuit_Ry_10).
  - unfold circuit_Ry_01. repeat (apply reachable_add; [|reflexivity]). now apply (reach_init 2).
  - unfold circuit_Ry_10. repeat (apply reachable_add; [|reflexivity]). now apply (reach_init 2).
  - apply perm_swap.
Defined.

(** ** The qubit count of a state vector *)

Lemma land_pow2_opp (n : Z) : 0 <= n -> Z.land (2 ^ n) (- 2 ^ n) = 2 ^ n.
Proof.
  intros Hn. apply Z.bits_inj'. intros m Hm.
  rewrite Z.land_spec.
  replace (- 2 ^ n) with (Z.lnot (Z.ones n)) by (unfold Z.lnot; rewrite Z.ones_equiv; lia).
  rewrite Z.lnot_spec by exact Hm.
  rewrite Z.pow2_bits_eqb by exact Hn.
  destruct (Z.eqb_spec n m) as [-> | Hne]; [|reflexivity].
  rewrite Z.ones_spec_high by lia. reflexivity.
Qed.

Lemma infer_N_pow2 (w : vec) (n : Z) : 0 <= n -> zlen w = 2 ^ n -> infer_N w = n.
Proof.
  intros Hn Hw. unfold infer_N, bit_length. rewrite Hw, land_pow2_opp by exact Hn.
  assert (0 < 2 ^ n) by (apply Z.pow_pos_nonneg; lia).
  destruct (Z.eqb_spec (2 ^ n) 0); [lia|].
  rewrite Z.abs_eq by lia. rewrite Z.log2_pow2 by exact Hn. lia.
Qed.

Lemma shape_pow2_true (w : vec) (n : Z) : 0 <= n -> zlen w = 2 ^ n -> shape_pow2 w n = true.
Proof.
  intros Hn Hw. unfold shape_pow2. rewrite Hw, Z.eqb_refl.
  now rewrite (proj2 (Z.leb_le 0 n) Hn).
Qed.

Lemma shape_pow2_inv (w : vec) (N : Z) : shape_pow2 w N = true -> 0 <= N /\ zlen w = 2 ^ N.
Proof.
  unfold shape_pow2. rewrite andb_true_iff, Z.leb_le, Z.eqb_eq. auto.
Qed.

(** ** [apply_gate_2] with its qubits in either order *)

Lemma reshape_roundtrip (U : matrix) :
  reshape2222 (reshape44 (einsum_ijkl_jilk (reshape2222 U))) = einsum_ijkl_jilk (reshape2222 U).
Proof. reflexivity. Qed.

Lemma reshape44_shape (U2 : tensor4) : has_shape (reshape44 U2) 4 4 = true.
Proof. reflexivity. Qed.

Lemma einsum_jilk_involutive (U : matrix) :
  einsum_ijkl_jilk (einsum_ijkl_jilk (reshape2222 U)) = reshape2222 U.
Proof. reflexivity. Qed.

Lemma apply_gate_2_array_swap (w1 w2 : vec) (U : matrix) (A B n : Z) :
  zlen w1 = 2 ^ n -> has_shape U 4 4 = true -> 0 <= B -> B < A -> A < n ->
  apply_gate_2_array w1 w2 U A B
  = apply_gate_2_array w1 w2 (reshape44 (einsum_ijkl_jilk (reshape2222 U))) B A.
Proof.
  intros Hw HU HB HBA HA. unfold apply_gate_2_array.
  rewrite (infer_N_pow2 w1 n) by (assumption || lia).
  rewrite reshape44_shape, HU, reshape_roundtrip.
  destruct (Z.geb_spec A n); [lia|]. destruct (Z.geb_spec B n); [lia|].
  destruct (Z.eqb_spec A B); [lia|]. destruct (Z.eqb_spec B A); [lia|].
  destruct (Z.gtb_spec A B); [|lia]. destruct (Z.gtb_spec B A); [lia|].
  reflexivity.
Qed.

Lemma apply_gate_2_raises (wfn1 wfn2 : ref) (U : matrix) (A B : Z) (h : store) (w1 w2 : vec) :
  nth_error h wfn1 = Some w1 -> nth_error h wfn2 = Some w2 ->
  raises (apply_gate_2_array w1 w2 U A B) ->
  raises (snd (apply_gate_2 wfn1 wfn2 U A B h)).
Proof.
  intros H1 H2 [e He]. exists e.
  unfold apply_gate_2, bindM, load, lift. rewrite H1, H2, He. reflexivity.
Qed.

(** C7. On a state of [2^n] amplitudes, for a (4,4) matrix [U] and qubits
    [0 <= B < A < n], [apply_gate_2(wfn1, wfn2, U, A, B)] does what
    [apply_gate_2(wfn1, wfn2, U', B, A)] does, where [U'] is [U] with its
    two input legs and its two output legs swapped; and the call fails when
    [A == B], when [U] is not (4,4), when the length of [wfn1] is no power
    of two, and when [wfn2] has another length than [wfn1]. *)
Theorem apply_gate_2_qubit_order (h : store) (wfn1 wfn2 : ref) (w1 w2 : vec)
    (U : matrix) (A B n : Z) :
  nth_error h wfn1 = Some w1 -> nth_error h wfn2 = Some w2 ->
  (zlen w1 = 2 ^ n -> has_shape U 4 4 = true -> 0 <= B -> B < A -> A < n ->
     apply_gate_2 wfn1 wfn2 U A B h
     = apply_gate_2 wfn1 wfn2 (reshape44 (einsum_ijkl_jilk (reshape2222 U))) B A h)
  /\ (A = B -> raises (snd (apply_gate_2 wfn1 wfn2 U A B h)))
  /\ (has_shape U 4 4 = false -> raises (snd (apply_gate_2 wfn1 wfn2 U A B h)))
  /\ ((forall k, 0 <= k -> zlen w1 <> 2 ^ k) -> raises (snd (apply_gate_2 wfn1 wfn2 U A B h)))
  /\ (length w2 <> length w1 -> raises (snd (apply_gate_2 wfn1 wfn2 U A B h))).
Proof.
  intros H1 H2. split; [|split; [|split; [|split]]].
  - intros Hw HU HB HBA HA.
    unfold apply_gate_2, bindM, load, lift. rewrite H1, H2.
    now rewrite (apply_gate_2_array_swap w1 w2 U A B n).
  - intros ->. apply (apply_gate_2_raises _ _ _ _ _ _ w1 w2 H1 H2).
    unfold apply_gate_2_array.
    destruct (B >=? infer_N w1); [eexists; reflexivity|].
    rewrite Z.eqb_refl. eexists; reflexivity.
  - intros HU. apply (apply_gate_2_raises _ _ _ _ _ _ w1 w2 H1 H2).
    unfold apply_gate_2_array. rewrite HU.
    destruct (A >=? infer_N w1); [eexists; reflexivity|].
    destruct (B >=? infer_N w1); [eexists; reflexivity|].
    destruct (A =? B); eexists; reflexivity.
  - intros Hw. apply (apply_gate_2_raises _ _ _ _ _ _ w1 w2 H1 H2).
    unfold apply_gate_2_array.
    destruct (A >=? infer_N w1); [eexists; reflexivity|].
    destruct (B >=? infer_N w1); [eexists; reflexivity|].
    destruct (A =? B); [eexists; reflexivity|].
    destruct (has_shape U 4 4); [|eexists; reflexivity]. simpl.
    destruct (shape_pow2 w1 (infer_N w1)) eqn:E; [|eexists; reflexivity].
    apply shape_pow2_inv in E. destruct E as [E1 E2]. exfalso. exact (Hw _ E1 E2).
  - intros Hlen. apply (apply_gate_2_raises _ _ _ _ _ _ w1 w2 H1 H2).
    unfold apply_gate_2_array.
    destruct (A >=? infer_N w1); [eexists; reflexivity|].
    destruct (B >=? infer_N w1); [eexists; reflexivity|].
    destruct (A =? B); [eexists; reflexivity|].
    destruct (has_shape U 4 4); [|eexists; reflexivity]. simpl.
    destruct (shape_pow2 w1 (infer_N w1)) eqn:E1; [|eexists; reflexivity]. simpl.
    destruct (shape_pow2 w2 (infer_N w1)) eqn:E2; [|eexists; reflexivity].
    apply shape_pow2_inv in E1, E2. exfalso. apply Hlen.
    unfold zlen in *. lia.
Qed.

Lemma apply_gate_2_qubit_order_witness :
  apply_gate_2 0%nat 1%nat Matrix.CX 1 0 store_00
  = apply_gate_2 0%nat 1%nat (reshape44 (einsum_ijkl_jilk (reshape2222 Matrix.CX))) 0 1 store_00.
Proof.
  apply (proj1 (apply_gate_2_qubit_order store_00 0%nat 1%nat [C1; C0; C0; C0] [C0; C0; C0; C0]
                  Matrix.CX 1 0 2 eq_refl eq_refl));
    [reflexivity | reflexivity | lia | lia | lia].
Defined.

(** ** The simulator never writes into the caller's arrays *)

Lemma update_length {A} (l : list A) (i : nat) (x : A) : length (update l i x) = length l.
Proof.
  revert i. induction l as [|y l IH]; intros [|i]; simpl; auto.
Qed.

Lemma update_nth_error_other {A} (l : list A) (i j : nat) (x : A) :
  i <> j -> nth_error (update l i x) j = nth_error l j.
Proof.
  revert i j. induction l as [|y l IH]; intros [|i] [|j] H; simpl; auto; try congruence.
Qed.

Lemma update_nth_error_same {A} (l : list A) (i : nat) (x : A) :
  (i < length l)%nat -> nth_error (update l i x) i = Some x.
Proof.
  revert i. induction l as [|y l IH]; intros [|i] H; simpl in *; try lia; auto.
  apply IH. lia.
Qed.

Section Frame.
Variable n : nat.

Lemma preserves_ret {A} (a : A) (P : A -> Prop) : P a -> preserves n (ret a) P.
Proof.
  intros HP h Hh. simpl. repeat split; auto. intros a' H. inversion H. now subst.
Qed.

Lemma preserves_throw {A} (e : exn) (P : A -> Prop) : preserves n (throw e) P.
Proof. intros h Hh. simpl. repeat split; auto. discriminate. Qed.

Lemma preserves_lift {A} (r : result A) (P : A -> Prop) :
  (forall a, r = Ok a -> P a) -> preserves n (lift r) P.
Proof. intros HP h Hh. simpl. repeat split; auto. Qed.

Lemma preserves_bind {A B} (m : M A) (k : A -> M B) (P : A -> Prop) (Q : B -> Prop) :
  preserves n m P -> (forall a, P a -> preserves n (k a) Q) -> preserves n (bindM m k) Q.
Proof.
  intros Hm Hk h Hh. unfold bindM.
  destruct (Hm h Hh) as (Hlen & Hkeep & HP).
  destruct (m h) as [h' [a|e]]; simpl in *.
  - destruct (Hk a (HP a eq_refl) h') as (Hlen' & Hkeep' & HQ); [lia|].
    repeat split; [lia | | exact HQ].
    intros i Hi. rewrite Hkeep' by exact Hi. now apply Hkeep.
  - repeat split; auto. discriminate.
Qed.

Lemma preserves_weaken {A} (m : M A) (P Q : A -> Prop) :
  preserves n m P -> (forall a, P a -> Q a) -> preserves n m Q.
Proof.
  intros Hm HPQ h Hh. destruct (Hm h Hh) as (H1 & H2 & H3). repeat split; auto.
Qed.

Lemma preserves_alloc (v : vec) : preserves n (alloc v) (fun r => (n <= r)%nat).
Proof.
  intros h Hh. unfold alloc. simpl. repeat split.
  - rewrite length_app. lia.
  - intros i Hi. apply nth_error_app1. lia.
  - intros a H. inversion H. lia.
Qed.

Lemma preserves_load (r : ref) : preserves n (load r) (fun _ => True).
Proof.
  intros h Hh. unfold load. destruct (nth_error h r); simpl; repeat split; auto.
Qed.

Lemma preserves_write (r : ref) (v : vec) :
  (n <= r)%nat -> preserves n (write r v) (fun _ => True).
Proof.
  intros Hr h Hh. unfold write. simpl. repeat split.
  - rewrite update_length. lia.
  - intros i Hi. apply update_nth_error_other. lia.
Qed.

Lemma preserves_apply_gate_1 (wfn1 wfn2 : ref) (U : matrix) (A : Z) :
  (n <= wfn2)%nat -> preserves n (apply_gate_1 wfn1 wfn2 U A) (fun r => r = wfn2).
Proof.
  intros H. unfold apply_gate_1.
  eapply preserves_bind; [apply preserves_load | intros w1 _].
  eapply preserves_bind; [apply preserves_load | intros w2 _].
  eapply preserves_bind; [apply preserves_lift with (P := fun _ => True); auto | intros out _].
  eapply preserves_bind; [now apply preserves_write | intros _ _].
  now apply preserves_ret.
Qed.

Lemma preserves_apply_gate_2 (wfn1 wfn2 : ref) (U : matrix) (A B : Z) :
  (n <= wfn2)%nat -> preserves n (apply_gate_2 wfn1 wfn2 U A B) (fun r => r = wfn2).
Proof.
  intros H. unfold apply_gate_2.
  eapply preserves_bind; [apply preserves_load | intros w1 _].
  eapply preserves_bind; [apply preserves_load | intros w2 _].
  eapply preserves_bind; [apply preserves_lift with (P := fun _ => True); auto | intros out _].
  eapply preserves_bind; [now apply preserves_write | intros _ _].
  now apply preserves_ret.
Qed.

Lemma preserves_apply_entry (bufs : ref * ref) (kg : coord * Gate) :
  fresh_bufs n bufs -> preserves n (apply_entry bufs kg) (fresh_bufs n).
Proof.
  destruct bufs as [wfn1 wfn2], kg as [[T key2] gate]. intros [H1 H2]. simpl in H1, H2.
  unfold apply_entry.
  destruct (gN gate =? 1); [|destruct (gN gate =? 2)].
  - eapply preserves_bind; [apply preserves_lift with (P := fun _ => True); auto | intros A _].
    eapply preserves_bind; [now apply preserves_apply_gate_1 | intros r ->].
    apply preserves_ret. split; assumption.
  - eapply preserves_bind; [apply preserves_lift with (P := fun _ => True); auto | intros A _].
    eapply preserves_bind; [apply preserves_lift with (P := fun _ => True); auto | intros B _].
    eapply preserves_bind; [now apply preserves_apply_gate_2 | intros r ->].
    apply preserves_ret. split; assumption.
  - apply preserves_throw.
Qed.

Lemma preserves_forM (l : list (coord * Gate)) (bufs : ref * ref) :
  fresh_bufs n bufs -> preserves n (forM apply_entry l bufs) (fresh_bufs n).
Proof.
  revert bufs. induction l as [|kg l IH]; intros bufs Hb; simpl.
  - now apply preserves_ret.
  - eapply preserves_bind; [now apply preserves_apply_entry | exact IH].
Qed.

Lemma preserves_simulate_moments (self : Circuit) (Ts' : list Z) (bufs : ref * ref) :
  fresh_bufs n bufs -> preserves n (simulate_moments self Ts' bufs) (fun _ => True).
Proof.
  revert bufs. induction Ts' as [|T rest IH]; intros bufs Hb; simpl.
  - now apply preserves_ret.
  - eapply preserves_bind; [apply preserves_lift with (P := fun _ => True); auto | intros c _].
    eapply preserves_bind; [now apply preserves_forM | intros bufs' Hb'].
    eapply preserves_bind; [now apply IH | intros ys _].
    now apply preserves_ret.
Qed.

Lemma preserves_simulate_steps (self : Circuit) (wfn : option ref) :
  preserves n (simulate_steps self wfn) (fun _ => True).
Proof.
  unfold simulate_steps.
  eapply preserves_bind with (P := fun r => (n <= r)%nat).
  - destruct wfn as [r|]; [|apply preserves_alloc].
    eapply preserves_bind; [apply preserves_load | intros w _; apply preserves_alloc].
  - intros wfn' _.
    eapply preserves_bind; [apply preserves_load | intros w _].
    eapply preserves_bind; [apply preserves_alloc | intros wfn1 H1].
    eapply preserves_bind; [apply preserves_alloc | intros wfn2 H2].
    apply preserves_simulate_moments. split; assumption.
Qed.

Lemma preserves_simulate (self : Circuit) (wfn : option ref) :
  preserves n (simulate self wfn) (fun _ => True).
Proof.
  unfold simulate.
  eapply preserves_bind; [apply preserves_simulate_steps | intros ys _].
  now apply preserves_ret.
Qed.
End Frame.

(** C8. Whatever the circuit and the store, [simulate] and a full run of
    [simulate_steps] on a supplied initial state leave that array (and every
    array that existed before the call) with its contents, whether the run
    returns or raises. *)
Theorem simulate_keeps_initial_state (self : Circuit) (h : store) (wfn : ref) (w : vec) :
  nth_error h wfn = Some w ->
  nth_error (fst (simulate self (Some wfn) h)) wfn = Some w
  /\ nth_error (fst (simulate_steps self (Some wfn) h)) wfn = Some w.
Proof.
  intros Hw.
  assert (Hlt : (wfn < length h)%nat) by (apply nth_error_Some; congruence).
  split.
  - destruct (preserves_simulate (length h) self (Some wfn) h (le_n _)) as (_ & H & _).
    now rewrite H.
  - destruct (preserves_simulate_steps (length h) self (Some wfn) h (le_n _)) as (_ & H & _).
    now rewrite H.
Qed.

Lemma simulate_keeps_initial_state_witness :
  nth_error (fst (simulate circuit_H0_X1 (Some 0%nat) store_00)) 0 = Some [C1; C0; C0; C0]
  /\ nth_error (fst (simulate_steps circuit_H0_X1 (Some 0%nat) store_00)) 0 = Some [C1; C0; C0; C0].
Proof.
  apply (simulate_keeps_initial_state circuit_H0_X1 store_00 0%nat [C1; C0; C0; C0]).
  reflexivity.
Defined.

(** ** Stepping through store computations *)

Lemma bindM_alloc {B} (v : vec) (k : ref -> M B) (h : store) :
  bindM (alloc v) k h = k (length h) (h ++ [v]).
Proof. reflexivity. Qed.

Lemma bindM_load {B} (r : ref) (w : vec) (k : vec -> M B) (h : store) :
  nth_error h r = Some w -> bindM (load r) k h = k w h.
Proof. intros H. unfold bindM, load. now rewrite H. Qed.

Lemma bindM_lift_Ok {A B} (a : A) (k : A -> M B) (h : store) :
  bindM (lift (Ok a)) k h = k a h.
Proof. reflexivity. Qed.

Lemma bindM_write {B} (r : ref) (v : vec) (k : unit -> M B) (h : store) :
  bindM (write r v) k h = k tt (update h r v).
Proof. reflexivity. Qed.

Lemma bindM_ret {A B} (a : A) (k : A -> M B) (h : store) : bindM (ret a) k h = k a h.
Proof. reflexivity. Qed.

Lemma nth_error_snoc {A} (l : list A) (x : A) : nth_error (l ++ [x]) (length l) = Some x.
Proof. rewrite nth_error_app2 by lia. now rewrite Nat.sub_diag. Qed.

(** ** Circuits without gates *)

Lemma no_gates_nmoment (self : Circuit) : circuit_inv self -> gates self = [] -> nmoment self = 0.
Proof.
  intros Hinv Hg. unfold nmoment. destruct (Ts self) as [|t l] eqn:E; [reflexivity|].
  assert (H : In t (Ts self)) by (rewrite E; now left).
  apply (inv_Ts self Hinv) in H. destruct H as [kg [Hkg _]]. rewrite Hg in Hkg. contradiction.
Qed.

Lemma simulate_steps_no_moments (self : Circuit) (wfn : option ref) (h : store) :
  nmoment self = 0 ->
  (forall r, wfn = Some r -> (r < length h)%nat) ->
  snd (simulate_steps self wfn h) = Ok [].
Proof.
  intros Hn Hwfn. unfold simulate_steps. rewrite Hn. change (range 0) with (@nil Z).
  destruct wfn as [r|].
  - destruct (nth_error h r) as [w|] eqn:E.
    2:{ apply nth_error_None in E. specialize (Hwfn r eq_refl). lia. }
    unfold bindM, load, alloc. rewrite E. simpl. rewrite nth_error_snoc. reflexivity.
  - unfold bindM, load, alloc. simpl. rewrite nth_error_snoc. reflexivity.
Qed.

(** C10. For a circuit without gates [nmoment] is 0, the generator yields
    nothing, and [simulate] returns its argument itself: the reference that
    was passed, or [None] when no initial state was passed (not the
    all-zero basis state), and no array of the store is changed. *)
Theorem simulate_no_gates (self : Circuit) (wfn : option ref) (h : store) :
  reachable self -> gates self = [] ->
  (forall r, wfn = Some r -> (r < length h)%nat) ->
  nmoment self = 0
  /\ snd (simulate_steps self wfn h) = Ok []
  /\ snd (simulate self wfn h) = Ok wfn
  /\ snd (simulate self None h) = Ok None
  /\ (forall r, (r < length h)%nat -> nth_error (fst (simulate self wfn h)) r = nth_error h r).
Proof.
  intros Hr Hg Hwfn. pose proof (reachable_inv self Hr) as Hinv.
  pose proof (no_gates_nmoment self Hinv Hg) as Hn.
  assert (Hsim : forall w, (forall r, w = Some r -> (r < length h)%nat) ->
                           snd (simulate self w h) = Ok w).
  { intros w Hw. pose proof (simulate_steps_no_moments self w h Hn Hw) as Hs.
    unfold simulate, bindM. destruct (simulate_steps self w h) as [h' r]. simpl in Hs.
    subst. reflexivity. }
  split; [exact Hn|]. split; [now apply simulate_steps_no_moments|].
  split; [now apply Hsim|]. split; [apply Hsim; discriminate|].
  intros r Hlt.
  destruct (preserves_simulate (length h) self wfn h (le_n _)) as (_ & H & _). now apply H.
Qed.

Lemma simulate_no_gates_witness :
  nmoment circuit_empty2 = 0
  /\ snd (simulate_steps circuit_empty2 None []) = Ok []
  /\ snd (simulate circuit_empty2 None []) = Ok None
  /\ snd (simulate circuit_empty2 None []) = Ok None
  /\ (forall r, (r < length (@nil vec))%nat ->
        nth_error (fst (simulate circuit_empty2 None [])) r = nth_error [] r).
Proof.
  apply (simulate_no_gates circuit_empty2 None []).
  - now apply (reach_init 2).
  - reflexivity.
  - discriminate.
Defined.

(** ** Complex arithmetic *)

Lemma C_ring : ring_theory C0 C1 Cadd Cmul Csub Copp eq.
Proof.
  constructor; intros; unfold C0, C1, RtoC, Csub, Cadd, Cmul, Copp;
    repeat match goal with x : C |- _ => destruct x end; simpl;
    apply injective_projections; simpl; ring.
Qed.

Add Ring C_ring_inst : C_ring.

Lemma Cmul_0_l (a : C) : (C0 * a)%C = C0.
Proof. ring. Qed.

Lemma Cmul_0_r (a : C) : (a * C0)%C = C0.
Proof. ring. Qed.

Lemma Cmul_1_l (a : C) : (C1 * a)%C = a.
Proof. ring. Qed.

Lemma Cadd_0_r (a : C) : (a + C0)%C = a.
Proof. ring. Qed.

Lemma Cadd_0_l (a : C) : (C0 + a)%C = a.
Proof. ring. Qed.

(** ** Blocks of nested comprehensions *)

Lemma flat_map_seq_length {A} (f : nat -> list A) (n s L : nat) :
  (forall a, length (f a) = n) -> length (flat_map f (seq s L)) = (L * n)%nat.
Proof.
  intros Hf. revert s. induction L as [|L IH]; intros s; simpl; [reflexivity|].
  rewrite length_app, Hf, IH. reflexivity.
Qed.

Lemma nth_flat_map_seq {A} (f : nat -> list A) (n s L l k : nat) (d : A) :
  (forall a, length (f a) = n) -> (l < L)%nat -> (k < n)%nat ->
  nth (l * n + k) (flat_map f (seq s L)) d = nth k (f (s + l)%nat) d.
Proof.
  intros Hf. revert s l. induction L as [|L IH]; intros s l Hl Hk; [lia|].
  simpl. destruct l as [|l].
  - simpl. rewrite app_nth1 by (rewrite Hf; exact Hk). now rewrite Nat.add_0_r.
  - rewrite app_nth2 by (rewrite Hf; simpl; lia).
    rewrite Hf. replace (S l * n + k - n)%nat with (l * n + k)%nat by (simpl; lia).
    rewrite IH by lia. f_equal. f_equal. lia.
Qed.

Lemma nth_map_seq {A} (f : nat -> A) (s L k : nat) (d : A) :
  (k < L)%nat -> nth k (map f (seq s L)) d = f (s + k)%nat.
Proof.
  intros Hk. rewrite (nth_indep _ d (f 0%nat)) by (rewrite length_map, length_seq; exact Hk).
  rewrite map_nth, seq_nth by exact Hk. reflexivity.
Qed.

(** ** Indices of basis states *)

Lemma idx_of_bits_acc (bs : list bool) (a : nat) :
  fold_left (fun acc b => (2 * acc + Nat.b2n b)%nat) bs a
  = (a * 2 ^ length bs + idx_of_bits bs)%nat.
Proof.
  unfold idx_of_bits. revert a. induction bs as [|b bs IH]; intros a.
  - simpl. lia.
  - cbn [fold_left length].
    rewrite (IH (2 * a + Nat.b2n b)%nat), (IH (2 * 0 + Nat.b2n b)%nat).
    rewrite Nat.pow_succ_r'. nia.
Qed.

Lemma idx_of_bits_app (u v : list bool) :
  idx_of_bits (u ++ v) = (idx_of_bits u * 2 ^ length v + idx_of_bits v)%nat.
Proof.
  unfold idx_of_bits at 1. rewrite fold_left_app. apply idx_of_bits_acc.
Qed.

Lemma idx_of_bits_cons (b : bool) (v : list bool) :
  idx_of_bits (b :: v) = (Nat.b2n b * 2 ^ length v + idx_of_bits v)%nat.
Proof. apply (idx_of_bits_app [b] v). Qed.

Lemma idx_of_bits_lt (bs : list bool) : (idx_of_bits bs < 2 ^ length bs)%nat.
Proof.
  induction bs as [|b bs IH].
  - cbv. lia.
  - rewrite idx_of_bits_cons. cbn [length]. rewrite Nat.pow_succ_r'.
    destruct b; cbn [Nat.b2n]; lia.
Qed.

Lemma idx_of_bits_split (pre post : list bool) (b : bool) :
  idx_of_bits (pre ++ b :: post)
  = ((idx_of_bits pre * 2 + Nat.b2n b) * 2 ^ length post + idx_of_bits post)%nat.
Proof.
  rewrite idx_of_bits_app, idx_of_bits_cons. cbn [length]. rewrite Nat.pow_succ_r'. nia.
Qed.

Lemma idx_of_bits_onto (n i : nat) :
  (i < 2 ^ n)%nat -> exists bs, length bs = n /\ idx_of_bits bs = i.
Proof.
  revert i. induction n as [|n IH]; intros i Hi.
  - exists []. split; [reflexivity|]. change (idx_of_bits []) with 0%nat. simpl in Hi. lia.
  - rewrite Nat.pow_succ_r' in Hi.
    destruct (IH (i / 2)%nat) as [bs [Hlen Hbs]].
    { apply Nat.Div0.div_lt_upper_bound. lia. }
    exists (bs ++ [Nat.odd i]). split.
    + rewrite length_app. simpl. lia.
    + rewrite idx_of_bits_app, Hbs.
      change (idx_of_bits [Nat.odd i]) with (2 * 0 + Nat.b2n (Nat.odd i))%nat.
      change (2 ^ length [Nat.odd i])%nat with 2%nat.
      pose proof (Nat.div_mod_eq i 2) as Hdm.
      assert (Hodd : Nat.b2n (Nat.odd i) = (i mod 2)%nat).
      { rewrite <- Nat.bit0_mod. now rewrite Nat.bit0_odd. }
      lia.
Qed.

(** ** The contractions, entry by entry *)

Lemma flat_map_bits2_length {A} (f : nat -> list A) (n : nat) :
  (forall a, length (f a) = n) -> length (flat_map f bits2) = (2 * n)%nat.
Proof. intros Hf. exact (flat_map_seq_length f n 0 2 Hf). Qed.

Lemma nth_flat_map_bits2 {A} (f : nat -> list A) (n i k : nat) (d : A) :
  (forall a, length (f a) = n) -> (i < 2)%nat -> (k < n)%nat ->
  nth (i * n + k) (flat_map f bits2) d = nth k (f i) d.
Proof. intros Hf Hi Hk. exact (nth_flat_map_seq f n 0 2 i k d Hf Hi Hk). Qed.

Lemma map_seq_length {A} (f : nat -> A) (s L : nat) : length (map f (seq s L)) = L.
Proof. now rewrite length_map, length_seq. Qed.

Lemma einsum_LjR_ij_length (L R : nat) (w : vec) (U : matrix) :
  length (einsum_LjR_ij L R w U) = (L * (2 * R))%nat.
Proof.
  unfold einsum_LjR_ij. apply flat_map_seq_length. intros l.
  apply flat_map_bits2_length. intros i. apply map_seq_length.
Qed.

Lemma einsum_LjR_ij_nth (L R : nat) (w : vec) (U : matrix) (l i r : nat) :
  (l < L)%nat -> (i < 2)%nat -> (r < R)%nat ->
  nth ((l * 2 + i) * R + r) (einsum_LjR_ij L R w U) C0
  = Csum (map (fun j => (nth ((l * 2 + j) * R + r) w C0 * mget U i j)%C) bits2).
Proof.
  intros Hl Hi Hr. unfold einsum_LjR_ij.
  replace ((l * 2 + i) * R + r)%nat with (l * (2 * R) + (i * R + r))%nat by nia.
  rewrite (nth_flat_map_seq _ (2 * R)); [| | exact Hl | nia].
  2:{ intros a. apply flat_map_bits2_length. intros b. apply map_seq_length. }
  rewrite (nth_flat_map_bits2 _ R); [| | exact Hi | exact Hr].
  2:{ intros b. apply map_seq_length. }
  rewrite nth_map_seq by exact Hr. reflexivity.
Qed.

Lemma einsum_LkMlR_ijkl_length (L M R : nat) (w : vec) (U2 : tensor4) :
  length (einsum_LkMlR_ijkl L M R w U2) = (L * (2 * (M * (2 * R))))%nat.
Proof.
  unfold einsum_LkMlR_ijkl. apply flat_map_seq_length. intros l.
  apply flat_map_bits2_length. intros i.
  apply flat_map_seq_length. intros m.
  apply flat_map_bits2_length. intros j. apply map_seq_length.
Qed.

Lemma einsum_LkMlR_ijkl_nth (L M R : nat) (w : vec) (U2 : tensor4) (l i m j r : nat) :
  (l < L)%nat -> (i < 2)%nat -> (m < M)%nat -> (j < 2)%nat -> (r < R)%nat ->
  nth ((((l * 2 + i) * M + m) * 2 + j) * R + r) (einsum_LkMlR_ijkl L M R w U2) C0
  = Csum (flat_map (fun k => map (fun l' =>
      (nth ((((l * 2 + k) * M + m) * 2 + l') * R + r) w C0 * tget U2 i j k l')%C) bits2) bits2).
Proof.
  intros Hl Hi Hm Hj Hr. unfold einsum_LkMlR_ijkl.
  replace ((((l * 2 + i) * M + m) * 2 + j) * R + r)%nat
    with (l * (2 * (M * (2 * R))) + (i * (M * (2 * R)) + (m * (2 * R) + (j * R + r))))%nat by nia.
  rewrite (nth_flat_map_seq _ (2 * (M * (2 * R)))); [| | exact Hl | nia].
  2:{ intros a. apply flat_map_bits2_length. intros b. apply flat_map_seq_length.
      intros c. apply flat_map_bits2_length. intros d. apply map_seq_length. }
  rewrite (nth_flat_map_bits2 _ (M * (2 * R))); [| | exact Hi | nia].
  2:{ intros b. apply flat_map_seq_length.
      intros c. apply flat_map_bits2_length. intros d. apply map_seq_length. }
  rewrite (nth_flat_map_seq _ (2 * R)); [| | exact Hm | nia].
  2:{ intros c. apply flat_map_bits2_length. intros d. apply map_seq_length. }
  rewrite (nth_flat_map_bits2 _ R); [| | exact Hj | exact Hr].
  2:{ intros d. apply map_seq_length. }
  rewrite nth_map_seq by exact Hr. reflexivity.
Qed.

(** ** Basis states as lists of bits *)

Lemma split_at {A} (bs : list A) (i : nat) (d : A) :
  (i < length bs)%nat -> bs = firstn i bs ++ nth i bs d :: skipn (S i) bs.
Proof.
  revert i. induction bs as [|b bs IH]; intros [|i] H; simpl in *; try lia; [reflexivity|].
  f_equal. apply IH. lia.
Qed.

Lemma update_app_mid {A} (pre post : list A) (b x : A) :
  update (pre ++ b :: post) (length pre) x = pre ++ x :: post.
Proof. induction pre as [|a pre IH]; simpl; [reflexivity | now rewrite IH]. Qed.

Lemma nth_app_mid {A} (pre post : list A) (b d : A) : nth (length pre) (pre ++ b :: post) d = b.
Proof. induction pre as [|a pre IH]; simpl; auto. Qed.

Lemma update_app_r {A} (pre l : list A) (i : nat) (x : A) :
  update (pre ++ l) (length pre + i) x = pre ++ update l i x.
Proof. induction pre as [|a pre IH]; simpl; [reflexivity | now rewrite IH]. Qed.

Lemma nth_app_r {A} (pre l : list A) (i : nat) (d : A) : nth (length pre + i) (pre ++ l) d = nth i l d.
Proof. induction pre as [|a pre IH]; simpl; auto. Qed.

Lemma update_nth_other {A} (l : list A) (i j : nat) (x d : A) :
  i <> j -> nth j (update l i x) d = nth j l d.
Proof.
  revert i j. induction l as [|y l IH]; intros [|i] [|j] H; simpl; auto; congruence.
Qed.

Lemma update_nth_same {A} (l : list A) (i : nat) (x d : A) :
  (i < length l)%nat -> nth i (update l i x) d = x.
Proof.
  revert i. induction l as [|y l IH]; intros [|i] H; simpl in *; try lia; auto.
  apply IH. lia.
Qed.

Lemma update_update_same {A} (l : list A) (i : nat) (x y : A) :
  update (update l i x) i y = update l i y.
Proof.
  revert i. induction l as [|z l IH]; intros [|i]; simpl; auto. now rewrite IH.
Qed.

Lemma update_update_comm {A} (l : list A) (i j : nat) (x y : A) :
  i <> j -> update (update l i x) j y = update (update l j y) i x.
Proof.
  revert i j. induction l as [|z l IH]; intros [|i] [|j] H; simpl; auto; try congruence.
  now rewrite IH by congruence.
Qed.

Lemma update_self {A} (l : list A) (i : nat) (d : A) : update l i (nth i l d) = l.
Proof.
  revert i. induction l as [|z l IH]; intros [|i]; simpl; auto. now rewrite IH.
Qed.

Lemma split_bits (bs : list bool) (A : nat) :
  (A < length bs)%nat ->
  exists pre b post, bs = pre ++ b :: post /\ length pre = A
                     /\ length post = (length bs - A - 1)%nat.
Proof.
  intros H. exists (firstn A bs), (nth A bs false), (skipn (S A) bs).
  split; [now apply split_at|]. rewrite length_firstn, length_skipn. lia.
Qed.

Lemma b2n_lt2 (b : bool) : (Nat.b2n b < 2)%nat.
Proof. destruct b; simpl; lia. Qed.

(** ** The contractions act on the qubits they name *)

Lemma einsum1_act_core (pre post : list bool) (b : bool) (w : vec) (U : matrix) :
  amp (einsum_LjR_ij (2 ^ length pre) (2 ^ length post) w U) (pre ++ b :: post)
  = act1 U (length pre) (amp w) (pre ++ b :: post).
Proof.
  unfold amp, act1, bit. rewrite nth_app_mid. unfold bools. cbn [map].
  rewrite !update_app_mid, !idx_of_bits_split.
  rewrite einsum_LjR_ij_nth; [reflexivity | apply idx_of_bits_lt | apply b2n_lt2 | apply idx_of_bits_lt].
Qed.

Lemma einsum1_act (n A : nat) (w : vec) (U : matrix) (bs : list bool) :
  (A < n)%nat -> length bs = n ->
  amp (einsum_LjR_ij (2 ^ A) (2 ^ (n - A - 1)) w U) bs = act1 U A (amp w) bs.
Proof.
  intros HA Hn. destruct (split_bits bs A) as (pre & b & post & -> & Hpre & Hpost); [lia|].
  rewrite Hn in Hpost. rewrite <- Hpost, <- Hpre. apply einsum1_act_core.
Qed.

Lemma split_bits2 (bs : list bool) (A B : nat) :
  (A < B)%nat -> (B < length bs)%nat ->
  exists pre a mid b post,
    bs = pre ++ a :: mid ++ b :: post /\ length pre = A
    /\ length mid = (B - A - 1)%nat /\ length post = (length bs - B - 1)%nat.
Proof.
  intros HAB HB.
  destruct (split_bits bs A) as (pre & a & rest & E & Hpre & Hrest); [lia|].
  destruct (split_bits rest (B - A - 1)) as (mid & b & post & E' & Hmid & Hpost); [lia|].
  exists pre, a, mid, b, post. subst rest. repeat split; auto.
  rewrite Hpost, Hrest. lia.
Qed.

Lemma tget_reshape2222 (U : matrix) (i j k l : nat) :
  (i < 2)%nat -> (j < 2)%nat -> (k < 2)%nat -> (l < 2)%nat ->
  tget (reshape2222 U) i j k l = mget U (2 * i + j) (2 * k + l).
Proof.
  intros Hi Hj Hk Hl.
  destruct i as [|[|i]], j as [|[|j]], k as [|[|k]], l as [|[|l]]; try lia; reflexivity.
Qed.

Lemma tget_swapped (U : matrix) (i j k l : nat) :
  (i < 2)%nat -> (j < 2)%nat -> (k < 2)%nat -> (l < 2)%nat ->
  tget (einsum_ijkl_jilk (reshape2222 U)) j i l k = mget U (2 * i + j) (2 * k + l).
Proof.
  intros Hi Hj Hk Hl.
  destruct i as [|[|i]], j as [|[|j]], k as [|[|k]], l as [|[|l]]; try lia; reflexivity.
Qed.

Lemma idx_of_bits_split2 (pre mid post : list bool) (a b : bool) :
  idx_of_bits (pre ++ a :: mid ++ b :: post)
  = ((((idx_of_bits pre * 2 + Nat.b2n a) * 2 ^ length mid + idx_of_bits mid) * 2 + Nat.b2n b)
     * 2 ^ length post + idx_of_bits post)%nat.
Proof.
  replace (pre ++ a :: mid ++ b :: post) with ((pre ++ a :: mid) ++ b :: post)
    by (rewrite <- app_assoc; reflexivity).
  now rewrite idx_of_bits_split, idx_of_bits_split.
Qed.

Lemma update_two (pre mid post : list bool) (a b x y : bool) :
  update (update (pre ++ a :: mid ++ b :: post) (length pre) x) (length pre + S (length mid)) y
  = pre ++ x :: mid ++ y :: post.
Proof.
  rewrite update_app_mid, update_app_r. f_equal. simpl. f_equal.
  apply update_app_mid.
Qed.

Lemma update_two_rev (pre mid post : list bool) (a b x y : bool) :
  update (update (pre ++ a :: mid ++ b :: post) (length pre + S (length mid)) y) (length pre) x
  = pre ++ x :: mid ++ y :: post.
Proof.
  rewrite update_update_comm by lia. apply update_two.
Qed.

Lemma einsum2_act_lt_core (pre mid post : list bool) (a b : bool) (w : vec) (U : matrix) :
  amp (einsum_LkMlR_ijkl (2 ^ length pre) (2 ^ length mid) (2 ^ length post) w (reshape2222 U))
      (pre ++ a :: mid ++ b :: post)
  = act2 U (length pre) (length pre + S (length mid)) (amp w) (pre ++ a :: mid ++ b :: post).
Proof.
  unfold amp, act2, bit. rewrite nth_app_mid, nth_app_r. cbn [nth].
  rewrite nth_app_mid. unfold bools. cbn [map flat_map app].
  rewrite !update_two, !idx_of_bits_split2.
  rewrite einsum_LkMlR_ijkl_nth;
    [| apply idx_of_bits_lt | apply b2n_lt2 | apply idx_of_bits_lt | apply b2n_lt2
     | apply idx_of_bits_lt].
  unfold bits2. cbn [map flat_map app Nat.b2n].
  rewrite !tget_reshape2222 by (try apply b2n_lt2; lia). reflexivity.
Qed.

Lemma einsum2_act_gt_core (pre mid post : list bool) (a b : bool) (w : vec) (U : matrix) :
  amp (einsum_LkMlR_ijkl (2 ^ length pre) (2 ^ length mid) (2 ^ length post) w
         (einsum_ijkl_jilk (reshape2222 U)))
      (pre ++ b :: mid ++ a :: post)
  = act2 U (length pre + S (length mid)) (length pre) (amp w) (pre ++ b :: mid ++ a :: post).
Proof.
  unfold amp, act2, bit. rewrite nth_app_mid, nth_app_r. cbn [nth].
  rewrite nth_app_mid. unfold bools. cbn [map flat_map app].
  rewrite !update_two_rev, !idx_of_bits_split2.
  rewrite einsum_LkMlR_ijkl_nth;
    [| apply idx_of_bits_lt | apply b2n_lt2 | apply idx_of_bits_lt | apply b2n_lt2
     | apply idx_of_bits_lt].
  unfold bits2. cbn [map flat_map app Nat.b2n].
  rewrite !tget_swapped by (try apply b2n_lt2; lia). unfold Csum. cbn [fold_right]. ring.
Qed.

Lemma einsum2_act_lt (n A B : nat) (w : vec) (U : matrix) (bs : list bool) :
  (A < B)%nat -> (B < n)%nat -> length bs = n ->
  amp (einsum_LkMlR_ijkl (2 ^ A) (2 ^ (B - A - 1)) (2 ^ (n - B - 1)) w (reshape2222 U)) bs
  = act2 U A B (amp w) bs.
Proof.
  intros HAB HB Hn.
  destruct (split_bits2 bs A B) as (pre & a & mid & b & post & -> & Hpre & Hmid & Hpost); [lia..|].
  rewrite Hn in Hpost. rewrite <- Hpost, <- Hmid.
  assert (EB : B = (length pre + S (length mid))%nat) by lia.
  clear HAB HB Hmid Hpost Hn. subst A B. apply einsum2_act_lt_core.
Qed.

Lemma einsum2_act_gt (n A B : nat) (w : vec) (U : matrix) (bs : list bool) :
  (B < A)%nat -> (A < n)%nat -> length bs = n ->
  amp (einsum_LkMlR_ijkl (2 ^ B) (2 ^ (A - B - 1)) (2 ^ (n - A - 1)) w
         (einsum_ijkl_jilk (reshape2222 U))) bs
  = act2 U A B (amp w) bs.
Proof.
  intros HBA HA Hn.
  destruct (split_bits2 bs B A) as (pre & b & mid & a & post & -> & Hpre & Hmid & Hpost); [lia..|].
  rewrite Hn in Hpost. rewrite <- Hpost, <- Hmid.
  assert (EA : A = (length pre + S (length mid))%nat) by lia.
  clear HBA HA Hmid Hpost Hn. subst B A. apply einsum2_act_gt_core.
Qed.

(** ** One gate application *)

Lemma to_nat_pow2 (a : Z) : 0 <= a -> Z.to_nat (2 ^ a) = (2 ^ Z.to_nat a)%nat.
Proof.
  intros Ha. rewrite <- (Z2Nat.id a) at 1 by exact Ha.
  generalize (Z.to_nat a). intros k. induction k as [|k IH].
  - reflexivity.
  - rewrite Nat2Z.inj_succ, Z.pow_succ_r by lia. rewrite Z2Nat.inj_mul by lia.
    rewrite IH. rewrite Nat.pow_succ_r'. reflexivity.
Qed.

Lemma Gate_copy_valid (g : Gate) :
  Gate_copy g = Ok g ->
  0 < gN g /\ has_shape (Gate_U g) (Z.to_nat (2 ^ gN g)) (Z.to_nat (2 ^ gN g)) = true.
Proof.
  unfold Gate_copy, Gate_init, Gate_U.
  destruct (gN g <=? 0) eqn:E1; [discriminate|].
  destruct (has_shape _ _ _) eqn:E2; [|discriminate].
  intros _. apply Z.leb_gt in E1. auto.
Qed.

Lemma simulable_cases (n : Z) (kg : coord * Gate) :
  simulable n kg ->
  (exists A, snd (fst kg) = [A] /\ gN (snd kg) = 1 /\ 0 <= A < n
             /\ has_shape (Gate_U (snd kg)) 2 2 = true)
  \/ (exists A B, snd (fst kg) = [A; B] /\ gN (snd kg) = 2 /\ 0 <= A < n /\ 0 <= B < n
                  /\ A <> B /\ has_shape (Gate_U (snd kg)) 4 4 = true).
Proof.
  intros (Hcopy & HN & Hlen & Hq & Hnd).
  apply Gate_copy_valid in Hcopy. destruct Hcopy as [_ Hshape].
  destruct kg as [[T key] g]. simpl in *. unfold zlen in Hlen.
  destruct HN as [HN | HN]; rewrite HN in *.
  - left. destruct key as [|A [|B key]]; simpl in Hlen; try lia.
    exists A. inversion Hq. subst. auto.
  - right. destruct key as [|A [|B [|D key]]]; simpl in Hlen; try lia.
    exists A, B. inversion Hq as [|? ? HA Hq']. inversion Hq'. subst.
    inversion Hnd as [|? ? Hnot _]. subst.
    repeat split; auto; try lia. intros ->. apply Hnot. now left.
Qed.

Lemma pow2_split1 (n a : nat) : (a < n)%nat -> (2 ^ a * (2 * 2 ^ (n - a - 1)) = 2 ^ n)%nat.
Proof.
  intros H. replace n with (a + S (n - a - 1))%nat at 2 by lia.
  rewrite Nat.pow_add_r, Nat.pow_succ_r'. reflexivity.
Qed.

Lemma pow2_split2 (n a b : nat) :
  (a < b)%nat -> (b < n)%nat ->
  (2 ^ a * (2 * (2 ^ (b - a - 1) * (2 * 2 ^ (n - b - 1)))) = 2 ^ n)%nat.
Proof.
  intros Hab Hb. replace n with (a + S ((b - a - 1) + S (n - b - 1)))%nat at 2 by lia.
  rewrite Nat.pow_add_r, Nat.pow_succ_r', Nat.pow_add_r, Nat.pow_succ_r'. reflexivity.
Qed.

Lemma gate_apply_length (n : Z) (w : vec) (kg : coord * Gate) :
  0 <= n -> simulable n kg -> length (gate_apply n w kg) = (2 ^ Z.to_nat n)%nat.
Proof.
  intros Hn Hs. unfold gate_apply.
  destruct (simulable_cases n kg Hs) as [(A & -> & _ & HA & _) | (A & B & -> & _ & HA & HB & HAB & _)].
  - rewrite einsum_LjR_ij_length, !to_nat_pow2 by lia.
    replace (Z.to_nat (n - A - 1)) with (Z.to_nat n - Z.to_nat A - 1)%nat by lia.
    apply pow2_split1. lia.
  - destruct (Z.gtb_spec A B).
    + rewrite einsum_LkMlR_ijkl_length, !to_nat_pow2 by lia.
      replace (Z.to_nat (A - B - 1)) with (Z.to_nat A - Z.to_nat B - 1)%nat by lia.
      replace (Z.to_nat (n - A - 1)) with (Z.to_nat n - Z.to_nat A - 1)%nat by lia.
      apply pow2_split2; lia.
    + rewrite einsum_LkMlR_ijkl_length, !to_nat_pow2 by lia.
      replace (Z.to_nat (B - A - 1)) with (Z.to_nat B - Z.to_nat A - 1)%nat by lia.
      replace (Z.to_nat (n - B - 1)) with (Z.to_nat n - Z.to_nat B - 1)%nat by lia.
      apply pow2_split2; lia.
Qed.

Lemma gate_apply_act (n : Z) (w : vec) (kg : coord * Gate) (bs : list bool) :
  0 <= n -> simulable n kg -> length bs = Z.to_nat n ->
  amp (gate_apply n w kg) bs = act kg (amp w) bs.
Proof.
  intros Hn Hs Hbs. unfold gate_apply, act.
  destruct (simulable_cases n kg Hs) as [(A & -> & _ & HA & _) | (A & B & -> & _ & HA & HB & HAB & _)].
  - rewrite !to_nat_pow2 by lia.
    replace (Z.to_nat (n - A - 1)) with (Z.to_nat n - Z.to_nat A - 1)%nat by lia.
    apply einsum1_act; [lia | exact Hbs].
  - destruct (Z.gtb_spec A B).
    + rewrite !to_nat_pow2 by lia.
      replace (Z.to_nat (A - B - 1)) with (Z.to_nat A - Z.to_nat B - 1)%nat by lia.
      replace (Z.to_nat (n - A - 1)) with (Z.to_nat n - Z.to_nat A - 1)%nat by lia.
      apply einsum2_act_gt; [lia | lia | exact Hbs].
    + rewrite !to_nat_pow2 by lia.
      replace (Z.to_nat (B - A - 1)) with (Z.to_nat B - Z.to_nat A - 1)%nat by lia.
      replace (Z.to_nat (n - B - 1)) with (Z.to_nat n - Z.to_nat B - 1)%nat by lia.
      apply einsum2_act_lt; [lia | lia | exact Hbs].
Qed.

Lemma zlen_pow2 (w : vec) (n : Z) :
  0 <= n -> (length w = (2 ^ Z.to_nat n)%nat <-> zlen w = 2 ^ n).
Proof.
  intros Hn. unfold zlen. rewrite <- to_nat_pow2 by exact Hn.
  assert (0 < 2 ^ n) by (apply Z.pow_pos_nonneg; lia). lia.
Qed.

Lemma apply_gate_1_array_ok (n : Z) (w1 w2 : vec) (kg : coord * Gate) (A : Z) :
  0 <= n -> zlen w1 = 2 ^ n -> zlen w2 = 2 ^ n ->
  snd (fst kg) = [A] -> 0 <= A < n -> has_shape (Gate_U (snd kg)) 2 2 = true ->
  apply_gate_1_array w1 w2 (Gate_U (snd kg)) A = Ok (gate_apply n w1 kg).
Proof.
  intros Hn H1 H2 Hkey HA HU. unfold apply_gate_1_array, gate_apply.
  rewrite Hkey, (infer_N_pow2 w1 n Hn H1), HU.
  rewrite (shape_pow2_true w1 n Hn H1), (shape_pow2_true w2 n Hn H2).
  destruct (Z.geb_spec A n); [lia|]. destruct (Z.ltb_spec A 0); [lia|]. reflexivity.
Qed.

Lemma apply_gate_2_array_ok (n : Z) (w1 w2 : vec) (kg : coord * Gate) (A B : Z) :
  0 <= n -> zlen w1 = 2 ^ n -> zlen w2 = 2 ^ n ->
  snd (fst kg) = [A; B] -> 0 <= A < n -> 0 <= B < n -> A <> B ->
  has_shape (Gate_U (snd kg)) 4 4 = true ->
  apply_gate_2_array w1 w2 (Gate_U (snd kg)) A B = Ok (gate_apply n w1 kg).
Proof.
  intros Hn H1 H2 Hkey HA HB HAB HU. unfold apply_gate_2_array, gate_apply.
  rewrite Hkey, (infer_N_pow2 w1 n Hn H1), HU.
  rewrite (shape_pow2_true w1 n Hn H1), (shape_pow2_true w2 n Hn H2).
  destruct (Z.geb_spec A n); [lia|]. destruct (Z.geb_spec B n); [lia|].
  destruct (Z.eqb_spec A B); [lia|]. simpl.
  destruct (Z.gtb_spec A B).
  - destruct (Z.ltb_spec B 0); [lia|]. reflexivity.
  - destruct (Z.ltb_spec A 0); [lia|]. reflexivity.
Qed.

Lemma apply_entry_run (n : Z) (h : store) (wfn1 wfn2 : ref) (w1 w2 : vec) (kg : coord * Gate) :
  0 <= n -> nth_error h wfn1 = Some w1 -> nth_error h wfn2 = Some w2 ->
  zlen w1 = 2 ^ n -> zlen w2 = 2 ^ n -> simulable n kg ->
  apply_entry (wfn1, wfn2) kg h = (update h wfn2 (gate_apply n w1 kg), Ok (wfn2, wfn1)).
Proof.
  intros Hn Hw1 Hw2 H1 H2 Hs. unfold apply_entry.
  destruct (simulable_cases n kg Hs)
    as [(A & Hkey & HN & HA & HU) | (A & B & Hkey & HN & HA & HB & HAB & HU)];
    destruct kg as [[T key2] gate]; simpl in Hkey, HN, HU; subst key2; rewrite HN; simpl.
  - pose proof (apply_gate_1_array_ok n w1 w2 ((T, [A]), gate) A Hn H1 H2 eq_refl HA HU) as E.
    cbn [fst snd] in E.
    unfold apply_gate_1, bindM, load, lift, write, ret. simpl. rewrite Hw1, Hw2, E. reflexivity.
  - pose proof (apply_gate_2_array_ok n w1 w2 ((T, [A; B]), gate) A B Hn H1 H2 eq_refl
                  HA HB HAB HU) as E.
    cbn [fst snd] in E.
    unfold apply_gate_2, bindM, load, lift, write, ret. simpl. rewrite Hw1, Hw2, E. reflexivity.
Qed.

Lemma run_gates_length (n : Z) (l : list (coord * Gate)) (w : vec) :
  0 <= n -> Forall (simulable n) l -> zlen w = 2 ^ n -> zlen (run_gates n l w) = 2 ^ n.
Proof.
  intros Hn Hl. revert w. induction Hl as [|kg l Hkg Hl IH]; intros w Hw; simpl; [exact Hw|].
  apply IH. apply zlen_pow2; [exact Hn|]. now apply gate_apply_length.
Qed.

Lemma forM_run (n : Z) (l : list (coord * Gate)) :
  0 <= n -> Forall (simulable n) l ->
  forall (h : store) (wfn1 wfn2 : ref) (w1 w2 : vec),
    wfn1 <> wfn2 -> nth_error h wfn1 = Some w1 -> nth_error h wfn2 = Some w2 ->
    zlen w1 = 2 ^ n -> zlen w2 = 2 ^ n ->
    exists h' b1 b2 w2',
      forM apply_entry l (wfn1, wfn2) h = (h', Ok (b1, b2))
      /\ b1 <> b2
      /\ nth_error h' b1 = Some (run_gates n l w1)
      /\ nth_error h' b2 = Some w2'
      /\ zlen w2' = 2 ^ n.
Proof.
  intros Hn Hl. induction Hl as [|kg l Hkg Hl IH]; intros h wfn1 wfn2 w1 w2 Hne Hw1 Hw2 H1 H2.
  - exists h, wfn1, wfn2, w2. simpl. auto.
  - cbn [forM]. unfold bindM at 1.
    rewrite (apply_entry_run n h wfn1 wfn2 w1 w2 kg Hn Hw1 Hw2 H1 H2 Hkg).
    assert (Hlt : (wfn2 < length h)%nat) by (apply nth_error_Some; congruence).
    destruct (IH (update h wfn2 (gate_apply n w1 kg)) wfn2 wfn1 (gate_apply n w1 kg) w1)
      as (h' & b1 & b2 & w2' & Hrun & Hb & Hc1 & Hc2 & Hl2); auto.
    + now apply update_nth_error_same.
    + rewrite update_nth_error_other by auto. exact Hw1.
    + apply zlen_pow2; [exact Hn|]. now apply gate_apply_length.
    + exists h', b1, b2, w2'. auto.
Qed.

(** ** [subset([T])] *)

Lemma foldM_filter_map {A} (body : Circuit -> A -> result Circuit) (p : A -> bool)
    (f : A -> coord * Gate) (l : list A) (s : Circuit) :
  (forall s x, In x l -> body s x = if p x then add_entry s (f x) else Ok s) ->
  foldM body l s = foldM add_entry (map f (filter p l)) s.
Proof.
  revert s. induction l as [|x l IH]; intros s H; simpl; [reflexivity|].
  rewrite H by now left. destruct (p x); simpl.
  - destruct (add_entry s (f x)); simpl; [|reflexivity]. apply IH. intros. apply H. now right.
  - apply IH. intros. apply H. now right.
Qed.

Lemma ForallOrdPairs_of_map {A B} (f : A -> B) (R : B -> B -> Prop) (l : list A) :
  ForallOrdPairs R (map f l) -> ForallOrdPairs (fun x y => R (f x) (f y)) l.
Proof.
  induction l as [|a l IH]; simpl; intros H; [constructor|].
  inversion H as [|? ? Ha Hl]. subst. constructor; [|auto].
  rewrite Forall_forall in *. intros b Hb. apply Ha. now apply in_map.
Qed.

Lemma ForallOrdPairs_filter {A} (R : A -> A -> Prop) (p : A -> bool) (l : list A) :
  ForallOrdPairs R l -> ForallOrdPairs R (filter p l).
Proof.
  induction 1 as [|a l Ha Hl IH]; simpl; [constructor|].
  destruct (p a); [|exact IH]. constructor; [|exact IH].
  rewrite Forall_forall in *. intros b Hb. apply filter_In in Hb. now apply Ha.
Qed.

Lemma NoDup_filter_map {K E} (key : E -> K) (keep : E -> bool) (es : list E) :
  NoDup (map key es) -> NoDup (map key (filter keep es)).
Proof.
  intros Hnd. induction es as [|e es IH]; cbn [filter map]; [constructor|].
  apply NoDup_cons_iff in Hnd. destruct Hnd as [Hnot Hnd].
  destruct (keep e); cbn [map]; [|auto]. apply NoDup_cons; [|auto].
  intros Hin. apply Hnot. apply in_map_iff in Hin. destruct Hin as [e' [He' Hin]].
  apply filter_In in Hin. rewrite <- He'. apply in_map. tauto.
Qed.

Lemma ForallOrdPairs_impl_In {A} (R R' : A -> A -> Prop) (l : list A) :
  ForallOrdPairs R l -> (forall a b, In a l -> In b l -> R a b -> R' a b) ->
  ForallOrdPairs R' l.
Proof.
  induction 1 as [|a l Ha Hl IH]; intros H; constructor.
  - rewrite Forall_forall in *. intros b Hb. apply H; [now left | now right | auto].
  - apply IH. intros x y Hx Hy. apply H; now right.
Qed.

Lemma moment_placeable (N T : Z) (l : list (coord * Gate)) :
  placeable N l ->
  placeable N (map at_moment_0 (filter (fun kg => fst (fst kg) =? T) l)).
Proof.
  intros (Hnd & Hok & Hdis).
  set (p := fun kg : coord * Gate => fst (fst kg) =? T).
  assert (HT : forall kg, In kg (filter p l) -> fst (fst kg) = T).
  { intros kg H. apply filter_In in H. destruct H as [_ H]. now apply Z.eqb_eq in H. }
  repeat split.
  - rewrite map_map. apply NoDup_map_inj.
    + intros x y Hx Hy Hxy. unfold at_moment_0 in Hxy. simpl in Hxy.
      assert (Hk : fst x = fst y).
      { destruct x as [[t1 k1] g1], y as [[t2 k2] g2].
        apply HT in Hx, Hy. simpl in *. inversion Hxy. congruence. }
      apply (NoDup_filter_map fst p) in Hnd.
      destruct (In_nth _ _ x Hx) as (i & Hi & Ei), (In_nth _ _ x Hy) as (j & Hj & Ej).
      assert (i = j).
      { apply (proj1 (NoDup_nth (map fst (filter p l)) (fst x)) Hnd);
          try (rewrite length_map; assumption).
        rewrite !map_nth, Ei, Ej. exact Hk. }
      subst j. congruence.
    + clear -Hnd. induction l as [|a l IH]; simpl; [constructor|].
      inversion Hnd as [|? ? Hnot Hnd']. subst.
      destruct (p a); [|auto]. constructor; [|auto].
      intros Hin. apply Hnot. apply filter_In in Hin. destruct Hin as [Hin _].
      now apply in_map.
  - rewrite Forall_forall in *. intros kg Hkg. apply in_map_iff in Hkg.
    destruct Hkg as [kg0 [<- Hkg0]]. apply filter_In in Hkg0. destruct Hkg0 as [Hkg0 _].
    destruct (Hok kg0 Hkg0) as (H1 & H2 & H3). unfold entry_ok, at_moment_0. simpl.
    repeat split; [lia | exact H2 | exact H3].
  - rewrite map_map. apply ForallOrdPairs_map. apply ForallOrdPairs_of_map in Hdis.
    pose proof (ForallOrdPairs_filter _ p l Hdis) as Hf.
    eapply ForallOrdPairs_impl_In; [exact Hf|].
    intros a b Ha Hb Hab s Hs1 Hs2.
    apply key_slots_In in Hs1, Hs2. unfold at_moment_0 in Hs1, Hs2. simpl in Hs1, Hs2.
    apply HT in Ha, Hb.
    apply (Hab (T, snd s)); apply key_slots_In; simpl; split; (congruence || tauto).
Qed.

Lemma subset_moment (c : Circuit) (T : Z) :
  circuit_inv c ->
  Forall (fun kg => Gate_copy (snd kg) = Ok (snd kg)) (gates c) ->
  T < nmoment c ->
  exists cT, subset c [T] true = Ok cT /\ gates cT = map at_moment_0 (moment_gates c T).
Proof.
  intros Hinv Hcopy HT. unfold subset, Circuit_init.
  pose proof (inv_N c Hinv) as HN.
  destruct (Z.leb_spec (cN c) 0); [lia|]. cbn [bind existsb].
  destruct (Z.geb_spec T (nmoment c)); [lia|]. cbn [orb].
  rewrite (foldM_filter_map _ (fun kg => fst (fst kg) =? T) at_moment_0).
  - destruct (place_all (map at_moment_0 (moment_gates c T)) (mkCircuit (cN c) [] [] []))
      as (cT & Hf & Hg & _).
    + apply (Circuit_init_inv (cN c)). unfold Circuit_init.
      destruct (Z.leb_spec (cN c) 0); [lia | reflexivity].
    + simpl. apply moment_placeable. apply (inv_gates c Hinv).
    + exists cT. split; [exact Hf | exact Hg].
  - intros s [[T' key2] gate] Hin. cbn [fst snd existsb].
    rewrite Forall_forall in Hcopy. specialize (Hcopy _ Hin). simpl in Hcopy.
    rewrite orb_false_r. destruct (Z.eqb_spec T' T) as [-> | Hne]; [|reflexivity].
    cbn [index_of]. rewrite Z.eqb_refl. cbn [bind]. rewrite Hcopy. reflexivity.
Qed.

Lemma simulable_at_moment_0 (n : Z) (kg : coord * Gate) :
  simulable n kg -> simulable n (at_moment_0 kg).
Proof. intros H. exact H. Qed.

Lemma run_gates_at_moment_0 (n : Z) (l : list (coord * Gate)) (w : vec) :
  run_gates n (map at_moment_0 l) w = run_gates n l w.
Proof.
  revert w. induction l as [|kg l IH]; intros w; simpl; [reflexivity|].
  rewrite IH. reflexivity.
Qed.

Lemma run_gates_app (n : Z) (l1 l2 : list (coord * Gate)) (w : vec) :
  run_gates n (l1 ++ l2) w = run_gates n l2 (run_gates n l1 w).
Proof. apply fold_left_app. Qed.

Lemma last_yield_nonempty (ys : list (Z * ref)) (a b : option ref) :
  ys <> [] ->
  fold_left (fun _ y => Some (snd y)) ys a = fold_left (fun _ y => Some (snd y)) ys b.
Proof. destruct ys as [|y ys]; [congruence | reflexivity]. Qed.

Lemma simulate_moments_run (c : Circuit) (Ts' : list Z) :
  circuit_inv c -> Forall (simulable (cN c)) (gates c) ->
  Forall (fun T => T < nmoment c) Ts' ->
  forall (h : store) (wfn1 wfn2 : ref) (w1 w2 : vec),
    wfn1 <> wfn2 -> nth_error h wfn1 = Some w1 -> nth_error h wfn2 = Some w2 ->
    zlen w1 = 2 ^ cN c -> zlen w2 = 2 ^ cN c ->
    exists h' ys,
      simulate_moments c Ts' (wfn1, wfn2) h = (h', Ok ys)
      /\ map fst ys = Ts'
      /\ state_of h' (fold_left (fun _ y => Some (snd y)) ys (Some wfn1))
         = Some (run_gates (cN c) (flat_map (moment_gates c) Ts') w1).
Proof.
  intros Hinv Hsim HTs.
  assert (Hn : 0 <= cN c) by (pose proof (inv_N c Hinv); lia).
  assert (Hcopy : Forall (fun kg => Gate_copy (snd kg) = Ok (snd kg)) (gates c)).
  { eapply Forall_impl; [|exact Hsim]. intros kg H. apply H. }
  induction HTs as [|T rest HT Hrest IH]; intros h wfn1 wfn2 w1 w2 Hne Hw1 Hw2 H1 H2.
  - exists h, []. simpl. auto.
  - cbn [simulate_moments].
    destruct (subset_moment c T Hinv Hcopy HT) as (cT & HcT & HgT).
    rewrite HcT. unfold bindM at 1. cbn [lift]. unfold bindM at 1.
    assert (HsT : Forall (simulable (cN c)) (gates cT)).
    { rewrite HgT. rewrite Forall_forall in *. intros kg Hkg.
      apply in_map_iff in Hkg. destruct Hkg as [kg0 [<- Hkg0]].
      apply simulable_at_moment_0, Hsim. unfold moment_gates in Hkg0.
      apply filter_In in Hkg0. tauto. }
    destruct (forM_run (cN c) (gates cT) Hn HsT h wfn1 wfn2 w1 w2 Hne Hw1 Hw2 H1 H2)
      as (h1 & b1 & b2 & w2' & Hrun & Hb & Hc1 & Hc2 & Hl2).
    rewrite Hrun.
    destruct (IH h1 b1 b2 _ w2' Hb Hc1 Hc2) as (h' & ys & Hm & Hfst & Hstate); [|exact Hl2|].
    { apply run_gates_length; assumption. }
    unfold bindM at 1. rewrite Hm. cbn [ret fst].
    exists h', ((T, b1) :: ys). split; [reflexivity|]. split; [simpl; now rewrite Hfst|].
    cbn [fold_left snd flat_map]. rewrite Hstate, run_gates_app.
    rewrite HgT, run_gates_at_moment_0. reflexivity.
Qed.

Lemma zero_state_length (n : Z) : 0 <= n -> zlen (zero_state n) = 2 ^ n.
Proof.
  intros Hn. unfold zero_state, zeros, zlen. rewrite update_length, repeat_length.
  assert (0 < 2 ^ n) by (apply Z.pow_pos_nonneg; lia). lia.
Qed.

Lemma range_bound (n x : Z) : In x (range n) -> 0 <= x < n.
Proof.
  unfold range. intros H. apply in_map_iff in H. destruct H as [i [<- Hi]].
  apply in_seq in Hi. lia.
Qed.

Lemma range_nil (n : Z) : range n = [] <-> n <= 0.
Proof.
  unfold range. split.
  - intros H. apply map_eq_nil in H. destruct (Z.to_nat n) eqn:E; [lia | discriminate].
  - intros H. replace (Z.to_nat n) with 0%nat by lia. reflexivity.
Qed.

(** The outcome of [simulate] on a circuit whose gates can be simulated:
    it returns, and the state it returns is the fold of the gate
    applications over the schedule. *)
Lemma simulate_run (c : Circuit) (wfn : option ref) (h : store) (w0 : vec) :
  circuit_inv c -> Forall (simulable (cN c)) (gates c) ->
  match wfn with
  | None => w0 = zero_state (cN c)
  | Some r => nth_error h r = Some w0 /\ zlen w0 = 2 ^ cN c
  end ->
  exists h' res,
    simulate c wfn h = (h', Ok res)
    /\ ((nmoment c = 0 /\ res = wfn)
        \/ (0 < nmoment c /\ state_of h' res = Some (run_gates (cN c) (schedule c) w0))).
Proof.
  intros Hinv Hsim Hinit.
  assert (Hn : 0 <= cN c) by (pose proof (inv_N c Hinv); lia).
  assert (Hlen0 : zlen w0 = 2 ^ cN c).
  { destruct wfn; [tauto | subst; now apply zero_state_length]. }
  set (h1 := h ++ [w0]). set (h2 := h1 ++ [w0]). set (h3 := h2 ++ [zeros (zlen w0)]).
  assert (Esteps : simulate_steps c wfn h
                   = simulate_moments c (range (nmoment c)) (S (length h), S (S (length h))) h3).
  { unfold simulate_steps, bindM, load, alloc. destruct wfn as [r|].
    - destruct Hinit as [Hr _]. rewrite Hr. cbn [fst snd]. rewrite nth_error_snoc.
      unfold h3, h2, h1. rewrite !length_app. simpl. rewrite !Nat.add_1_r. reflexivity.
    - subst w0. fold (zero_state (cN c)). rewrite nth_error_snoc.
      unfold h3, h2, h1. rewrite !length_app. simpl. rewrite !Nat.add_1_r. reflexivity. }
  destruct (simulate_moments_run c (range (nmoment c)) Hinv Hsim) with
    (h := h3) (wfn1 := S (length h)) (wfn2 := S (S (length h))) (w1 := w0)
    (w2 := zeros (zlen w0)) as (h' & ys & Hm & Hfst & Hstate).
  - rewrite Forall_forall. intros x Hx. apply range_bound in Hx. lia.
  - lia.
  - unfold h3, h2, h1. rewrite nth_error_app1 by (rewrite !length_app; simpl; lia).
    replace (S (length h)) with (length (h ++ [w0])) by (rewrite length_app; simpl; lia).
    apply nth_error_snoc.
  - unfold h3.
    replace (S (S (length h))) with (length h2)
      by (unfold h2, h1; rewrite !length_app; simpl; lia).
    apply nth_error_snoc.
  - exact Hlen0.
  - unfold zeros, zlen. rewrite repeat_length. unfold zlen in Hlen0. lia.
  - exists h', (fold_left (fun _ y => Some (snd y)) ys wfn).
    split.
    + unfold simulate, bindM. rewrite Esteps, Hm. reflexivity.
    + destruct (Z_le_gt_dec (nmoment c) 0) as [Hz | Hpos].
      * left. pose proof (nmoment_nonneg c Hinv). split; [lia|].
        assert (Hr : range (nmoment c) = []) by (apply range_nil; exact Hz).
        rewrite Hr in Hfst. apply map_eq_nil in Hfst. now subst ys.
      * right. split; [lia|].
        rewrite (last_yield_nonempty ys wfn (Some (S (length h)))); [exact Hstate|].
        intros ->. simpl in Hfst. symmetry in Hfst. apply range_nil in Hfst. lia.
Qed.

(** ** A single Hadamard gate on qubit 0 *)

Lemma nth_zero_state (n : Z) (k : nat) :
  0 <= n -> nth k (zero_state n) C0 = if (k =? 0)%nat then C1 else C0.
Proof.
  intros Hn. unfold zero_state, zeros.
  assert (Hpos : (0 < Z.to_nat (2 ^ n))%nat).
  { assert (0 < 2 ^ n) by (apply Z.pow_pos_nonneg; lia). lia. }
  destruct (Z.to_nat (2 ^ n)) as [|m]; [lia|]. simpl.
  destruct k as [|k]; simpl; [reflexivity|].
  destruct (Nat.lt_ge_cases k m) as [Hk | Hk].
  - apply nth_repeat_lt. exact Hk.
  - apply nth_overflow. rewrite repeat_length. exact Hk.
Qed.

Lemma circuit_H0_eq (N : Z) :
  1 <= N -> circuit_H0 N = mkCircuit N [((0, [0]), Gate_H)] [0] [(0, 0)].
Proof.
  intros HN. unfold circuit_H0, add_gate. cbn [key_tuple Z.ltb Z.compare check_open TAs set_mem existsb cN].
  destruct (Z.geb_spec 0 N); [lia|]. reflexivity.
Qed.

Lemma circuit_H0_reachable (N : Z) : 1 <= N -> reachable (circuit_H0 N).
Proof.
  intros HN. unfold circuit_H0. apply reachable_add.
  - apply (reach_init N). unfold Circuit_init. destruct (Z.leb_spec N 0); [lia | reflexivity].
  - fold (circuit_H0 N). unfold add_gate.
    cbn [key_tuple Z.ltb Z.compare check_open TAs set_mem existsb cN].
    destruct (Z.geb_spec 0 N); [lia|]. reflexivity.
Qed.

Lemma mget_H_col0 (i : nat) : (i < 2)%nat -> mget Matrix.H i 0 = Matrix.inv_sqrt2.
Proof.
  intros Hi. destruct i as [|[|i]]; try lia; unfold mget, Matrix.H; simpl; ring.
Qed.

Lemma simulable_H0 (N : Z) : 1 <= N -> simulable N ((0, [0]), Gate_H).
Proof.
  intros HN. unfold simulable. cbn [fst snd].
  split; [reflexivity|]. split; [now left|]. split; [reflexivity|].
  split; [constructor; [lia | constructor] | constructor; [intros [] | constructor]].
Qed.

Lemma hadamard_amp (N : Z) (bs : list bool) :
  1 <= N -> length bs = Z.to_nat N ->
  amp (gate_apply N (zero_state N) ((0, [0]), Gate_H)) bs
  = if (idx_of_bits (tl bs) =? 0)%nat then Matrix.inv_sqrt2 else C0.
Proof.
  intros HN Hbs.
  rewrite gate_apply_act; [| lia | | exact Hbs].
  2:{ apply simulable_H0. exact HN. }
  destruct bs as [|b post]; [simpl in Hbs; lia|].
  unfold act, act1, bit, amp. cbn [fst snd Z.to_nat nth update bools map tl].
  rewrite !nth_zero_state by lia. rewrite !idx_of_bits_cons.
  change (Gate_U Gate_H) with Matrix.H.
  rewrite !mget_H_col0 by apply b2n_lt2.
  cbn [Nat.b2n]. rewrite Nat.mul_0_l, Nat.mul_1_l, Nat.add_0_l.
  assert (Hp : (0 < 2 ^ length post)%nat) by (apply Nat.neq_0_lt_0, Nat.pow_nonzero; lia).
  destruct (Nat.eqb_spec (idx_of_bits post) 0) as [E | E].
  - destruct (Nat.eqb_spec (2 ^ length post + idx_of_bits post) 0); [lia|].
    unfold Csum. cbn [fold_right]. ring.
  - destruct (Nat.eqb_spec (2 ^ length post + idx_of_bits post) 0); [lia|].
    unfold Csum. cbn [fold_right]. ring.
Qed.

(** C2. For [N >= 1], simulating the circuit with one Hadamard gate on
    qubit 0 at moment 0 from the default initial state returns a state of
    [2^N] amplitudes that is [1/sqrt(2)] at the indices 0 and [2^(N-1)] and 0
    at every other index. *)
Theorem hadamard_on_qubit_0 (N : Z) (h : store) :
  1 <= N ->
  exists h' r v,
    simulate (circuit_H0 N) None h = (h', Ok (Some r))
    /\ nth_error h' r = Some v
    /\ zlen v = 2 ^ N
    /\ forall i, 0 <= i < 2 ^ N ->
         nth (Z.to_nat i) v C0
         = if (i =? 0) || (i =? 2 ^ (N - 1)) then RtoC (1 / sqrt 2) else C0.
Proof.
  intros HN.
  pose proof (circuit_H0_reachable N HN) as Hr.
  pose proof (reachable_inv _ Hr) as Hinv.
  assert (Hsim : Forall (simulable (cN (circuit_H0 N))) (gates (circuit_H0 N))).
  { rewrite circuit_H0_eq by exact HN. cbn [cN gates]. constructor; [|constructor].
    apply simulable_H0. exact HN. }
  destruct (simulate_run (circuit_H0 N) None h (zero_state N) Hinv Hsim) as (h' & res & Hs & Hres).
  { rewrite circuit_H0_eq by exact HN. reflexivity. }
  assert (Hsched : schedule (circuit_H0 N) = [((0, [0]), Gate_H)]).
  { rewrite circuit_H0_eq by exact HN. reflexivity. }
  assert (HcN : cN (circuit_H0 N) = N) by (rewrite circuit_H0_eq by exact HN; reflexivity).
  destruct Hres as [[Hz _] | [_ Hstate]].
  { rewrite circuit_H0_eq in Hz by exact HN. discriminate. }
  rewrite Hsched, HcN in Hstate. cbn [run_gates fold_left] in Hstate.
  destruct res as [r|]; [|discriminate]. cbn [state_of] in Hstate.
  set (v := gate_apply N (zero_state N) ((0, [0]), Gate_H)) in *.
  assert (Hlen : length v = (2 ^ Z.to_nat N)%nat).
  { apply gate_apply_length; [lia | now apply simulable_H0]. }
  exists h', r, v. split; [exact Hs|]. split; [exact Hstate|].
  split; [apply zlen_pow2; [lia | exact Hlen]|].
  intros i Hi.
  destruct (idx_of_bits_onto (Z.to_nat N) (Z.to_nat i)) as [bs [Hbs Hidx]].
  { rewrite <- to_nat_pow2 by lia. lia. }
  pose proof (hadamard_amp N bs HN Hbs) as Hamp. fold v in Hamp.
  unfold amp in Hamp. rewrite Hidx in Hamp. rewrite Hamp.
  destruct bs as [|b post]; [simpl in Hbs; lia|]. cbn [tl].
  rewrite idx_of_bits_cons in Hidx.
  assert (Hpost : length post = Z.to_nat (N - 1)) by (simpl in Hbs; lia).
  pose proof (idx_of_bits_lt post) as Hlt.
  assert (Hpow : Z.of_nat (2 ^ length post) = 2 ^ (N - 1)).
  { rewrite Hpost, <- to_nat_pow2 by lia.
    assert (0 < 2 ^ (N - 1)) by (apply Z.pow_pos_nonneg; lia). lia. }
  unfold Matrix.inv_sqrt2.
  destruct (Nat.eqb_spec (idx_of_bits post) 0) as [E | E].
  - rewrite E, Nat.add_0_r in Hidx.
    destruct b; cbn [Nat.b2n] in Hidx.
    + assert (i = 2 ^ (N - 1)) by lia. subst i. rewrite Z.eqb_refl, orb_true_r. reflexivity.
    + assert (i = 0) by lia. subst i. reflexivity.
  - destruct (Z.eqb_spec i 0) as [-> | H0].
    { exfalso. destruct b; cbn [Nat.b2n] in Hidx; simpl in Hidx; lia. }
    destruct (Z.eqb_spec i (2 ^ (N - 1))) as [-> | H1]; [|reflexivity].
    exfalso. destruct b; cbn [Nat.b2n] in Hidx; lia.
Qed.

Lemma hadamard_on_qubit_0_witness :
  exists h' r v,
    simulate (circuit_H0 3) None [] = (h', Ok (Some r))
    /\ nth_error h' r = Some v
    /\ zlen v = 2 ^ 3
    /\ forall i, 0 <= i < 2 ^ 3 ->
         nth (Z.to_nat i) v C0
         = if (i =? 0) || (i =? 2 ^ (3 - 1)) then RtoC (1 / sqrt 2) else C0.
Proof.
  apply (hadamard_on_qubit_0 3 []). lia.
Defined.

(** ** Pauli expectation values of [|0...0>] and of the Hadamard state *)

Lemma Csum_app (a b : list C) : Csum (a ++ b) = (Csum a + Csum b)%C.
Proof.
  induction a as [|x a IH]; simpl.
  - ring.
  - fold (Csum (a ++ b)) (Csum a). rewrite IH. ring.
Qed.

Lemma Csum_zero (l : list C) : Forall (fun x => x = C0) l -> Csum l = C0.
Proof.
  induction 1 as [|x l Hx Hl IH]; simpl; [reflexivity|].
  fold (Csum l). rewrite Hx, IH. ring.
Qed.

(** A double sum whose only term that may differ from 0 is the first. *)
Lemma Csum_first_only (g : nat -> nat -> C) (L R : nat) :
  (0 < L)%nat -> (0 < R)%nat ->
  (forall l r, (l < L)%nat -> (r < R)%nat -> (l <> 0 \/ r <> 0)%nat -> g l r = C0) ->
  Csum (flat_map (fun l => map (g l) (seq 0 R)) (seq 0 L)) = g 0%nat 0%nat.
Proof.
  intros HL HR Hg.
  destruct L as [|L]; [lia|]. destruct R as [|R]; [lia|].
  cbn [seq flat_map map]. rewrite Csum_app. cbn [Csum fold_right].
  fold (Csum (map (g 0%nat) (seq 1 R))).
  rewrite (Csum_zero (map (g 0%nat) (seq 1 R))).
  - rewrite Csum_zero; [ring|].
    rewrite Forall_forall. intros x Hx. apply in_flat_map in Hx.
    destruct Hx as [l [Hl Hx]]. apply in_seq in Hl.
    change (g l 0%nat :: map (g l) (seq 1 R)) with (map (g l) (seq 0 (S R))) in Hx.
    apply in_map_iff in Hx. destruct Hx as [r [<- Hr]]. apply in_seq in Hr.
    apply Hg; lia.
  - rewrite Forall_forall. intros x Hx. apply in_map_iff in Hx.
    destruct Hx as [r [<- Hr]]. apply in_seq in Hr. apply Hg; lia.
Qed.

Lemma pdm_entry (L R : nat) (w1 w2 : vec) (i j : nat) :
  (i < 2)%nat -> (j < 2)%nat ->
  mget (einsum_LiR_LjR L R w1 w2) i j
  = Csum (flat_map (fun l => map (fun r =>
      (Cconj (nth ((l * 2 + i) * R + r) w1 C0) * nth ((l * 2 + j) * R + r) w2 C0)%C)
      (seq 0 R)) (seq 0 L)).
Proof.
  intros Hi Hj. destruct i as [|[|i]], j as [|[|j]]; try lia; reflexivity.
Qed.

Lemma pow2_pos_nat (k : nat) : (0 < 2 ^ k)%nat.
Proof. apply Nat.neq_0_lt_0, Nat.pow_nonzero. lia. Qed.

Lemma pdm_zero_state (N : Z) (L R i j : nat) :
  0 <= N -> (0 < L)%nat -> (0 < R)%nat -> (i < 2)%nat -> (j < 2)%nat ->
  mget (einsum_LiR_LjR L R (zero_state N) (zero_state N)) i j
  = if ((i =? 0) && (j =? 0))%nat then C1 else C0.
Proof.
  intros HN HL HR Hi Hj. rewrite pdm_entry by assumption.
  rewrite (Csum_first_only (fun l r =>
    (Cconj (nth ((l * 2 + i) * R + r) (zero_state N) C0)
     * nth ((l * 2 + j) * R + r) (zero_state N) C0)%C)); [| exact HL | exact HR |].
  - rewrite !nth_zero_state by exact HN. cbn [Nat.mul Nat.add].
    destruct i as [|[|i]], j as [|[|j]]; try lia; cbn [Nat.add Nat.mul];
      rewrite ?Nat.add_0_r;
      destruct (Nat.eqb_spec R 0); try lia; cbn [Nat.eqb andb];
      unfold Cconj, C0, C1, RtoC, Cmul; simpl; f_equal; ring.
  - intros l r Hl Hr Hne. rewrite !nth_zero_state by exact HN.
    destruct (Nat.eqb_spec ((l * 2 + i) * R + r) 0) as [E | E]; [nia|].
    unfold Cconj, C0, Cmul, RtoC; simpl; f_equal; ring.
Qed.

Lemma compute_1pdm_ok (N A : Z) (w : vec) :
  0 <= A < N -> zlen w = 2 ^ N ->
  compute_1pdm w w A
  = Ok (einsum_LiR_LjR (2 ^ Z.to_nat A) (2 ^ (Z.to_nat N - Z.to_nat A - 1)) w w).
Proof.
  intros HA Hw. unfold compute_1pdm.
  rewrite (infer_N_pow2 w N) by (assumption || lia).
  rewrite (shape_pow2_true w N) by (assumption || lia).
  destruct (Z.geb_spec A N); [lia|]. destruct (Z.ltb_spec A 0); [lia|]. cbn [negb].
  rewrite !to_nat_pow2 by lia.
  replace (Z.to_nat (N - A - 1)) with (Z.to_nat N - Z.to_nat A - 1)%nat by lia.
  reflexivity.
Qed.

Lemma inv_sqrt2_sq : (1 / sqrt 2 * (1 / sqrt 2))%R = (1 / 2)%R.
Proof.
  assert (H : sqrt 2 <> 0%R) by (apply Rgt_not_eq, sqrt_lt_R0; lra).
  replace (1 / sqrt 2 * (1 / sqrt 2))%R with (1 / (sqrt 2 * sqrt 2))%R by (field; exact H).
  rewrite sqrt_sqrt by lra. reflexivity.
Qed.

Lemma hadamard_state_entry (N : Z) (L R l i r : nat) :
  0 <= N -> (l < L)%nat -> (i < 2)%nat -> (r < R)%nat -> (0 < R)%nat ->
  nth ((l * 2 + i) * R + r) (einsum_LjR_ij L R (zero_state N) Matrix.H) C0
  = if ((l =? 0) && (r =? 0))%nat then Matrix.inv_sqrt2 else C0.
Proof.
  intros HN Hl Hi Hr HR. rewrite einsum_LjR_ij_nth by assumption.
  unfold bits2. cbn [map]. rewrite !nth_zero_state by exact HN.
  rewrite mget_H_col0 by exact Hi.
  destruct (Nat.eqb_spec ((l * 2 + 1) * R + r) 0) as [E | E]; [nia|].
  destruct (Nat.eqb_spec l 0) as [-> | El], (Nat.eqb_spec r 0) as [-> | Er]; cbn [andb].
  - cbn [Nat.mul Nat.add Nat.eqb]. unfold Csum. cbn [fold_right]. ring.
  - destruct (Nat.eqb_spec ((0 * 2 + 0) * R + r) 0) as [E' | E']; [nia|].
    unfold Csum. cbn [fold_right]. ring.
  - destruct (Nat.eqb_spec ((l * 2 + 0) * R + 0) 0) as [E' | E']; [nia|].
    unfold Csum. cbn [fold_right]. ring.
  - destruct (Nat.eqb_spec ((l * 2 + 0) * R + r) 0) as [E' | E']; [nia|].
    unfold Csum. cbn [fold_right]. ring.
Qed.

Lemma pdm_hadamard_state (N : Z) (L R i j : nat) :
  0 <= N -> (0 < L)%nat -> (0 < R)%nat -> (i < 2)%nat -> (j < 2)%nat ->
  mget (einsum_LiR_LjR L R (einsum_LjR_ij L R (zero_state N) Matrix.H)
          (einsum_LjR_ij L R (zero_state N) Matrix.H)) i j
  = RtoC (1 / 2).
Proof.
  intros HN HL HR Hi Hj. rewrite pdm_entry by assumption.
  set (v := einsum_LjR_ij L R (zero_state N) Matrix.H).
  rewrite (Csum_first_only (fun l r =>
    (Cconj (nth ((l * 2 + i) * R + r) v C0) * nth ((l * 2 + j) * R + r) v C0)%C));
    [| exact HL | exact HR |].
  - unfold v. rewrite !hadamard_state_entry by assumption. cbn [Nat.eqb andb].
    unfold Matrix.inv_sqrt2, Cconj, Cmul, RtoC. cbn [fst snd].
    apply injective_projections; cbn [fst snd].
    + rewrite <- inv_sqrt2_sq. ring.
    + ring.
  - intros l r Hl Hr Hne. unfold v. rewrite !hadamard_state_entry by assumption.
    assert (E : ((l =? 0) && (r =? 0))%nat = false).
    { destruct (Nat.eqb_spec l 0), (Nat.eqb_spec r 0); try reflexivity. lia. }
    rewrite E. unfold Cconj, C0, Cmul, RtoC; simpl; f_equal; ring.
Qed.

(** C9. For [0 <= A < N], [compute_pauli_1] on the all-zero basis state
    returns [[I, X, Y, Z] = [1, 0, 0, 1]], and on the state that
    [apply_gate_1] writes for the Hadamard matrix on qubit [A] of the
    all-zero state it returns [[1, 1, 0, 0]]. *)
Theorem pauli_1_zero_and_hadamard (N A : Z) (w2 : vec) :
  0 <= A < N -> zlen w2 = 2 ^ N ->
  compute_pauli_1 (zero_state N) A = Ok [1; 0; 0; 1]%R
  /\ exists v,
       apply_gate_1_array (zero_state N) w2 Matrix.H A = Ok v
       /\ compute_pauli_1 v A = Ok [1; 1; 0; 0]%R.
Proof.
  intros HA Hw2.
  assert (HN : 0 <= N) by lia.
  pose proof (pow2_pos_nat (Z.to_nat A)) as HL.
  pose proof (pow2_pos_nat (Z.to_nat N - Z.to_nat A - 1)) as HR.
  split.
  - unfold compute_pauli_1.
    rewrite (compute_1pdm_ok N A) by (try apply zero_state_length; lia).
    cbn [bind]. rewrite !pdm_zero_state by (assumption || lia).
    cbn [Nat.eqb andb]. unfold Csub. unfold Cre, Cim, Cadd, Copp, C0, C1, RtoC. cbn [fst snd].
    f_equal. repeat (apply (f_equal2 cons); [ring|]). reflexivity.
  - pose proof (apply_gate_1_array_ok N (zero_state N) w2 ((0, [A]), Gate_H) A HN
                  (zero_state_length N HN) Hw2 eq_refl HA eq_refl) as Happ.
    change (Gate_U (snd ((0, [A]), Gate_H))) with Matrix.H in Happ.
    eexists. split; [exact Happ|].
    unfold compute_pauli_1.
    rewrite (compute_1pdm_ok N A); [| lia |].
    2:{ apply zlen_pow2; [lia|]. apply gate_apply_length; [lia|].
        unfold simulable. cbn [fst snd].
        split; [reflexivity|]. split; [now left|]. split; [reflexivity|].
        split; [constructor; [lia | constructor] | constructor; [intros [] | constructor]]. }
    cbn [bind]. unfold gate_apply. cbn [fst snd].
    change (Gate_U Gate_H) with Matrix.H.
    rewrite !to_nat_pow2 by lia.
    replace (Z.to_nat (N - A - 1)) with (Z.to_nat N - Z.to_nat A - 1)%nat by lia.
    rewrite !pdm_hadamard_state by (assumption || lia).
    unfold Csub. unfold Cre, Cim, Cadd, Copp, RtoC. cbn [fst snd].
    f_equal. repeat (apply (f_equal2 cons); [lra|]). reflexivity.
Qed.

Lemma pauli_1_zero_and_hadamard_witness :
  compute_pauli_1 (zero_state 2) 1 = Ok [1; 0; 0; 1]%R
  /\ exists v,
       apply_gate_1_array (zero_state 2) [C0; C0; C0; C0] Matrix.H 1 = Ok v
       /\ compute_pauli_1 v 1 = Ok [1; 1; 0; 0]%R.
Proof.
  apply (pauli_1_zero_and_hadamard 2 1 [C0; C0; C0; C0]); [lia | reflexivity].
Defined.

(** ** Pass 2 of the compressor: the right-side rule *)

(** C4, as stated, fails: in [circuit_X_between] the nearest following
    1-body gate on qubit 0 after the gate at moment 0 is the [X] at moment
    1, with nothing between them, yet the right-side step finds nothing for
    that gate (a 2-body gate follows later on qubit 0); the [X] is folded
    into the later gate, on its left side. *)
Lemma right_fold_nearest_counterexample : ~ right_fold_nearest circuit_X_between.
Proof.
  intros H.
  assert (E1 : exists c1, compress_pass1 circuit_X_between = Ok c1
                          /\ exists plan, make_plan 3 3 (gates c1) = Ok plan
                          /\ In ((0, [0; 1]), Gate_CNOT) (gates c1)
                          /\ py_get plan 0 = Ok [2; 1; 2]
                          /\ scan_right 3 plan c1 0 0 = Ok None).
  { eexists. split; [vm_compute; reflexivity|].
    eexists. split; [vm_compute; reflexivity|].
    split; [vm_compute; tauto|]. split; vm_compute; reflexivity. }
  destruct E1 as (c1 & Hc1 & plan & Hplan & Hin & Hrow & Hscan).
  destruct (H c1 plan 0 0 1 Gate_CNOT 0 [2; 1; 2] 1 Hc1 Hplan Hin eq_refl
              (or_introl eq_refl) Hrow eq_refl) as [g1 Hg1].
  change (nmoment circuit_X_between) with 3 in Hg1. rewrite Hscan in Hg1. discriminate.
Qed.

Lemma py_get_in_range {A} (l : list A) (i : Z) (d : A) :
  0 <= i < zlen l -> py_get l i = Ok (nth (Z.to_nat i) l d).
Proof.
  intros Hi. unfold py_get, py_index.
  destruct (Z.leb_spec 0 i); [|lia]. destruct (Z.ltb_spec i (zlen l)); [|lia]. cbn [andb bind].
  destruct (nth_error l (Z.to_nat i)) as [x|] eqn:E.
  - now rewrite (nth_error_nth _ _ d E).
  - apply nth_error_None in E. unfold zlen in Hi. lia.
Qed.

Lemma plan_get_in_range (plan : plan_t) (A T : Z) (row : list Z) :
  py_get plan A = Ok row -> 0 <= T < zlen row ->
  plan_get plan A T = Ok (nth (Z.to_nat T) row 0).
Proof.
  intros Hrow HT. unfold plan_get. rewrite Hrow. cbn [bind]. now apply py_get_in_range.
Qed.

Lemma range2_In (a b x : Z) : In x (range2 a b) <-> a <= x < b.
Proof.
  unfold range2. rewrite in_map_iff. split.
  - intros [i [<- Hi]]. apply in_seq in Hi. lia.
  - intros H. exists (Z.to_nat (x - a)). split; [lia|]. apply in_seq. lia.
Qed.

Lemma range2_cons (a b : Z) : a < b -> range2 a b = a :: range2 (a + 1) b.
Proof.
  intros H. unfold range2.
  replace (Z.to_nat (b - a)) with (S (Z.to_nat (b - (a + 1)))) by lia.
  cbn [seq map]. f_equal; [lia|].
  rewrite <- seq_shift, map_map. apply map_ext. intros i. lia.
Qed.

Lemma range2_nil (a b : Z) : b <= a -> range2 a b = [].
Proof. intros H. unfold range2. replace (Z.to_nat (b - a)) with 0%nat by lia. reflexivity. Qed.

Lemma mapM_ok {A B} (f : A -> result B) (g : A -> B) (l : list A) :
  (forall x, In x l -> f x = Ok (g x)) -> mapM f l = Ok (map g l).
Proof.
  induction l as [|x l IH]; intros H; simpl; [reflexivity|].
  rewrite H by now left. cbn [bind]. rewrite IH; [reflexivity|].
  intros. apply H. now right.
Qed.

Lemma fold_max_spec (l : list Z) (x : Z) :
  In (fold_left Z.max l x) (x :: l) /\ forall v, In v (x :: l) -> v <= fold_left Z.max l x.
Proof.
  revert x. induction l as [|y l IH]; intros x; simpl.
  - split; [auto|]. intros v [<- | []]. lia.
  - destruct (IH (Z.max x y)) as [Hin Hle]. split.
    + destruct Hin as [Hin | Hin]; [|auto].
      rewrite <- Hin. destruct (Z.max_spec x y) as [[_ ->] | [_ ->]]; auto.
    + intros v [<- | [<- | Hv]].
      * specialize (Hle _ (or_introl eq_refl)). lia.
      * specialize (Hle _ (or_introl eq_refl)). lia.
      * apply Hle. now right.
Qed.

(** The first index whose entry is 1, as the comprehension of the
    right-side step computes it. *)
Lemma first_one_index (l : list Z) (s : nat) :
  match map fst (filter (fun TP : Z * Z => snd TP =? 1)
                        (combine (map Z.of_nat (seq s (length l))) l)) with
  | [] => forall k, (k < length l)%nat -> nth k l 0 <> 1
  | T3 :: _ =>
      exists k, T3 = Z.of_nat (s + k) /\ (k < length l)%nat /\ nth k l 0 = 1
                /\ forall j, (j < k)%nat -> nth j l 0 <> 1
  end.
Proof.
  revert s. induction l as [|v l IH]; intros s; cbn [length seq map combine filter].
  - intros k Hk. simpl in Hk. lia.
  - cbn [snd]. destruct (Z.eqb_spec v 1) as [-> | Hv]; cbn [map fst].
    + exists 0%nat. repeat split; [f_equal; lia | simpl; lia | intros j Hj; lia].
    + specialize (IH (S s)).
      destruct (map fst (filter _ (combine (map Z.of_nat (seq (S s) (length l))) l)))
        as [|T3 rest].
      * intros [|k] Hk; simpl; [exact Hv | apply IH; simpl in Hk; lia].
      * destruct IH as (k & -> & Hk & Hone & Hfirst).
        exists (S k). repeat split; [f_equal; lia | simpl; lia | exact Hone |].
        intros [|j] Hj; simpl; [exact Hv | apply Hfirst; lia].
Qed.

Lemma slice_length (row : list Z) (a b : Z) :
  0 <= a -> a <= b -> b <= zlen row -> length (slice row a b) = Z.to_nat (b - a).
Proof.
  intros Ha Hab Hb. unfold slice. rewrite length_firstn, length_skipn. unfold zlen in Hb. lia.
Qed.

Lemma slice_nth (row : list Z) (a b : Z) (k : nat) :
  0 <= a -> (k < Z.to_nat (b - a))%nat ->
  nth k (slice row a b) 0 = nth (Z.to_nat (a + Z.of_nat k)) row 0.
Proof.
  intros Ha Hk. unfold slice. rewrite nth_firstn.
  destruct (Nat.ltb_spec k (Z.to_nat (b - a))); [|lia].
  rewrite nth_skipn. f_equal. lia.
Qed.

Lemma scan_right_spec (nm : Z) (plan : plan_t) (circuit1 : Circuit) (A T : Z) (row : list Z) :
  py_get plan A = Ok row -> zlen row = nm -> 0 <= T ->
  Forall plan_value row ->
  (forall T2, 0 <= T2 < nm -> nth (Z.to_nat T2) row 0 = 1 ->
              dict_get (gates circuit1) (T2, [A]) <> None) ->
  match scan_right nm plan circuit1 A T with
  | Ok (Some (T2, gate1)) =>
      T < T2 < nm
      /\ nth (Z.to_nat T2) row 0 = 1
      /\ (forall T', T < T' < nm -> Z.abs (nth (Z.to_nat T') row 0) <> 2)
      /\ (forall T', T < T' < T2 -> nth (Z.to_nat T') row 0 <> 1)
      /\ dict_get (gates circuit1) (T2, [A]) = Some gate1
  | Ok None =>
      (exists T', T < T' < nm /\ Z.abs (nth (Z.to_nat T') row 0) = 2)
      \/ (forall T', T < T' < nm -> nth (Z.to_nat T') row 0 = 0)
  | Raise _ => False
  end.
Proof.
  intros Hrow Hlen HT Hvals Hgates. unfold scan_right.
  destruct (Z.ltb_spec (T + 1) nm) as [Hlt | Hge].
  2:{ right. intros T' HT'. lia. }
  assert (Hval : forall T', 0 <= T' < nm -> plan_value (nth (Z.to_nat T') row 0)).
  { intros T' HT'. rewrite Forall_forall in Hvals. apply Hvals, nth_In.
    unfold zlen in Hlen. lia. }
  set (f := fun T2 => Z.abs (nth (Z.to_nat T2) row 0)).
  rewrite (mapM_ok _ f).
  2:{ intros x Hx. apply range2_In in Hx.
      rewrite (plan_get_in_range plan A x row Hrow) by lia. reflexivity. }
  cbn [bind]. rewrite (range2_cons (T + 1) nm Hlt). cbn [map py_max bind].
  destruct (fold_max_spec (map f (range2 (T + 1 + 1) nm)) (f (T + 1))) as [Hin Hmax].
  set (m := fold_left Z.max (map f (range2 (T + 1 + 1) nm)) (f (T + 1))) in *.
  change (f (T + 1) :: map f (range2 (T + 1 + 1) nm)) with (map f (T + 1 :: range2 (T + 1 + 1) nm))
    in Hin, Hmax.
  rewrite <- (range2_cons (T + 1) nm Hlt) in Hin, Hmax.
  assert (Hle : forall T', T < T' < nm -> f T' <= m).
  { intros T' HT'. apply Hmax. apply in_map. apply range2_In. lia. }
  apply in_map_iff in Hin. destruct Hin as (Tm & Hfm & HTm). apply range2_In in HTm.
  destruct (Z.eqb_spec m 1) as [Hm1 | Hm1].
  - rewrite Hrow. cbn [bind].
    assert (Hsl : length (slice row (T + 1) nm) = Z.to_nat (nm - (T + 1)))
      by (apply slice_length; lia).
    unfold enumerate, range, zlen. rewrite Nat2Z.id.
    pose proof (first_one_index (slice row (T + 1) nm) 0) as Hfirst.
    destruct (map fst (filter _ (combine (map Z.of_nat (seq 0 (length (slice row (T + 1) nm))))
                                         (slice row (T + 1) nm)))) as [|T3 rest].
    + exfalso. apply (Hfirst (Z.to_nat (Tm - (T + 1)))); [lia|].
      rewrite slice_nth by lia. replace (T + 1 + Z.of_nat (Z.to_nat (Tm - (T + 1)))) with Tm by lia.
      specialize (Hval Tm ltac:(lia)). unfold f in Hfm. unfold plan_value in Hval. lia.
    + destruct Hfirst as (k & -> & Hk & Hone & Hmin).
      cbn [getitem Z.ltb Z.compare Z.to_nat nth_error bind].
      rewrite slice_nth in Hone by lia.
      assert (E : Z.of_nat (0 + k) + T + 1 = T + 1 + Z.of_nat k) by lia. rewrite E.
      specialize (Hgates (T + 1 + Z.of_nat k) ltac:(lia) Hone).
      unfold dict_item.
      destruct (dict_get (gates circuit1) (T + 1 + Z.of_nat k, [A])) as [g|] eqn:Eg;
        [|congruence].
      cbn [bind]. split; [lia|]. split; [exact Hone|]. split; [|split; [|exact Eg]].
      * intros T' HT' Habs. specialize (Hle T' HT'). unfold f in Hle. lia.
      * intros T' HT' Hone'. apply (Hmin (Z.to_nat (T' - (T + 1)))); [lia|].
        rewrite slice_nth by lia. now replace (T + 1 + Z.of_nat (Z.to_nat (T' - (T + 1)))) with T' by lia.
  - specialize (Hval Tm ltac:(lia)). unfold f in Hfm. unfold plan_value in Hval.
    assert (Hm : m = 0 \/ m = 2) by lia.
    destruct Hm as [Hm | Hm].
    + right. intros T' HT'. specialize (Hle T' HT'). unfold f in Hle.
      specialize (Hval). lia.
    + left. exists Tm. split; [lia|]. unfold f in Hfm. lia.
Qed.

(** ** Matrix products as compositions of gate actions *)

Lemma shape22 (U : matrix) :
  has_shape U 2 2 = true -> exists a b c d, U = [[a; b]; [c; d]].
Proof.
  unfold has_shape. intros H. apply andb_prop in H. destruct H as [H1 H2].
  destruct U as [|[|a [|b [|? ?]]] [|[|c [|d [|? ?]]] [|? ?]]]; try discriminate.
  now exists a, b, c, d.
Qed.

Lemma shape44 (U : matrix) :
  has_shape U 4 4 = true ->
  exists a0 a1 a2 a3 b0 b1 b2 b3 c0 c1 c2 c3 d0 d1 d2 d3,
    U = [[a0; a1; a2; a3]; [b0; b1; b2; b3]; [c0; c1; c2; c3]; [d0; d1; d2; d3]].
Proof.
  unfold has_shape. intros H. apply andb_prop in H. destruct H as [H1 H2].
  destruct U as [|r0 [|r1 [|r2 [|r3 [|? ?]]]]]; try discriminate.
  cbn [forallb] in H2.
  repeat (apply andb_prop in H2; destruct H2 as [? H2]).
  destruct r0 as [|a0 [|a1 [|a2 [|a3 [|? ?]]]]]; try discriminate.
  destruct r1 as [|b0 [|b1 [|b2 [|b3 [|? ?]]]]]; try discriminate.
  destruct r2 as [|c0 [|c1 [|c2 [|c3 [|? ?]]]]]; try discriminate.
  destruct r3 as [|d0 [|d1 [|d2 [|d3 [|? ?]]]]]; try discriminate.
  now exists a0, a1, a2, a3, b0, b1, b2, b3, c0, c1, c2, c3, d0, d1, d2, d3.
Qed.

Lemma bit_update_same (bs : list bool) (A : nat) (j : bool) :
  (A < length bs)%nat -> bit (update bs A j) A = Nat.b2n j.
Proof. intros H. unfold bit. now rewrite update_nth_same. Qed.

Lemma bit_update_other (bs : list bool) (A B : nat) (j : bool) :
  A <> B -> bit (update bs A j) B = bit bs B.
Proof. intros H. unfold bit. now rewrite update_nth_other. Qed.

Ltac mat_eval :=
  cbv [mget mdot kron eye2 map flat_map app seq ncols dotp column combine nth fst snd
       Csum fold_right length Nat.b2n Nat.add Nat.mul bools
       swap_legs reshape44 reshape2222 einsum_ijkl_jilk tget bits2 Nat.div Nat.modulo
       Nat.divmod Nat.sub].

Lemma act1_mdot (n A : nat) (V U : matrix) (psi : list bool -> C) :
  (A < n)%nat -> has_shape V 2 2 = true -> has_shape U 2 2 = true ->
  agree n (act1 (mdot V U) A psi) (act1 V A (act1 U A psi)).
Proof.
  intros HA HV HU bs Hbs.
  destruct (shape22 V HV) as (v0 & v1 & v2 & v3 & ->).
  destruct (shape22 U HU) as (u0 & u1 & u2 & u3 & ->).
  unfold act1. cbn [map bools].
  rewrite !update_update_same, !bit_update_same by lia.
  unfold bit. destruct (nth A bs false); mat_eval; ring.
Qed.

Lemma mdot_shape22 (V U : matrix) :
  has_shape V 2 2 = true -> has_shape U 2 2 = true -> has_shape (mdot V U) 2 2 = true.
Proof.
  intros HV HU.
  destruct (shape22 V HV) as (v0 & v1 & v2 & v3 & ->).
  destruct (shape22 U HU) as (u0 & u1 & u2 & u3 & ->). reflexivity.
Qed.

Lemma mdot_shape44 (V U : matrix) :
  has_shape V 4 4 = true -> has_shape U 4 4 = true -> has_shape (mdot V U) 4 4 = true.
Proof.
  intros HV HU.
  destruct (shape44 V HV) as (? & ? & ? & ? & ? & ? & ? & ? & ? & ? & ? & ? & ? & ? & ? & ? & ->).
  destruct (shape44 U HU) as (? & ? & ? & ? & ? & ? & ? & ? & ? & ? & ? & ? & ? & ? & ? & ? & ->).
  reflexivity.
Qed.

Lemma kron_l_shape44 (g : matrix) :
  has_shape g 2 2 = true -> has_shape (kron g eye2) 4 4 = true.
Proof. intros Hg. destruct (shape22 g Hg) as (? & ? & ? & ? & ->). reflexivity. Qed.

Lemma kron_r_shape44 (g : matrix) :
  has_shape g 2 2 = true -> has_shape (kron eye2 g) 4 4 = true.
Proof. intros Hg. destruct (shape22 g Hg) as (? & ? & ? & ? & ->). reflexivity. Qed.

Lemma swap_legs_shape44 (U : matrix) : has_shape (swap_legs U) 4 4 = true.
Proof. reflexivity. Qed.

Lemma act2_mdot (n A B : nat) (V U : matrix) (psi : list bool -> C) :
  (A < n)%nat -> (B < n)%nat -> A <> B ->
  has_shape V 4 4 = true -> has_shape U 4 4 = true ->
  agree n (act2 (mdot V U) A B psi) (act2 V A B (act2 U A B psi)).
Proof.
  intros HA HB HAB HV HU bs Hbs.
  destruct (shape44 V HV) as (? & ? & ? & ? & ? & ? & ? & ? & ? & ? & ? & ? & ? & ? & ? & ? & ->).
  destruct (shape44 U HU) as (? & ? & ? & ? & ? & ? & ? & ? & ? & ? & ? & ? & ? & ? & ? & ? & ->).
  unfold act2. cbn [map flat_map bools app].
  assert (E : forall k l k' l', update (update (update (update bs A k) B l) A k') B l'
                                = update (update bs A k') B l').
  { intros. rewrite (update_update_comm (update bs A k) B A) by lia.
    rewrite update_update_same. rewrite update_update_same. reflexivity. }
  rewrite !E.
  assert (EA : forall k l, bit (update (update bs A k) B l) A = Nat.b2n k).
  { intros. rewrite bit_update_other by lia. apply bit_update_same. lia. }
  assert (EB : forall k l, bit (update (update bs A k) B l) B = Nat.b2n l).
  { intros. apply bit_update_same. rewrite update_length. lia. }
  rewrite !EA, !EB.
  unfold bit. destruct (nth A bs false), (nth B bs false); mat_eval; ring.
Qed.

Lemma update_same_val {X} (l : list X) (i : nat) (x d : X) :
  nth i l d = x -> update l i x = l.
Proof. intros <-. apply update_self. Qed.

Lemma act2_kron_l (n A B : nat) (g : matrix) (psi : list bool -> C) :
  (A < n)%nat -> (B < n)%nat -> A <> B -> has_shape g 2 2 = true ->
  agree n (act2 (kron g eye2) A B psi) (act1 g A psi).
Proof.
  intros HA HB HAB Hg bs Hbs.
  destruct (shape22 g Hg) as (g0 & g1 & g2 & g3 & ->).
  unfold act2, act1. cbn [map flat_map bools app].
  unfold bit. destruct (nth B bs false) eqn:EB.
  - rewrite !(update_same_val (update bs A _) B true false)
      by (rewrite update_nth_other by lia; exact EB).
    destruct (nth A bs false); mat_eval; ring.
  - rewrite !(update_same_val (update bs A _) B false false)
      by (rewrite update_nth_other by lia; exact EB).
    destruct (nth A bs false); mat_eval; ring.
Qed.

Lemma act2_kron_r (n A B : nat) (g : matrix) (psi : list bool -> C) :
  (A < n)%nat -> (B < n)%nat -> A <> B -> has_shape g 2 2 = true ->
  agree n (act2 (kron eye2 g) A B psi) (act1 g B psi).
Proof.
  intros HA HB HAB Hg bs Hbs.
  destruct (shape22 g Hg) as (g0 & g1 & g2 & g3 & ->).
  unfold act2, act1. cbn [map flat_map bools app].
  assert (E : forall k l, update (update bs A k) B l = update (update bs B l) A k)
    by (intros; apply update_update_comm; lia).
  rewrite !E.
  unfold bit. destruct (nth A bs false) eqn:EA.
  - rewrite !(update_same_val (update bs B _) A true false)
      by (rewrite update_nth_other by lia; exact EA).
    destruct (nth B bs false); mat_eval; ring.
  - rewrite !(update_same_val (update bs B _) A false false)
      by (rewrite update_nth_other by lia; exact EA).
    destruct (nth B bs false); mat_eval; ring.
Qed.

Lemma act2_swap_legs (A B : nat) (U : matrix) (psi : list bool -> C) (bs : list bool) :
  A <> B -> has_shape U 4 4 = true ->
  act2 (swap_legs U) A B psi bs = act2 U B A psi bs.
Proof.
  intros HAB HU.
  destruct (shape44 U HU) as (? & ? & ? & ? & ? & ? & ? & ? & ? & ? & ? & ? & ? & ? & ? & ? & ->).
  unfold act2. cbn [map flat_map bools app].
  assert (E : forall k l, update (update bs B k) A l = update (update bs A l) B k)
    by (intros; apply update_update_comm; lia).
  rewrite !E.
  unfold bit. destruct (nth A bs false), (nth B bs false); mat_eval; ring.
Qed.

(** Gates on different qubits commute. *)
Lemma act1_act1_comm (A B : nat) (U V : matrix) (psi : list bool -> C) (bs : list bool) :
  A <> B -> act1 U A (act1 V B psi) bs = act1 V B (act1 U A psi) bs.
Proof.
  intros HAB. unfold act1. cbn [map bools].
  rewrite !bit_update_other by lia.
  assert (E : forall k l, update (update bs B k) A l = update (update bs A l) B k)
    by (intros; apply update_update_comm; lia).
  rewrite !E. cbn [Csum fold_right]. ring.
Qed.

Lemma act1_act2_comm (A B D : nat) (U V : matrix) (psi : list bool -> C) (bs : list bool) :
  A <> B -> A <> D ->
  act1 U A (act2 V B D psi) bs = act2 V B D (act1 U A psi) bs.
Proof.
  intros HAB HAD. unfold act1, act2. cbn [map flat_map bools app].
  rewrite !bit_update_other by lia.
  assert (E : forall k l j, update (update (update bs B k) D l) A j
                            = update (update (update bs A j) B k) D l).
  { intros. rewrite (update_update_comm _ D A) by lia.
    rewrite (update_update_comm bs B A) by lia. reflexivity. }
  rewrite !E. cbn [Csum fold_right]. ring.
Qed.

Lemma act2_act2_comm (A B D E : nat) (U V : matrix) (psi : list bool -> C) (bs : list bool) :
  A <> D -> A <> E -> B <> D -> B <> E ->
  act2 U A B (act2 V D E psi) bs = act2 V D E (act2 U A B psi) bs.
Proof.
  intros H1 H2 H3 H4. unfold act2. cbn [map flat_map bools app].
  rewrite !bit_update_other by lia.
  assert (Eq : forall k l k' l', update (update (update (update bs D k') E l') A k) B l
                               = update (update (update (update bs A k) B l) D k') E l').
  { intros.
    rewrite (update_update_comm _ E A) by lia.
    rewrite (update_update_comm _ E B) by lia.
    rewrite (update_update_comm bs D A) by lia.
    rewrite (update_update_comm _ D B) by lia. reflexivity. }
  rewrite !Eq. cbn [Csum fold_right]. ring.
Qed.

(** ** Gates on different qubits commute *)

Lemma act_peq (e : coord * Gate) (psi phi : list bool -> C) :
  peq psi phi -> peq (act e psi) (act e phi).
Proof.
  intros H bs. unfold act.
  destruct (snd (fst e)) as [|A [|B [|? ?]]]; auto.
  - unfold act1. cbn [map bools]. now rewrite !H.
  - unfold act2. cbn [map flat_map bools app]. now rewrite !H.
Qed.

Lemma act_all_peq (l : list (coord * Gate)) (psi phi : list bool -> C) :
  peq psi phi -> peq (act_all l psi) (act_all l phi).
Proof.
  revert psi phi. induction l as [|e l IH]; intros psi phi H; [exact H|].
  cbn. apply IH. now apply act_peq.
Qed.

Lemma act_agree (n : nat) (e : coord * Gate) (psi phi : list bool -> C) :
  agree n psi phi -> agree n (act e psi) (act e phi).
Proof.
  intros H bs Hbs. unfold act.
  destruct (snd (fst e)) as [|A [|B [|? ?]]]; auto.
  - unfold act1. cbn [map bools]. rewrite !H by now rewrite update_length. reflexivity.
  - unfold act2. cbn [map flat_map bools app].
    rewrite !H by now rewrite !update_length. reflexivity.
Qed.

Lemma act_all_agree (n : nat) (l : list (coord * Gate)) (psi phi : list bool -> C) :
  agree n psi phi -> agree n (act_all l psi) (act_all l phi).
Proof.
  revert psi phi. induction l as [|e l IH]; intros psi phi H; [exact H|].
  cbn. apply IH. now apply act_agree.
Qed.

Lemma act_all_app (l1 l2 : list (coord * Gate)) (psi : list bool -> C) :
  act_all (l1 ++ l2) psi = act_all l2 (act_all l1 psi).
Proof. unfold act_all. apply fold_left_app. Qed.

Lemma act_all_cons (e : coord * Gate) (l : list (coord * Gate)) (psi : list bool -> C) :
  act_all (e :: l) psi = act_all l (act e psi).
Proof. reflexivity. Qed.

Lemma touches_In (q : Z) (e : coord * Gate) : touches q e = true <-> In q (snd (fst e)).
Proof.
  unfold touches. rewrite existsb_exists. split.
  - intros (x & Hx & E). apply Z.eqb_eq in E. now subst.
  - intros H. exists q. split; [exact H | apply Z.eqb_refl].
Qed.

Lemma overlaps_false (e x : coord * Gate) :
  overlaps e x = false <-> forall q, In q (snd (fst e)) -> ~ In q (snd (fst x)).
Proof.
  unfold overlaps. split.
  - intros H q Hq Hx. apply touches_In in Hx.
    assert (existsb (fun q => touches q x) (snd (fst e)) = true)
      by (apply existsb_exists; eauto). congruence.
  - intros H. destruct (existsb _ _) eqn:E; [|reflexivity].
    apply existsb_exists in E. destruct E as (q & Hq & Hx). apply touches_In in Hx.
    now apply H in Hq.
Qed.

Lemma act_comm (N : Z) (e1 e2 : coord * Gate) (psi : list bool -> C) :
  simulable N e1 -> simulable N e2 -> overlaps e1 e2 = false ->
  peq (act e1 (act e2 psi)) (act e2 (act e1 psi)).
Proof.
  intros H1 H2 Hd bs. rewrite overlaps_false in Hd.
  destruct (simulable_cases _ _ H1) as [(A & K1 & _ & HA & _) | (A & B & K1 & _ & HA & HB & HAB & _)];
  destruct (simulable_cases _ _ H2) as [(D & K2 & _ & HD & _) | (D & E & K2 & _ & HD & HE & HDE & _)];
  unfold act; rewrite K1, K2; rewrite K1, K2 in Hd.
  - apply act1_act1_comm. specialize (Hd A). cbn in Hd. lia.
  - apply act1_act2_comm; specialize (Hd A); cbn in Hd; lia.
  - symmetry. apply act1_act2_comm.
    + specialize (Hd A). cbn in Hd. lia.
    + specialize (Hd B). cbn in Hd. lia.
  - apply act2_act2_comm.
    + specialize (Hd A). cbn in Hd. lia.
    + specialize (Hd A). cbn in Hd. lia.
    + specialize (Hd B). cbn in Hd. lia.
    + specialize (Hd B). cbn in Hd. lia.
Qed.

Lemma act_all_move (N : Z) (pre : list (coord * Gate)) (e : coord * Gate)
    (psi : list bool -> C) :
  Forall (simulable N) pre -> simulable N e ->
  Forall (fun x => overlaps e x = false) pre ->
  peq (act_all pre (act e psi)) (act e (act_all pre psi)).
Proof.
  intros Hpre He Hd. revert psi.
  induction pre as [|x pre IH]; intros psi bs; [reflexivity|].
  inversion Hpre; subst. inversion Hd; subst.
  rewrite !act_all_cons. rewrite <- IH by assumption.
  apply act_all_peq. intros bs'. symmetry. apply (act_comm N); assumption.
Qed.

Lemma first_split {X} (p : X -> bool) (l : list X) :
  existsb p l = true ->
  exists pre x post, l = pre ++ x :: post /\ Forall (fun y => p y = false) pre /\ p x = true.
Proof.
  induction l as [|a l IH]; [discriminate|]. cbn. intros H.
  destruct (p a) eqn:Ea.
  - exists [], a, l. auto.
  - destruct (IH H) as (pre & x & post & -> & Hpre & Hx).
    exists (a :: pre), x, post. auto.
Qed.

Lemma wire_app (q : Z) (l1 l2 : list (coord * Gate)) :
  wire q (l1 ++ l2) = wire q l1 ++ wire q l2.
Proof. apply filter_app. Qed.

Lemma wire_none (q : Z) (l : list (coord * Gate)) :
  Forall (fun y => touches q y = false) l -> wire q l = [].
Proof.
  induction 1 as [|y l Hy _ IH]; [reflexivity|]. unfold wire in *. cbn. now rewrite Hy.
Qed.

Lemma simulable_key (N : Z) (e : coord * Gate) :
  simulable N e -> exists q, In q (snd (fst e)).
Proof.
  intros H. destruct (simulable_cases _ _ H) as [(A & K & _) | (A & B & K & _)];
    rewrite K; exists A; now left.
Qed.

Lemma overlaps_touches (e y : coord * Gate) (q : Z) :
  overlaps e y = false -> In q (snd (fst e)) -> touches q y = false.
Proof.
  intros H Hq. rewrite overlaps_false in H. destruct (touches q y) eqn:E; [|reflexivity].
  apply touches_In in E. now apply H in Hq.
Qed.

(** Two lists of gates with the same gates, in the same order, on every
    qubit act in the same way. *)
Lemma act_all_wires (N : Z) (l1 l2 : list (coord * Gate)) :
  Forall (simulable N) l1 -> Forall (simulable N) l2 ->
  (forall q, wire q l1 = wire q l2) ->
  forall psi, peq (act_all l1 psi) (act_all l2 psi).
Proof.
  revert l2. induction l1 as [|e l1 IH]; intros l2 H1 H2 Hw psi.
  - destruct l2 as [|x l2]; [intros bs; reflexivity|]. exfalso.
    inversion H2; subst. destruct (simulable_key _ _ H3) as [q Hq].
    specialize (Hw q). unfold wire in Hw. cbn in Hw.
    apply touches_In in Hq. rewrite Hq in Hw. discriminate.
  - inversion H1 as [|? ? He H1']; subst.
    destruct (simulable_key _ _ He) as [q0 Hq0].
    assert (Hex : existsb (overlaps e) l2 = true).
    { apply existsb_exists. exists e. split.
      - assert (Hin : In e (wire q0 l2)).
        { rewrite <- Hw. unfold wire. cbn. apply touches_In in Hq0. rewrite Hq0. now left. }
        apply filter_In in Hin. tauto.
      - unfold overlaps. apply existsb_exists. exists q0. split; [exact Hq0|].
        now apply touches_In. }
    destruct (first_split _ _ Hex) as (pre & x & post & -> & Hpre & Hx).
    assert (Hpre_q : forall q, In q (snd (fst e)) -> wire q pre = []).
    { intros q Hq. apply wire_none. eapply Forall_impl; [|exact Hpre].
      intros y Hy. now apply (overlaps_touches e). }
    assert (Hxe : x = e).
    { unfold overlaps in Hx. apply existsb_exists in Hx. destruct Hx as (q & Hq & Hqx).
      specialize (Hw q). rewrite wire_app, (Hpre_q q Hq) in Hw.
      unfold wire in Hw. cbn in Hw. rewrite Hqx in Hw.
      apply touches_In in Hq. rewrite Hq in Hw. cbn in Hw. congruence. }
    subst x.
    assert (Hw' : forall q, wire q l1 = wire q (pre ++ post)).
    { intros q. specialize (Hw q). rewrite wire_app in Hw |- *.
      unfold wire in Hw at 1 3. cbn in Hw.
      destruct (touches q e) eqn:Eq.
      - apply touches_In in Eq. rewrite (Hpre_q q Eq) in Hw |- *. cbn in Hw.
        now injection Hw.
      - exact Hw. }
    apply Forall_app in H2. destruct H2 as [H2pre H2post].
    inversion H2post as [|? ? _ H2post']; subst.
    intros bs. rewrite act_all_cons.
    rewrite (IH (pre ++ post) H1' ltac:(apply Forall_app; auto) Hw' (act e psi) bs).
    rewrite !act_all_app. rewrite act_all_cons.
    apply act_all_peq. apply (act_all_move N); assumption.
Qed.

Lemma sorted_perm_eq (l1 l2 : list (coord * Gate)) :
  StronglySorted time_lt l1 -> StronglySorted time_lt l2 -> Permutation l1 l2 -> l1 = l2.
Proof.
  revert l2. induction l1 as [|a l1 IH]; intros l2 S1 S2 P.
  - apply Permutation_nil in P. now subst.
  - destruct l2 as [|b l2]; [apply Permutation_sym, Permutation_nil in P; discriminate|].
    inversion S1 as [|? ? S1' F1]; subst. inversion S2 as [|? ? S2' F2]; subst.
    assert (Hab : a = b).
    { assert (Ha : In a (b :: l2)) by (eapply Permutation_in; [exact P | now left]).
      assert (Hb : In b (a :: l1))
        by (eapply Permutation_in; [apply Permutation_sym; exact P | now left]).
      destruct Ha as [Ha | Ha]; [now subst|].
      destruct Hb as [Hb | Hb]; [now subst|].
      rewrite Forall_forall in F1, F2. specialize (F1 _ Hb). specialize (F2 _ Ha).
      unfold time_lt in *. lia. }
    subst b. f_equal. apply IH; auto. now apply Permutation_cons_inv in P.
Qed.

Lemma wire_perm (q : Z) (l1 l2 : list (coord * Gate)) :
  Permutation l1 l2 -> Permutation (wire q l1) (wire q l2).
Proof.
  unfold wire. induction 1 as [|x l l' _ IH|x y l|l l' l'' _ IH1 _ IH2]; cbn.
  - constructor.
  - destruct (touches q x); auto.
  - destruct (touches q x), (touches q y); auto. constructor.
  - eapply Permutation_trans; eauto.
Qed.

(** Two time-respecting orders of the same gates act in the same way. *)
Lemma act_all_wire_sorted (N : Z) (l1 l2 : list (coord * Gate)) :
  Forall (simulable N) l1 -> wire_sorted l1 -> wire_sorted l2 -> Permutation l1 l2 ->
  forall psi, peq (act_all l1 psi) (act_all l2 psi).
Proof.
  intros H1 S1 S2 P. apply (act_all_wires N); auto.
  - rewrite Forall_forall in *. intros x Hx. apply H1.
    eapply Permutation_in; [apply Permutation_sym; exact P | exact Hx].
  - intros q. apply sorted_perm_eq; auto. now apply wire_perm.
Qed.

(** ** Fusing groups of gates *)

Lemma agree_trans (n : nat) (f g h : list bool -> C) :
  agree n f g -> agree n g h -> agree n f h.
Proof. intros H1 H2 bs Hbs. now rewrite H1, H2. Qed.

Lemma peq_agree (n : nat) (f g : list bool -> C) : peq f g -> agree n f g.
Proof. intros H bs _. apply H. Qed.

Lemma act_all_hosts (N : Z) (L : list (coord * Gate))
    (F : list ((coord * Gate) * list (coord * Gate))) :
  Forall (group_ok N L) F ->
  forall psi, agree (Z.to_nat N) (act_all (map fst F) psi) (act_all (flat_map snd F) psi).
Proof.
  induction 1 as [|g F Hg _ IH]; intros psi; [intros bs _; reflexivity|].
  cbn [map flat_map]. rewrite act_all_cons, act_all_app.
  eapply agree_trans; [|apply IH].
  apply act_all_agree. apply (go_act _ _ _ Hg).
Qed.

Lemma StronglySorted_app {X} (R : X -> X -> Prop) (l1 l2 : list X) :
  StronglySorted R l1 -> StronglySorted R l2 ->
  (forall a b, In a l1 -> In b l2 -> R a b) -> StronglySorted R (l1 ++ l2).
Proof.
  induction 1 as [|a l1 S1 IH F1]; intros S2 H; [exact S2|].
  cbn. constructor.
  - apply IH; auto. intros; apply H; auto. now right.
  - apply Forall_app. split; [exact F1|].
    apply Forall_forall. intros b Hb. apply H; auto. now left.
Qed.

Lemma StronglySorted_flat_map {X Y} (R : Y -> Y -> Prop) (f : X -> list Y) (l : list X) :
  (forall x, In x l -> StronglySorted R (f x)) ->
  ForallOrdPairs (fun x y => forall a b, In a (f x) -> In b (f y) -> R a b) l ->
  StronglySorted R (flat_map f l).
Proof.
  intros Hs Ho. induction Ho as [|x l Hx Ho IH]; [constructor|].
  cbn. apply StronglySorted_app.
  - apply Hs. now left.
  - apply IH. intros; apply Hs. now right.
  - intros a b Ha Hb. apply in_flat_map in Hb. destruct Hb as (y & Hy & Hb).
    rewrite Forall_forall in Hx. eapply Hx; eauto.
Qed.

Lemma filter_flat_map {X Y} (p : Y -> bool) (f : X -> list Y) (l : list X) :
  filter p (flat_map f l) = flat_map (fun x => filter p (f x)) l.
Proof.
  induction l as [|x l IH]; [reflexivity|]. cbn. now rewrite filter_app, IH.
Qed.

Lemma ForallOrdPairs_unfilter {X} (R : X -> X -> Prop) (p : X -> bool) (l : list X) :
  StronglySorted R (filter p l) ->
  ForallOrdPairs (fun x y => p x = true -> p y = true -> R x y) l.
Proof.
  induction l as [|a l IH]; intros H; [constructor|]. cbn in H.
  destruct (p a) eqn:Ea.
  - inversion H as [|? ? S Fa]; subst. constructor; [|now apply IH].
    apply Forall_forall. intros y Hy _ Hpy.
    rewrite Forall_forall in Fa. apply Fa. apply filter_In. auto.
  - constructor; [|now apply IH].
    apply Forall_forall. intros y _ E. congruence.
Qed.

Lemma NoDup_app_parts {X} (l1 l2 : list X) :
  NoDup (l1 ++ l2) -> NoDup l1 /\ NoDup l2 /\ forall a, In a l1 -> In a l2 -> False.
Proof.
  induction l1 as [|a l1 IH]; cbn; intros H.
  - split; [constructor|]. split; [exact H|]. intros a [].
  - inversion H as [|? ? Hn Hd]; subst. destruct (IH Hd) as (N1 & N2 & D).
    split; [|split; [exact N2|]].
    + constructor; [|exact N1]. intros Hin. apply Hn. apply in_or_app. now left.
    + intros b [<- | Hb] Hb2; [|eauto]. apply Hn. apply in_or_app. now right.
Qed.

Lemma NoDup_app_build {X} (l1 l2 : list X) :
  NoDup l1 -> NoDup l2 -> (forall a, In a l1 -> In a l2 -> False) -> NoDup (l1 ++ l2).
Proof.
  induction 1 as [|a l1 Hn Hd IH]; cbn; intros N2 D; [exact N2|].
  constructor.
  - intros Hin. apply in_app_or in Hin. destruct Hin as [Hin | Hin]; [contradiction|].
    apply (D a); [now left | exact Hin].
  - apply IH; auto. intros b Hb. apply D. now right.
Qed.

Lemma NoDup_flat_map_disjoint {X Y} (f : X -> list Y) (l : list X) :
  NoDup (flat_map f l) ->
  ForallOrdPairs (fun x y => forall a, In a (f x) -> In a (f y) -> False) l.
Proof.
  induction l as [|x l IH]; cbn; intros H; [constructor|].
  apply NoDup_app_parts in H. destruct H as (N1 & N2 & D).
  constructor; [|now apply IH].
  apply Forall_forall. intros y Hy a Ha Hb. apply (D a Ha).
  apply in_flat_map. eauto.
Qed.

Lemma ForallOrdPairs_conj {X} (R1 R2 : X -> X -> Prop) (l : list X) :
  ForallOrdPairs R1 l -> ForallOrdPairs R2 l ->
  ForallOrdPairs (fun x y => R1 x y /\ R2 x y) l.
Proof.
  induction 1 as [|x l Hx _ IH]; intros H2; [constructor|].
  inversion H2 as [|? ? Hx2 H2']; subst. constructor; [|now apply IH].
  rewrite Forall_forall in *. intros y Hy. split; auto.
Qed.

(** The members of two groups meet on a qubit in the order of the hosts. *)
Lemma groups_ordered (N : Z) (L : list (coord * Gate))
    (g g' : (coord * Gate) * list (coord * Gate)) (q : Z) (a b : coord * Gate) :
  slot_unique L -> group_ok N L g -> group_ok N L g' ->
  incl (snd g) L -> incl (snd g') L ->
  (forall x, In x (snd g) -> In x (snd g') -> False) ->
  (touches q (fst g) = true -> touches q (fst g') = true -> time_lt (fst g) (fst g')) ->
  In a (wire q (snd g)) -> In b (wire q (snd g')) -> time_lt a b.
Proof.
  intros HL Hg Hg' Hi Hi' Hdis Hord Ha Hb.
  apply filter_In in Ha. destruct Ha as [Ha Hqa].
  apply filter_In in Hb. destruct Hb as [Hb Hqb].
  destruct (go_pivot _ _ _ Hg) as (p & Hp & Ep).
  destruct (go_pivot _ _ _ Hg') as (p' & Hp' & Ep').
  pose proof (go_keys _ _ _ Hg a q Ha Hqa) as Hqh.
  pose proof (go_keys _ _ _ Hg' b q Hb Hqb) as Hqh'.
  specialize (Hord Hqh Hqh').
  assert (Hqp : touches q p = true) by (unfold touches in *; now rewrite Ep).
  assert (Hqp' : touches q p' = true) by (unfold touches in *; now rewrite Ep').
  assert (Hpp' : time_lt p p') by (unfold time_lt in *; now rewrite Ep, Ep').
  unfold time_lt in *.
  destruct (Z.lt_trichotomy (fst (fst a)) (fst (fst b))) as [Hlt | [Heq | Hgt]];
    [exact Hlt | exfalso | exfalso].
  - assert (a = b) by (apply (HL a b q); auto). subst b. eauto.
  - destruct (Z.lt_trichotomy (fst (fst b)) (fst (fst p))) as [H1 | [H1 | H1]].
    + apply (Hdis p Hp). apply (go_convex _ _ _ Hg' q b p' p); unfold time_lt; auto; lia.
    + assert (b = p) by (apply (HL b p q); auto). subst b. eauto.
    + apply (Hdis b); [|exact Hb].
      apply (go_convex _ _ _ Hg q p a b); unfold time_lt; auto; lia.
Qed.

(** ** The fusion theorem *)

Lemma fusion_sound (N : Z) (L L' S S' : list (coord * Gate))
    (F : list ((coord * Gate) * list (coord * Gate))) :
  slot_unique L -> NoDup L -> Forall (simulable N) L ->
  Permutation (map fst F) L' -> Permutation (flat_map snd F) L ->
  Forall (group_ok N L) F ->
  Permutation S L -> wire_sorted S -> Permutation S' L' -> wire_sorted S' ->
  forall psi, agree (Z.to_nat N) (act_all S' psi) (act_all S psi).
Proof.
  intros HL HnL HsL PF PM HF PS WS PS' WS' psi.
  assert (P1 : Permutation S' (map fst F))
    by (eapply Permutation_trans; [exact PS' | apply Permutation_sym; exact PF]).
  apply Permutation_map_inv in P1. destruct P1 as (F' & -> & PFF).
  assert (HF' : Forall (group_ok N L) F').
  { rewrite Forall_forall in *. intros g Hg. apply HF.
    eapply Permutation_in; [apply Permutation_sym; exact PFF | exact Hg]. }
  assert (PM' : Permutation (flat_map snd F') L).
  { eapply Permutation_trans; [|exact PM].
    apply Permutation_flat_map. now apply Permutation_sym. }
  eapply agree_trans; [apply (act_all_hosts N L); exact HF'|].
  apply peq_agree. apply (act_all_wire_sorted N).
  - rewrite Forall_forall in *. intros x Hx. apply HsL.
    eapply Permutation_in; [exact PM' | exact Hx].
  - intros q. unfold wire. rewrite filter_flat_map.
    apply StronglySorted_flat_map.
    + intros g Hg. rewrite Forall_forall in HF'. apply (go_sorted _ _ _ (HF' g Hg)).
    + assert (Hnd : NoDup (flat_map snd F'))
        by (eapply Permutation_NoDup; [apply Permutation_sym; exact PM' | exact HnL]).
      pose proof (NoDup_flat_map_disjoint _ _ Hnd) as D1.
      pose proof (ForallOrdPairs_of_map _ _ _ (ForallOrdPairs_unfilter _ _ _ (WS' q))) as D2.
      eapply ForallOrdPairs_impl_In; [exact (ForallOrdPairs_conj _ _ _ D1 D2)|].
      intros g g' Hg Hg' [Hdis Hord] a b Ha Hb.
      rewrite Forall_forall in HF'.
      assert (Hincl : forall g0, In g0 F' -> incl (snd g0) L).
      { intros g0 Hg0 x Hx. eapply Permutation_in; [exact PM'|].
        apply in_flat_map. eauto. }
      apply (groups_ordered N L g g' q a b); auto.
  - exact WS.
  - eapply Permutation_trans; [exact PM' | apply Permutation_sym; exact PS].
Qed.

(** ** The simulator's schedule *)

Lemma flat_map_nil {X Y} (l : list X) : flat_map (fun _ : X => @nil Y) l = [].
Proof. induction l; auto. Qed.

Lemma flat_map_ext_In {X Y} (f g : X -> list Y) (l : list X) :
  (forall x, In x l -> f x = g x) -> flat_map f l = flat_map g l.
Proof.
  induction l as [|a l IH]; intros H; [reflexivity|]. cbn.
  rewrite H by now left. rewrite IH; [reflexivity|]. intros; apply H; now right.
Qed.

Lemma partition_perm {X} (key : X -> Z) (l : list X) (ks : list Z) :
  NoDup ks -> (forall x, In x l -> In (key x) ks) ->
  Permutation (flat_map (fun k => filter (fun x => key x =? k) l) ks) l.
Proof.
  intros Hks. induction l as [|a l IH]; intros Hin.
  - cbn. now rewrite flat_map_nil.
  - assert (Ha : In (key a) ks) by (apply Hin; now left).
    apply in_split in Ha. destruct Ha as (k1 & k2 & E).
    assert (IH' := IH ltac:(intros; apply Hin; now right)).
    rewrite E in Hks, IH' |- *. apply NoDup_remove_2 in Hks.
    rewrite flat_map_app in IH' |- *. cbn [flat_map filter] in IH' |- *.
    rewrite Z.eqb_refl.
    assert (Hother : forall ks', ~ In (key a) ks' ->
      flat_map (fun k => filter (fun x => key x =? k) (a :: l)) ks'
      = flat_map (fun k => filter (fun x => key x =? k) l) ks').
    { intros ks' Hn. apply flat_map_ext_In. intros k Hk. cbn.
      destruct (Z.eqb_spec (key a) k); [subst; contradiction | reflexivity]. }
    rewrite !Hother by (intros H; apply Hks; apply in_or_app; auto).
    cbn. apply Permutation_sym. apply Permutation_cons_app.
    apply Permutation_sym. exact IH'.
Qed.

Lemma range_NoDup (n : Z) : NoDup (range n).
Proof.
  unfold range. apply NoDup_map_inj; [|apply seq_NoDup]. intros; lia.
Qed.

Lemma range_In (n x : Z) : In x (range n) <-> 0 <= x < n.
Proof.
  split; [apply range_bound|]. intros H. unfold range. apply in_map_iff.
  exists (Z.to_nat x). split; [lia|]. apply in_seq. lia.
Qed.

Lemma schedule_perm (c : Circuit) : circuit_inv c -> Permutation (schedule c) (gates c).
Proof.
  intros Hc. unfold schedule, moment_gates.
  apply (partition_perm (fun kg : coord * Gate => fst (fst kg))); [apply range_NoDup|].
  intros x Hx. apply range_In. now apply nmoment_bound.
Qed.

Lemma NoDup_fst_inj {K V} (l : list (K * V)) (e1 e2 : K * V) :
  NoDup (map fst l) -> In e1 l -> In e2 l -> fst e1 = fst e2 -> e1 = e2.
Proof.
  induction l as [|a l IH]; cbn; intros Hn H1 H2 E; [contradiction|].
  inversion Hn as [|? ? Hna Hn']; subst.
  destruct H1 as [-> | H1], H2 as [-> | H2]; auto.
  - exfalso. apply Hna. rewrite E. now apply in_map.
  - exfalso. apply Hna. rewrite <- E. now apply in_map.
Qed.

Lemma ForallOrdPairs_In {X} (R : X -> X -> Prop) (l : list X) (a b : X) :
  ForallOrdPairs R l -> In a l -> In b l -> a = b \/ R a b \/ R b a.
Proof.
  induction 1 as [|x l Hx _ IH]; cbn; intros Ha Hb; [contradiction|].
  rewrite Forall_forall in Hx.
  destruct Ha as [-> | Ha], Hb as [-> | Hb]; auto.
Qed.

Lemma placeable_slot_unique (N : Z) (L : list (coord * Gate)) :
  placeable N L -> slot_unique L.
Proof.
  intros (Hn & _ & Hd) e1 e2 q H1 H2 Hq1 Hq2 Ht.
  destruct (ForallOrdPairs_In _ _ (fst e1) (fst e2) Hd) as [E | [D | D]];
    try (now apply in_map).
  - now apply (NoDup_fst_inj L).
  - exfalso. apply (D (fst (fst e1), q)); apply key_slots_In; cbn.
    + split; [reflexivity | now apply touches_In].
    + split; [exact Ht | now apply touches_In].
  - exfalso. apply (D (fst (fst e1), q)); apply key_slots_In; cbn.
    + split; [exact Ht | now apply touches_In].
    + split; [reflexivity | now apply touches_In].
Qed.

Lemma placeable_NoDup (N : Z) (L : list (coord * Gate)) : placeable N L -> NoDup L.
Proof. intros (Hn & _). now apply NoDup_map_inv in Hn. Qed.

Lemma StronglySorted_refilter {X} (R : X -> X -> Prop) (p : X -> bool) (l : list X) :
  ForallOrdPairs (fun x y => p x = true -> p y = true -> R x y) l ->
  StronglySorted R (filter p l).
Proof.
  induction 1 as [|a l Ha _ IH]; [constructor|]. cbn.
  destruct (p a) eqn:Ea; [|exact IH]. constructor; [exact IH|].
  rewrite Forall_forall in *. intros y Hy. apply filter_In in Hy. destruct Hy. auto.
Qed.

Lemma NoDup_ForallOrdPairs {X} (l : list X) : NoDup l -> ForallOrdPairs (fun x y => x <> y) l.
Proof.
  induction 1 as [|a l Hn _ IH]; constructor; [|exact IH].
  apply Forall_forall. intros y Hy ->. contradiction.
Qed.

Lemma range_sorted (n : Z) : ForallOrdPairs Z.lt (range n).
Proof.
  unfold range. apply ForallOrdPairs_map.
  generalize 0%nat. induction (Z.to_nat n) as [|k IH]; intros s; cbn; constructor.
  - apply Forall_forall. intros y Hy. apply in_seq in Hy. lia.
  - apply IH.
Qed.

Lemma schedule_wire_sorted (c : Circuit) : circuit_inv c -> wire_sorted (schedule c).
Proof.
  intros Hc q. unfold wire, schedule, moment_gates. rewrite filter_flat_map.
  pose proof (placeable_slot_unique _ _ (inv_gates c Hc)) as HU.
  pose proof (placeable_NoDup _ _ (inv_gates c Hc)) as HN.
  apply StronglySorted_flat_map.
  - intros T _. apply StronglySorted_refilter.
    eapply ForallOrdPairs_impl_In;
      [apply ForallOrdPairs_filter, NoDup_ForallOrdPairs; exact HN|].
    intros a b Ha Hb Hab Hqa Hqb. exfalso. apply Hab.
    apply filter_In in Ha, Hb. destruct Ha as [Ha Ea], Hb as [Hb Eb].
    apply (HU a b q); auto. lia.
  - eapply ForallOrdPairs_impl_In; [apply range_sorted|].
    intros T T' _ _ HT a b Ha Hb.
    apply filter_In in Ha, Hb. destruct Ha as [Ha _], Hb as [Hb _].
    apply filter_In in Ha, Hb. destruct Ha as [_ Ha], Hb as [_ Hb].
    unfold time_lt. lia.
Qed.

(** ** From fused gates to equal state vectors *)

Lemma fuses_sound (c c' : Circuit) :
  circuit_inv c -> circuit_inv c' -> Forall (simulable (cN c)) (gates c) ->
  fuses (cN c) (gates c) (gates c') ->
  forall psi, agree (Z.to_nat (cN c)) (act_all (schedule c') psi) (act_all (schedule c) psi).
Proof.
  intros Hc Hc' Hs (F & P1 & P2 & HF).
  apply (fusion_sound (cN c) (gates c) (gates c') (schedule c) (schedule c') F); auto.
  - apply (placeable_slot_unique (cN c)), inv_gates, Hc.
  - apply (placeable_NoDup (cN c)), inv_gates, Hc.
  - now apply schedule_perm.
  - now apply schedule_wire_sorted.
  - now apply schedule_perm.
  - now apply schedule_wire_sorted.
Qed.

Lemma flat_map_length_ge {X Y} (f : X -> list Y) (l : list X) :
  (forall x, In x l -> f x <> []) -> (length l <= length (flat_map f l))%nat.
Proof.
  induction l as [|a l IH]; intros H; [cbn; lia|]. cbn. rewrite length_app.
  assert (Ha : f a <> []) by (apply H; now left).
  destruct (f a); [contradiction|]. cbn.
  specialize (IH ltac:(intros; apply H; now right)). lia.
Qed.

Lemma fuses_length (N : Z) (L L' : list (coord * Gate)) :
  fuses N L L' -> (length L' <= length L)%nat.
Proof.
  intros (F & P1 & P2 & HF).
  rewrite <- (Permutation_length P1), <- (Permutation_length P2), length_map.
  apply flat_map_length_ge. intros g Hg E. rewrite Forall_forall in HF.
  destruct (go_pivot _ _ _ (HF g Hg)) as (p & Hp & _). rewrite E in Hp. contradiction.
Qed.

Lemma fuses_coord (N : Z) (L L' : list (coord * Gate)) (e' : coord * Gate) :
  fuses N L L' -> In e' L' -> exists e, In e L /\ fst e = fst e'.
Proof.
  intros (F & P1 & P2 & HF) He'.
  apply (Permutation_in _ (Permutation_sym P1)) in He'.
  apply in_map_iff in He'. destruct He' as (g & <- & Hg).
  rewrite Forall_forall in HF. destruct (go_pivot _ _ _ (HF g Hg)) as (p & Hp & E).
  exists p. split; [|exact E]. apply (Permutation_in _ P2). apply in_flat_map. eauto.
Qed.

Lemma fuses_nonempty (N : Z) (L L' : list (coord * Gate)) :
  fuses N L L' -> L <> [] -> L' <> [].
Proof.
  intros (F & P1 & P2 & HF) HL E. subst L'.
  apply Permutation_sym, Permutation_nil in P1. apply map_eq_nil in P1. subst F.
  cbn in P2. apply Permutation_nil in P2. contradiction.
Qed.

Lemma fuses_simulable (N : Z) (L L' : list (coord * Gate)) :
  fuses N L L' -> Forall (simulable N) L'.
Proof.
  intros (F & P1 & P2 & HF). apply Forall_forall. intros e He.
  apply (Permutation_in _ (Permutation_sym P1)) in He.
  apply in_map_iff in He. destruct He as (g & <- & Hg).
  rewrite Forall_forall in HF. apply (go_host _ _ _ (HF g Hg)).
Qed.

Lemma nmoment_le (c c' : Circuit) :
  circuit_inv c -> circuit_inv c' ->
  (forall e', In e' (gates c') -> exists e, In e (gates c) /\ fst (fst e) = fst (fst e')) ->
  nmoment c' <= nmoment c.
Proof.
  intros Hc Hc' H. destruct (gates c') as [|g l] eqn:E.
  - rewrite (no_gates_nmoment c' Hc' E). now apply nmoment_nonneg.
  - destruct (nmoment_attained c' Hc') as (e' & He' & Et); [congruence|].
    rewrite E in He'. destruct (H e' He') as (e & He & Ee).
    pose proof (nmoment_bound c e Hc He). lia.
Qed.

(** The simulator's gate application on arrays, as the action on amplitudes. *)
Lemma run_gates_act (N : Z) (l : list (coord * Gate)) (w : vec) :
  0 <= N -> Forall (simulable N) l ->
  agree (Z.to_nat N) (amp (run_gates N l w)) (act_all l (amp w)).
Proof.
  intros HN Hl. revert w. induction Hl as [|e l He _ IH]; intros w.
  - intros bs _. reflexivity.
  - unfold run_gates in *. cbn [fold_left]. rewrite act_all_cons.
    eapply agree_trans; [apply IH|]. apply act_all_agree.
    intros bs Hbs. now apply gate_apply_act.
Qed.

Lemma vec_ext (n : nat) (w1 w2 : vec) :
  length w1 = (2 ^ n)%nat -> length w2 = (2 ^ n)%nat ->
  agree n (amp w1) (amp w2) -> w1 = w2.
Proof.
  intros H1 H2 H. apply (nth_ext _ _ C0 C0); [congruence|].
  intros i Hi. rewrite H1 in Hi. destruct (idx_of_bits_onto n i Hi) as (bs & Hbs & <-).
  apply (H bs Hbs).
Qed.

Lemma run_gates_fuses (c c' : Circuit) (w : vec) :
  circuit_inv c -> circuit_inv c' -> cN c' = cN c ->
  Forall (simulable (cN c)) (gates c) -> Forall (simulable (cN c)) (gates c') ->
  (forall psi, agree (Z.to_nat (cN c)) (act_all (schedule c') psi) (act_all (schedule c) psi)) ->
  zlen w = 2 ^ cN c ->
  run_gates (cN c') (schedule c') w = run_gates (cN c) (schedule c) w.
Proof.
  intros Hc Hc' EN Hs Hs' Hact Hw. rewrite EN.
  pose proof (inv_N c Hc) as HN.
  assert (Hsch : forall d, circuit_inv d -> Forall (simulable (cN c)) (gates d) ->
                           Forall (simulable (cN c)) (schedule d)).
  { intros d Hd Hsd. rewrite Forall_forall in *. intros x Hx. apply Hsd.
    eapply Permutation_in; [apply schedule_perm; exact Hd | exact Hx]. }
  apply (vec_ext (Z.to_nat (cN c))).
  - apply zlen_pow2; [lia|]. apply run_gates_length; auto; lia.
  - apply zlen_pow2; [lia|]. apply run_gates_length; auto; lia.
  - eapply agree_trans; [apply run_gates_act; auto; lia|].
    eapply agree_trans; [apply Hact|].
    intros bs Hbs. symmetry. apply run_gates_act; auto. lia.
Qed.

(** ** The invariant of the compressor's loops *)

Lemma foldM_inv {A St} (f : St -> A -> result St) (I : list A -> St -> Prop)
    (l : list A) (s0 : St) :
  I [] s0 ->
  (forall pre x post s, l = pre ++ x :: post -> I pre s ->
     exists s', f s x = Ok s' /\ I (pre ++ [x]) s') ->
  exists s', foldM f l s0 = Ok s' /\ I l s'.
Proof.
  intros H0 Hstep.
  assert (G : forall rest done s, l = done ++ rest -> I done s ->
                exists s', foldM f rest s = Ok s' /\ I l s').
  { induction rest as [|x rest IH]; intros done s E Hs.
    - rewrite app_nil_r in E. subst done. exists s. split; [reflexivity | exact Hs].
    - destruct (Hstep done x rest s E Hs) as (s1 & E1 & H1).
      destruct (IH (done ++ [x]) s1) as (s' & E' & H'); [now rewrite <- app_assoc | exact H1|].
      exists s'. split; [|exact H']. cbn. rewrite E1. exact E'. }
  apply (G l [] s0); auto.
Qed.

Lemma disjoint_keys_sym (k1 k2 : coord) : disjoint_keys k1 k2 -> disjoint_keys k2 k1.
Proof. intros H s H2 H1. exact (H s H1 H2). Qed.

Lemma ForallOrdPairs_neq_NoDup {X} (l : list X) :
  ForallOrdPairs (fun x y => x <> y) l -> NoDup l.
Proof.
  induction 1 as [|a l Ha _ IH]; constructor; [|exact IH].
  intros Hin. rewrite Forall_forall in Ha. now apply (Ha a Hin).
Qed.

Lemma fusion_placeable (N : Z) (L : list (coord * Gate))
    (F : list ((coord * Gate) * list (coord * Gate))) :
  placeable N L -> Forall (group_ok N L) F ->
  NoDup (flat_map snd F) -> incl (flat_map snd F) L ->
  placeable N (map fst F).
Proof.
  intros HL HF Hn Hi.
  assert (Hin : forall g x, In g F -> In x (snd g) -> In x L).
  { intros g x Hg Hx. apply Hi. apply in_flat_map. eauto. }
  rewrite Forall_forall in HF.
  assert (Hpair : ForallOrdPairs (fun g g' : (coord * Gate) * list (coord * Gate) =>
                    fst (fst g) <> fst (fst g')
                    /\ disjoint_keys (fst (fst g)) (fst (fst g'))) F).
  { eapply ForallOrdPairs_impl_In; [apply (NoDup_flat_map_disjoint _ _ Hn)|].
    intros g g' Hg Hg' Hdis.
    destruct (go_pivot _ _ _ (HF g Hg)) as (p & Hp & Ep).
    destruct (go_pivot _ _ _ (HF g' Hg')) as (p' & Hp' & Ep').
    rewrite <- Ep, <- Ep'.
    assert (Hne : fst p <> fst p').
    { intros E. assert (p = p').
      { destruct HL as (HnL & _). apply (NoDup_fst_inj L); eauto. }
      subst p'. eauto. }
    split; [exact Hne|].
    destruct HL as (_ & _ & Hd).
    destruct (ForallOrdPairs_In _ _ (fst p) (fst p') Hd) as [E | [D | D]];
      try (apply in_map; eauto).
    - contradiction.
    - exact D.
    - now apply disjoint_keys_sym. }
  split; [|split].
  - apply ForallOrdPairs_neq_NoDup. apply ForallOrdPairs_map, ForallOrdPairs_map.
    eapply ForallOrdPairs_impl_In; [exact Hpair|]. intros a b _ _ [H1 _]. exact H1.
  - apply Forall_forall. intros h Hh. apply in_map_iff in Hh. destruct Hh as (g & <- & Hg).
    destruct (go_pivot _ _ _ (HF g Hg)) as (p & Hp & Ep).
    destruct (go_host _ _ _ (HF g Hg)) as (_ & _ & Hlen & Hq & _).
    destruct HL as (_ & HeL & _). rewrite Forall_forall in HeL.
    destruct (HeL p (Hin g p Hg Hp)) as (Ht & _).
    split; [now rewrite <- Ep|]. split; [exact Hlen|].
    eapply Forall_impl; [|exact Hq]. intros; cbn in *; lia.
  - apply ForallOrdPairs_map, ForallOrdPairs_map.
    eapply ForallOrdPairs_impl_In; [exact Hpair|]. intros a b _ _ [_ H2]. exact H2.
Qed.

Lemma fusion_add (N : Z) (L : list (coord * Gate)) (c2 : Circuit)
    (F : list ((coord * Gate) * list (coord * Gate)))
    (h : coord * Gate) (M : list (coord * Gate)) :
  placeable N L -> fusion_inv N L c2 F ->
  group_ok N L (h, M) -> NoDup M -> incl M L ->
  (forall x, In x M -> ~ In x (flat_map snd F)) ->
  exists c2', add_gate_to c2 (fst (fst h)) (snd (fst h)) (snd h) = Ok c2'
              /\ fusion_inv N L c2' (F ++ [(h, M)]).
Proof.
  intros HL (Hc & HN & Hg & HF & Hn & Hi) Hgrp HnM HiM Hfresh.
  assert (HF' : Forall (group_ok N L) (F ++ [(h, M)])).
  { apply Forall_app. split; [exact HF | constructor; [exact Hgrp | constructor]]. }
  assert (Hn' : NoDup (flat_map snd (F ++ [(h, M)]))).
  { rewrite flat_map_app. cbn. rewrite app_nil_r. apply NoDup_app_build; auto.
    intros a Ha Hm. exact (Hfresh a Hm Ha). }
  assert (Hi' : incl (flat_map snd (F ++ [(h, M)])) L).
  { rewrite flat_map_app. cbn. rewrite app_nil_r. now apply incl_app. }
  pose proof (fusion_placeable N L _ HL HF' Hn' Hi') as Hp.
  rewrite map_app in Hp. cbn in Hp. rewrite <- Hg, <- HN in Hp.
  destruct (place_all [h] c2 Hc Hp) as (c2' & E & Eg & EN & Hc' & _).
  exists c2'. cbn in E. unfold add_entry in E.
  destruct (add_gate_to c2 (fst (fst h)) (snd (fst h)) (snd h)) as [c3|] eqn:E3;
    [|discriminate].
  cbn in E. split; [exact E|].
  split; [exact Hc'|]. split; [congruence|]. split; [|auto].
  rewrite Eg, Hg, map_app. reflexivity.
Qed.

Lemma fusion_done (N : Z) (L : list (coord * Gate)) (c2 : Circuit)
    (F : list ((coord * Gate) * list (coord * Gate))) :
  NoDup L -> fusion_inv N L c2 F -> incl L (flat_map snd F) ->
  fuses N L (gates c2).
Proof.
  intros HnL (Hc & HN & Hg & HF & Hn & Hi) Hcov. exists F.
  split; [rewrite Hg; apply Permutation_refl|]. split; [|exact HF].
  apply NoDup_Permutation; auto. intros x. split; auto.
Qed.

(** ** The occupancy plan of the compressor *)

Lemma plan_is_ext (nm N : Z) (f g : Z -> Z -> Z) (plan : plan_t) :
  plan_is nm N f plan ->
  (forall T A, 0 <= T < nm -> 0 <= A < N -> f T A = g T A) ->
  plan_is nm N g plan.
Proof.
  intros (Hl & H) E. split; [exact Hl|]. intros A HA.
  destruct (H A HA) as (row & Hr & Hlen & Hv). exists row. split; [exact Hr|].
  split; [exact Hlen|]. intros T HT. rewrite Hv by exact HT. now apply E.
Qed.

Lemma plan_is_py_get (nm N : Z) (f : Z -> Z -> Z) (plan : plan_t) (A : Z) :
  plan_is nm N f plan -> 0 <= A < N ->
  exists row, py_get plan A = Ok row /\ zlen row = nm
              /\ forall T, 0 <= T < nm -> nth (Z.to_nat T) row 0 = f T A.
Proof.
  intros (Hl & H) HA. destruct (H A HA) as (row & Hr & Hlen & Hv).
  exists row. split; [|auto].
  rewrite (py_get_in_range plan A []) by lia. f_equal.
  now apply nth_error_nth.
Qed.

Lemma plan_is_get (nm N : Z) (f : Z -> Z -> Z) (plan : plan_t) (A T : Z) :
  plan_is nm N f plan -> 0 <= A < N -> 0 <= T < nm -> plan_get plan A T = Ok (f T A).
Proof.
  intros H HA HT. destruct (plan_is_py_get _ _ _ _ A H HA) as (row & Hr & Hlen & Hv).
  rewrite (plan_get_in_range plan A T row Hr) by lia. now rewrite Hv.
Qed.

Lemma py_index_in_range (len i : Z) : 0 <= i < len -> py_index len i = Ok (Z.to_nat i).
Proof.
  intros H. unfold py_index.
  destruct (Z.leb_spec 0 i); [|lia]. destruct (Z.ltb_spec i len); [|lia]. reflexivity.
Qed.

Lemma plan_set_spec (nm N : Z) (f : Z -> Z -> Z) (plan : plan_t) (A T v : Z) :
  plan_is nm N f plan -> 0 <= A < N -> 0 <= T < nm ->
  exists plan', plan_set plan A T v = Ok plan'
    /\ plan_is nm N (fun T' A' => if (T' =? T) && (A' =? A) then v else f T' A') plan'.
Proof.
  intros H HA HT. pose proof H as (Hl & Hrows).
  destruct (plan_is_py_get _ _ _ _ A H HA) as (row & Hr & Hlen & Hv).
  destruct (Hrows A HA) as (row0 & Hr0 & _).
  unfold plan_set. rewrite py_index_in_range by lia. cbn [bind]. rewrite Hr. cbn [bind].
  rewrite py_index_in_range by lia. cbn [bind].
  eexists. split; [reflexivity|]. split.
  - unfold zlen in *. now rewrite update_length.
  - intros A' HA'. destruct (Z.eq_dec A' A) as [-> | Hne].
    + exists (update row (Z.to_nat T) v). split; [|split].
      * apply update_nth_error_same. unfold zlen in Hl. lia.
      * unfold zlen in *. now rewrite update_length.
      * intros T' HT'. rewrite Z.eqb_refl, andb_true_r.
        destruct (Z.eqb_spec T' T) as [-> | HneT].
        -- apply update_nth_same. unfold zlen in Hlen. lia.
        -- rewrite update_nth_other by lia. now apply Hv.
    + destruct (Hrows A' HA') as (row' & Hr' & Hlen' & Hv').
      exists row'. split; [|split; [exact Hlen'|]].
      * rewrite update_nth_error_other by lia. exact Hr'.
      * intros T' HT'. destruct (Z.eqb_spec A' A); [contradiction|].
        rewrite andb_false_r. now apply Hv'.
Qed.

Lemma plan_is_zeros (nm N : Z) :
  0 <= nm -> 0 <= N ->
  plan_is nm N (fun _ _ => 0) (repeat (repeat 0 (Z.to_nat nm)) (Z.to_nat N)).
Proof.
  intros Hnm HN. split.
  - unfold zlen. rewrite repeat_length. lia.
  - intros A HA. exists (repeat 0 (Z.to_nat nm)). split; [|split].
    + rewrite nth_error_repeat by lia. reflexivity.
    + unfold zlen. rewrite repeat_length. lia.
    + intros T HT. apply nth_repeat.
Qed.

Lemma find_app {X} (p : X -> bool) (l1 l2 : list X) :
  find p (l1 ++ l2) = match find p l1 with Some x => Some x | None => find p l2 end.
Proof. induction l1 as [|a l1 IH]; cbn; [reflexivity|]. destruct (p a); auto. Qed.

Lemma at_slot_Some (L : list (coord * Gate)) (T A : Z) (e : coord * Gate) :
  at_slot L T A = Some e -> In e L /\ fst (fst e) = T /\ touches A e = true.
Proof.
  unfold at_slot. intros H. apply find_some in H. destruct H as [Hin Hp].
  apply andb_prop in Hp. destruct Hp as [Ht Hq]. apply Z.eqb_eq in Ht. auto.
Qed.

Lemma at_slot_None (L : list (coord * Gate)) (T A : Z) (e : coord * Gate) :
  at_slot L T A = None -> In e L -> fst (fst e) = T -> touches A e = true -> False.
Proof.
  unfold at_slot. intros H Hin Ht Hq. pose proof (find_none _ _ H e Hin) as Hp. cbn in Hp.
  rewrite Ht, Z.eqb_refl, Hq in Hp. discriminate.
Qed.

Lemma at_slot_In (L : list (coord * Gate)) (e : coord * Gate) (A : Z) :
  slot_unique L -> In e L -> touches A e = true -> at_slot L (fst (fst e)) A = Some e.
Proof.
  intros HU Hin Hq. destruct (at_slot L (fst (fst e)) A) as [x|] eqn:E.
  - apply at_slot_Some in E. destruct E as (Hx & Ht & Hqx). f_equal.
    apply (HU x e A); auto.
  - exfalso. eapply at_slot_None; eauto.
Qed.

Lemma slot_val_snoc (pre : list (coord * Gate)) (e : coord * Gate) (T A : Z) :
  (touches A e = true -> at_slot pre (fst (fst e)) A = None) ->
  slot_val (pre ++ [e]) T A
  = if (fst (fst e) =? T) && touches A e then code e A else slot_val pre T A.
Proof.
  intros Hfresh. unfold slot_val, at_slot in *. rewrite find_app. cbn [find].
  destruct ((fst (fst e) =? T) && touches A e) eqn:Ep.
  - apply andb_prop in Ep. destruct Ep as [Et Eq]. apply Z.eqb_eq in Et. subst T.
    now rewrite (Hfresh Eq).
  - match goal with |- context [find ?p pre] => destruct (find p pre) end; reflexivity.
Qed.

Lemma fresh_slot (L pre post : list (coord * Gate)) (e : coord * Gate) (A : Z) :
  slot_unique L -> NoDup L -> L = pre ++ e :: post -> touches A e = true ->
  at_slot pre (fst (fst e)) A = None.
Proof.
  intros HU HN E Hq. destruct (at_slot pre (fst (fst e)) A) as [x|] eqn:Ex; [|reflexivity].
  exfalso. apply at_slot_Some in Ex. destruct Ex as (Hx & Ht & Hqx).
  assert (x = e).
  { apply (HU x e A); auto; rewrite E; apply in_or_app; [now left | right; now left]. }
  subst x. rewrite E in HN. apply NoDup_remove_2 in HN. apply HN.
  apply in_or_app. now left.
Qed.

Lemma make_plan_spec (nm N : Z) (L : list (coord * Gate)) :
  0 <= nm -> 0 <= N -> placeable N L -> Forall (simulable N) L ->
  (forall e, In e L -> fst (fst e) < nm) ->
  exists plan, make_plan nm N L = Ok plan /\ plan_is nm N (slot_val L) plan.
Proof.
  intros Hnm HN HL Hs Ht. unfold make_plan.
  pose proof (placeable_slot_unique _ _ HL) as HU.
  pose proof (placeable_NoDup _ _ HL) as HD.
  apply (foldM_inv plan_step (fun pre plan => plan_is nm N (slot_val pre) plan)).
  - now apply plan_is_zeros.
  - intros pre e post plan E Hplan.
    assert (He : In e L) by (rewrite E; apply in_or_app; right; now left).
    rewrite Forall_forall in Hs. pose proof (Hs e He) as Hse.
    pose proof (Ht e He) as Hte.
    assert (Hte0 : 0 <= fst (fst e)).
    { destruct HL as (_ & HeL & _). rewrite Forall_forall in HeL. apply (HeL e He). }
    assert (Hsnoc : forall T A, slot_val (pre ++ [e]) T A
              = if (fst (fst e) =? T) && touches A e then code e A else slot_val pre T A).
    { intros T A. apply slot_val_snoc. intros Hq. now apply (fresh_slot L pre post). }
    destruct e as [[T key] g]. cbn [fst snd] in *.
    destruct (simulable_cases _ _ Hse)
      as [(A & K & Hg & HA & _) | (A & B & K & Hg & HA & HB & HAB & _)];
      cbn [fst snd] in K, Hg; subst key; unfold plan_step; rewrite Hg; cbn [Z.eqb Pos.eqb].
    + destruct (plan_set_spec nm N _ plan A T 1 Hplan HA ltac:(lia)) as (plan' & E' & H').
      exists plan'. split; [exact E'|]. eapply plan_is_ext; [exact H'|].
      intros T' A' HT' HA'. cbn beta. rewrite Hsnoc.
      unfold touches, code. cbn [fst snd existsb]. rewrite orb_false_r.
      now rewrite (Z.eqb_sym T T').
    + destruct (plan_set_spec nm N _ plan A T 2 Hplan HA ltac:(lia)) as (plan1 & E1 & H1).
      destruct (plan_set_spec nm N _ plan1 B T (-2) H1 HB ltac:(lia)) as (plan2 & E2 & H2).
      exists plan2. split; [rewrite E1; cbn [bind]; exact E2|].
      eapply plan_is_ext; [exact H2|].
      intros T' A' HT' HA'. cbn beta. rewrite Hsnoc.
      unfold touches, code. cbn [fst snd existsb]. rewrite orb_false_r.
      rewrite (Z.eqb_sym T T').
      destruct (Z.eqb_spec T' T), (Z.eqb_spec A' A), (Z.eqb_spec A' B), (Z.eqb_spec A A');
        cbn; try reflexivity; try lia.
Qed.

(** ** The scans of pass 2 *)

Lemma dict_get_set {V} (d : list (coord * V)) (k k' : coord) (v : V) :
  dict_get (dict_set d k v) k' = if coord_eqb k' k then Some v else dict_get d k'.
Proof.
  induction d as [|[k0 v0] d IH]; cbn.
  - reflexivity.
  - destruct (coord_eqb k k0) eqn:E0; cbn.
    + apply coord_eqb_eq in E0. subst k0. now destruct (coord_eqb k' k).
    + destruct (coord_eqb k' k0) eqn:E1.
      * apply coord_eqb_eq in E1. subst k0.
        destruct (coord_eqb k' k) eqn:E2; [|reflexivity].
        apply coord_eqb_eq in E2. subst k'. rewrite coord_eqb_refl in E0. discriminate.
      * exact IH.
Qed.

Lemma dict_mem_set {V} (d : list (coord * V)) (k k' : coord) (v : V) :
  dict_mem (dict_set d k v) k' = coord_eqb k' k || dict_mem d k'.
Proof. unfold dict_mem. rewrite dict_get_set. now destruct (coord_eqb k' k). Qed.

Lemma slot_val_cases (N : Z) (L : list (coord * Gate)) (T A : Z) :
  Forall (simulable N) L ->
  (at_slot L T A = None /\ slot_val L T A = 0)
  \/ (exists g, at_slot L T A = Some ((T, [A]), g) /\ slot_val L T A = 1)
  \/ (exists B g, A <> B /\ at_slot L T A = Some ((T, [A; B]), g) /\ slot_val L T A = 2)
  \/ (exists B g, A <> B /\ at_slot L T A = Some ((T, [B; A]), g) /\ slot_val L T A = -2).
Proof.
  intros Hs. unfold slot_val. destruct (at_slot L T A) as [e|] eqn:E; [|now left].
  right. destruct (at_slot_Some _ _ _ _ E) as (Hin & Ht & Hq).
  rewrite Forall_forall in Hs. specialize (Hs e Hin).
  apply touches_In in Hq. destruct e as [[T' key] g]. cbn [fst snd] in *. subst T'.
  destruct (simulable_cases _ _ Hs)
    as [(A1 & K & _) | (A1 & B1 & K & _ & _ & _ & HAB & _)]; cbn [fst snd] in K; subst key.
  - left. destruct Hq as [-> | []]. exists g. auto.
  - right. unfold code. cbn [fst snd].
    destruct Hq as [-> | [-> | []]].
    + left. exists B1, g. rewrite Z.eqb_refl. auto.
    + right. exists A1, g. destruct (Z.eqb_spec A1 A); [contradiction|]. auto.
Qed.

Lemma slot_val_plan_value (N : Z) (L : list (coord * Gate)) (T A : Z) :
  Forall (simulable N) L -> plan_value (slot_val L T A).
Proof.
  intros Hs. unfold plan_value.
  destruct (slot_val_cases N L T A Hs)
    as [(_ & E) | [(g & _ & E) | [(B & g & _ & _ & E) | (B & g & _ & _ & E)]]];
    rewrite E; auto.
Qed.

Lemma range_down_succ (T : Z) : 0 <= T -> range_down (T + 1) = T :: range_down T.
Proof.
  intros HT. unfold range_down, range.
  replace (Z.to_nat (T + 1)) with (S (Z.to_nat T)) by lia.
  rewrite seq_S, map_app, rev_app_distr. cbn. f_equal. lia.
Qed.

Section Scans.
Variables (nm N : Z) (c1 : Circuit) (plan : plan_t).
Hypothesis Hplan : plan_is nm N (slot_val (gates c1)) plan.
Hypothesis Hsim : Forall (simulable N) (gates c1).
Hypothesis Hkeys : NoDup (map fst (gates c1)).

Lemma one_body_lookup (T A : Z) :
  slot_val (gates c1) T A = 1 ->
  exists g, at_slot (gates c1) T A = Some ((T, [A]), g)
            /\ dict_item (gates c1) (T, [A]) = Ok g /\ In ((T, [A]), g) (gates c1).
Proof.
  intros E.
  destruct (slot_val_cases N (gates c1) T A Hsim)
    as [(_ & E') | [(g & Hg & _) | [(B & g & _ & _ & E') | (B & g & _ & _ & E')]]];
    try (rewrite E in E'; discriminate).
  exists g. split; [exact Hg|]. apply at_slot_Some in Hg. destruct Hg as (Hin & _).
  split; [|exact Hin]. unfold dict_item. now rewrite (dict_get_NoDup _ _ _ Hkeys Hin).
Qed.

Lemma scan_left_spec (A T : Z) :
  0 <= A < N -> 0 <= T <= nm ->
  match scan_left plan c1 A (range_down T) with
  | Ok (Some (T2, g1)) =>
      0 <= T2 < T /\ In ((T2, [A]), g1) (gates c1)
      /\ forall t, T2 < t < T -> at_slot (gates c1) t A = None
  | Ok None => True
  | Raise _ => False
  end.
Proof.
  intros HA [HT0 HT]. revert HT. pattern T. apply natlike_ind; [| |exact HT0].
  - intros _. exact I.
  - clear T HT0. intros T HT0 IH HT. unfold Z.succ in *.
    rewrite range_down_succ by exact HT0.
    cbn [scan_left]. rewrite (plan_is_get nm N _ plan A T Hplan HA) by lia. cbn [bind].
    destruct (slot_val_cases N (gates c1) T A Hsim)
      as [(Hn & E) | [(g & Hg & E) | [(B & g & _ & _ & E) | (B & g & _ & _ & E)]]];
      rewrite E; cbn [Z.eqb Pos.eqb orb]; auto.
    + specialize (IH ltac:(lia)).
      destruct (scan_left plan c1 A (range_down T)) as [[[T2 g1]|]|]; auto.
      destruct IH as (H1 & H2 & H3). split; [lia|]. split; [exact H2|].
      intros t Ht. destruct (Z.eq_dec t T) as [-> | Hne]; [exact Hn|]. apply H3. lia.
    + destruct (one_body_lookup T A E) as (g' & _ & Eg & Hin). rewrite Eg. cbn [bind].
      split; [lia|]. split; [exact Hin|]. intros t Ht. lia.
Qed.

Lemma scan_right_slots (A T : Z) :
  0 <= A < N -> 0 <= T -> 0 <= nm ->
  (forall e, In e (gates c1) -> fst (fst e) < nm) ->
  match scan_right nm plan c1 A T with
  | Ok (Some (T2, g1)) =>
      T < T2 /\ In ((T2, [A]), g1) (gates c1)
      /\ (forall t, T < t < T2 -> at_slot (gates c1) t A = None)
      /\ (forall t y, T < t -> at_slot (gates c1) t A = Some y -> zlen (snd (fst y)) = 1)
  | Ok None => True
  | Raise _ => False
  end.
Proof.
  intros HA HT Hnm Htimes.
  destruct (plan_is_py_get _ _ _ _ A Hplan HA) as (row & Hr & Hlen & Hv).
  assert (Hvals : Forall plan_value row).
  { apply Forall_forall. intros v Hin. apply (In_nth _ _ 0) in Hin.
    destruct Hin as (k & Hk & <-). unfold zlen in Hlen.
    replace k with (Z.to_nat (Z.of_nat k)) by lia. rewrite Hv by lia.
    now apply (slot_val_plan_value N). }
  pose proof (scan_right_spec nm plan c1 A T row Hr ltac:(lia) HT Hvals) as Hspec.
  assert (Hlook : forall T2, 0 <= T2 < nm -> nth (Z.to_nat T2) row 0 = 1 ->
                             dict_get (gates c1) (T2, [A]) <> None).
  { intros T2 HT2 E. rewrite Hv in E by exact HT2.
    destruct (one_body_lookup T2 A E) as (g & _ & Eg & _). unfold dict_item in Eg.
    destruct (dict_get (gates c1) (T2, [A])); [discriminate | discriminate]. }
  specialize (Hspec Hlook).
  destruct (scan_right nm plan c1 A T) as [[[T2 g1]|]|]; auto.
  destruct Hspec as (H1 & H2 & H3 & H4 & H5).
  split; [lia|]. split; [now apply dict_get_In|]. split.
  - intros t Ht. specialize (H3 t ltac:(lia)). specialize (H4 t Ht).
    rewrite Hv in H3, H4 by lia.
    destruct (slot_val_cases N (gates c1) t A Hsim)
      as [(Hn & E) | [(g & Hg & E) | [(B & g & _ & _ & E) | (B & g & _ & _ & E)]]];
      rewrite E in *; auto; try lia; contradiction.
  - intros t y Ht Hy.
    assert (Hty : t < nm).
    { apply at_slot_Some in Hy. destruct Hy as (Hin & Et & _).
      specialize (Htimes y Hin). lia. }
    specialize (H3 t ltac:(lia)). rewrite Hv in H3 by lia.
    destruct (slot_val_cases N (gates c1) t A Hsim)
      as [(Hn & E) | [(g & Hg & E) | [(B & g & _ & Hg & E) | (B & g & _ & Hg & E)]]];
      rewrite E in *; try lia; try congruence.
    rewrite Hg in Hy. injection Hy as <-. reflexivity.
Qed.

End Scans.

(** ** A 1-body gate is taken in by one 2-body gate *)

Lemma touches_single (q q' : Z) (x : coord * Gate) :
  snd (fst x) = [q'] -> touches q x = true -> q = q'.
Proof.
  intros K H. apply touches_In in H. rewrite K in H. destruct H as [-> | []]. reflexivity.
Qed.

Lemma absorbed_order (L : list (coord * Gate)) (e e' x : coord * Gate) :
  slot_unique L -> In e L -> In e' L -> zlen (snd (fst e')) = 2 ->
  absorbed L e x -> absorbed L e' x -> time_lt e e' -> False.
Proof.
  intros HU He He' H2 (Hx & q & Kx & Hqe & Hside) (_ & q' & Kx' & Hqe' & Hside') Hlt.
  rewrite Kx in Kx'. injection Kx' as <-. unfold time_lt in *.
  destruct Hside as [(Hxe & Hgap) | (Hex & Hgap & Hone)].
  - destruct Hside' as [(Hxe' & Hgap') | (Hex' & _)]; [|lia].
    specialize (Hgap' (fst (fst e)) ltac:(lia)).
    now rewrite (at_slot_In L e q HU He Hqe) in Hgap'.
  - specialize (Hone (fst (fst e')) e' Hlt (at_slot_In L e' q HU He' Hqe')). unfold zlen in *. lia.
Qed.

Lemma absorbed_unique (L : list (coord * Gate)) (e e' x : coord * Gate) :
  slot_unique L -> In e L -> In e' L ->
  zlen (snd (fst e)) = 2 -> zlen (snd (fst e')) = 2 ->
  absorbed L e x -> absorbed L e' x -> e = e'.
Proof.
  intros HU He He' H2 H2' Ha Ha'.
  destruct (Z.lt_trichotomy (fst (fst e)) (fst (fst e'))) as [Hlt | [Heq | Hgt]].
  - exfalso. now apply (absorbed_order L e e' x).
  - destruct Ha as (_ & q & Kx & Hqe & _). destruct Ha' as (_ & q' & Kx' & Hqe' & _).
    rewrite Kx in Kx'. injection Kx' as <-. now apply (HU e e' q).
  - exfalso. now apply (absorbed_order L e' e x).
Qed.

Lemma pass2_convex (L M : list (coord * Gate)) (e : coord * Gate) :
  slot_unique L -> In e L -> In e M ->
  (forall x, In x M -> x = e \/ absorbed L e x) ->
  forall q m1 m2 x, In m1 M -> In m2 M -> In x L ->
    touches q m1 = true -> touches q m2 = true -> touches q x = true ->
    time_lt m1 x -> time_lt x m2 -> In x M.
Proof.
  intros HU He HeM HM q m1 m2 x H1 H2 Hx Hq1 Hq2 Hqx Hlt1 Hlt2.
  pose proof (at_slot_In L x q HU Hx Hqx) as Hat.
  unfold time_lt in *.
  assert (Hgap : forall a b, (forall t, a < t < b -> at_slot L t q = None) ->
                             a < fst (fst x) < b -> False).
  { intros a b Hg Hab. rewrite (Hg _ Hab) in Hat. discriminate. }
  destruct (HM m1 H1) as [-> | (_ & q1 & K1 & _ & S1)];
  destruct (HM m2 H2) as [-> | (_ & q2 & K2 & _ & S2)].
  - lia.
  - assert (q = q2) by (eapply touches_single; eauto). subst q2.
    destruct S2 as [(L2 & G2) | (L2 & G2 & _)]; unfold time_lt in *; [lia|].
    exfalso. apply (Hgap _ _ G2). lia.
  - assert (q = q1) by (eapply touches_single; eauto). subst q1.
    destruct S1 as [(L1 & G1) | (L1 & G1 & _)]; unfold time_lt in *; [|lia].
    exfalso. apply (Hgap _ _ G1). lia.
  - assert (q = q1) by (eapply touches_single; eauto). subst q1.
    assert (q = q2) by (eapply touches_single; eauto). subst q2.
    destruct S1 as [(L1 & G1) | (L1 & G1 & _)];
    destruct S2 as [(L2 & G2) | (L2 & G2 & _)]; unfold time_lt in *.
    + exfalso. apply (Hgap _ _ G1). lia.
    + destruct (Z.lt_trichotomy (fst (fst x)) (fst (fst e))) as [Hlt | [Heq | Hgt]].
      * exfalso. apply (Hgap _ _ G1). lia.
      * assert (x = e); [|now subst].
        destruct (HM m1 H1) as [-> | (_ & q1 & K1' & Hqe & _)]; [lia|].
        rewrite K1 in K1'. injection K1' as <-. now apply (HU x e q).
      * exfalso. apply (Hgap _ _ G2). lia.
    + lia.
    + exfalso. apply (Hgap _ _ G2). lia.
Qed.

(** ** Folding a 1-body matrix into a 2-body matrix *)

Lemma act1_agree (n A : nat) (U : matrix) (psi phi : list bool -> C) :
  agree n psi phi -> agree n (act1 U A psi) (act1 U A phi).
Proof.
  intros H bs Hbs. unfold act1. cbn [map bools].
  rewrite !H by now rewrite update_length. reflexivity.
Qed.

Lemma act2_agree (n A B : nat) (U : matrix) (psi phi : list bool -> C) :
  agree n psi phi -> agree n (act2 U A B psi) (act2 U A B phi).
Proof.
  intros H bs Hbs. unfold act2. cbn [map flat_map bools app].
  rewrite !H by now rewrite !update_length. reflexivity.
Qed.

Lemma agree_refl (n : nat) (f : list bool -> C) : agree n f f.
Proof. intros bs _. reflexivity. Qed.

Section JamInto.
Variables (N A B : Z).
Hypothesis HA : 0 <= A < N.
Hypothesis HB : 0 <= B < N.
Hypothesis HAB : A <> B.

Let n := Z.to_nat N.
Let a := Z.to_nat A.
Let b := Z.to_nat B.

Lemma jam_left_A (found : option (Z * Gate)) (U : matrix) (j : jammed_t) :
  has_shape U 4 4 = true ->
  Forall (simulable N) (found_gate A found) ->
  has_shape (fst (jam_into left_A A found (U, j))) 4 4 = true
  /\ forall psi, agree n (act2 (fst (jam_into left_A A found (U, j))) a b psi)
                         (act2 U a b (act_all (found_gate A found) psi)).
Proof.
  intros HU Hf. destruct found as [[T2 g1]|]; cbn [jam_into found_gate fst snd act_all fold_left].
  2:{ split; [exact HU | intros psi; apply agree_refl]. }
  inversion Hf as [|? ? Hs _]; subst.
  destruct (simulable_cases _ _ Hs) as [(A' & K & _ & _ & Hg) | (A' & B' & K & _)];
    cbn [fst snd] in *; [|discriminate].
  unfold left_A. split.
  - apply mdot_shape44; [exact HU | now apply kron_l_shape44].
  - intros psi. eapply agree_trans.
    + apply act2_mdot; subst n a b; try lia; auto. now apply kron_l_shape44.
    + apply act2_agree. unfold act. cbn [fst snd]. apply act2_kron_l; subst n a b; auto; lia.
Qed.

Lemma jam_left_B (found : option (Z * Gate)) (U : matrix) (j : jammed_t) :
  has_shape U 4 4 = true ->
  Forall (simulable N) (found_gate B found) ->
  has_shape (fst (jam_into left_B B found (U, j))) 4 4 = true
  /\ forall psi, agree n (act2 (fst (jam_into left_B B found (U, j))) a b psi)
                         (act2 U a b (act_all (found_gate B found) psi)).
Proof.
  intros HU Hf. destruct found as [[T2 g1]|]; cbn [jam_into found_gate fst snd act_all fold_left].
  2:{ split; [exact HU | intros psi; apply agree_refl]. }
  inversion Hf as [|? ? Hs _]; subst.
  destruct (simulable_cases _ _ Hs) as [(A' & K & _ & _ & Hg) | (A' & B' & K & _)];
    cbn [fst snd] in *; [|discriminate].
  unfold left_B. split.
  - apply mdot_shape44; [exact HU | now apply kron_r_shape44].
  - intros psi. eapply agree_trans.
    + apply act2_mdot; subst n a b; try lia; auto. now apply kron_r_shape44.
    + apply act2_agree. unfold act. cbn [fst snd]. apply act2_kron_r; subst n a b; auto; lia.
Qed.

Lemma jam_right_A (found : option (Z * Gate)) (U : matrix) (j : jammed_t) :
  has_shape U 4 4 = true ->
  Forall (simulable N) (found_gate A found) ->
  has_shape (fst (jam_into right_A A found (U, j))) 4 4 = true
  /\ forall psi, agree n (act2 (fst (jam_into right_A A found (U, j))) a b psi)
                         (act_all (found_gate A found) (act2 U a b psi)).
Proof.
  intros HU Hf. destruct found as [[T2 g1]|]; cbn [jam_into found_gate fst snd act_all fold_left].
  2:{ split; [exact HU | intros psi; apply agree_refl]. }
  inversion Hf as [|? ? Hs _]; subst.
  destruct (simulable_cases _ _ Hs) as [(A' & K & _ & _ & Hg) | (A' & B' & K & _)];
    cbn [fst snd] in *; [|discriminate].
  unfold right_A. split.
  - apply mdot_shape44; [now apply kron_l_shape44 | exact HU].
  - intros psi. eapply agree_trans.
    + apply act2_mdot; subst n a b; try lia; auto. now apply kron_l_shape44.
    + unfold act. cbn [fst snd]. apply act2_kron_l; subst n a b; auto; lia.
Qed.

Lemma jam_right_B (found : option (Z * Gate)) (U : matrix) (j : jammed_t) :
  has_shape U 4 4 = true ->
  Forall (simulable N) (found_gate B found) ->
  has_shape (fst (jam_into right_B B found (U, j))) 4 4 = true
  /\ forall psi, agree n (act2 (fst (jam_into right_B B found (U, j))) a b psi)
                         (act_all (found_gate B found) (act2 U a b psi)).
Proof.
  intros HU Hf. destruct found as [[T2 g1]|]; cbn [jam_into found_gate fst snd act_all fold_left].
  2:{ split; [exact HU | intros psi; apply agree_refl]. }
  inversion Hf as [|? ? Hs _]; subst.
  destruct (simulable_cases _ _ Hs) as [(A' & K & _ & _ & Hg) | (A' & B' & K & _)];
    cbn [fst snd] in *; [|discriminate].
  unfold right_B. split.
  - apply mdot_shape44; [now apply kron_r_shape44 | exact HU].
  - intros psi. eapply agree_trans.
    + apply act2_mdot; subst n a b; try lia; auto. now apply kron_r_shape44.
    + unfold act. cbn [fst snd]. apply act2_kron_r; subst n a b; auto; lia.
Qed.

End JamInto.

Lemma jam_into_fst (side : matrix -> matrix -> matrix) (q : Z) (found : option (Z * Gate))
    (U : matrix) (j j' : jammed_t) :
  fst (jam_into side q found (U, j)) = fst (jam_into side q found (U, j')).
Proof. now destruct found as [[? ?]|]. Qed.

Lemma jam_into_mem (side : matrix -> matrix -> matrix) (q : Z) (found : option (Z * Gate))
    (Uj : matrix * jammed_t) (k : coord) :
  dict_mem (snd (jam_into side q found Uj)) k
  = existsb (fun x => coord_eqb k (fst x)) (found_gate q found) || dict_mem (snd Uj) k.
Proof.
  destruct found as [[T2 g1]|]; cbn [jam_into found_gate snd fst existsb]; [|reflexivity].
  rewrite dict_mem_set. now rewrite orb_false_r.
Qed.

Lemma Gate_U2_ok (U : matrix) :
  has_shape U 4 4 = true ->
  exists g, Gate_U2 U = Ok g /\ Gate_U g = U /\ gN g = 2 /\ Gate_copy g = Ok g.
Proof.
  intros HU. unfold Gate_U2, Gate_init.
  change (Z.to_nat (2 ^ 2)) with 4%nat. rewrite HU. cbn.
  eexists. split; [reflexivity|]. split; [reflexivity|]. split; [reflexivity|].
  unfold Gate_copy, Gate_init. cbn [gN Ufun params name ascii_symbols].
  change (Z.to_nat (2 ^ 2)) with 4%nat. rewrite HU. reflexivity.
Qed.

Lemma Gate_U1_ok (U : matrix) :
  has_shape U 2 2 = true ->
  exists g, Gate_U1 U = Ok g /\ Gate_U g = U /\ gN g = 1 /\ Gate_copy g = Ok g.
Proof.
  intros HU. unfold Gate_U1, Gate_init.
  change (Z.to_nat (2 ^ 1)) with 2%nat. rewrite HU. cbn.
  eexists. split; [reflexivity|]. split; [reflexivity|]. split; [reflexivity|].
  unfold Gate_copy, Gate_init. cbn [gN Ufun params name ascii_symbols].
  change (Z.to_nat (2 ^ 1)) with 2%nat. rewrite HU. reflexivity.
Qed.

(** ** Well-formed circuits, [nmoment] and [gate] *)

(** X1. Every circuit built from [Circuit(N)] by successful calls of
    [add_gate] is well formed: [N > 0]; the keys of [gates] are distinct;
    every entry [(T, key) -> gate] has [T >= 0], [len(key) = gate.N] and
    qubits below [N]; no two gates sit on one qubit at one moment; [TAs] is
    exactly the set of the occupied slots; [Ts] is strictly increasing and
    holds exactly the moments that carry a gate. *)
Theorem built_circuit_well_formed (c : Circuit) :
  reachable c ->
  0 < cN c
  /\ NoDup (map fst (gates c))
  /\ (forall T key g, In ((T, key), g) (gates c) ->
        0 <= T /\ zlen key = gN g /\ Forall (fun A => A < cN c) key)
  /\ (forall kg1 kg2 A, In kg1 (gates c) -> In kg2 (gates c) ->
        fst (fst kg1) = fst (fst kg2) ->
        In A (snd (fst kg1)) -> In A (snd (fst kg2)) -> kg1 = kg2)
  /\ (forall T A, In (T, A) (TAs c) <->
        exists key g, In ((T, key), g) (gates c) /\ In A key)
  /\ StronglySorted Z.lt (Ts c)
  /\ (forall T, In T (Ts c) <-> exists key g, In ((T, key), g) (gates c)).
Proof.
  intros Hr. pose proof (reachable_inv c Hr) as Hc.
  pose proof (inv_gates c Hc) as HL. pose proof HL as (Hn & Hok & _).
  split; [apply (inv_N c Hc)|]. split; [exact Hn|]. split; [|split; [|split; [|split]]].
  - intros T key g Hin. rewrite Forall_forall in Hok. apply (Hok _ Hin).
  - intros kg1 kg2 A H1 H2 Et HA1 HA2.
    apply (placeable_slot_unique _ _ HL kg1 kg2 A); auto; now apply touches_In.
  - intros T A. rewrite (inv_TAs c Hc). split.
    + intros ([[T' key] g] & Hin & Hs). apply key_slots_In in Hs. cbn in Hs.
      destruct Hs as [<- HA]. eauto.
    + intros (key & g & Hin & HA). exists ((T, key), g). split; [exact Hin|].
      apply key_slots_In. cbn. auto.
  - apply (inv_Ts_sorted c Hc).
  - intros T. rewrite (inv_Ts c Hc). split.
    + intros ([[T' key] g] & Hin & E). cbn in E. subst T'. eauto.
    + intros (key & g & Hin). exists ((T, key), g). auto.
Qed.

Lemma built_circuit_well_formed_witness :
  0 < cN circuit_H0_X1
  /\ NoDup (map fst (gates circuit_H0_X1))
  /\ (forall T key g, In ((T, key), g) (gates circuit_H0_X1) ->
        0 <= T /\ zlen key = gN g /\ Forall (fun A => A < cN circuit_H0_X1) key)
  /\ (forall kg1 kg2 A, In kg1 (gates circuit_H0_X1) -> In kg2 (gates circuit_H0_X1) ->
        fst (fst kg1) = fst (fst kg2) ->
        In A (snd (fst kg1)) -> In A (snd (fst kg2)) -> kg1 = kg2)
  /\ (forall T A, In (T, A) (TAs circuit_H0_X1) <->
        exists key g, In ((T, key), g) (gates circuit_H0_X1) /\ In A key)
  /\ StronglySorted Z.lt (Ts circuit_H0_X1)
  /\ (forall T, In T (Ts circuit_H0_X1) <-> exists key g, In ((T, key), g) (gates circuit_H0_X1)).
Proof.
  apply (built_circuit_well_formed circuit_H0_X1). exact circuit_H0_X1_reachable.
Defined.

(** X2. For a circuit built by [add_gate], [nmoment] is one more than the
    last moment that carries a gate: every gate sits at a moment
    [0 <= T < nmoment], and a circuit with a gate has one at moment
    [nmoment - 1]. *)
Theorem nmoment_is_last_moment (c : Circuit) :
  reachable c ->
  (forall T key g, In ((T, key), g) (gates c) -> 0 <= T < nmoment c)
  /\ (gates c <> [] -> exists key g, In ((nmoment c - 1, key), g) (gates c))
  /\ (gates c = [] -> nmoment c = 0).
Proof.
  intros Hr. pose proof (reachable_inv c Hr) as Hc. split; [|split].
  - intros T key g Hin. apply (nmoment_bound c _ Hc Hin).
  - intros Hne. destruct (nmoment_attained c Hc Hne) as ([[T key] g] & Hin & E).
    cbn in E. subst T. eauto.
  - apply (no_gates_nmoment c Hc).
Qed.

Lemma nmoment_is_last_moment_witness :
  (forall T key g, In ((T, key), g) (gates circuit_H0_X1) -> 0 <= T < nmoment circuit_H0_X1)
  /\ (gates circuit_H0_X1 <> [] ->
      exists key g, In ((nmoment circuit_H0_X1 - 1, key), g) (gates circuit_H0_X1))
  /\ (gates circuit_H0_X1 = [] -> nmoment circuit_H0_X1 = 0).
Proof.
  apply (nmoment_is_last_moment circuit_H0_X1). exact circuit_H0_X1_reachable.
Defined.

(** X3. After a successful [add_gate(T, key, gate)], [gate(T, key)] returns
    the gate that was added, with a qubit index [A] and the tuple [(A,)]
    naming the same place; the lookup at every other coordinate is as
    before, and a coordinate without a gate raises [KeyError]. *)
Theorem gate_after_add_gate (c c' : Circuit) (T : Z) (key : key_arg) (g : Gate) :
  add_gate c T key g = (c', Ok tt) ->
  gate_at c' T key = Ok g
  /\ gate_at c' T (KeyTuple (key_tuple key)) = Ok g
  /\ (forall T' key', (T', key_tuple key') <> (T, key_tuple key) ->
        gate_at c' T' key' = gate_at c T' key')
  /\ (forall T' key', ~ In (T', key_tuple key') (map fst (gates c')) ->
        gate_at c' T' key' = Raise KeyError).
Proof.
  intros H. apply add_gate_success in H. destruct H as (_ & _ & _ & ->).
  unfold gate_at, dict_item. cbn [gates key_tuple].
  split; [|split; [|split]].
  - now rewrite dict_get_set, coord_eqb_refl.
  - now rewrite dict_get_set, coord_eqb_refl.
  - intros T' key' Hne. rewrite dict_get_set.
    destruct (coord_eqb (T', key_tuple key') (T, key_tuple key)) eqn:E; [|reflexivity].
    apply coord_eqb_eq in E. contradiction.
  - intros T' key' Hn. apply dict_get_None in Hn. now rewrite Hn.
Qed.

Lemma gate_after_add_gate_witness :
  gate_at (circuit_H0 2) 0 (KeyInt 0) = Ok Gate_H
  /\ gate_at (circuit_H0 2) 0 (KeyTuple (key_tuple (KeyInt 0))) = Ok Gate_H
  /\ (forall T' key', (T', key_tuple key') <> (0, key_tuple (KeyInt 0)) ->
        gate_at (circuit_H0 2) T' key' = gate_at (mkCircuit 2 [] [] []) T' key')
  /\ (forall T' key', ~ In (T', key_tuple key') (map fst (gates (circuit_H0 2))) ->
        gate_at (circuit_H0 2) T' key' = Raise KeyError).
Proof.
  apply (gate_after_add_gate (mkCircuit 2 [] [] []) (circuit_H0 2) 0 (KeyInt 0) Gate_H).
  reflexivity.
Defined.

(** ** [copy] and [subset] *)

Lemma placeable_filter (N : Z) (p : coord * Gate -> bool) (l : list (coord * Gate)) :
  placeable N l -> placeable N (filter p l).
Proof.
  intros (Hnd & Hok & Hdis). split; [|split].
  - now apply NoDup_filter_map.
  - rewrite Forall_forall in *. intros x Hx. apply filter_In in Hx. now apply Hok.
  - apply ForallOrdPairs_map. apply ForallOrdPairs_filter. now apply ForallOrdPairs_of_map.
Qed.

Lemma retime_placeable (N : Z) (f : Z -> Z) (l : list (coord * Gate)) :
  placeable N l ->
  (forall kg, In kg l -> 0 <= f (fst (fst kg))) ->
  (forall kg1 kg2, In kg1 l -> In kg2 l ->
     f (fst (fst kg1)) = f (fst (fst kg2)) -> fst (fst kg1) = fst (fst kg2)) ->
  placeable N (map (retime f) l).
Proof.
  intros HL Hpos Hinj. pose proof HL as (Hnd & Hok & Hdis). split; [|split].
  - rewrite map_map. apply NoDup_map_inj; [|now apply (placeable_NoDup N)].
    intros x y Hx Hy E. unfold retime in E. cbn in E. injection E as E1 E2.
    apply (NoDup_fst_inj l x y Hnd Hx Hy).
    destruct x as [[t1 k1] g1], y as [[t2 k2] g2]. cbn in *. f_equal; [|exact E2].
    now apply (Hinj ((t1, k1), g1) ((t2, k2), g2)).
  - rewrite Forall_forall in *. intros kg Hkg. apply in_map_iff in Hkg.
    destruct Hkg as (kg0 & <- & Hkg0). destruct (Hok kg0 Hkg0) as (H1 & H2 & H3).
    unfold entry_ok, retime. cbn. auto.
  - rewrite map_map. apply ForallOrdPairs_map. apply ForallOrdPairs_of_map in Hdis.
    eapply ForallOrdPairs_impl_In; [exact Hdis|].
    intros a b Ha Hb Hab s Hs1 Hs2. apply key_slots_In in Hs1, Hs2.
    unfold retime in Hs1, Hs2. cbn in Hs1, Hs2.
    destruct Hs1 as [Hs1 Hs1'], Hs2 as [Hs2 Hs2'].
    assert (Et : fst (fst a) = fst (fst b)) by (apply Hinj; auto; congruence).
    apply (Hab (fst (fst a), snd s)); apply key_slots_In; cbn; auto.
Qed.

Lemma sorted_lt_unique (l1 l2 : list Z) :
  StronglySorted Z.lt l1 -> StronglySorted Z.lt l2 ->
  (forall x, In x l1 <-> In x l2) -> l1 = l2.
Proof.
  revert l2. induction l1 as [|a l1 IH]; intros l2 S1 S2 H.
  - destruct l2 as [|b l2]; [reflexivity|]. exfalso. apply (H b). now left.
  - destruct l2 as [|b l2]; [exfalso; apply (H a); now left|].
    inversion S1 as [|? ? S1' F1]; subst. inversion S2 as [|? ? S2' F2]; subst.
    rewrite Forall_forall in F1, F2.
    assert (a = b).
    { destruct (proj1 (H a) ltac:(now left)) as [E | Ha]; [auto|].
      destruct (proj2 (H b) ltac:(now left)) as [E | Hb]; [auto|].
      specialize (F1 _ Hb). specialize (F2 _ Ha). lia. }
    subst b. f_equal. apply IH; auto. intros x. split; intros Hx.
    + destruct (proj1 (H x) ltac:(now right)) as [E | Hx']; [|exact Hx'].
      subst x. specialize (F1 _ Hx). lia.
    + destruct (proj2 (H x) ltac:(now right)) as [E | Hx']; [|exact Hx'].
      subst x. specialize (F2 _ Hx). lia.
Qed.

Lemma same_gates_same_Ts (c c' : Circuit) :
  circuit_inv c -> circuit_inv c' -> gates c' = gates c ->
  Ts c' = Ts c /\ nmoment c' = nmoment c.
Proof.
  intros Hc Hc' E.
  assert (ETs : Ts c' = Ts c).
  { apply sorted_lt_unique; try now apply inv_Ts_sorted.
    intros T. rewrite (inv_Ts c' Hc'), (inv_Ts c Hc), E. reflexivity. }
  split; [exact ETs|]. unfold nmoment. now rewrite ETs.
Qed.

(** X4. [copy] of a circuit built by [add_gate], whose gates still pass the
    checks of the [Gate] constructor, returns a circuit with the same [N],
    the same dictionary of gates in the same order, the same [Ts] and
    [nmoment] and the same set of occupied slots. *)
Theorem copy_same_circuit (c : Circuit) :
  reachable c -> gates_valid c ->
  exists c', copy c = Ok c' /\ cN c' = cN c /\ gates c' = gates c
             /\ Ts c' = Ts c /\ nmoment c' = nmoment c
             /\ (forall s, In s (TAs c') <-> In s (TAs c))
             /\ reachable c'.
Proof.
  intros Hr Hv. pose proof (reachable_inv c Hr) as Hc.
  pose proof (inv_N c Hc) as HN. unfold copy, Circuit_init.
  destruct (Z.leb_spec (cN c) 0); [lia|]. cbn [bind].
  set (c0 := mkCircuit (cN c) [] [] []).
  assert (Hinit : Circuit_init (cN c) = Ok c0).
  { unfold Circuit_init. destruct (Z.leb_spec (cN c) 0); [lia | reflexivity]. }
  rewrite foldM_ext with (g := add_entry).
  2:{ intros s [[T key2] g] Hin. unfold gates_valid in Hv. rewrite Forall_forall in Hv.
      specialize (Hv _ Hin). cbn in Hv. rewrite Hv. reflexivity. }
  destruct (place_all (gates c) c0) as (c' & Hf & Hg & HN' & Hc' & Hr').
  - now apply (Circuit_init_inv (cN c)).
  - cbn. apply (inv_gates c Hc).
  - cbn in Hg. exists c'. split; [exact Hf|]. split; [exact HN'|]. split; [exact Hg|].
    destruct (same_gates_same_Ts c c' Hc Hc' Hg) as [E1 E2].
    split; [exact E1|]. split; [exact E2|]. split.
    + intros s. rewrite (inv_TAs c' Hc'), (inv_TAs c Hc), Hg. reflexivity.
    + apply Hr'. now apply (reach_init (cN c)).
Qed.

Lemma copy_same_circuit_witness :
  exists c', copy circuit_H0_X1 = Ok c' /\ cN c' = cN circuit_H0_X1
             /\ gates c' = gates circuit_H0_X1
             /\ Ts c' = Ts circuit_H0_X1 /\ nmoment c' = nmoment circuit_H0_X1
             /\ (forall s, In s (TAs c') <-> In s (TAs circuit_H0_X1))
             /\ reachable c'.
Proof.
  apply (copy_same_circuit circuit_H0_X1).
  - exact circuit_H0_X1_reachable.
  - repeat constructor.
Defined.

Lemma index_of_spec (T : Z) (l : list Z) :
  existsb (Z.eqb T) l = true ->
  exists i, index_of T l = Ok i /\ 0 <= i < zlen l /\ nth (Z.to_nat i) l 0 = T.
Proof.
  induction l as [|x l IH]; cbn; [discriminate|]. intros H.
  destruct (Z.eqb_spec x T) as [-> | Hne].
  - exists 0. unfold zlen. cbn. split; [reflexivity|]. split; [lia | reflexivity].
  - destruct (Z.eqb_spec T x); [congruence|]. cbn in H.
    destruct (IH H) as (i & Ei & Hi & En). rewrite Ei. cbn [bind].
    exists (i + 1). unfold zlen in *. cbn [length]. split; [reflexivity|]. split; [lia|].
    replace (Z.to_nat (i + 1)) with (S (Z.to_nat i)) by lia. exact En.
Qed.

Lemma first_index_inj (Ts' : list Z) (T1 T2 : Z) :
  existsb (Z.eqb T1) Ts' = true -> existsb (Z.eqb T2) Ts' = true ->
  first_index Ts' T1 = first_index Ts' T2 -> T1 = T2.
Proof.
  intros H1 H2. unfold first_index.
  destruct (index_of_spec T1 Ts' H1) as (i & -> & _ & E1).
  destruct (index_of_spec T2 Ts' H2) as (j & -> & _ & E2).
  intros ->. congruence.
Qed.

(** X5. [subset(Ts)] on a circuit built by [add_gate]: when some moment of
    [Ts] is [>= nmoment] it raises; otherwise it returns the circuit on the
    same qubits that holds, in the order of the dictionary, the gates whose
    moment occurs in [Ts], each moved to the position of the first
    occurrence of its moment in [Ts] (with [copy=True] the gates must pass
    the constructor's checks again). *)
Theorem subset_selects_moments (c : Circuit) (Ts' : list Z) (cp : bool) :
  reachable c -> (cp = true -> gates_valid c) ->
  (Exists (fun Tref => Tref >= nmoment c) Ts' ->
   subset c Ts' cp = Raise (RuntimeError "T >= self.nmoment"))
  /\ (Forall (fun Tref => Tref < nmoment c) Ts' ->
      exists c', subset c Ts' cp = Ok c' /\ cN c' = cN c
        /\ gates c' = map (retime (first_index Ts'))
                          (filter (fun kg => existsb (Z.eqb (fst (fst kg))) Ts') (gates c))
        /\ reachable c').
Proof.
  intros Hr Hv. pose proof (reachable_inv c Hr) as Hc.
  pose proof (inv_N c Hc) as HN. unfold subset, Circuit_init.
  destruct (Z.leb_spec (cN c) 0); [lia|]. cbn [bind].
  set (c0 := mkCircuit (cN c) [] [] []).
  assert (Hinit : Circuit_init (cN c) = Ok c0).
  { unfold Circuit_init. destruct (Z.leb_spec (cN c) 0); [lia | reflexivity]. }
  split.
  - intros Hex. apply Exists_exists in Hex. destruct Hex as (T & HT & Hge).
    assert (E : existsb (fun Tref => Tref >=? nmoment c) Ts' = true).
    { apply existsb_exists. exists T. split; [exact HT|].
      destruct (Z.geb_spec T (nmoment c)); [reflexivity | lia]. }
    now rewrite E.
  - intros Hall.
    assert (E : existsb (fun Tref => Tref >=? nmoment c) Ts' = false).
    { destruct (existsb _ Ts') eqn:E; [|reflexivity]. exfalso.
      apply existsb_exists in E. destruct E as (T & HT & Hge).
      rewrite Forall_forall in Hall. specialize (Hall T HT).
      destruct (Z.geb_spec T (nmoment c)); [lia | discriminate]. }
    rewrite E.
    set (p := fun kg : coord * Gate => existsb (Z.eqb (fst (fst kg))) Ts').
    rewrite (foldM_filter_map _ p (retime (first_index Ts'))).
    + destruct (place_all (map (retime (first_index Ts')) (filter p (gates c))) c0)
        as (c' & Hf & Hg & HN' & Hc' & Hr').
      * now apply (Circuit_init_inv (cN c)).
      * cbn [gates c0 app]. apply retime_placeable.
        -- apply placeable_filter, (inv_gates c Hc).
        -- intros kg Hkg. apply filter_In in Hkg. destruct Hkg as [_ Hp]. unfold p in Hp.
           unfold first_index. destruct (index_of_spec _ _ Hp) as (i & -> & Hi & _). lia.
        -- intros kg1 kg2 H1 H2. apply filter_In in H1, H2.
           apply first_index_inj; [apply H1 | apply H2].
      * exists c'. split; [exact Hf|]. split; [exact HN'|]. split; [exact Hg|].
        apply Hr'. now apply (reach_init (cN c)).
    + intros s [[T key2] g] Hin. unfold p, retime, first_index, add_entry. cbn [fst snd].
      destruct (existsb (Z.eqb T) Ts') eqn:ET; [|reflexivity].
      destruct (index_of_spec T Ts' ET) as (i & -> & _). cbn [bind].
      destruct cp; [|reflexivity].
      specialize (Hv eq_refl). unfold gates_valid in Hv. rewrite Forall_forall in Hv.
      specialize (Hv _ Hin). cbn in Hv. rewrite Hv. reflexivity.
Qed.

Lemma subset_selects_moments_witness :
  (Exists (fun Tref => Tref >= nmoment circuit_H0_X1) [1] ->
   subset circuit_H0_X1 [1] true = Raise (RuntimeError "T >= self.nmoment"))
  /\ (Forall (fun Tref => Tref < nmoment circuit_H0_X1) [1] ->
      exists c', subset circuit_H0_X1 [1] true = Ok c' /\ cN c' = cN circuit_H0_X1
        /\ gates c' = map (retime (first_index [1]))
                          (filter (fun kg => existsb (Z.eqb (fst (fst kg))) [1])
                                  (gates circuit_H0_X1))
        /\ reachable c').
Proof.
  apply (subset_selects_moments circuit_H0_X1 [1] true).
  - exact circuit_H0_X1_reachable.
  - intros _. repeat constructor.
Defined.

(** ** What [simulate] computes *)

Lemma nmoment_pos (c : Circuit) : circuit_inv c -> gates c <> [] -> 0 < nmoment c.
Proof.
  intros Hc Hne. destruct (gates c) as [|kg l] eqn:E; [contradiction|].
  assert (Hin : In kg (gates c)) by (rewrite E; now left).
  pose proof (nmoment_bound c kg Hc Hin). lia.
Qed.

(** What [simulate] returns on a well-formed circuit. *)
Lemma simulate_result (c : Circuit) (wfn : option ref) (h : store) (w0 : vec) :
  circuit_inv c -> Forall (simulable (cN c)) (gates c) -> initial_state c wfn h w0 ->
  exists h' res,
    simulate c wfn h = (h', Ok res)
    /\ (forall r, (r < length h)%nat -> nth_error h' r = nth_error h r)
    /\ ((gates c = [] /\ res = wfn)
        \/ (gates c <> [] /\ exists r, res = Some r
              /\ nth_error h' r = Some (run_gates (cN c) (schedule c) w0))).
Proof.
  intros Hc Hs Hi.
  destruct (simulate_run c wfn h w0 Hc Hs Hi) as (h' & res & E & H).
  exists h', res. split; [exact E|]. split.
  - intros r Hr.
    destruct (preserves_simulate (length h) c wfn h (le_n _)) as (_ & Hp & _).
    rewrite E in Hp. cbn in Hp. now apply Hp.
  - destruct (gates c) as [|kg l] eqn:Eg.
    + left. split; [reflexivity|]. destruct H as [[_ H] | [H _]]; [exact H|].
      rewrite (no_gates_nmoment c Hc Eg) in H. lia.
    + right. split; [discriminate|]. destruct H as [[H _] | [_ H]].
      * assert (0 < nmoment c) by (apply nmoment_pos; [exact Hc | rewrite Eg; discriminate]).
        lia.
      * destruct res as [r|]; [|discriminate]. exists r. split; [reflexivity | exact H].
Qed.

(** X6. On a circuit built by [add_gate] whose gates are valid 1- and 2-body
    gates on distinct qubits [0 <= A < N], [simulate] returns; when the
    circuit has a gate, the returned array holds the initial state to which
    the gates have been applied moment by moment, and within a moment in
    the order of the dictionary; its amplitudes are those of the composed
    gate actions. *)
Theorem simulate_runs_schedule (c : Circuit) (wfn : option ref) (h : store) (w0 : vec) :
  reachable c -> Forall (simulable (cN c)) (gates c) -> initial_state c wfn h w0 ->
  gates c <> [] ->
  exists h' r,
    simulate c wfn h = (h', Ok (Some r))
    /\ nth_error h' r = Some (run_gates (cN c) (schedule c) w0)
    /\ zlen (run_gates (cN c) (schedule c) w0) = 2 ^ cN c
    /\ forall bs, length bs = Z.to_nat (cN c) ->
         amp (run_gates (cN c) (schedule c) w0) bs = act_all (schedule c) (amp w0) bs.
Proof.
  intros Hr Hs Hi Hne. pose proof (reachable_inv c Hr) as Hc.
  pose proof (inv_N c Hc) as HN.
  destruct (simulate_result c wfn h w0 Hc Hs Hi) as (h' & res & E & _ & H).
  destruct H as [[H _] | [_ (r & -> & Hst)]]; [contradiction|].
  assert (Hsch : Forall (simulable (cN c)) (schedule c)).
  { rewrite Forall_forall in *. intros x Hx. apply Hs.
    eapply Permutation_in; [apply schedule_perm; exact Hc | exact Hx]. }
  assert (Hw0 : zlen w0 = 2 ^ cN c).
  { destruct wfn as [r0|]; cbn in Hi; [apply Hi|]. subst w0. apply zero_state_length. lia. }
  exists h', r. split; [exact E|]. split; [exact Hst|]. split.
  - apply run_gates_length; auto. lia.
  - intros bs Hbs. apply run_gates_act; auto. lia.
Qed.

Lemma simulate_runs_schedule_witness :
  exists h' r,
    simulate (circuit_H0 2) None [] = (h', Ok (Some r))
    /\ nth_error h' r = Some (run_gates (cN (circuit_H0 2)) (schedule (circuit_H0 2))
                                (zero_state 2))
    /\ zlen (run_gates (cN (circuit_H0 2)) (schedule (circuit_H0 2)) (zero_state 2))
       = 2 ^ cN (circuit_H0 2)
    /\ forall bs, length bs = Z.to_nat (cN (circuit_H0 2)) ->
         amp (run_gates (cN (circuit_H0 2)) (schedule (circuit_H0 2)) (zero_state 2)) bs
         = act_all (schedule (circuit_H0 2)) (amp (zero_state 2)) bs.
Proof.
  apply (simulate_runs_schedule (circuit_H0 2) None [] (zero_state 2)).
  - apply circuit_H0_reachable. lia.
  - constructor; [apply simulable_H0; cbn; lia | constructor].
  - reflexivity.
  - discriminate.
Defined.

Lemma run_gates_perm (c c' : Circuit) (w : vec) :
  circuit_inv c -> circuit_inv c' -> cN c' = cN c ->
  Forall (simulable (cN c)) (gates c) -> Permutation (gates c) (gates c') ->
  zlen w = 2 ^ cN c ->
  run_gates (cN c') (schedule c') w = run_gates (cN c) (schedule c) w.
Proof.
  intros Hc Hc' EN Hs HP Hw.
  assert (Hs' : Forall (simulable (cN c)) (gates c')).
  { rewrite Forall_forall in *. intros x Hx. apply Hs.
    eapply Permutation_in; [apply Permutation_sym; exact HP | exact Hx]. }
  apply run_gates_fuses; auto.
  intros psi. apply peq_agree. apply (act_all_wire_sorted (cN c)).
  - rewrite Forall_forall in *. intros x Hx. apply Hs'.
    eapply Permutation_in; [apply schedule_perm; exact Hc' | exact Hx].
  - now apply schedule_wire_sorted.
  - now apply schedule_wire_sorted.
  - eapply Permutation_trans; [apply schedule_perm; exact Hc'|].
    eapply Permutation_trans; [apply Permutation_sym; exact HP|].
    apply Permutation_sym. now apply schedule_perm.
Qed.

(** X10. The state that [simulate] returns does not depend on the order in
    which the gates were added: two circuits on the same qubits, built by
    [add_gate] from the same entries [(T, key) -> gate] in any two orders,
    simulate to the same state vector from every initial state. *)
Theorem simulate_insertion_order (c c' : Circuit) (wfn : option ref) (h : store) (w0 : vec) :
  reachable c -> reachable c' -> cN c' = cN c ->
  Forall (simulable (cN c)) (gates c) -> Permutation (gates c) (gates c') ->
  initial_state c wfn h w0 ->
  exists h1 r1 h2 r2,
    simulate c wfn h = (h1, Ok r1) /\ simulate c' wfn h = (h2, Ok r2)
    /\ state_of h1 r1 = state_of h2 r2.
Proof.
  intros Hr Hr' EN Hs HP Hi.
  pose proof (reachable_inv c Hr) as Hc. pose proof (reachable_inv c' Hr') as Hc'.
  assert (Hs' : Forall (simulable (cN c')) (gates c')).
  { rewrite EN. rewrite Forall_forall in *. intros x Hx. apply Hs.
    eapply Permutation_in; [apply Permutation_sym; exact HP | exact Hx]. }
  assert (Hi' : initial_state c' wfn h w0).
  { unfold initial_state in *. now rewrite EN. }
  assert (Hw0 : zlen w0 = 2 ^ cN c).
  { pose proof (inv_N c Hc). destruct wfn as [r0|]; cbn in Hi; [apply Hi|]. subst w0.
    apply zero_state_length. lia. }
  destruct (simulate_result c wfn h w0 Hc Hs Hi) as (h1 & r1 & E1 & F1 & H1).
  destruct (simulate_result c' wfn h w0 Hc' Hs' Hi') as (h2 & r2 & E2 & F2 & H2).
  exists h1, r1, h2, r2. split; [exact E1|]. split; [exact E2|].
  destruct H1 as [[G1 ->] | [G1 (a1 & -> & S1)]]; destruct H2 as [[G2 ->] | [G2 (a2 & -> & S2)]].
  - destruct wfn as [r0|]; [|reflexivity]. cbn. cbn in Hi.
    assert (r0 < length h)%nat by (apply nth_error_Some; destruct Hi; congruence).
    now rewrite F1, F2.
  - exfalso. rewrite G1 in HP. apply Permutation_nil in HP. contradiction.
  - exfalso. rewrite G2 in HP. apply Permutation_sym, Permutation_nil in HP. contradiction.
  - cbn. rewrite S1, S2. f_equal. symmetry. now apply run_gates_perm.
Qed.

Lemma simulate_insertion_order_witness :
  exists h1 r1 h2 r2,
    simulate circuit_Ry_01 None [] = (h1, Ok r1) /\ simulate circuit_Ry_10 None [] = (h2, Ok r2)
    /\ state_of h1 r1 = state_of h2 r2.
Proof.
  apply (simulate_insertion_order circuit_Ry_01 circuit_Ry_10 None [] (zero_state 2)).
  - unfold circuit_Ry_01. apply reachable_add; [apply reachable_add|]; try reflexivity.
    apply (reach_init 2). reflexivity.
  - unfold circuit_Ry_10. apply reachable_add; [apply reachable_add|]; try reflexivity.
    apply (reach_init 2). reflexivity.
  - reflexivity.
  - assert (Hry : forall th, has_shape (Gate_U (Gate_Ry th)) 2 2 = true) by reflexivity.
    repeat constructor; cbn; try lia; try tauto;
      unfold Gate_copy, Gate_init; cbn; reflexivity.
  - cbn. apply perm_swap.
  - reflexivity.
Defined.

(** ** [apply_gate_1] and [apply_gate_2] on amplitudes *)

(** X7. [apply_gate_1] on two arrays of [2^n] amplitudes, a (2,2) matrix and
    a qubit [0 <= A < n] writes the result into [wfn2] and returns [wfn2];
    with qubit 0 as the most significant bit of the index, the new amplitude
    of a basis state is the sum over [j] of [U[b_A, j]] times the old
    amplitude of the state with bit [A] set to [j]. No other array changes. *)
Theorem apply_gate_1_amplitudes (h : store) (wfn1 wfn2 : ref) (w1 w2 : vec)
    (U : matrix) (A n : Z) :
  nth_error h wfn1 = Some w1 -> nth_error h wfn2 = Some w2 ->
  0 <= A < n -> zlen w1 = 2 ^ n -> zlen w2 = 2 ^ n -> has_shape U 2 2 = true ->
  exists out,
    apply_gate_1 wfn1 wfn2 U A h = (update h wfn2 out, Ok wfn2)
    /\ zlen out = 2 ^ n
    /\ forall bs, length bs = Z.to_nat n ->
         amp out bs = act1 U (Z.to_nat A) (amp w1) bs.
Proof.
  intros H1 H2 HA Hw1 Hw2 HU.
  destruct (Gate_U1_ok U HU) as (g & _ & EU & EN & Ecopy).
  set (kg := ((0, [A]), g) : coord * Gate).
  assert (Hs : simulable n kg).
  { unfold simulable, kg. cbn [fst snd]. rewrite EN. split; [exact Ecopy|].
    split; [now left|]. split; [reflexivity|].
    split; [repeat constructor; lia | constructor; [intros [] | constructor]]. }
  exists (gate_apply n w1 kg). split; [|split].
  - pose proof (apply_gate_1_array_ok n w1 w2 kg A ltac:(lia) Hw1 Hw2 eq_refl HA) as E.
    cbn [kg fst snd] in E. rewrite EU in E. specialize (E HU).
    unfold apply_gate_1, bindM, load, lift, write, ret. rewrite H1, H2, E. reflexivity.
  - apply zlen_pow2; [lia|]. apply gate_apply_length; [lia | exact Hs].
  - intros bs Hbs. rewrite gate_apply_act by (lia || assumption).
    unfold act, kg. cbn [fst snd]. now rewrite EU.
Qed.

Lemma apply_gate_1_amplitudes_witness :
  exists out,
    apply_gate_1 0%nat 1%nat Matrix.X 0 store_00 = (update store_00 1%nat out, Ok 1%nat)
    /\ zlen out = 2 ^ 2
    /\ forall bs, length bs = Z.to_nat 2 ->
         amp out bs = act1 Matrix.X (Z.to_nat 0) (amp [C1; C0; C0; C0]) bs.
Proof.
  apply (apply_gate_1_amplitudes store_00 0%nat 1%nat [C1; C0; C0; C0] [C0; C0; C0; C0]
           Matrix.X 0 2); try reflexivity. lia.
Defined.

(** X8. [apply_gate_2] on two arrays of [2^n] amplitudes, a (4,4) matrix and
    two different qubits [0 <= A, B < n], in either order, writes the result
    into [wfn2] and returns [wfn2]; the new amplitude of a basis state is the
    sum over [k, l] of [U[2 b_A + b_B, 2 k + l]] times the old amplitude of
    the state with bit [A] set to [k] and bit [B] set to [l]. *)
Theorem apply_gate_2_amplitudes (h : store) (wfn1 wfn2 : ref) (w1 w2 : vec)
    (U : matrix) (A B n : Z) :
  nth_error h wfn1 = Some w1 -> nth_error h wfn2 = Some w2 ->
  0 <= A < n -> 0 <= B < n -> A <> B ->
  zlen w1 = 2 ^ n -> zlen w2 = 2 ^ n -> has_shape U 4 4 = true ->
  exists out,
    apply_gate_2 wfn1 wfn2 U A B h = (update h wfn2 out, Ok wfn2)
    /\ zlen out = 2 ^ n
    /\ forall bs, length bs = Z.to_nat n ->
         amp out bs = act2 U (Z.to_nat A) (Z.to_nat B) (amp w1) bs.
Proof.
  intros H1 H2 HA HB HAB Hw1 Hw2 HU.
  destruct (Gate_U2_ok U HU) as (g & _ & EU & EN & Ecopy).
  set (kg := ((0, [A; B]), g) : coord * Gate).
  assert (Hs : simulable n kg).
  { unfold simulable, kg. cbn [fst snd]. rewrite EN. split; [exact Ecopy|].
    split; [now right|]. split; [reflexivity|].
    split; [repeat constructor; lia|].
    constructor; [cbn; intros [E | []]; now apply HAB | constructor; [intros []|constructor]]. }
  exists (gate_apply n w1 kg). split; [|split].
  - pose proof (apply_gate_2_array_ok n w1 w2 kg A B ltac:(lia) Hw1 Hw2 eq_refl HA HB HAB) as E.
    cbn [kg fst snd] in E. rewrite EU in E. specialize (E HU).
    unfold apply_gate_2, bindM, load, lift, write, ret. rewrite H1, H2, E. reflexivity.
  - apply zlen_pow2; [lia|]. apply gate_apply_length; [lia | exact Hs].
  - intros bs Hbs. rewrite gate_apply_act by (lia || assumption).
    unfold act, kg. cbn [fst snd]. now rewrite EU.
Qed.

Lemma apply_gate_2_amplitudes_witness :
  exists out,
    apply_gate_2 0%nat 1%nat Matrix.CX 1 0 store_00 = (update store_00 1%nat out, Ok 1%nat)
    /\ zlen out = 2 ^ 2
    /\ forall bs, length bs = Z.to_nat 2 ->
         amp out bs = act2 Matrix.CX (Z.to_nat 1) (Z.to_nat 0) (amp [C1; C0; C0; C0]) bs.
Proof.
  apply (apply_gate_2_amplitudes store_00 0%nat 1%nat [C1; C0; C0; C0] [C0; C0; C0; C0]
           Matrix.CX 1 0 2); try reflexivity; lia.
Defined.

(** X9. On an initial array of [2^n] amplitudes, [apply_gate_1] raises
    exactly when [A >= n], or [A < 0], or [U] is not a (2,2) matrix, or
    [wfn2] does not have [2^n] entries; when it raises, no array has been
    written. *)
Theorem apply_gate_1_fails_exactly (h : store) (wfn1 wfn2 : ref) (w1 w2 : vec)
    (U : matrix) (A n : Z) :
  nth_error h wfn1 = Some w1 -> nth_error h wfn2 = Some w2 ->
  0 <= n -> zlen w1 = 2 ^ n ->
  (raises (snd (apply_gate_1 wfn1 wfn2 U A h))
   <-> (A >= n \/ A < 0 \/ has_shape U 2 2 = false \/ zlen w2 <> 2 ^ n))
  /\ (raises (snd (apply_gate_1 wfn1 wfn2 U A h)) ->
      fst (apply_gate_1 wfn1 wfn2 U A h) = h).
Proof.
  intros H1 H2 Hn Hw1.
  unfold apply_gate_1, bindM, load, lift, write, ret. rewrite H1, H2.
  unfold apply_gate_1_array. rewrite (infer_N_pow2 w1 n Hn Hw1).
  rewrite (shape_pow2_true w1 n Hn Hw1). cbn [negb].
  assert (Hw2 : shape_pow2 w2 n = true <-> zlen w2 = 2 ^ n).
  { unfold shape_pow2. destruct (Z.leb_spec 0 n); [|lia]. cbn. apply Z.eqb_eq. }
  destruct (Z.geb_spec A n) as [HA | HA].
  { split; [|reflexivity]. split; [intros _; lia | intros _; eexists; reflexivity]. }
  destruct (has_shape U 2 2) eqn:HU; cbn [negb].
  2:{ split; [|reflexivity]. split; [intros _; auto | intros _; eexists; reflexivity]. }
  destruct (shape_pow2 w2 n) eqn:E2; cbn [negb].
  2:{ split; [|reflexivity]. split; [|intros _; eexists; reflexivity].
      intros _. right. right. right. intros E. apply Hw2 in E. congruence. }
  destruct (Z.ltb_spec A 0) as [HA0 | HA0].
  { split; [|reflexivity]. split; [intros _; lia | intros _; eexists; reflexivity]. }
  cbn. split.
  - split; [intros [e He]; discriminate|].
    intros [H | [H | [H | H]]]; try lia; try discriminate;
      exfalso; apply H; now apply Hw2.
  - intros [e He]. discriminate.
Qed.

Lemma apply_gate_1_fails_exactly_witness :
  (raises (snd (apply_gate_1 0%nat 1%nat Matrix.X 2 store_00))
   <-> (2 >= 2 \/ 2 < 0 \/ has_shape Matrix.X 2 2 = false \/ zlen [C0; C0; C0; C0] <> 2 ^ 2))
  /\ (raises (snd (apply_gate_1 0%nat 1%nat Matrix.X 2 store_00)) ->
      fst (apply_gate_1 0%nat 1%nat Matrix.X 2 store_00) = store_00).
Proof.
  apply (apply_gate_1_fails_exactly store_00 0%nat 1%nat [C1; C0; C0; C0] [C0; C0; C0; C0]
           Matrix.X 2 2); try reflexivity. lia.
Defined.

(** ** [nonredundant] *)

Lemma Tmap_get_absent (l : list Z) (i T : Z) : ~ In T l -> Tmap_get l i T = Raise KeyError.
Proof.
  revert i. induction l as [|x l IH]; intros i Hn; cbn; [reflexivity|].
  rewrite IH by (intros H; apply Hn; now right).
  destruct (Z.eqb_spec x T); [|reflexivity]. exfalso. apply Hn. now left.
Qed.

Lemma Tmap_get_spec (l : list Z) (i T : Z) :
  NoDup l -> In T l ->
  exists k, Tmap_get l i T = Ok (i + Z.of_nat k) /\ (k < length l)%nat /\ nth k l 0 = T.
Proof.
  revert i. induction l as [|x l IH]; intros i Hnd Hin; [contradiction|].
  inversion Hnd as [|? ? Hx Hnd']; subst. cbn [Tmap_get].
  destruct (in_dec Z.eq_dec T l) as [Hl | Hl].
  - destruct (IH (i + 1) Hnd' Hl) as (k & E & Hk & En). rewrite E.
    exists (S k). cbn [length nth]. split; [f_equal; lia|]. split; [lia | exact En].
  - rewrite (Tmap_get_absent l (i + 1) T Hl).
    destruct Hin as [-> | Hin]; [|contradiction]. rewrite Z.eqb_refl.
    exists 0%nat. cbn. split; [f_equal; lia|]. split; [lia | reflexivity].
Qed.

Lemma sorted_nth_mono (l : list Z) (k1 k2 : nat) :
  StronglySorted Z.lt l -> (k1 < k2)%nat -> (k2 < length l)%nat ->
  nth k1 l 0 < nth k2 l 0.
Proof.
  intros Hs. revert k1 k2. induction Hs as [|a l Hs IH Ha]; intros k1 k2 H12 H2.
  - cbn in H2. lia.
  - destruct k2 as [|k2]; [lia|]. cbn in H2. destruct k1 as [|k1]; cbn [nth].
    + rewrite Forall_forall in Ha. apply Ha. apply nth_In. lia.
    + apply IH; lia.
Qed.

Lemma rank_in_spec (l : list Z) (T : Z) :
  StronglySorted Z.lt l -> In T l ->
  0 <= rank_in l T < zlen l /\ nth (Z.to_nat (rank_in l T)) l 0 = T
  /\ Tmap_get l 0 T = Ok (rank_in l T).
Proof.
  intros Hs Hin. unfold rank_in.
  destruct (Tmap_get_spec l 0 T (sorted_lt_NoDup l Hs) Hin) as (k & E & Hk & En).
  rewrite E. unfold zlen. cbn [Z.add]. rewrite Nat2Z.id. split; [lia|]. auto.
Qed.

Lemma rank_in_mono (l : list Z) (T1 T2 : Z) :
  StronglySorted Z.lt l -> In T1 l -> In T2 l -> T1 < T2 -> rank_in l T1 < rank_in l T2.
Proof.
  intros Hs H1 H2 Hlt.
  destruct (rank_in_spec l T1 Hs H1) as (B1 & E1 & _).
  destruct (rank_in_spec l T2 Hs H2) as (B2 & E2 & _).
  destruct (Z.lt_trichotomy (rank_in l T1) (rank_in l T2)) as [H | [H | H]]; [exact H | |].
  - rewrite H in E1. lia.
  - pose proof (sorted_nth_mono l (Z.to_nat (rank_in l T2)) (Z.to_nat (rank_in l T1)) Hs
                  ltac:(lia) ltac:(unfold zlen in *; lia)). lia.
Qed.

Lemma rank_in_le (l : list Z) (T : Z) :
  StronglySorted Z.lt l -> (forall x, In x l -> 0 <= x) -> In T l -> rank_in l T <= T.
Proof.
  intros Hs Hpos Hin. destruct (rank_in_spec l T Hs Hin) as (B & E & _).
  assert (G : forall k, (k < length l)%nat -> Z.of_nat k <= nth k l 0).
  { induction k as [|k IHk]; intros Hk.
    - apply Hpos, nth_In. exact Hk.
    - pose proof (sorted_nth_mono l k (S k) Hs ltac:(lia) Hk). specialize (IHk ltac:(lia)). lia. }
  specialize (G (Z.to_nat (rank_in l T)) ltac:(unfold zlen in *; lia)). lia.
Qed.

Lemma sorted_of_sorted (l : list Z) : StronglySorted Z.lt l -> sorted l = l.
Proof.
  intros Hs. apply sorted_lt_unique; [|exact Hs|].
  - apply sorted_lt_of_le_NoDup; [apply sorted_sorted|].
    eapply Permutation_NoDup; [apply Permutation_sym, sorted_perm|].
    now apply sorted_lt_NoDup.
  - intros x. split; apply Permutation_in; [|apply Permutation_sym]; apply sorted_perm.
Qed.

Lemma range_lt_sorted (n : Z) : StronglySorted Z.lt (range n).
Proof.
  unfold range. generalize 0%nat. induction (Z.to_nat n) as [|k IH]; intros s; cbn; constructor.
  - apply IH.
  - apply Forall_forall. intros y Hy. apply in_map_iff in Hy.
    destruct Hy as (j & <- & Hj). apply in_seq in Hj. lia.
Qed.

(** What [nonredundant] returns. *)
Lemma nonredundant_inv_spec (c : Circuit) :
  circuit_inv c ->
  exists c', nonredundant c = Ok c' /\ cN c' = cN c
    /\ gates c' = map (retime (rank_in (Ts c))) (gates c)
    /\ Ts c' = range (zlen (Ts c))
    /\ nmoment c' = zlen (Ts c) /\ nmoment c' <= nmoment c /\ ngate c' = ngate c
    /\ (forall kg1 kg2, In kg1 (gates c) -> In kg2 (gates c) ->
          fst (fst kg1) < fst (fst kg2) ->
          rank_in (Ts c) (fst (fst kg1)) < rank_in (Ts c) (fst (fst kg2)))
    /\ (forall kg, In kg (gates c) -> rank_in (Ts c) (fst (fst kg)) <= fst (fst kg))
    /\ reachable c'.
Proof.
  intros Hc.
  pose proof (inv_N c Hc) as HN. pose proof (inv_Ts_sorted c Hc) as HTs.
  assert (HinTs : forall kg, In kg (gates c) -> In (fst (fst kg)) (Ts c)).
  { intros kg Hkg. apply (inv_Ts c Hc). eauto. }
  assert (HposTs : forall x, In x (Ts c) -> 0 <= x).
  { intros x Hx. apply (inv_Ts c Hc) in Hx. destruct Hx as (kg & Hkg & <-).
    apply (nmoment_bound c kg Hc Hkg). }
  unfold nonredundant, Circuit_init.
  destruct (Z.leb_spec (cN c) 0); [lia|]. cbn [bind].
  set (c0 := mkCircuit (cN c) [] [] []).
  assert (Hinit : Circuit_init (cN c) = Ok c0).
  { unfold Circuit_init. destruct (Z.leb_spec (cN c) 0); [lia | reflexivity]. }
  rewrite (sorted_of_sorted _ HTs).
  rewrite foldM_ext with (g := fun s x => add_entry s (retime (rank_in (Ts c)) x)).
  2:{ intros s [[T key2] g] Hin. specialize (HinTs _ Hin). cbn [fst] in HinTs.
      destruct (rank_in_spec (Ts c) T HTs HinTs) as (_ & _ & E). rewrite E. reflexivity. }
  rewrite foldM_map.
  destruct (place_all (map (retime (rank_in (Ts c))) (gates c)) c0)
    as (c' & Hf & Hg & HN' & Hc' & Hr').
  { now apply (Circuit_init_inv (cN c)). }
  { cbn [gates c0 app]. apply retime_placeable.
    - apply (inv_gates c Hc).
    - intros kg Hkg. apply (rank_in_spec (Ts c) _ HTs (HinTs kg Hkg)).
    - intros kg1 kg2 H1 H2 E.
      destruct (rank_in_spec (Ts c) _ HTs (HinTs kg1 H1)) as (_ & E1 & _).
      destruct (rank_in_spec (Ts c) _ HTs (HinTs kg2 H2)) as (_ & E2 & _).
      rewrite <- E1, <- E2, E. reflexivity. }
  cbn [gates c0 app] in Hg.
  assert (ETs : Ts c' = range (zlen (Ts c))).
  { apply sorted_lt_unique; [apply (inv_Ts_sorted c' Hc') | apply range_lt_sorted|].
    intros x. rewrite (inv_Ts c' Hc'), Hg, range_In. split.
    - intros (kg' & Hkg' & <-). apply in_map_iff in Hkg'. destruct Hkg' as (kg & <- & Hkg).
      cbn. apply (rank_in_spec (Ts c) _ HTs (HinTs kg Hkg)).
    - intros Hx.
      assert (HT : In (nth (Z.to_nat x) (Ts c) 0) (Ts c))
        by (apply nth_In; unfold zlen in Hx; lia).
      pose proof HT as HT'. apply (inv_Ts c Hc) in HT'. destruct HT' as (kg & Hkg & Et).
      exists (retime (rank_in (Ts c)) kg). split; [now apply in_map|]. cbn. rewrite Et.
      destruct (rank_in_spec (Ts c) _ HTs HT) as (B & E & _).
      destruct (Z.lt_trichotomy (rank_in (Ts c) (nth (Z.to_nat x) (Ts c) 0)) x)
        as [Hx3 | [Hx3 | Hx3]]; [|exact Hx3|].
      + pose proof (sorted_nth_mono (Ts c)
                      (Z.to_nat (rank_in (Ts c) (nth (Z.to_nat x) (Ts c) 0))) (Z.to_nat x) HTs
                      ltac:(lia) ltac:(unfold zlen in Hx; lia)). lia.
      + pose proof (sorted_nth_mono (Ts c) (Z.to_nat x)
                      (Z.to_nat (rank_in (Ts c) (nth (Z.to_nat x) (Ts c) 0))) HTs
                      ltac:(lia) ltac:(unfold zlen in B; lia)). lia. }
  assert (Enm : nmoment c' = zlen (Ts c)).
  { destruct (Ts c) as [|t ts] eqn:Et.
    - unfold nmoment. rewrite ETs. reflexivity.
    - assert (Hne : gates c' <> []).
      { rewrite Hg. intros E. apply map_eq_nil in E.
        assert (Ht : In t (Ts c)) by (rewrite Et; now left).
        apply (inv_Ts c Hc) in Ht. destruct Ht as (kg & Hkg & _). rewrite E in Hkg.
        contradiction. }
      destruct (nmoment_attained c' Hc' Hne) as (kg' & Hkg' & Elast).
      assert (Hlast : In (nmoment c' - 1) (Ts c')) by (apply (inv_Ts c' Hc'); eauto).
      rewrite ETs, range_In in Hlast.
      assert (Htop : In (zlen (t :: ts) - 1) (Ts c')).
      { rewrite ETs, range_In. unfold zlen. cbn [length]. lia. }
      apply (inv_Ts c' Hc') in Htop. destruct Htop as (kg2 & Hkg2 & E2).
      pose proof (nmoment_bound c' kg2 Hc' Hkg2). lia. }
  exists c'. split; [exact Hf|]. split; [exact HN'|]. split; [exact Hg|].
  split; [exact ETs|]. split; [exact Enm|]. split; [|split; [|split; [|split]]].
  - rewrite Enm. destruct (Ts c) as [|t ts] eqn:Et.
    + unfold zlen. cbn. now apply nmoment_nonneg.
    + assert (Hlast : In (nth (length ts) (t :: ts) 0) (Ts c))
        by (rewrite Et; apply nth_In; cbn; lia).
      pose proof Hlast as Hlast'. apply (inv_Ts c Hc) in Hlast'.
      destruct Hlast' as (kg & Hkg & Ekg). pose proof (nmoment_bound c kg Hc Hkg) as Hb.
      rewrite <- Et in *.
      assert (Hrk : rank_in (Ts c) (fst (fst kg)) = Z.of_nat (length ts)).
      { destruct (rank_in_spec (Ts c) _ HTs (HinTs kg Hkg)) as (B & E & _).
        rewrite Ekg in *. rewrite Et in *.
        destruct (Z.lt_trichotomy (rank_in (t :: ts) (nth (length ts) (t :: ts) 0))
                                  (Z.of_nat (length ts))) as [Hx3 | [Hx3 | Hx3]]; [|exact Hx3|].
        - pose proof (sorted_nth_mono (t :: ts)
                        (Z.to_nat (rank_in (t :: ts) (nth (length ts) (t :: ts) 0)))
                        (length ts) HTs ltac:(lia) ltac:(cbn; lia)). lia.
        - unfold zlen in B. cbn [length] in B. lia. }
      pose proof (rank_in_le (Ts c) _ HTs HposTs (HinTs kg Hkg)).
      rewrite Et in *. unfold zlen. cbn [length]. lia.
  - unfold ngate, zlen. now rewrite Hg, length_map.
  - intros kg1 kg2 H1 H2 Hlt. apply rank_in_mono; auto.
  - intros kg Hkg. apply rank_in_le; auto.
  - apply Hr'. now apply (reach_init (cN c)).
Qed.

Lemma nonredundant_spec (c : Circuit) :
  reachable c ->
  exists c', nonredundant c = Ok c' /\ cN c' = cN c
    /\ gates c' = map (retime (rank_in (Ts c))) (gates c)
    /\ Ts c' = range (zlen (Ts c))
    /\ nmoment c' = zlen (Ts c) /\ nmoment c' <= nmoment c /\ ngate c' = ngate c
    /\ (forall kg1 kg2, In kg1 (gates c) -> In kg2 (gates c) ->
          fst (fst kg1) < fst (fst kg2) ->
          rank_in (Ts c) (fst (fst kg1)) < rank_in (Ts c) (fst (fst kg2)))
    /\ (forall kg, In kg (gates c) -> rank_in (Ts c) (fst (fst kg)) <= fst (fst kg))
    /\ reachable c'.
Proof. intros Hr. exact (nonredundant_inv_spec c (reachable_inv c Hr)). Qed.

(** X11. [nonredundant] on a circuit built by [add_gate] returns a circuit on
    the same qubits with the same gates on the same qubits in the same
    dictionary order, each moved from its moment [T] to the rank of [T]
    among the occupied moments; the moments of the result are
    [0, ..., len(Ts)-1] with none empty, the order in time of any two gates
    is kept, no gate moves to a later moment, and [nmoment] does not grow. *)
Theorem nonredundant_dense (c : Circuit) :
  reachable c ->
  exists c', nonredundant c = Ok c' /\ cN c' = cN c
    /\ gates c' = map (retime (rank_in (Ts c))) (gates c)
    /\ Ts c' = range (zlen (Ts c))
    /\ nmoment c' = zlen (Ts c) /\ nmoment c' <= nmoment c /\ ngate c' = ngate c
    /\ (forall kg1 kg2, In kg1 (gates c) -> In kg2 (gates c) ->
          fst (fst kg1) < fst (fst kg2) ->
          rank_in (Ts c) (fst (fst kg1)) < rank_in (Ts c) (fst (fst kg2)))
    /\ (forall kg, In kg (gates c) -> rank_in (Ts c) (fst (fst kg)) <= fst (fst kg))
    /\ reachable c'.
Proof. exact (nonredundant_spec c). Qed.


Lemma circuit_gaps_reachable : reachable circuit_gaps.
Proof.
  unfold circuit_gaps. apply reachable_add; [apply reachable_add|]; try reflexivity.
  apply (reach_init 2). reflexivity.
Qed.

Lemma nonredundant_dense_witness :
  exists c', nonredundant circuit_gaps = Ok c' /\ cN c' = cN circuit_gaps
    /\ gates c' = map (retime (rank_in (Ts circuit_gaps))) (gates circuit_gaps)
    /\ Ts c' = range (zlen (Ts circuit_gaps))
    /\ nmoment c' = zlen (Ts circuit_gaps) /\ nmoment c' <= nmoment circuit_gaps
    /\ ngate c' = ngate circuit_gaps
    /\ (forall kg1 kg2, In kg1 (gates circuit_gaps) -> In kg2 (gates circuit_gaps) ->
          fst (fst kg1) < fst (fst kg2) ->
          rank_in (Ts circuit_gaps) (fst (fst kg1)) < rank_in (Ts circuit_gaps) (fst (fst kg2)))
    /\ (forall kg, In kg (gates circuit_gaps) ->
          rank_in (Ts circuit_gaps) (fst (fst kg)) <= fst (fst kg))
    /\ reachable c'.
Proof.
  apply (nonredundant_dense circuit_gaps). exact circuit_gaps_reachable.
Defined.

Lemma act_all_retime (f : Z -> Z) (l : list (coord * Gate)) (psi : list bool -> C) :
  act_all (map (retime f) l) psi = act_all l psi.
Proof.
  revert psi. induction l as [|e l IH]; intros psi; [reflexivity|].
  cbn [map]. rewrite !act_all_cons, IH. reflexivity.
Qed.

Lemma StronglySorted_map_mono {X Y} (R : X -> X -> Prop) (R' : Y -> Y -> Prop)
    (g : X -> Y) (l : list X) :
  StronglySorted R l ->
  (forall a b, In a l -> In b l -> R a b -> R' (g a) (g b)) ->
  StronglySorted R' (map g l).
Proof.
  induction 1 as [|a l Hs IH Ha]; intros H; cbn; constructor.
  - apply IH. intros x y Hx Hy. apply H; now right.
  - rewrite Forall_forall in *. intros y Hy. apply in_map_iff in Hy.
    destruct Hy as (b & <- & Hb). apply H; [now left | now right | now apply Ha].
Qed.

Lemma wire_retime (f : Z -> Z) (q : Z) (l : list (coord * Gate)) :
  wire q (map (retime f) l) = map (retime f) (wire q l).
Proof.
  unfold wire. induction l as [|e l IH]; [reflexivity|]. cbn [map filter].
  change (touches q (retime f e)) with (touches q e).
  destruct (touches q e); cbn [map]; now rewrite IH.
Qed.

Lemma simulable_retime (N : Z) (f : Z -> Z) (e : coord * Gate) :
  simulable N e -> simulable N (retime f e).
Proof. intros H. exact H. Qed.

(** Moving the gates of a circuit in time, in a way that keeps the order of
    the moments, does not change what the simulator computes. *)
Lemma run_gates_retime (c c' : Circuit) (f : Z -> Z) (w : vec) :
  circuit_inv c -> circuit_inv c' -> cN c' = cN c ->
  Forall (simulable (cN c)) (gates c) ->
  gates c' = map (retime f) (gates c) ->
  (forall kg1 kg2, In kg1 (gates c) -> In kg2 (gates c) ->
     fst (fst kg1) < fst (fst kg2) -> f (fst (fst kg1)) < f (fst (fst kg2))) ->
  zlen w = 2 ^ cN c ->
  run_gates (cN c') (schedule c') w = run_gates (cN c) (schedule c) w.
Proof.
  intros Hc Hc' EN Hs Hg Hmono Hw.
  assert (Hs' : Forall (simulable (cN c)) (gates c')).
  { rewrite Hg. rewrite Forall_forall in *. intros x Hx. apply in_map_iff in Hx.
    destruct Hx as (e & <- & He). apply simulable_retime. now apply Hs. }
  apply run_gates_fuses; auto.
  intros psi. rewrite <- (act_all_retime f (schedule c) psi).
  apply peq_agree. apply (act_all_wire_sorted (cN c)).
  - rewrite Forall_forall in *. intros x Hx. apply Hs'.
    eapply Permutation_in; [apply schedule_perm; exact Hc' | exact Hx].
  - now apply schedule_wire_sorted.
  - intros q. rewrite wire_retime.
    apply (StronglySorted_map_mono time_lt); [apply schedule_wire_sorted; exact Hc|].
    intros a b Ha Hb Hab. unfold time_lt, retime. cbn.
    apply filter_In in Ha, Hb. destruct Ha as [Ha _], Hb as [Hb _].
    apply Hmono; auto; eapply Permutation_in; try (apply schedule_perm; exact Hc); auto.
  - eapply Permutation_trans; [apply schedule_perm; exact Hc'|]. rewrite Hg.
    apply Permutation_map. apply Permutation_sym. now apply schedule_perm.
Qed.

(** Two well-formed circuits that apply the same map to every state return
    the same state from [simulate]. *)
Lemma simulate_same_state (c c' : Circuit) (wfn : option ref) (h : store) (w0 : vec) :
  circuit_inv c -> circuit_inv c' -> cN c' = cN c ->
  Forall (simulable (cN c)) (gates c) -> Forall (simulable (cN c)) (gates c') ->
  (gates c = [] <-> gates c' = []) ->
  (zlen w0 = 2 ^ cN c ->
   run_gates (cN c') (schedule c') w0 = run_gates (cN c) (schedule c) w0) ->
  initial_state c wfn h w0 ->
  exists h1 r1 h2 r2,
    simulate c wfn h = (h1, Ok r1) /\ simulate c' wfn h = (h2, Ok r2)
    /\ state_of h1 r1 = state_of h2 r2.
Proof.
  intros Hc Hc' EN Hs Hs' Hemp Hrun Hi.
  assert (Hi' : initial_state c' wfn h w0).
  { unfold initial_state in *. now rewrite EN. }
  assert (Hw0 : zlen w0 = 2 ^ cN c).
  { pose proof (inv_N c Hc). destruct wfn as [r0|]; cbn in Hi; [apply Hi|]. subst w0.
    apply zero_state_length. lia. }
  rewrite <- EN in Hs'.
  destruct (simulate_result c wfn h w0 Hc Hs Hi) as (h1 & r1 & E1 & F1 & H1).
  destruct (simulate_result c' wfn h w0 Hc' Hs' Hi') as (h2 & r2 & E2 & F2 & H2).
  exists h1, r1, h2, r2. split; [exact E1|]. split; [exact E2|].
  destruct H1 as [[G1 ->] | [G1 (a1 & -> & S1)]]; destruct H2 as [[G2 ->] | [G2 (a2 & -> & S2)]].
  - destruct wfn as [r0|]; [|reflexivity]. cbn. cbn in Hi.
    assert (r0 < length h)%nat by (apply nth_error_Some; destruct Hi; congruence).
    now rewrite F1, F2.
  - exfalso. apply G2. now apply Hemp.
  - exfalso. apply G1. now apply Hemp.
  - cbn. rewrite S1, S2. f_equal. symmetry. now apply Hrun.
Qed.

(** X12. [nonredundant] does not change what a circuit computes: on a
    circuit built by [add_gate] from valid 1- and 2-body gates on distinct
    qubits [0 <= A < N], simulating the result of [nonredundant] from any
    initial state gives the state vector that the circuit itself gives. *)
Theorem nonredundant_same_state (c : Circuit) (wfn : option ref) (h : store) (w0 : vec) :
  reachable c -> Forall (simulable (cN c)) (gates c) -> initial_state c wfn h w0 ->
  exists c' h1 r1 h2 r2,
    nonredundant c = Ok c'
    /\ simulate c wfn h = (h1, Ok r1) /\ simulate c' wfn h = (h2, Ok r2)
    /\ state_of h1 r1 = state_of h2 r2.
Proof.
  intros Hr Hs Hi. pose proof (reachable_inv c Hr) as Hc.
  destruct (nonredundant_spec c Hr)
    as (c' & E & EN & Hg & _ & _ & _ & _ & Hmono & _ & Hr').
  pose proof (reachable_inv c' Hr') as Hc'.
  assert (Hs' : Forall (simulable (cN c)) (gates c')).
  { rewrite Hg. rewrite Forall_forall in *. intros x Hx. apply in_map_iff in Hx.
    destruct Hx as (e & <- & He). apply simulable_retime. now apply Hs. }
  destruct (simulate_same_state c c' wfn h w0 Hc Hc' EN Hs Hs') as (h1 & r1 & h2 & r2 & H).
  - rewrite Hg. split; [intros ->; reflexivity | apply map_eq_nil].
  - intros Hw. now apply (run_gates_retime c c' (rank_in (Ts c))).
  - exact Hi.
  - exists c', h1, r1, h2, r2. tauto.
Qed.

Lemma nonredundant_same_state_witness :
  exists c' h1 r1 h2 r2,
    nonredundant circuit_gaps = Ok c'
    /\ simulate circuit_gaps None [] = (h1, Ok r1) /\ simulate c' None [] = (h2, Ok r2)
    /\ state_of h1 r1 = state_of h2 r2.
Proof.
  apply (nonredundant_same_state circuit_gaps None [] (zero_state 2)).
  - exact circuit_gaps_reachable.
  - repeat constructor; cbn; try lia; try tauto; intros [E | []]; discriminate.
  - reflexivity.
Defined.

(** ** [concatenate] *)

Lemma placeable_app (N : Z) (l1 l2 : list (coord * Gate)) :
  placeable N l1 -> placeable N l2 ->
  (forall e1 e2, In e1 l1 -> In e2 l2 -> fst (fst e1) <> fst (fst e2)) ->
  placeable N (l1 ++ l2).
Proof.
  intros (N1 & O1 & D1) (N2 & O2 & D2) Hne. split; [|split].
  - rewrite map_app. apply NoDup_app_build; auto.
    intros k H1 H2. apply in_map_iff in H1, H2.
    destruct H1 as (e1 & <- & H1), H2 as (e2 & E & H2).
    apply (Hne e1 e2 H1 H2). now rewrite E.
  - apply Forall_app. auto.
  - rewrite map_app. apply ForallOrdPairs_app. split; [exact D1|]. split; [exact D2|].
    intros k1 k2 H1 H2 s Hs1 Hs2. apply in_map_iff in H1, H2.
    destruct H1 as (e1 & <- & H1), H2 as (e2 & <- & H2).
    apply key_slots_In in Hs1, Hs2. apply (Hne e1 e2 H1 H2).
    destruct Hs1 as [<- _], Hs2 as [E _]. exact E.
Qed.

Lemma concat_gates_times (cs : list Circuit) (Tstart : Z) (e : coord * Gate) :
  Forall circuit_inv cs -> In e (concat_gates cs Tstart) -> Tstart <= fst (fst e).
Proof.
  intros Hcs. revert Tstart. induction Hcs as [|c rest Hc _ IH]; intros Tstart Hin.
  - contradiction.
  - cbn in Hin. apply in_app_or in Hin. destruct Hin as [Hin | Hin].
    + apply in_map_iff in Hin. destruct Hin as (e0 & <- & H0). cbn.
      pose proof (nmoment_bound c e0 Hc H0). lia.
    + specialize (IH _ Hin). pose proof (nmoment_nonneg c Hc). lia.
Qed.

Lemma concat_gates_placeable (N : Z) (cs : list Circuit) (Tstart : Z) :
  0 <= Tstart -> Forall circuit_inv cs -> Forall (fun c => cN c = N) cs ->
  placeable N (concat_gates cs Tstart).
Proof.
  intros HT Hcs. revert Tstart HT. induction Hcs as [|c rest Hc Hrest IH]; intros Tstart HT HN.
  - repeat split; constructor.
  - inversion HN as [|? ? HNc HNrest]; subst. cbn. apply placeable_app.
    + apply retime_placeable.
      * apply (inv_gates c Hc).
      * intros kg Hkg. pose proof (nmoment_bound c kg Hc Hkg). lia.
      * intros kg1 kg2 _ _ E. lia.
    + apply IH; auto. pose proof (nmoment_nonneg c Hc). lia.
    + intros e1 e2 H1 H2. apply in_map_iff in H1. destruct H1 as (e0 & <- & H0). cbn.
      pose proof (nmoment_bound c e0 Hc H0).
      pose proof (concat_gates_times rest _ e2 Hrest H2). lia.
Qed.

Lemma concatenate_loop (cp : bool) (cs : list Circuit) (circuit : Circuit) (Tstart : Z) :
  circuit_inv circuit ->
  (cp = true -> Forall gates_valid cs) ->
  placeable (cN circuit) (gates circuit ++ concat_gates cs Tstart) ->
  exists c', foldM (concatenate_circuit cp) cs (circuit, Tstart)
             = Ok (c', fold_left (fun T c => T + nmoment c) cs Tstart)
    /\ gates c' = gates circuit ++ concat_gates cs Tstart
    /\ cN c' = cN circuit /\ circuit_inv c' /\ (reachable circuit -> reachable c').
Proof.
  revert circuit Tstart. induction cs as [|c rest IH]; intros circuit Tstart Hinv Hv Hp.
  - exists circuit. cbn. rewrite app_nil_r. auto.
  - cbn [foldM concatenate_circuit concat_gates fold_left] in *.
    rewrite foldM_ext with (g := fun s x => add_entry s (retime (fun T => T + Tstart) x)).
    2:{ intros s [[T key2] g] Hin. unfold concatenate_gate. destruct cp; [|reflexivity].
        specialize (Hv eq_refl). inversion Hv as [|? ? Hvc _]; subst.
        unfold gates_valid in Hvc. rewrite Forall_forall in Hvc. specialize (Hvc _ Hin).
        cbn in Hvc. rewrite Hvc. reflexivity. }
    rewrite foldM_map. rewrite app_assoc in Hp.
    destruct (place_all (map (retime (fun T => T + Tstart)) (gates c)) circuit Hinv)
      as (c1 & E1 & G1 & N1 & I1 & R1).
    { now apply placeable_app_l in Hp. }
    rewrite E1. cbn [bind].
    destruct (IH c1 (Tstart + nmoment c) I1) as (c' & E' & G' & N' & I' & R').
    { intros Hcp. specialize (Hv Hcp). now inversion Hv. }
    { rewrite N1, G1. exact Hp. }
    exists c'. split; [exact E'|]. split; [now rewrite G', G1, app_assoc|].
    split; [congruence|]. split; [exact I' | auto].
Qed.

(** What [concatenate] returns. *)
Lemma concatenate_spec (c0 : Circuit) (cs : list Circuit) (cp : bool) :
  Forall reachable (c0 :: cs) -> Forall (fun c => cN c = cN c0) cs ->
  (cp = true -> Forall gates_valid (c0 :: cs)) ->
  exists c', concatenate (c0 :: cs) cp = Ok c' /\ cN c' = cN c0
    /\ gates c' = concat_gates (c0 :: cs) 0 /\ reachable c'.
Proof.
  intros Hr HN Hv.
  assert (Hinv : Forall circuit_inv (c0 :: cs)).
  { eapply Forall_impl; [|exact Hr]. apply reachable_inv. }
  assert (HN0 : 0 < cN c0) by (inversion Hinv; subst; now apply inv_N).
  unfold concatenate.
  assert (E : existsb (fun x => negb (cN x =? cN c0)) (c0 :: cs) = false).
  { destruct (existsb _ _) eqn:E; [|reflexivity]. exfalso.
    apply existsb_exists in E. destruct E as (x & Hx & Hne).
    destruct Hx as [<- | Hx]; [rewrite Z.eqb_refl in Hne; discriminate|].
    rewrite Forall_forall in HN. rewrite (HN x Hx), Z.eqb_refl in Hne. discriminate. }
  rewrite E. unfold Circuit_init. destruct (Z.leb_spec (cN c0) 0); [lia|]. cbn [bind].
  set (c00 := mkCircuit (cN c0) [] [] []).
  assert (Hinit : Circuit_init (cN c0) = Ok c00).
  { unfold Circuit_init. destruct (Z.leb_spec (cN c0) 0); [lia | reflexivity]. }
  destruct (concatenate_loop cp (c0 :: cs) c00 0) as (c' & E' & G' & N' & I' & R').
  - now apply (Circuit_init_inv (cN c0)).
  - exact Hv.
  - cbn [gates c00 app cN]. apply concat_gates_placeable; [lia | exact Hinv|].
    constructor; [reflexivity | exact HN].
  - rewrite E'. cbn [bind fst]. exists c'. split; [reflexivity|]. split; [exact N'|].
    split; [exact G'|]. apply R'. now apply (reach_init (cN c0)).
Qed.


Lemma concat_schedule_perm (cs : list Circuit) (Tstart : Z) :
  Forall circuit_inv cs -> Permutation (concat_schedule cs Tstart) (concat_gates cs Tstart).
Proof.
  intros Hcs. revert Tstart. induction Hcs as [|c rest Hc _ IH]; intros Tstart; cbn.
  - constructor.
  - apply Permutation_app; [|apply IH]. apply Permutation_map. now apply schedule_perm.
Qed.

Lemma concat_schedule_sorted (cs : list Circuit) (Tstart : Z) :
  Forall circuit_inv cs -> wire_sorted (concat_schedule cs Tstart).
Proof.
  intros Hcs. revert Tstart.
  induction Hcs as [|c rest Hc Hrest IH]; intros Tstart q; cbn [concat_schedule].
  - constructor.
  - rewrite wire_app. apply StronglySorted_app.
    + rewrite wire_retime.
      apply (StronglySorted_map_mono time_lt); [now apply schedule_wire_sorted|].
      intros a b _ _ Hab. unfold time_lt, retime in *. cbn. lia.
    + apply IH.
    + intros a b Ha Hb. apply filter_In in Ha, Hb. destruct Ha as [Ha _], Hb as [Hb _].
      apply in_map_iff in Ha. destruct Ha as (a0 & <- & Ha0).
      apply (Permutation_in _ (schedule_perm c Hc)) in Ha0.
      pose proof (nmoment_bound c a0 Hc Ha0).
      apply (Permutation_in _ (concat_schedule_perm rest _ Hrest)) in Hb.
      pose proof (concat_gates_times rest _ b Hrest Hb).
      unfold time_lt, retime. cbn. lia.
Qed.

Lemma act_all_concat_schedule (cs : list Circuit) (Tstart : Z) (psi : list bool -> C) :
  act_all (concat_schedule cs Tstart) psi = act_circuits cs psi.
Proof.
  revert Tstart psi. induction cs as [|c rest IH]; intros Tstart psi; [reflexivity|].
  cbn [concat_schedule]. rewrite act_all_app, act_all_retime, IH. reflexivity.
Qed.

Lemma schedule_simulable (N : Z) (c : Circuit) :
  circuit_inv c -> Forall (simulable N) (gates c) -> Forall (simulable N) (schedule c).
Proof.
  intros Hc Hs. rewrite Forall_forall in *. intros x Hx. apply Hs.
  eapply Permutation_in; [apply schedule_perm; exact Hc | exact Hx].
Qed.

Lemma run_circuits_act (N : Z) (cs : list Circuit) (w : vec) :
  0 <= N -> Forall circuit_inv cs ->
  Forall (fun c => Forall (simulable N) (gates c)) cs -> zlen w = 2 ^ N ->
  zlen (run_circuits N cs w) = 2 ^ N
  /\ agree (Z.to_nat N) (amp (run_circuits N cs w)) (act_circuits cs (amp w)).
Proof.
  intros HN Hcs. revert w. induction Hcs as [|c rest Hc _ IH]; intros w Hs Hw.
  - split; [exact Hw | apply agree_refl].
  - inversion Hs as [|? ? Hsc Hsrest]; subst.
    pose proof (schedule_simulable N c Hc Hsc) as Hsch.
    unfold run_circuits, act_circuits in *. cbn [fold_left].
    destruct (IH (run_gates N (schedule c) w) Hsrest) as [L A].
    { now apply run_gates_length. }
    split; [exact L|]. eapply agree_trans; [exact A|].
    assert (G : forall l psi phi, agree (Z.to_nat N) psi phi ->
              agree (Z.to_nat N) (fold_left (fun p c0 => act_all (schedule c0) p) l psi)
                    (fold_left (fun p c0 => act_all (schedule c0) p) l phi)).
    { induction l as [|d l IHl]; intros psi phi H; [exact H|]. cbn.
      apply IHl. now apply act_all_agree. }
    apply G. now apply run_gates_act.
Qed.

(** X13. [concatenate] of a non-empty list of circuits built by [add_gate]
    on the same number of qubits returns a circuit on these qubits whose
    gates are those of the circuits in order, the gates of each circuit
    shifted in time by the sum of the [nmoment] of the circuits before it. *)
Theorem concatenate_gates (c0 : Circuit) (cs : list Circuit) (cp : bool) :
  Forall reachable (c0 :: cs) -> Forall (fun c => cN c = cN c0) cs ->
  (cp = true -> Forall gates_valid (c0 :: cs)) ->
  exists c', concatenate (c0 :: cs) cp = Ok c' /\ cN c' = cN c0
    /\ gates c' = concat_gates (c0 :: cs) 0 /\ reachable c'.
Proof. exact (concatenate_spec c0 cs cp). Qed.

Lemma concatenate_gates_witness :
  exists c', concatenate [circuit_H0_X1; circuit_gaps] true = Ok c'
    /\ cN c' = cN circuit_H0_X1
    /\ gates c' = concat_gates [circuit_H0_X1; circuit_gaps] 0 /\ reachable c'.
Proof.
  apply (concatenate_gates circuit_H0_X1 [circuit_gaps] true).
  - repeat constructor; [exact circuit_H0_X1_reachable | exact circuit_gaps_reachable].
  - repeat constructor.
  - intros _. repeat constructor.
Defined.

(** X14. Simulating a concatenation is simulating the circuits one after
    the other: for circuits built by [add_gate] on the same [N] qubits from
    valid 1- and 2-body gates on distinct qubits, the simulator's gate
    applications along the concatenated circuit map every state of [2^N]
    amplitudes to the state obtained by running the circuits in order, and
    [simulate] on the concatenation returns that state. *)
Theorem concatenate_runs_in_sequence (c0 : Circuit) (cs : list Circuit) (cp : bool)
    (wfn : option ref) (h : store) (w0 : vec) :
  Forall reachable (c0 :: cs) -> Forall (fun c => cN c = cN c0) cs ->
  Forall (fun c => Forall (simulable (cN c0)) (gates c)) (c0 :: cs) ->
  initial_state c0 wfn h w0 ->
  exists c', concatenate (c0 :: cs) cp = Ok c'
    /\ run_gates (cN c') (schedule c') w0 = run_circuits (cN c0) (c0 :: cs) w0
    /\ exists h' res, simulate c' wfn h = (h', Ok res)
         /\ (gates c' <> [] ->
             state_of h' res = Some (run_circuits (cN c0) (c0 :: cs) w0)).
Proof.
  intros Hr HN Hs Hi.
  assert (Hinv : Forall circuit_inv (c0 :: cs)).
  { eapply Forall_impl; [|exact Hr]. apply reachable_inv. }
  assert (HN0 : 0 < cN c0) by (inversion Hinv; subst; now apply inv_N).
  assert (Hv : cp = true -> Forall gates_valid (c0 :: cs)).
  { intros _. eapply Forall_impl; [|exact Hs]. intros c Hc. unfold gates_valid.
    eapply Forall_impl; [|exact Hc]. intros kg Hkg. apply Hkg. }
  destruct (concatenate_spec c0 cs cp Hr HN Hv) as (c' & E & EN & Hg & Hr').
  pose proof (reachable_inv c' Hr') as Hc'.
  assert (Hw0 : zlen w0 = 2 ^ cN c0).
  { destruct wfn as [r0|]; cbn in Hi; [apply Hi|]. subst w0. apply zero_state_length. lia. }
  assert (Hs' : Forall (simulable (cN c0)) (gates c')).
  { rewrite Hg. apply Forall_forall. intros x Hx.
    apply (Permutation_in _ (Permutation_sym (concat_schedule_perm _ 0 Hinv))) in Hx.
    clear -Hx Hs Hinv. revert Hx. generalize 0. 
    induction Hinv as [|c rest Hc _ IH]; intros T Hx; [contradiction|].
    inversion Hs as [|? ? Hsc Hsrest]; subst. cbn in Hx. apply in_app_or in Hx.
    destruct Hx as [Hx | Hx]; [|now apply (IH Hsrest _ Hx)].
    apply in_map_iff in Hx. destruct Hx as (e & <- & He). apply simulable_retime.
    pose proof (schedule_simulable (cN c0) c Hc Hsc) as H. rewrite Forall_forall in H. auto. }
  destruct (run_circuits_act (cN c0) (c0 :: cs) w0 ltac:(lia) Hinv Hs Hw0) as [L A].
  assert (Erun : run_gates (cN c') (schedule c') w0 = run_circuits (cN c0) (c0 :: cs) w0).
  { rewrite EN. apply (vec_ext (Z.to_nat (cN c0))).
    - apply zlen_pow2; [lia|]. apply run_gates_length; auto; [lia|].
      now apply schedule_simulable.
    - apply zlen_pow2; [lia | exact L].
    - eapply agree_trans; [apply run_gates_act; [lia | now apply schedule_simulable]|].
      eapply agree_trans; [|intros bs Hbs; symmetry; apply (A bs Hbs)].
      rewrite <- (act_all_concat_schedule (c0 :: cs) 0).
      apply peq_agree. apply (act_all_wire_sorted (cN c0)).
      + now apply schedule_simulable.
      + now apply schedule_wire_sorted.
      + now apply concat_schedule_sorted.
      + eapply Permutation_trans; [apply schedule_perm; exact Hc'|]. rewrite Hg.
        apply Permutation_sym. now apply concat_schedule_perm. }
  exists c'. split; [exact E|]. split; [exact Erun|].
  assert (Hi' : initial_state c' wfn h w0) by (unfold initial_state in *; now rewrite EN).
  rewrite <- EN in Hs'.
  destruct (simulate_result c' wfn h w0 Hc' Hs' Hi') as (h' & res & Es & _ & H).
  exists h', res. split; [exact Es|]. intros Hne.
  destruct H as [[H _] | [_ (r & -> & Hst)]]; [contradiction|].
  cbn. rewrite Hst, Erun. reflexivity.
Qed.

Lemma concatenate_runs_in_sequence_witness :
  exists c', concatenate [circuit_H0_X1; circuit_gaps] true = Ok c'
    /\ run_gates (cN c') (schedule c') (zero_state 2)
       = run_circuits (cN circuit_H0_X1) [circuit_H0_X1; circuit_gaps] (zero_state 2)
    /\ exists h' res, simulate c' None [] = (h', Ok res)
         /\ (gates c' <> [] ->
             state_of h' res
             = Some (run_circuits (cN circuit_H0_X1) [circuit_H0_X1; circuit_gaps]
                       (zero_state 2))).
Proof.
  apply (concatenate_runs_in_sequence circuit_H0_X1 [circuit_gaps] true None [] (zero_state 2)).
  - repeat constructor; [exact circuit_H0_X1_reachable | exact circuit_gaps_reachable].
  - repeat constructor.
  - repeat constructor; cbn; try lia; try tauto; intros [E | []]; discriminate.
  - reflexivity.
Defined.

(** ** Sums over blocks of an array *)

Local Open Scope Z_scope.


Lemma Cconj_add (a b : C) : Cconj (a + b) = (Cconj a + Cconj b)%C.
Proof. destruct a, b. unfold Cconj, Cadd. cbn. f_equal. ring. Qed.

Lemma Cconj_mul (a b : C) : Cconj (a * b) = (Cconj a * Cconj b)%C.
Proof. destruct a, b. unfold Cconj, Cmul. cbn. f_equal; ring. Qed.

Lemma Cconj_invol (a : C) : Cconj (Cconj a) = a.
Proof. destruct a. unfold Cconj. cbn. f_equal. ring. Qed.

Lemma Cconj_0 : Cconj C0 = C0.
Proof. unfold Cconj, C0, RtoC. cbn. f_equal. ring. Qed.

Lemma Cconj_Csum (l : list C) : Cconj (Csum l) = Csum (map Cconj l).
Proof.
  induction l as [|x l IH]; cbn; [apply Cconj_0|].
  fold (Csum l) (Csum (map Cconj l)). now rewrite Cconj_add, IH.
Qed.

Lemma Csum_cons (x : C) (l : list C) : Csum (x :: l) = (x + Csum l)%C.
Proof. reflexivity. Qed.

Lemma Csum_map_ext {A} (f g : A -> C) (l : list A) :
  (forall x, In x l -> f x = g x) -> Csum (map f l) = Csum (map g l).
Proof. intros H. f_equal. now apply map_ext_in. Qed.

Lemma Csum_map_add {A} (f g : A -> C) (l : list A) :
  Csum (map (fun x => (f x + g x)%C) l) = (Csum (map f l) + Csum (map g l))%C.
Proof.
  induction l as [|x l IH]; cbn [map]; rewrite ?Csum_cons.
  - cbn. ring.
  - rewrite IH. ring.
Qed.

Lemma Csum_map_scale {A} (c : C) (f : A -> C) (l : list A) :
  Csum (map (fun x => (c * f x)%C) l) = (c * Csum (map f l))%C.
Proof.
  induction l as [|x l IH]; cbn [map]; rewrite ?Csum_cons.
  - cbn. ring.
  - rewrite IH. ring.
Qed.

Lemma Csum_flat_map {A} (f : A -> list C) (l : list A) :
  Csum (flat_map f l) = Csum (map (fun x => Csum (f x)) l).
Proof.
  induction l as [|x l IH]; cbn [flat_map map]; [reflexivity|].
  now rewrite Csum_app, Csum_cons, IH.
Qed.

Lemma map_seq_shift {A} (F : nat -> A) (s n : nat) :
  map F (seq s n) = map (fun k => F (s + k)%nat) (seq 0 n).
Proof.
  rewrite <- (Nat.add_0_r s) at 1. rewrite <- (map_map (Nat.add s) F).
  f_equal. generalize 0%nat. induction n as [|n IH]; intros a; [reflexivity|].
  cbn [seq map]. f_equal. rewrite <- IH. f_equal. f_equal. lia.
Qed.

Lemma Csum_blocks (F : nat -> C) (L n : nat) :
  Csum (map F (seq 0 (L * n)))
  = Csum (map (fun l => Csum (map (fun k => F (l * n + k)%nat) (seq 0 n))) (seq 0 L)).
Proof.
  induction L as [|L IH]; [reflexivity|].
  replace (S L * n)%nat with (L * n + n)%nat by lia.
  rewrite seq_app, map_app, Csum_app, IH, seq_S, map_app, Csum_app. cbn [map Nat.add].
  rewrite Csum_cons, (map_seq_shift F). cbn [Csum fold_right]. ring.
Qed.

Lemma Csum2_flat (L R : nat) (g : nat -> nat -> C) :
  Csum (flat_map (fun l => map (g l) (seq 0 R)) (seq 0 L)) = Csum2 L R g.
Proof. apply Csum_flat_map. Qed.

Lemma Csum2_ext (L R : nat) (g1 g2 : nat -> nat -> C) :
  (forall l r, (l < L)%nat -> (r < R)%nat -> g1 l r = g2 l r) -> Csum2 L R g1 = Csum2 L R g2.
Proof.
  intros H. unfold Csum2. apply Csum_map_ext. intros l Hl. apply in_seq in Hl.
  apply Csum_map_ext. intros r Hr. apply in_seq in Hr. apply H; lia.
Qed.

Lemma Csum2_add (L R : nat) (g1 g2 : nat -> nat -> C) :
  Csum2 L R (fun l r => (g1 l r + g2 l r)%C) = (Csum2 L R g1 + Csum2 L R g2)%C.
Proof.
  unfold Csum2. rewrite <- Csum_map_add. apply Csum_map_ext. intros l _.
  apply Csum_map_add.
Qed.

Lemma Csum2_scale (L R : nat) (c : C) (g : nat -> nat -> C) :
  Csum2 L R (fun l r => (c * g l r)%C) = (c * Csum2 L R g)%C.
Proof.
  unfold Csum2. rewrite <- Csum_map_scale. apply Csum_map_ext. intros l _.
  apply Csum_map_scale.
Qed.

Lemma Cconj_Csum2 (L R : nat) (g : nat -> nat -> C) :
  Cconj (Csum2 L R g) = Csum2 L R (fun l r => Cconj (g l r)).
Proof.
  unfold Csum2. rewrite Cconj_Csum, map_map. apply Csum_map_ext. intros l _.
  now rewrite Cconj_Csum, map_map.
Qed.

Lemma Csum3_ext (L M R : nat) (g1 g2 : nat -> nat -> nat -> C) :
  (forall l m r, (l < L)%nat -> (m < M)%nat -> (r < R)%nat -> g1 l m r = g2 l m r) ->
  Csum3 L M R g1 = Csum3 L M R g2.
Proof.
  intros H. unfold Csum3. apply Csum_map_ext. intros l Hl. apply in_seq in Hl.
  apply Csum2_ext. intros m r Hm Hr. apply H; lia.
Qed.

(** ** Inner products, block by block *)

Lemma inner_seq (n : nat) (u v : vec) :
  length u = n -> length v = n ->
  inner u v = Csum (map (fun k => (Cconj (nth k u C0) * nth k v C0)%C) (seq 0 n)).
Proof.
  unfold inner. revert u v. induction n as [|n IH]; intros [|x u] [|y v] Hu Hv;
    try discriminate; [reflexivity|].
  cbn [combine map seq]. rewrite !Csum_cons. rewrite (IH u v) by (cbn in *; lia).
  rewrite (map_seq_shift _ 1). reflexivity.
Qed.

(** The sum over an array of shape (L,2,R). *)
Lemma Csum_blocks1 (F : nat -> C) (L R : nat) :
  Csum (map F (seq 0 (L * (2 * R))))
  = Csum2 L R (fun l r => (F ((l * 2 + 0) * R + r)%nat + F ((l * 2 + 1) * R + r)%nat)%C).
Proof.
  rewrite Csum_blocks. unfold Csum2. apply Csum_map_ext. intros l _.
  rewrite Csum_blocks. change (seq 0 2) with [0%nat; 1%nat]. cbn [map].
  rewrite !Csum_cons. change (Csum []) with C0. rewrite Csum_map_add.
  rewrite Cadd_0_r. f_equal; apply Csum_map_ext; intros r _; f_equal; nia.
Qed.

(** The sum over an array of shape (L,2,M,2,R). *)
Lemma Csum_blocks2 (F : nat -> C) (L M R : nat) :
  Csum (map F (seq 0 (L * (2 * (M * (2 * R))))))
  = Csum3 L M R (fun l m r =>
      (F ((((l * 2 + 0) * M + m) * 2 + 0) * R + r)%nat
       + F ((((l * 2 + 0) * M + m) * 2 + 1) * R + r)%nat
       + F ((((l * 2 + 1) * M + m) * 2 + 0) * R + r)%nat
       + F ((((l * 2 + 1) * M + m) * 2 + 1) * R + r)%nat)%C).
Proof.
  rewrite Csum_blocks. unfold Csum3. apply Csum_map_ext. intros l _.
  rewrite Csum_blocks. change (seq 0 2) with [0%nat; 1%nat]. cbn [map].
  rewrite !Csum_cons. change (Csum []) with C0. rewrite Cadd_0_r.
  rewrite !(Csum_blocks1 _ M R). rewrite <- Csum2_add.
  apply Csum2_ext. intros m r _ _.
  match goal with |- (?a + ?b + (?c + ?d))%C = (?a' + ?b' + ?c' + ?d')%C =>
    replace a with a'; [replace b with b'; [replace c with c'; [replace d with d'; [ring|]|]|]|]
  end; f_equal; nia.
Qed.

Lemma inner_blocks1 (L R : nat) (u v : vec) :
  length u = (L * (2 * R))%nat -> length v = (L * (2 * R))%nat ->
  inner u v
  = Csum2 L R (fun l r =>
      (Cconj (nth ((l * 2 + 0) * R + r) u C0) * nth ((l * 2 + 0) * R + r) v C0
       + Cconj (nth ((l * 2 + 1) * R + r) u C0) * nth ((l * 2 + 1) * R + r) v C0)%C).
Proof.
  intros Hu Hv. rewrite (inner_seq _ u v Hu Hv).
  apply (Csum_blocks1 (fun k => (Cconj (nth k u C0) * nth k v C0)%C)).
Qed.

Lemma inner_blocks2 (L M R : nat) (u v : vec) :
  length u = (L * (2 * (M * (2 * R))))%nat -> length v = (L * (2 * (M * (2 * R))))%nat ->
  inner u v
  = Csum3 L M R (fun l m r =>
      (Cconj (nth ((((l * 2 + 0) * M + m) * 2 + 0) * R + r) u C0)
         * nth ((((l * 2 + 0) * M + m) * 2 + 0) * R + r) v C0
       + Cconj (nth ((((l * 2 + 0) * M + m) * 2 + 1) * R + r) u C0)
         * nth ((((l * 2 + 0) * M + m) * 2 + 1) * R + r) v C0
       + Cconj (nth ((((l * 2 + 1) * M + m) * 2 + 0) * R + r) u C0)
         * nth ((((l * 2 + 1) * M + m) * 2 + 0) * R + r) v C0
       + Cconj (nth ((((l * 2 + 1) * M + m) * 2 + 1) * R + r) u C0)
         * nth ((((l * 2 + 1) * M + m) * 2 + 1) * R + r) v C0)%C).
Proof.
  intros Hu Hv. rewrite (inner_seq _ u v Hu Hv).
  apply (Csum_blocks2 (fun k => (Cconj (nth k u C0) * nth k v C0)%C)).
Qed.

(** ** Unitary matrices keep inner products *)

Local Open Scope Z_scope.

Lemma Csum_swap {A B} (t : A -> B -> C) (la : list A) (lb : list B) :
  Csum (map (fun a => Csum (map (t a) lb)) la)
  = Csum (map (fun b => Csum (map (fun a => t a b) la)) lb).
Proof.
  induction la as [|a la IH]; cbn [map]; rewrite ?Csum_cons.
  - change (Csum []) with C0. symmetry. apply Csum_zero.
    rewrite Forall_forall. intros x Hx. apply in_map_iff in Hx. now destruct Hx as [b [<- _]].
  - rewrite IH, <- Csum_map_add. apply Csum_map_ext. intros b _. now rewrite Csum_cons.
Qed.

Lemma Csum_delta (c : nat -> C) (j s n : nat) :
  (s <= j < s + n)%nat ->
  Csum (map (fun k => (c k * (if (j =? k)%nat then C1 else C0))%C) (seq s n)) = c j.
Proof.
  revert s. induction n as [|n IH]; intros s Hj; [lia|].
  cbn [seq map]. rewrite Csum_cons. destruct (Nat.eqb_spec j s) as [-> | Hne].
  - rewrite Csum_zero; [ring|]. rewrite Forall_forall. intros x Hx.
    apply in_map_iff in Hx. destruct Hx as [k [<- Hk]]. apply in_seq in Hk.
    destruct (Nat.eqb_spec s k); [lia | ring].
  - rewrite IH by lia. ring.
Qed.

Lemma Csum_map_scale_r {A} (c : C) (f : A -> C) (l : list A) :
  Csum (map (fun x => (f x * c)%C) l) = (Csum (map f l) * c)%C.
Proof.
  induction l as [|x l IH]; cbn [map]; rewrite ?Csum_cons.
  - cbn. ring.
  - rewrite IH. ring.
Qed.

(** [<U f|U g> = <f|g>] for a matrix with orthonormal columns. *)
Lemma unitary_block (n : nat) (a : nat -> nat -> C) (f g : nat -> C) :
  (forall j k, (j < n)%nat -> (k < n)%nat ->
     Csum (map (fun i => (Cconj (a i j) * a i k)%C) (seq 0 n))
     = if (j =? k)%nat then C1 else C0) ->
  Csum (map (fun i =>
    (Cconj (Csum (map (fun j => (f j * a i j)%C) (seq 0 n)))
     * Csum (map (fun k => (g k * a i k)%C) (seq 0 n)))%C) (seq 0 n))
  = Csum (map (fun j => (Cconj (f j) * g j)%C) (seq 0 n)).
Proof.
  intros H.
  transitivity (Csum (map (fun i => Csum (map (fun j => Csum (map (fun k =>
    (Cconj (f j) * g k * (Cconj (a i j) * a i k))%C) (seq 0 n))) (seq 0 n))) (seq 0 n))).
  { apply Csum_map_ext. intros i _. rewrite Cconj_Csum, map_map.
    rewrite <- Csum_map_scale_r. apply Csum_map_ext. intros j _.
    rewrite <- Csum_map_scale. apply Csum_map_ext. intros k _.
    rewrite Cconj_mul. ring. }
  rewrite Csum_swap. apply Csum_map_ext. intros j Hj. apply in_seq in Hj.
  transitivity (Csum (map (fun k => Csum (map (fun i =>
    (Cconj (f j) * g k * (Cconj (a i j) * a i k))%C) (seq 0 n))) (seq 0 n))).
  { apply Csum_swap. }
  transitivity (Csum (map (fun k =>
    ((Cconj (f j) * g k) * (if (j =? k)%nat then C1 else C0))%C) (seq 0 n))).
  { apply Csum_map_ext. intros k Hk. apply in_seq in Hk.
    rewrite Csum_map_scale. rewrite H by lia. reflexivity. }
  rewrite (Csum_delta (fun k => (Cconj (f j) * g k)%C)) by lia. reflexivity.
Qed.

Lemma einsum1_isometry (L R : nat) (u v : vec) (U : matrix) :
  unitary 2 U -> length u = (L * (2 * R))%nat -> length v = (L * (2 * R))%nat ->
  inner (einsum_LjR_ij L R u U) (einsum_LjR_ij L R v U) = inner u v.
Proof.
  intros HU Hu Hv.
  rewrite (inner_blocks1 L R (einsum_LjR_ij L R u U) (einsum_LjR_ij L R v U))
    by apply einsum_LjR_ij_length.
  rewrite (inner_blocks1 L R u v Hu Hv).
  apply Csum2_ext. intros l r Hl Hr.
  rewrite !einsum_LjR_ij_nth by lia.
  pose proof (unitary_block 2 (mget U)
    (fun j => nth ((l * 2 + j) * R + r) u C0)
    (fun j => nth ((l * 2 + j) * R + r) v C0) HU) as G.
  unfold bits2. cbn [seq map] in G |- *. cbv [Csum fold_right] in G |- *.
  match type of G with ?a = _ => transitivity a; [ring | rewrite G; ring] end.
Qed.

Ltac mget_numerals :=
  change (2 * 0 + 0)%nat with 0%nat; change (2 * 0 + 1)%nat with 1%nat;
  change (2 * 1 + 0)%nat with 2%nat; change (2 * 1 + 1)%nat with 3%nat.

Lemma einsum2_isometry_lt (L M R : nat) (u v : vec) (U : matrix) :
  unitary 4 U ->
  length u = (L * (2 * (M * (2 * R))))%nat -> length v = (L * (2 * (M * (2 * R))))%nat ->
  inner (einsum_LkMlR_ijkl L M R u (reshape2222 U))
        (einsum_LkMlR_ijkl L M R v (reshape2222 U)) = inner u v.
Proof.
  intros HU Hu Hv.
  rewrite (inner_blocks2 L M R (einsum_LkMlR_ijkl L M R u _) (einsum_LkMlR_ijkl L M R v _))
    by apply einsum_LkMlR_ijkl_length.
  rewrite (inner_blocks2 L M R u v Hu Hv).
  apply Csum3_ext. intros l m r Hl Hm Hr.
  rewrite !einsum_LkMlR_ijkl_nth by lia.
  pose proof (unitary_block 4 (mget U)
    (fun j => match j with
              | 0%nat => nth ((((l * 2 + 0) * M + m) * 2 + 0) * R + r) u C0
              | 1%nat => nth ((((l * 2 + 0) * M + m) * 2 + 1) * R + r) u C0
              | 2%nat => nth ((((l * 2 + 1) * M + m) * 2 + 0) * R + r) u C0
              | _ => nth ((((l * 2 + 1) * M + m) * 2 + 1) * R + r) u C0
              end)
    (fun j => match j with
              | 0%nat => nth ((((l * 2 + 0) * M + m) * 2 + 0) * R + r) v C0
              | 1%nat => nth ((((l * 2 + 0) * M + m) * 2 + 1) * R + r) v C0
              | 2%nat => nth ((((l * 2 + 1) * M + m) * 2 + 0) * R + r) v C0
              | _ => nth ((((l * 2 + 1) * M + m) * 2 + 1) * R + r) v C0
              end) HU) as G.
  unfold bits2. cbn [seq map flat_map app] in G |- *. cbv [Csum fold_right] in G |- *.
  rewrite !tget_reshape2222 by lia. mget_numerals.
  match type of G with ?a = _ => transitivity a; [ring | rewrite G; ring] end.
Qed.

Lemma einsum2_isometry_gt (L M R : nat) (u v : vec) (U : matrix) :
  unitary 4 U ->
  length u = (L * (2 * (M * (2 * R))))%nat -> length v = (L * (2 * (M * (2 * R))))%nat ->
  inner (einsum_LkMlR_ijkl L M R u (einsum_ijkl_jilk (reshape2222 U)))
        (einsum_LkMlR_ijkl L M R v (einsum_ijkl_jilk (reshape2222 U))) = inner u v.
Proof.
  intros HU Hu Hv.
  rewrite (inner_blocks2 L M R (einsum_LkMlR_ijkl L M R u _) (einsum_LkMlR_ijkl L M R v _))
    by apply einsum_LkMlR_ijkl_length.
  rewrite (inner_blocks2 L M R u v Hu Hv).
  apply Csum3_ext. intros l m r Hl Hm Hr.
  rewrite !einsum_LkMlR_ijkl_nth by lia.
  pose proof (unitary_block 4 (mget U)
    (fun j => match j with
              | 0%nat => nth ((((l * 2 + 0) * M + m) * 2 + 0) * R + r) u C0
              | 1%nat => nth ((((l * 2 + 1) * M + m) * 2 + 0) * R + r) u C0
              | 2%nat => nth ((((l * 2 + 0) * M + m) * 2 + 1) * R + r) u C0
              | _ => nth ((((l * 2 + 1) * M + m) * 2 + 1) * R + r) u C0
              end)
    (fun j => match j with
              | 0%nat => nth ((((l * 2 + 0) * M + m) * 2 + 0) * R + r) v C0
              | 1%nat => nth ((((l * 2 + 1) * M + m) * 2 + 0) * R + r) v C0
              | 2%nat => nth ((((l * 2 + 0) * M + m) * 2 + 1) * R + r) v C0
              | _ => nth ((((l * 2 + 1) * M + m) * 2 + 1) * R + r) v C0
              end) HU) as G.
  unfold bits2. cbn [seq map flat_map app] in G |- *. cbv [Csum fold_right] in G |- *.
  rewrite !tget_swapped by lia. mget_numerals.
  rewrite ?Cconj_add, ?Cconj_mul, ?Cconj_0 in G |- *.
  match type of G with ?a = _ => transitivity a; [ring | rewrite G; ring] end.
Qed.

Lemma gate_apply_isometry (n : Z) (kg : coord * Gate) (u v : vec) :
  0 <= n -> simulable n kg -> unitary_gate kg -> zlen u = 2 ^ n -> zlen v = 2 ^ n ->
  inner (gate_apply n u kg) (gate_apply n v kg) = inner u v.
Proof.
  intros Hn Hs HU Hu Hv. unfold gate_apply. unfold unitary_gate in HU.
  apply zlen_pow2 in Hu; [|exact Hn]. apply zlen_pow2 in Hv; [|exact Hn].
  destruct (simulable_cases n kg Hs)
    as [(A & -> & EN & HA & _) | (A & B & -> & EN & HA & HB & HAB & _)]; rewrite EN in HU.
  - change (Z.to_nat (2 ^ 1)) with 2%nat in HU.
    rewrite !to_nat_pow2 by lia.
    replace (Z.to_nat (n - A - 1)) with (Z.to_nat n - Z.to_nat A - 1)%nat by lia.
    apply einsum1_isometry; [exact HU | |]; rewrite pow2_split1 by lia; assumption.
  - change (Z.to_nat (2 ^ 2)) with 4%nat in HU.
    destruct (Z.gtb_spec A B).
    + rewrite !to_nat_pow2 by lia.
      replace (Z.to_nat (A - B - 1)) with (Z.to_nat A - Z.to_nat B - 1)%nat by lia.
      replace (Z.to_nat (n - A - 1)) with (Z.to_nat n - Z.to_nat A - 1)%nat by lia.
      apply einsum2_isometry_gt; [exact HU | |]; rewrite pow2_split2 by lia; assumption.
    + rewrite !to_nat_pow2 by lia.
      replace (Z.to_nat (B - A - 1)) with (Z.to_nat B - Z.to_nat A - 1)%nat by lia.
      replace (Z.to_nat (n - B - 1)) with (Z.to_nat n - Z.to_nat B - 1)%nat by lia.
      apply einsum2_isometry_lt; [exact HU | |]; rewrite pow2_split2 by lia; assumption.
Qed.

Lemma run_gates_isometry (n : Z) (l : list (coord * Gate)) (u v : vec) :
  0 <= n -> Forall (simulable n) l -> Forall unitary_gate l ->
  zlen u = 2 ^ n -> zlen v = 2 ^ n ->
  inner (run_gates n l u) (run_gates n l v) = inner u v.
Proof.
  intros Hn Hs. revert u v. induction Hs as [|kg l Hkg Hl IH]; intros u v HU Hu Hv;
    [reflexivity|].
  inversion HU as [|? ? HUk HUl]; subst. cbn [run_gates fold_left].
  change (fold_left (gate_apply n) l ?w) with (run_gates n l w).
  rewrite IH; auto.
  - now apply gate_apply_isometry.
  - apply zlen_pow2; [exact Hn|]. now apply gate_apply_length.
  - apply zlen_pow2; [exact Hn|]. now apply gate_apply_length.
Qed.

Lemma inner_zero_state (n : Z) : 0 <= n -> inner (zero_state n) (zero_state n) = C1.
Proof.
  intros Hn. unfold zero_state, zeros, inner.
  assert (H : (0 < Z.to_nat (2 ^ n))%nat).
  { rewrite to_nat_pow2 by exact Hn. apply pow2_pos_nat. }
  destruct (Z.to_nat (2 ^ n)) as [|k]; [lia|]. cbn [repeat update combine map].
  rewrite Csum_cons. cbn [fst snd]. rewrite Csum_zero.
  - unfold Cconj, C1, C0, RtoC, Cmul, Cadd. cbn. f_equal; ring.
  - rewrite Forall_forall. intros x Hx. apply in_map_iff in Hx.
    destruct Hx as [[a b] [<- Hab]]. pose proof (in_combine_l _ _ _ _ Hab) as Ha.
    pose proof (in_combine_r _ _ _ _ Hab) as Hb.
    apply repeat_spec in Ha, Hb. subst. cbn.
    unfold Cconj, C0, RtoC, Cmul. cbn. f_equal; ring.
Qed.

(** ** Unitarity of some of the [Matrix] constants *)

Ltac unitary_by_cases :=
  let j := fresh "j" in let k := fresh "k" in
  intros j k Hj Hk;
  repeat (destruct j as [|j]; [| try lia]); try lia;
  repeat (destruct k as [|k]; [| try lia]); try lia;
  cbv [seq map Csum fold_right mget nth Nat.eqb];
  unfold Cconj, Cmul, Cadd, Copp, Ci, C1, C0, RtoC; cbn [fst snd];
  apply injective_projections; cbn [fst snd]; ring.

Lemma unitary_X : unitary 2 Matrix.X.
Proof. unfold Matrix.X. unitary_by_cases. Qed.

Lemma unitary_CX : unitary 4 Matrix.CX.
Proof. unfold Matrix.CX. unitary_by_cases. Qed.

Lemma unitary_H : unitary 2 Matrix.H.
Proof.
  intros j k Hj Hk. unfold Matrix.H, Matrix.inv_sqrt2.
  destruct j as [|[|j]]; try lia; destruct k as [|[|k]]; try lia;
    cbv [seq map Csum fold_right mget nth Nat.eqb];
    unfold Cconj, Cmul, Cadd, Copp, Ci, C1, C0, RtoC; cbn [fst snd];
    apply injective_projections; cbn [fst snd]; ring_simplify;
    try (rewrite ?Rmult_assoc; fold (Rsqr (1 / sqrt 2)));
    pose proof inv_sqrt2_sq as E; try nra.
Qed.

(** ** Unitary gates keep inner products and norms *)

Local Open Scope Z_scope.

(** X15. [apply_gate_1] with a unitary (2,2) matrix keeps inner products:
    applied to two arrays of [2^n] amplitudes at a qubit [0 <= A < n], it
    returns arrays whose inner product [np.vdot] is that of the arguments;
    in particular the norm of a state is kept. *)
Theorem apply_gate_1_unitary (u v w2 : vec) (U : matrix) (A n : Z) :
  0 <= A < n -> zlen u = 2 ^ n -> zlen v = 2 ^ n -> zlen w2 = 2 ^ n ->
  has_shape U 2 2 = true -> unitary 2 U ->
  exists u' v',
    apply_gate_1_array u w2 U A = Ok u' /\ apply_gate_1_array v w2 U A = Ok v'
    /\ inner u' v' = inner u v /\ inner u' u' = inner u u.
Proof.
  intros HA Hu Hv Hw2 HS HU.
  destruct (Gate_U1_ok U HS) as (g & _ & EU & EN & Ecopy).
  set (kg := ((0, [A]), g) : coord * Gate).
  assert (Hs : simulable n kg).
  { unfold simulable, kg. cbn [fst snd]. rewrite EN. split; [exact Ecopy|].
    split; [now left|]. split; [reflexivity|].
    split; [repeat constructor; lia | constructor; [intros [] | constructor]]. }
  assert (Hg : unitary_gate kg).
  { unfold unitary_gate, kg. cbn [fst snd]. rewrite EN, EU. exact HU. }
  exists (gate_apply n u kg), (gate_apply n v kg).
  pose proof (apply_gate_1_array_ok n u w2 kg A ltac:(lia) Hu Hw2 eq_refl HA) as E1.
  pose proof (apply_gate_1_array_ok n v w2 kg A ltac:(lia) Hv Hw2 eq_refl HA) as E2.
  cbn [kg fst snd] in E1, E2. rewrite EU in E1, E2.
  split; [exact (E1 HS)|]. split; [exact (E2 HS)|].
  split; apply gate_apply_isometry; auto; lia.
Qed.

Lemma apply_gate_1_unitary_witness :
  exists u' v',
    apply_gate_1_array [C1; C0; C0; C0] [C0; C0; C0; C0] Matrix.X 1 = Ok u'
    /\ apply_gate_1_array [C0; C0; C0; C1] [C0; C0; C0; C0] Matrix.X 1 = Ok v'
    /\ inner u' v' = inner [C1; C0; C0; C0] [C0; C0; C0; C1]
    /\ inner u' u' = inner [C1; C0; C0; C0] [C1; C0; C0; C0].
Proof.
  apply (apply_gate_1_unitary [C1; C0; C0; C0] [C0; C0; C0; C1] [C0; C0; C0; C0]
           Matrix.X 1 2); try reflexivity; [lia | exact unitary_X].
Defined.

(** X16. [apply_gate_2] with a unitary (4,4) matrix keeps inner products,
    for two different qubits [0 <= A, B < n] in either order. *)
Theorem apply_gate_2_unitary (u v w2 : vec) (U : matrix) (A B n : Z) :
  0 <= A < n -> 0 <= B < n -> A <> B ->
  zlen u = 2 ^ n -> zlen v = 2 ^ n -> zlen w2 = 2 ^ n ->
  has_shape U 4 4 = true -> unitary 4 U ->
  exists u' v',
    apply_gate_2_array u w2 U A B = Ok u' /\ apply_gate_2_array v w2 U A B = Ok v'
    /\ inner u' v' = inner u v /\ inner u' u' = inner u u.
Proof.
  intros HA HB HAB Hu Hv Hw2 HS HU.
  destruct (Gate_U2_ok U HS) as (g & _ & EU & EN & Ecopy).
  set (kg := ((0, [A; B]), g) : coord * Gate).
  assert (Hs : simulable n kg).
  { unfold simulable, kg. cbn [fst snd]. rewrite EN. split; [exact Ecopy|].
    split; [now right|]. split; [reflexivity|].
    split; [repeat constructor; lia|].
    constructor; [cbn; intros [E | []]; now apply HAB | constructor; [intros []|constructor]]. }
  assert (Hg : unitary_gate kg).
  { unfold unitary_gate, kg. cbn [fst snd]. rewrite EN, EU. exact HU. }
  exists (gate_apply n u kg), (gate_apply n v kg).
  pose proof (apply_gate_2_array_ok n u w2 kg A B ltac:(lia) Hu Hw2 eq_refl HA HB HAB) as E1.
  pose proof (apply_gate_2_array_ok n v w2 kg A B ltac:(lia) Hv Hw2 eq_refl HA HB HAB) as E2.
  cbn [kg fst snd] in E1, E2. rewrite EU in E1, E2.
  split; [exact (E1 HS)|]. split; [exact (E2 HS)|].
  split; apply gate_apply_isometry; auto; lia.
Qed.

Lemma apply_gate_2_unitary_witness :
  exists u' v',
    apply_gate_2_array [C1; C0; C0; C0] [C0; C0; C0; C0] Matrix.CX 1 0 = Ok u'
    /\ apply_gate_2_array [C0; C0; C0; C1] [C0; C0; C0; C0] Matrix.CX 1 0 = Ok v'
    /\ inner u' v' = inner [C1; C0; C0; C0] [C0; C0; C0; C1]
    /\ inner u' u' = inner [C1; C0; C0; C0] [C1; C0; C0; C0].
Proof.
  apply (apply_gate_2_unitary [C1; C0; C0; C0] [C0; C0; C0; C1] [C0; C0; C0; C0]
           Matrix.CX 1 0 2); try reflexivity; try lia. exact unitary_CX.
Defined.

(** X17. [simulate] keeps the norm: on a circuit built by [add_gate] whose
    gates are valid 1- and 2-body gates with unitary matrices on distinct
    qubits [0 <= A < N], the returned state has the squared norm
    [np.vdot(w, w)] of the initial state, which is 1 for the default
    initial state. *)
Theorem simulate_keeps_norm (c : Circuit) (wfn : option ref) (h : store) (w0 : vec) :
  reachable c -> Forall (simulable (cN c)) (gates c) -> Forall unitary_gate (gates c) ->
  initial_state c wfn h w0 -> gates c <> [] ->
  exists h' r w,
    simulate c wfn h = (h', Ok (Some r)) /\ nth_error h' r = Some w
    /\ inner w w = inner w0 w0
    /\ (wfn = None -> inner w w = C1).
Proof.
  intros Hr Hs HU Hi Hne. pose proof (reachable_inv c Hr) as Hc.
  pose proof (inv_N c Hc) as HN.
  destruct (simulate_result c wfn h w0 Hc Hs Hi) as (h' & res & E & _ & H).
  destruct H as [[H _] | [_ (r & -> & Hst)]]; [contradiction|].
  assert (Hw0 : zlen w0 = 2 ^ cN c).
  { destruct wfn as [r0|]; cbn in Hi; [apply Hi|]. subst w0. apply zero_state_length. lia. }
  assert (Hn : inner (run_gates (cN c) (schedule c) w0) (run_gates (cN c) (schedule c) w0)
               = inner w0 w0).
  { apply run_gates_isometry; auto; try lia.
    - now apply schedule_simulable.
    - rewrite Forall_forall in *. intros x Hx. apply HU.
      eapply Permutation_in; [apply schedule_perm; exact Hc | exact Hx]. }
  exists h', r, (run_gates (cN c) (schedule c) w0).
  split; [exact E|]. split; [exact Hst|]. split; [exact Hn|].
  intros ->. rewrite Hn. cbn in Hi. subst w0. apply inner_zero_state. lia.
Qed.

Lemma simulate_keeps_norm_witness :
  exists h' r w,
    simulate (circuit_H0 2) None [] = (h', Ok (Some r)) /\ nth_error h' r = Some w
    /\ inner w w = inner (zero_state 2) (zero_state 2)
    /\ (@None ref = None -> inner w w = C1).
Proof.
  apply (simulate_keeps_norm (circuit_H0 2) None [] (zero_state 2)).
  - apply circuit_H0_reachable. lia.
  - constructor; [apply simulable_H0; cbn; lia | constructor].
  - constructor; [exact unitary_H | constructor].
  - reflexivity.
  - discriminate.
Defined.

(** ** The one-qubit density matrix *)

Local Open Scope Z_scope.

Lemma compute_1pdm_run (N A : Z) (w1 w2 : vec) :
  0 <= A < N -> zlen w1 = 2 ^ N -> zlen w2 = 2 ^ N ->
  compute_1pdm w1 w2 A
  = Ok (einsum_LiR_LjR (2 ^ Z.to_nat A) (2 ^ (Z.to_nat N - Z.to_nat A - 1)) w1 w2).
Proof.
  intros HA H1 H2. unfold compute_1pdm.
  rewrite (infer_N_pow2 w1 N) by (assumption || lia).
  rewrite (shape_pow2_true w1 N), (shape_pow2_true w2 N) by (assumption || lia).
  destruct (Z.geb_spec A N); [lia|]. destruct (Z.ltb_spec A 0); [lia|]. cbn [negb].
  rewrite !to_nat_pow2 by lia.
  replace (Z.to_nat (N - A - 1)) with (Z.to_nat N - Z.to_nat A - 1)%nat by lia.
  reflexivity.
Qed.

Lemma pdm_entry2 (L R : nat) (w1 w2 : vec) (i j : nat) :
  (i < 2)%nat -> (j < 2)%nat ->
  mget (einsum_LiR_LjR L R w1 w2) i j
  = Csum2 L R (fun l r =>
      (Cconj (nth ((l * 2 + i) * R + r) w1 C0) * nth ((l * 2 + j) * R + r) w2 C0)%C).
Proof. intros Hi Hj. rewrite pdm_entry by assumption. apply Csum2_flat. Qed.

Lemma pdm_shape (L R : nat) (w1 w2 : vec) : has_shape (einsum_LiR_LjR L R w1 w2) 2 2 = true.
Proof. reflexivity. Qed.

Lemma pdm_transpose (L R : nat) (w1 w2 : vec) (i j : nat) :
  (i < 2)%nat -> (j < 2)%nat ->
  mget (einsum_LiR_LjR L R w2 w1) j i = Cconj (mget (einsum_LiR_LjR L R w1 w2) i j).
Proof.
  intros Hi Hj. rewrite !pdm_entry2 by assumption. rewrite Cconj_Csum2.
  apply Csum2_ext. intros l r _ _. rewrite Cconj_mul, Cconj_invol. ring.
Qed.

Lemma pdm_trace (L R : nat) (w1 w2 : vec) :
  length w1 = (L * (2 * R))%nat -> length w2 = (L * (2 * R))%nat ->
  (mget (einsum_LiR_LjR L R w1 w2) 0 0 + mget (einsum_LiR_LjR L R w1 w2) 1 1)%C
  = inner w1 w2.
Proof.
  intros H1 H2. rewrite !pdm_entry2 by lia. rewrite <- Csum2_add.
  now rewrite (inner_blocks1 L R w1 w2 H1 H2).
Qed.

(** [<w|U_A w>] in terms of the density matrix at qubit [A]. *)
Lemma inner_einsum1 (L R : nat) (w : vec) (U : matrix) :
  length w = (L * (2 * R))%nat ->
  inner w (einsum_LjR_ij L R w U)
  = (mget U 0 0 * mget (einsum_LiR_LjR L R w w) 0 0
     + mget U 0 1 * mget (einsum_LiR_LjR L R w w) 0 1
     + mget U 1 0 * mget (einsum_LiR_LjR L R w w) 1 0
     + mget U 1 1 * mget (einsum_LiR_LjR L R w w) 1 1)%C.
Proof.
  intros Hw.
  rewrite (inner_blocks1 L R w (einsum_LjR_ij L R w U) Hw) by apply einsum_LjR_ij_length.
  rewrite !pdm_entry2 by lia. rewrite <- !Csum2_scale, <- !Csum2_add.
  apply Csum2_ext. intros l r Hl Hr. rewrite !einsum_LjR_ij_nth by lia.
  unfold bits2. cbn [map]. cbv [Csum fold_right]. ring.
Qed.

(** X18. [compute_1pdm] on two arrays of [2^N] amplitudes and a qubit
    [0 <= A < N] returns a (2,2) matrix whose trace is the inner product
    [np.vdot(wfn1, wfn2)]; exchanging the two arrays gives the conjugate
    transpose, so that the matrix of a single state is Hermitian. *)
Theorem compute_1pdm_conjugate_transpose (w1 w2 : vec) (A N : Z) :
  0 <= A < N -> zlen w1 = 2 ^ N -> zlen w2 = 2 ^ N ->
  exists D D',
    compute_1pdm w1 w2 A = Ok D /\ compute_1pdm w2 w1 A = Ok D'
    /\ has_shape D 2 2 = true
    /\ (forall i j, (i < 2)%nat -> (j < 2)%nat -> mget D' j i = Cconj (mget D i j))
    /\ (mget D 0 0 + mget D 1 1)%C = inner w1 w2
    /\ (w1 = w2 -> forall i j, (i < 2)%nat -> (j < 2)%nat -> mget D j i = Cconj (mget D i j)).
Proof.
  intros HA H1 H2.
  exists (einsum_LiR_LjR (2 ^ Z.to_nat A) (2 ^ (Z.to_nat N - Z.to_nat A - 1)) w1 w2),
         (einsum_LiR_LjR (2 ^ Z.to_nat A) (2 ^ (Z.to_nat N - Z.to_nat A - 1)) w2 w1).
  split; [now apply compute_1pdm_run|]. split; [now apply compute_1pdm_run|].
  split; [apply pdm_shape|]. split; [intros i j; apply pdm_transpose|].
  split.
  - apply pdm_trace; rewrite pow2_split1 by lia; apply zlen_pow2; auto; lia.
  - intros ->. intros i j. apply pdm_transpose.
Qed.

Lemma compute_1pdm_conjugate_transpose_witness :
  exists D D',
    compute_1pdm [C1; C0; C0; C0] [C0; Ci; C0; C0] 1 = Ok D
    /\ compute_1pdm [C0; Ci; C0; C0] [C1; C0; C0; C0] 1 = Ok D'
    /\ has_shape D 2 2 = true
    /\ (forall i j, (i < 2)%nat -> (j < 2)%nat -> mget D' j i = Cconj (mget D i j))
    /\ (mget D 0 0 + mget D 1 1)%C = inner [C1; C0; C0; C0] [C0; Ci; C0; C0]
    /\ ([C1; C0; C0; C0] = [C0; Ci; C0; C0] ->
        forall i j, (i < 2)%nat -> (j < 2)%nat -> mget D j i = Cconj (mget D i j)).
Proof.
  apply (compute_1pdm_conjugate_transpose [C1; C0; C0; C0] [C0; Ci; C0; C0] 1 2);
    try reflexivity. lia.
Defined.

(** X19. The entries [I], [X] and [Z] that [compute_pauli_1] returns for an
    array of [2^N] amplitudes and a qubit [0 <= A < N] are the real parts of
    [<wfn|P_A wfn>], where [P_A wfn] is what [apply_gate_1] writes for
    [Matrix.I], [Matrix.X] and [Matrix.Z]; the entry [Y] is the real part of
    [<wfn|Y_A wfn>] for [Matrix.Y] with the opposite sign. *)
Theorem compute_pauli_1_expectation (w w2 : vec) (A N : Z) :
  0 <= A < N -> zlen w = 2 ^ N -> zlen w2 = 2 ^ N ->
  exists vI vX vY vZ,
    apply_gate_1_array w w2 Matrix.I A = Ok vI
    /\ apply_gate_1_array w w2 Matrix.X A = Ok vX
    /\ apply_gate_1_array w w2 Matrix.Y A = Ok vY
    /\ apply_gate_1_array w w2 Matrix.Z A = Ok vZ
    /\ compute_pauli_1 w A
       = Ok [Cre (inner w vI); Cre (inner w vX); (- Cre (inner w vY))%R; Cre (inner w vZ)].
Proof.
  intros HA Hw Hw2.
  assert (Hrun : forall U, has_shape U 2 2 = true ->
            apply_gate_1_array w w2 U A
            = Ok (einsum_LjR_ij (2 ^ Z.to_nat A) (2 ^ (Z.to_nat N - Z.to_nat A - 1)) w U)).
  { intros U HU. unfold apply_gate_1_array.
    rewrite (infer_N_pow2 w N) by (assumption || lia). rewrite HU.
    rewrite (shape_pow2_true w N), (shape_pow2_true w2 N) by (assumption || lia).
    destruct (Z.geb_spec A N); [lia|]. destruct (Z.ltb_spec A 0); [lia|]. cbn [negb].
    rewrite !to_nat_pow2 by lia.
    replace (Z.to_nat (N - A - 1)) with (Z.to_nat N - Z.to_nat A - 1)%nat by lia.
    reflexivity. }
  assert (Hlen : length w = (2 ^ Z.to_nat A * (2 * 2 ^ (Z.to_nat N - Z.to_nat A - 1)))%nat).
  { rewrite pow2_split1 by lia. apply zlen_pow2; auto; lia. }
  do 4 eexists. repeat (split; [apply Hrun; reflexivity|]).
  unfold compute_pauli_1. rewrite (compute_1pdm_run N A) by assumption. cbn [bind].
  rewrite !inner_einsum1 by exact Hlen.
  set (D := einsum_LiR_LjR _ _ w w).
  generalize (mget D 0 0) (mget D 0 1) (mget D 1 0) (mget D 1 1).
  intros [a00 b00] [a01 b01] [a10 b10] [a11 b11].
  cbv [Matrix.I Matrix.X Matrix.Y Matrix.Z mget nth].
  unfold Csub, Cre, Cim, Cadd, Cmul, Copp, Ci, C1, C0, RtoC. cbn [fst snd].
  f_equal. repeat (apply (f_equal2 cons); [ring|]). reflexivity.
Qed.

Lemma compute_pauli_1_expectation_witness :
  exists vI vX vY vZ,
    apply_gate_1_array [C1; C0; C0; C0] [C0; C0; C0; C0] Matrix.I 1 = Ok vI
    /\ apply_gate_1_array [C1; C0; C0; C0] [C0; C0; C0; C0] Matrix.X 1 = Ok vX
    /\ apply_gate_1_array [C1; C0; C0; C0] [C0; C0; C0; C0] Matrix.Y 1 = Ok vY
    /\ apply_gate_1_array [C1; C0; C0; C0] [C0; C0; C0; C0] Matrix.Z 1 = Ok vZ
    /\ compute_pauli_1 [C1; C0; C0; C0] 1
       = Ok [Cre (inner [C1; C0; C0; C0] vI); Cre (inner [C1; C0; C0; C0] vX);
             (- Cre (inner [C1; C0; C0; C0] vY))%R; Cre (inner [C1; C0; C0; C0] vZ)].
Proof.
  apply (compute_pauli_1_expectation [C1; C0; C0; C0] [C0; C0; C0; C0] 1 2);
    try reflexivity. lia.
Defined.

(** X20. On an array of [2^N] amplitudes, [compute_1pdm] raises exactly when
    [A >= N], or [A < 0], or [wfn2] does not have [2^N] entries, and
    [compute_pauli_1] raises exactly when [A >= N] or [A < 0]. *)
Theorem compute_1pdm_fails_exactly (w1 w2 : vec) (A N : Z) :
  0 <= N -> zlen w1 = 2 ^ N ->
  (raises (compute_1pdm w1 w2 A) <-> (A >= N \/ A < 0 \/ zlen w2 <> 2 ^ N))
  /\ (raises (compute_pauli_1 w1 A) <-> (A >= N \/ A < 0)).
Proof.
  intros HN H1.
  assert (Hw2 : forall w, shape_pow2 w N = true <-> zlen w = 2 ^ N).
  { intros w. unfold shape_pow2. destruct (Z.leb_spec 0 N); [|lia]. cbn. apply Z.eqb_eq. }
  assert (Hno : forall (T : Type) (x : T), ~ raises (Ok x)).
  { intros T x [e He]. discriminate. }
  assert (Hyes : forall (T : Type) e, raises (@Raise T e)).
  { intros T e. now exists e. }
  split.
  - unfold compute_1pdm. rewrite (infer_N_pow2 w1 N HN H1), (shape_pow2_true w1 N HN H1).
    cbn [negb].
    destruct (Z.geb_spec A N) as [HA | HA]; [split; [lia | intros _; apply Hyes]|].
    destruct (shape_pow2 w2 N) eqn:E2; cbn [negb].
    2:{ split; [|intros _; apply Hyes]. intros _. right. right. intros E.
        apply Hw2 in E. congruence. }
    apply Hw2 in E2.
    destruct (Z.ltb_spec A 0) as [HA0 | HA0]; [split; [lia | intros _; apply Hyes]|].
    split; [intros H; now apply Hno in H | intros [H | [H | H]]; lia || contradiction].
  - unfold compute_pauli_1, compute_1pdm.
    rewrite (infer_N_pow2 w1 N HN H1), (shape_pow2_true w1 N HN H1). cbn [negb].
    destruct (Z.geb_spec A N) as [HA | HA]; [split; [lia | intros _; apply Hyes]|].
    destruct (Z.ltb_spec A 0) as [HA0 | HA0]; [split; [lia | intros _; apply Hyes]|].
    cbn [bind]. split; [intros H; now apply Hno in H | lia].
Qed.

Lemma compute_1pdm_fails_exactly_witness :
  (raises (compute_1pdm [C1; C0; C0; C0] [C1; C0] 2) <-> (2 >= 2 \/ 2 < 0 \/ zlen [C1; C0] <> 2 ^ 2))
  /\ (raises (compute_pauli_1 [C1; C0; C0; C0] 2) <-> (2 >= 2 \/ 2 < 0)).
Proof.
  apply (compute_1pdm_fails_exactly [C1; C0; C0; C0] [C1; C0] 2 2); [lia | reflexivity].
Defined.

(** ** The two-qubit density matrix *)

Local Open Scope Z_scope.


Lemma Csum3_flat (L M R : nat) (g : nat -> nat -> nat -> C) :
  Csum (flat_map (fun a => flat_map (fun m => map (g a m) (seq 0 R)) (seq 0 M)) (seq 0 L))
  = Csum3 L M R g.
Proof.
  rewrite Csum_flat_map. unfold Csum3. apply Csum_map_ext. intros a _. apply Csum2_flat.
Qed.

Lemma Csum3_add (L M R : nat) (g1 g2 : nat -> nat -> nat -> C) :
  Csum3 L M R (fun l m r => (g1 l m r + g2 l m r)%C) = (Csum3 L M R g1 + Csum3 L M R g2)%C.
Proof.
  unfold Csum3. rewrite <- Csum_map_add. apply Csum_map_ext. intros l _. apply Csum2_add.
Qed.

Lemma Csum3_scale (L M R : nat) (c : C) (g : nat -> nat -> nat -> C) :
  Csum3 L M R (fun l m r => (c * g l m r)%C) = (c * Csum3 L M R g)%C.
Proof.
  unfold Csum3. rewrite <- Csum_map_scale. apply Csum_map_ext. intros l _. apply Csum2_scale.
Qed.

Lemma Cconj_Csum3 (L M R : nat) (g : nat -> nat -> nat -> C) :
  Cconj (Csum3 L M R g) = Csum3 L M R (fun l m r => Cconj (g l m r)).
Proof.
  unfold Csum3. rewrite Cconj_Csum, map_map. apply Csum_map_ext. intros l _.
  apply Cconj_Csum2.
Qed.

Lemma pdm2_entry (L M R : nat) (w1 w2 : vec) (i j k l : nat) :
  (i < 2)%nat -> (j < 2)%nat -> (k < 2)%nat -> (l < 2)%nat ->
  tget (einsum_LiMjR_LkMlR L M R w1 w2) i j k l
  = Csum3 L M R (fun a m r =>
      (Cconj (nth ((((a * 2 + i) * M + m) * 2 + j) * R + r) w1 C0)
       * nth ((((a * 2 + k) * M + m) * 2 + l) * R + r) w2 C0)%C).
Proof.
  intros Hi Hj Hk Hl. rewrite <- Csum3_flat.
  destruct i as [|[|i]], j as [|[|j]], k as [|[|k]], l as [|[|l]]; try lia; reflexivity.
Qed.

Lemma pdm2_transpose (L M R : nat) (w1 w2 : vec) (i j k l : nat) :
  (i < 2)%nat -> (j < 2)%nat -> (k < 2)%nat -> (l < 2)%nat ->
  tget (einsum_LiMjR_LkMlR L M R w2 w1) k l i j
  = Cconj (tget (einsum_LiMjR_LkMlR L M R w1 w2) i j k l).
Proof.
  intros Hi Hj Hk Hl. rewrite !pdm2_entry by assumption. rewrite Cconj_Csum3.
  apply Csum3_ext. intros a m r _ _ _. rewrite Cconj_mul, Cconj_invol. ring.
Qed.

Lemma pdm2_trace (L M R : nat) (w1 w2 : vec) :
  length w1 = (L * (2 * (M * (2 * R))))%nat -> length w2 = (L * (2 * (M * (2 * R))))%nat ->
  (tget (einsum_LiMjR_LkMlR L M R w1 w2) 0 0 0 0
   + tget (einsum_LiMjR_LkMlR L M R w1 w2) 0 1 0 1
   + tget (einsum_LiMjR_LkMlR L M R w1 w2) 1 0 1 0
   + tget (einsum_LiMjR_LkMlR L M R w1 w2) 1 1 1 1)%C
  = inner w1 w2.
Proof.
  intros H1 H2. rewrite !pdm2_entry by lia. rewrite <- !Csum3_add.
  now rewrite (inner_blocks2 L M R w1 w2 H1 H2).
Qed.

(** [<w|T w>] for the contraction of [apply_gate_2], in terms of the pair
    density. *)
Lemma inner_einsum2 (L M R : nat) (w : vec) (T : tensor4) :
  length w = (L * (2 * (M * (2 * R))))%nat ->
  inner w (einsum_LkMlR_ijkl L M R w T)
  = Csum (flat_map (fun i => flat_map (fun j => flat_map (fun k => map (fun l =>
      (tget T i j k l * tget (einsum_LiMjR_LkMlR L M R w w) i j k l)%C)
      bits2) bits2) bits2) bits2).
Proof.
  intros Hw.
  rewrite (inner_blocks2 L M R w (einsum_LkMlR_ijkl L M R w T) Hw)
    by apply einsum_LkMlR_ijkl_length.
  unfold bits2 at 1 2 3 4. cbn [flat_map map app]. cbv [Csum fold_right].
  rewrite !pdm2_entry by lia.
  rewrite <- !Csum3_scale. rewrite Cadd_0_r. rewrite <- !Csum3_add.
  apply Csum3_ext. intros l m r Hl Hm Hr. rewrite !einsum_LkMlR_ijkl_nth by lia.
  unfold bits2. cbn [flat_map map app]. cbv [Csum fold_right]. ring.
Qed.

(** ** Entries of the two-qubit density matrix *)

Local Open Scope Z_scope.

Lemma compute_2pdm_run_lt (N A B : Z) (w1 w2 : vec) :
  0 <= A -> A < B -> B < N -> zlen w1 = 2 ^ N -> zlen w2 = 2 ^ N ->
  compute_2pdm w1 w2 A B
  = Ok (reshape44 (einsum_LiMjR_LkMlR (2 ^ Z.to_nat A) (2 ^ (Z.to_nat B - Z.to_nat A - 1))
                     (2 ^ (Z.to_nat N - Z.to_nat B - 1)) w1 w2)).
Proof.
  intros HA HAB HB H1 H2. unfold compute_2pdm.
  rewrite (infer_N_pow2 w1 N) by (assumption || lia).
  rewrite (shape_pow2_true w1 N), (shape_pow2_true w2 N) by (assumption || lia).
  destruct (Z.geb_spec A N); [lia|]. destruct (Z.geb_spec B N); [lia|].
  destruct (Z.eqb_spec A B); [lia|]. cbn [negb].
  destruct (Z.gtb_spec A B); [lia|]. destruct (Z.ltb_spec A 0); [lia|].
  rewrite !to_nat_pow2 by lia.
  replace (Z.to_nat (B - A - 1)) with (Z.to_nat B - Z.to_nat A - 1)%nat by lia.
  replace (Z.to_nat (N - B - 1)) with (Z.to_nat N - Z.to_nat B - 1)%nat by lia.
  reflexivity.
Qed.

Lemma compute_2pdm_run_gt (N A B : Z) (w1 w2 : vec) :
  0 <= B -> B < A -> A < N -> zlen w1 = 2 ^ N -> zlen w2 = 2 ^ N ->
  compute_2pdm w1 w2 A B
  = Ok (reshape44 (einsum_ijkl_jilk
          (einsum_LiMjR_LkMlR (2 ^ Z.to_nat B) (2 ^ (Z.to_nat A - Z.to_nat B - 1))
             (2 ^ (Z.to_nat N - Z.to_nat A - 1)) w1 w2))).
Proof.
  intros HB HBA HA H1 H2. unfold compute_2pdm.
  rewrite (infer_N_pow2 w1 N) by (assumption || lia).
  rewrite (shape_pow2_true w1 N), (shape_pow2_true w2 N) by (assumption || lia).
  destruct (Z.geb_spec A N); [lia|]. destruct (Z.geb_spec B N); [lia|].
  destruct (Z.eqb_spec A B); [lia|]. cbn [negb].
  destruct (Z.gtb_spec A B); [|lia]. destruct (Z.ltb_spec B 0); [lia|].
  rewrite !to_nat_pow2 by lia.
  replace (Z.to_nat (A - B - 1)) with (Z.to_nat A - Z.to_nat B - 1)%nat by lia.
  replace (Z.to_nat (N - A - 1)) with (Z.to_nat N - Z.to_nat A - 1)%nat by lia.
  reflexivity.
Qed.

(** Entries of a reshaped rank-4 array. *)
Lemma mget_reshape44 (T : tensor4) (i j k l : nat) :
  (i < 2)%nat -> (j < 2)%nat -> (k < 2)%nat -> (l < 2)%nat ->
  mget (reshape44 T) (2 * i + j) (2 * k + l) = tget T i j k l.
Proof.
  intros Hi Hj Hk Hl.
  destruct i as [|[|i]], j as [|[|j]], k as [|[|k]], l as [|[|l]]; try lia; reflexivity.
Qed.

Lemma tget_jilk (T : tensor4) (i j k l : nat) :
  (i < 2)%nat -> (j < 2)%nat -> (k < 2)%nat -> (l < 2)%nat ->
  tget (einsum_ijkl_jilk T) j i l k = tget T i j k l.
Proof.
  intros Hi Hj Hk Hl.
  destruct i as [|[|i]], j as [|[|j]], k as [|[|k]], l as [|[|l]]; try lia; reflexivity.
Qed.

Lemma index4 (a : nat) : (a < 4)%nat -> exists i j, (i < 2)%nat /\ (j < 2)%nat /\ a = (2 * i + j)%nat.
Proof.
  intros H. exists (a / 2)%nat, (a mod 2)%nat.
  pose proof (Nat.div_mod_eq a 2). pose proof (Nat.mod_upper_bound a 2).
  assert (a / 2 < 2)%nat by (apply Nat.Div0.div_lt_upper_bound; lia). lia.
Qed.


Lemma compute_2pdm_entries (N A B : Z) (w1 w2 : vec) :
  0 <= A < N -> 0 <= B < N -> A <> B -> zlen w1 = 2 ^ N -> zlen w2 = 2 ^ N ->
  exists D, compute_2pdm w1 w2 A B = Ok D /\ has_shape D 4 4 = true
    /\ forall i j k l, (i < 2)%nat -> (j < 2)%nat -> (k < 2)%nat -> (l < 2)%nat ->
         mget D (2 * i + j) (2 * k + l) = pdm2_of N A B w1 w2 i j k l.
Proof.
  intros HA HB HAB H1 H2. unfold pdm2_of. destruct (Z.ltb_spec A B).
  - eexists. split; [apply (compute_2pdm_run_lt N); lia || assumption|].
    split; [apply reshape44_shape|]. intros i j k l Hi Hj Hk Hl. now apply mget_reshape44.
  - eexists. split; [apply (compute_2pdm_run_gt N); lia || assumption|].
    split; [apply reshape44_shape|]. intros i j k l Hi Hj Hk Hl.
    rewrite mget_reshape44 by assumption. now apply tget_jilk.
Qed.

Lemma pdm2_of_swap (N A B : Z) (w1 w2 : vec) (i j k l : nat) :
  A <> B -> pdm2_of N B A w1 w2 j i l k = pdm2_of N A B w1 w2 i j k l.
Proof.
  intros HAB. unfold pdm2_of.
  destruct (Z.ltb_spec A B), (Z.ltb_spec B A); try lia; reflexivity.
Qed.

Lemma pdm2_of_transpose (N A B : Z) (w1 w2 : vec) (i j k l : nat) :
  (i < 2)%nat -> (j < 2)%nat -> (k < 2)%nat -> (l < 2)%nat ->
  pdm2_of N A B w2 w1 k l i j = Cconj (pdm2_of N A B w1 w2 i j k l).
Proof.
  intros Hi Hj Hk Hl. unfold pdm2_of. destruct (Z.ltb_spec A B); now apply pdm2_transpose.
Qed.

Lemma pdm2_of_trace (N A B : Z) (w1 w2 : vec) :
  0 <= A < N -> 0 <= B < N -> A <> B -> zlen w1 = 2 ^ N -> zlen w2 = 2 ^ N ->
  (pdm2_of N A B w1 w2 0 0 0 0 + pdm2_of N A B w1 w2 0 1 0 1
   + pdm2_of N A B w1 w2 1 0 1 0 + pdm2_of N A B w1 w2 1 1 1 1)%C = inner w1 w2.
Proof.
  intros HA HB HAB H1 H2. unfold pdm2_of.
  apply zlen_pow2 in H1; [|lia]. apply zlen_pow2 in H2; [|lia].
  destruct (Z.ltb_spec A B).
  - apply pdm2_trace; rewrite pow2_split2 by lia; assumption.
  - rewrite <- (pdm2_trace (2 ^ Z.to_nat B) (2 ^ (Z.to_nat A - Z.to_nat B - 1))
                  (2 ^ (Z.to_nat N - Z.to_nat A - 1)) w1 w2)
      by (rewrite pow2_split2 by lia; assumption).
    ring.
Qed.

(** ** Symmetries of the two-qubit density matrix *)

Local Open Scope Z_scope.

(** X21. [compute_2pdm] on two arrays of [2^N] amplitudes and two different
    qubits [0 <= A, B < N] returns a (4,4) matrix whose trace is the inner
    product [np.vdot(wfn1, wfn2)]; exchanging the two arrays gives the
    conjugate transpose, and exchanging the two qubits exchanges the two
    bits of the row index and of the column index. *)
Theorem compute_2pdm_symmetries (w1 w2 : vec) (A B N : Z) :
  0 <= A < N -> 0 <= B < N -> A <> B -> zlen w1 = 2 ^ N -> zlen w2 = 2 ^ N ->
  exists D D' Ds,
    compute_2pdm w1 w2 A B = Ok D /\ compute_2pdm w2 w1 A B = Ok D'
    /\ compute_2pdm w1 w2 B A = Ok Ds
    /\ has_shape D 4 4 = true
    /\ (forall a b, (a < 4)%nat -> (b < 4)%nat -> mget D' b a = Cconj (mget D a b))
    /\ (mget D 0 0 + mget D 1 1 + mget D 2 2 + mget D 3 3)%C = inner w1 w2
    /\ (forall i j k l, (i < 2)%nat -> (j < 2)%nat -> (k < 2)%nat -> (l < 2)%nat ->
          mget Ds (2 * j + i) (2 * l + k) = mget D (2 * i + j) (2 * k + l)).
Proof.
  intros HA HB HAB H1 H2.
  destruct (compute_2pdm_entries N A B w1 w2 HA HB HAB H1 H2) as (D & E & HS & HD).
  destruct (compute_2pdm_entries N A B w2 w1 HA HB HAB H2 H1) as (D' & E' & _ & HD').
  destruct (compute_2pdm_entries N B A w1 w2 HB HA (not_eq_sym HAB) H1 H2) as (Ds & Es & _ & HDs).
  exists D, D', Ds. repeat (split; [assumption|]). split; [|split].
  - intros a b Ha Hb.
    destruct (index4 a Ha) as (i & j & Hi & Hj & ->).
    destruct (index4 b Hb) as (k & l & Hk & Hl & ->).
    rewrite HD, HD' by assumption. now apply pdm2_of_transpose.
  - rewrite <- (pdm2_of_trace N A B w1 w2 HA HB HAB H1 H2).
    rewrite <- !HD by lia. reflexivity.
  - intros i j k l Hi Hj Hk Hl. rewrite HD, HDs by assumption. now apply pdm2_of_swap.
Qed.

Lemma compute_2pdm_symmetries_witness :
  exists D D' Ds,
    compute_2pdm [C1; C0; C0; C0] [C0; Ci; C0; C0] 1 0 = Ok D
    /\ compute_2pdm [C0; Ci; C0; C0] [C1; C0; C0; C0] 1 0 = Ok D'
    /\ compute_2pdm [C1; C0; C0; C0] [C0; Ci; C0; C0] 0 1 = Ok Ds
    /\ has_shape D 4 4 = true
    /\ (forall a b, (a < 4)%nat -> (b < 4)%nat -> mget D' b a = Cconj (mget D a b))
    /\ (mget D 0 0 + mget D 1 1 + mget D 2 2 + mget D 3 3)%C
       = inner [C1; C0; C0; C0] [C0; Ci; C0; C0]
    /\ (forall i j k l, (i < 2)%nat -> (j < 2)%nat -> (k < 2)%nat -> (l < 2)%nat ->
          mget Ds (2 * j + i) (2 * l + k) = mget D (2 * i + j) (2 * k + l)).
Proof.
  apply (compute_2pdm_symmetries [C1; C0; C0; C0] [C0; Ci; C0; C0] 1 0 2);
    try reflexivity; lia.
Defined.

(** ** Pauli expectation values of two qubits *)

Lemma apply_gate_2_array_run_lt (N A B : Z) (w w2 : vec) (U : matrix) :
  0 <= A -> A < B -> B < N -> zlen w = 2 ^ N -> zlen w2 = 2 ^ N -> has_shape U 4 4 = true ->
  apply_gate_2_array w w2 U A B
  = Ok (einsum_LkMlR_ijkl (2 ^ Z.to_nat A) (2 ^ (Z.to_nat B - Z.to_nat A - 1))
          (2 ^ (Z.to_nat N - Z.to_nat B - 1)) w (reshape2222 U)).
Proof.
  intros HA HAB HB H1 H2 HU. unfold apply_gate_2_array.
  rewrite (infer_N_pow2 w N) by (assumption || lia). rewrite HU.
  rewrite (shape_pow2_true w N), (shape_pow2_true w2 N) by (assumption || lia).
  destruct (Z.geb_spec A N); [lia|]. destruct (Z.geb_spec B N); [lia|].
  destruct (Z.eqb_spec A B); [lia|]. cbn [negb].
  destruct (Z.gtb_spec A B); [lia|]. destruct (Z.ltb_spec A 0); [lia|].
  rewrite !to_nat_pow2 by lia.
  replace (Z.to_nat (B - A - 1)) with (Z.to_nat B - Z.to_nat A - 1)%nat by lia.
  replace (Z.to_nat (N - B - 1)) with (Z.to_nat N - Z.to_nat B - 1)%nat by lia.
  reflexivity.
Qed.

Lemma apply_gate_2_array_run_gt (N A B : Z) (w w2 : vec) (U : matrix) :
  0 <= B -> B < A -> A < N -> zlen w = 2 ^ N -> zlen w2 = 2 ^ N -> has_shape U 4 4 = true ->
  apply_gate_2_array w w2 U A B
  = Ok (einsum_LkMlR_ijkl (2 ^ Z.to_nat B) (2 ^ (Z.to_nat A - Z.to_nat B - 1))
          (2 ^ (Z.to_nat N - Z.to_nat A - 1)) w (einsum_ijkl_jilk (reshape2222 U))).
Proof.
  intros HB HBA HA H1 H2 HU. unfold apply_gate_2_array.
  rewrite (infer_N_pow2 w N) by (assumption || lia). rewrite HU.
  rewrite (shape_pow2_true w N), (shape_pow2_true w2 N) by (assumption || lia).
  destruct (Z.geb_spec A N); [lia|]. destruct (Z.geb_spec B N); [lia|].
  destruct (Z.eqb_spec A B); [lia|]. cbn [negb].
  destruct (Z.gtb_spec A B); [|lia]. destruct (Z.ltb_spec B 0); [lia|].
  rewrite !to_nat_pow2 by lia.
  replace (Z.to_nat (A - B - 1)) with (Z.to_nat A - Z.to_nat B - 1)%nat by lia.
  replace (Z.to_nat (N - A - 1)) with (Z.to_nat N - Z.to_nat A - 1)%nat by lia.
  reflexivity.
Qed.

Ltac fold_reshape44 :=
  repeat match goal with
  | |- context [mget (reshape44 ?T) ?a ?b] =>
      let i := eval cbv in (Nat.div a 2) in
      let j := eval cbv in (Nat.modulo a 2) in
      let k := eval cbv in (Nat.div b 2) in
      let l := eval cbv in (Nat.modulo b 2) in
      change (mget (reshape44 T) a b) with (tget T i j k l)
  end.

Ltac fold_jilk :=
  repeat match goal with
  | |- context [tget (einsum_ijkl_jilk ?T) ?i ?j ?k ?l] =>
      change (tget (einsum_ijkl_jilk T) i j k l) with (tget T j i l k)
  end.

(** [<w|U_AB w>] is the sum of the entries of [U] times those of the pair
    density. *)
Lemma apply2_expectation (N A B : Z) (w w2 : vec) (U : matrix) :
  0 <= A < N -> 0 <= B < N -> A <> B -> zlen w = 2 ^ N -> zlen w2 = 2 ^ N ->
  has_shape U 4 4 = true ->
  exists v D,
    apply_gate_2_array w w2 U A B = Ok v /\ compute_2pdm w w A B = Ok D
    /\ inner w v = sum_times U D.
Proof.
  intros HA HB HAB Hw Hw2 HU.
  assert (Hlen : length w = (2 ^ Z.to_nat N)%nat) by (apply zlen_pow2; auto; lia).
  destruct (Z.lt_ge_cases A B) as [Hlt | Hge].
  - eexists. eexists.
    split; [apply (apply_gate_2_array_run_lt N); lia || assumption|].
    split; [apply (compute_2pdm_run_lt N); lia || assumption|].
    rewrite inner_einsum2 by (rewrite pow2_split2 by lia; assumption).
    generalize (einsum_LiMjR_LkMlR (2 ^ Z.to_nat A) (2 ^ (Z.to_nat B - Z.to_nat A - 1))
                  (2 ^ (Z.to_nat N - Z.to_nat B - 1)) w w).
    intros D2. unfold sum_times, bits2. cbn [seq flat_map map app]. cbv [Csum fold_right].
    fold_reshape44. rewrite !tget_reshape2222 by lia. mget_numerals. ring.
  - eexists. eexists.
    split; [apply (apply_gate_2_array_run_gt N); lia || assumption|].
    split; [apply (compute_2pdm_run_gt N); lia || assumption|].
    rewrite inner_einsum2 by (rewrite pow2_split2 by lia; assumption).
    generalize (einsum_LiMjR_LkMlR (2 ^ Z.to_nat B) (2 ^ (Z.to_nat A - Z.to_nat B - 1))
                  (2 ^ (Z.to_nat N - Z.to_nat A - 1)) w w).
    intros D2. unfold sum_times, bits2. cbn [seq flat_map map app]. cbv [Csum fold_right].
    fold_reshape44. fold_jilk. rewrite !tget_reshape2222 by lia. mget_numerals. ring.
Qed.

Ltac name_entries D :=
  repeat match goal with
  | |- context [mget D ?a ?b] =>
      let x := fresh "d" in set (x := mget D a b); clearbody x; destruct x as [? ?]
  end.

Lemma Cre_add (a b : C) : Cre (a + b) = (Cre a + Cre b)%R.
Proof. reflexivity. Qed.

Lemma Cre_mul (a b : C) : Cre (a * b) = (Cre a * Cre b - Cim a * Cim b)%R.
Proof. reflexivity. Qed.

Lemma pauli2_sign (a b : nat) (D : matrix) :
  (a < 4)%nat -> (b < 4)%nat ->
  Cre (sum_conj_times (kron (nth a Pmats []) (nth b Pmats [])) D)
  = (if xorb (a =? 2)%nat (b =? 2)%nat
     then - Cre (sum_times (kron (nth a Pmats []) (nth b Pmats [])) D)
     else Cre (sum_times (kron (nth a Pmats []) (nth b Pmats [])) D))%R.
Proof.
  intros Ha Hb.
  destruct a as [|[|[|[|a]]]]; try lia; destruct b as [|[|[|[|b]]]]; try lia;
    cbn [Nat.eqb xorb Pmats nth];
    unfold sum_conj_times, sum_times; cbn [seq flat_map map app]; cbv [Csum fold_right];
    name_entries D; rewrite !Cre_add, !Cre_mul;
    cbv [kron Matrix.I Matrix.X Matrix.Y Matrix.Z mget nth flat_map map app];
    cbv [Cre Cim Cconj Cadd Cmul Copp Ci C1 C0 RtoC fst snd]; ring.
Qed.

(** X22. For an array [wfn] of [2^N] amplitudes and two different qubits
    [0 <= A, B < N], the entry of [compute_pauli_2] for the Pauli matrices
    [P] and [Q] is the real part of [np.vdot(wfn, (P x Q)_AB wfn)], where
    [(P x Q)_AB wfn] is what [apply_gate_2] writes for [np.kron(P, Q)], with
    the opposite sign when exactly one of [P] and [Q] is [Matrix.Y]. *)
Theorem compute_pauli_2_expectation (w w2 : vec) (A B N : Z) :
  0 <= A < N -> 0 <= B < N -> A <> B -> zlen w = 2 ^ N -> zlen w2 = 2 ^ N ->
  exists G,
    compute_pauli_2 w A B = Ok G
    /\ forall a b, (a < 4)%nat -> (b < 4)%nat ->
         exists v,
           apply_gate_2_array w w2 (kron (nth a Pmats []) (nth b Pmats [])) A B = Ok v
           /\ nth b (nth a G []) 0%R
              = (if xorb (a =? 2)%nat (b =? 2)%nat
                 then - Cre (inner w v) else Cre (inner w v))%R.
Proof.
  intros HA HB HAB Hw Hw2.
  destruct (compute_2pdm_entries N A B w w HA HB HAB Hw Hw) as (D & E & _ & _).
  unfold compute_pauli_2. rewrite E. cbn [bind]. eexists. split; [reflexivity|].
  intros a b Ha Hb.
  assert (HK : has_shape (kron (nth a Pmats []) (nth b Pmats [])) 4 4 = true).
  { destruct a as [|[|[|[|a]]]]; try lia; destruct b as [|[|[|[|b]]]]; try lia; reflexivity. }
  destruct (apply2_expectation N A B w w2 _ HA HB HAB Hw Hw2 HK) as (v & D1 & Ev & ED & Hin).
  rewrite E in ED. injection ED as <-.
  exists v. split; [exact Ev|]. rewrite Hin, <- pauli2_sign by assumption.
  destruct a as [|[|[|[|a]]]]; try lia; destruct b as [|[|[|[|b]]]]; try lia; reflexivity.
Qed.

Lemma compute_pauli_2_expectation_witness :
  exists G,
    compute_pauli_2 [C1; C0; C0; C0] 1 0 = Ok G
    /\ forall a b, (a < 4)%nat -> (b < 4)%nat ->
         exists v,
           apply_gate_2_array [C1; C0; C0; C0] [C0; C0; C0; C0]
             (kron (nth a Pmats []) (nth b Pmats [])) 1 0 = Ok v
           /\ nth b (nth a G []) 0%R
              = (if xorb (a =? 2)%nat (b =? 2)%nat
                 then - Cre (inner [C1; C0; C0; C0] v)
                 else Cre (inner [C1; C0; C0; C0] v))%R.
Proof.
  apply (compute_pauli_2_expectation [C1; C0; C0; C0] [C0; C0; C0; C0] 1 0 2);
    try reflexivity; lia.
Defined.

(** ** Moving gates to other qubits *)

Local Open Scope Z_scope.


Lemma map_inj_in {A B} (f : A -> B) (l1 l2 : list A) :
  (forall x y, In x l1 -> In y l2 -> f x = f y -> x = y) ->
  map f l1 = map f l2 -> l1 = l2.
Proof.
  revert l2. induction l1 as [|a l1 IH]; intros [|b l2] H E; try discriminate; [reflexivity|].
  cbn in E. injection E as E1 E2. f_equal.
  - apply H; [now left | now left | exact E1].
  - apply IH; [|exact E2]. intros x y Hx Hy. apply H; now right.
Qed.

Lemma requbit_placeable (N N' : Z) (f : Z -> Z) (l : list (coord * Gate)) :
  placeable N l ->
  (forall kg A, In kg l -> In A (snd (fst kg)) -> f A < N') ->
  (forall kg1 kg2 A B, In kg1 l -> In kg2 l -> In A (snd (fst kg1)) -> In B (snd (fst kg2)) ->
     f A = f B -> A = B) ->
  placeable N' (map (requbit f) l).
Proof.
  intros HL Hlt Hinj. pose proof HL as (Hnd & Hok & Hdis). split; [|split].
  - rewrite map_map. apply NoDup_map_inj; [|now apply (placeable_NoDup N)].
    intros x y Hx Hy E. unfold requbit in E. cbn in E. injection E as E1 E2.
    apply (NoDup_fst_inj l x y Hnd Hx Hy).
    destruct x as [[t1 k1] g1], y as [[t2 k2] g2]. cbn in *. f_equal; [exact E1|].
    apply (map_inj_in f); [|exact E2]. intros a b Ha Hb.
    apply (Hinj ((t1, k1), g1) ((t2, k2), g2)); auto.
  - rewrite Forall_forall in *. intros kg Hkg. apply in_map_iff in Hkg.
    destruct Hkg as (kg0 & <- & Hkg0). destruct (Hok kg0 Hkg0) as (H1 & H2 & H3).
    unfold entry_ok, requbit. cbn. split; [exact H1|]. split.
    + unfold zlen in *. now rewrite length_map.
    + rewrite Forall_forall. intros x Hx. apply in_map_iff in Hx.
      destruct Hx as (A & <- & HA). now apply (Hlt kg0).
  - rewrite map_map. apply ForallOrdPairs_map. apply ForallOrdPairs_of_map in Hdis.
    eapply ForallOrdPairs_impl_In; [exact Hdis|].
    intros a b Ha Hb Hab s Hs1 Hs2. apply key_slots_In in Hs1, Hs2.
    unfold requbit in Hs1, Hs2. cbn in Hs1, Hs2.
    destruct Hs1 as [Hs1 Hs1'], Hs2 as [Hs2 Hs2'].
    apply in_map_iff in Hs1', Hs2'.
    destruct Hs1' as (A & EA & HA), Hs2' as (B & EB & HB).
    assert (A = B) by (apply (Hinj a b); auto; congruence). subst B.
    apply (Hab (fst (fst a), A)); apply key_slots_In; cbn; auto. split; [congruence | exact HB].
Qed.

Lemma gates_valid_key (c : Circuit) (kg : coord * Gate) :
  circuit_inv c -> gates_valid c -> In kg (gates c) -> snd (fst kg) <> [].
Proof.
  intros Hc Hv Hin. unfold gates_valid in Hv. rewrite Forall_forall in Hv.
  specialize (Hv kg Hin). apply Gate_copy_valid in Hv. destruct Hv as [Hpos _].
  destruct (inv_gates c Hc) as (_ & Hok & _). rewrite Forall_forall in Hok.
  destruct (Hok kg Hin) as (_ & Hlen & _). intros E. rewrite E in Hlen. cbn in Hlen. lia.
Qed.

(** ** [adjoin] *)

Lemma total_N_acc (cs : list Circuit) (a : Z) :
  fold_left Z.add (map cN cs) a = a + total_N cs.
Proof.
  unfold total_N. revert a. induction cs as [|c cs IH]; intros a; cbn; [lia|].
  rewrite (IH (a + cN c)), (IH (cN c)). lia.
Qed.

Lemma total_N_cons (c : Circuit) (cs : list Circuit) : total_N (c :: cs) = cN c + total_N cs.
Proof. unfold total_N. cbn. apply total_N_acc. Qed.

Lemma total_N_app (cs1 cs2 : list Circuit) : total_N (cs1 ++ cs2) = total_N cs1 + total_N cs2.
Proof.
  induction cs1 as [|c cs1 IH]; [reflexivity|].
  cbn [app]. rewrite !total_N_cons, IH. lia.
Qed.

Lemma total_N_nonneg (cs : list Circuit) : Forall circuit_inv cs -> 0 <= total_N cs.
Proof.
  induction 1 as [|c cs Hc _ IH]; [reflexivity|].
  rewrite total_N_cons. pose proof (inv_N c Hc). lia.
Qed.

(** The qubits of the gates of [adjoin_gates cs Astart]. *)
Lemma adjoin_gates_qubits (cs : list Circuit) (Astart : Z) (e : coord * Gate) (A : Z) :
  Forall circuit_inv cs -> Forall qubits_nonneg cs ->
  In e (adjoin_gates cs Astart) -> In A (snd (fst e)) ->
  Astart <= A < Astart + total_N cs.
Proof.
  intros Hcs. revert Astart. induction Hcs as [|c rest Hc Hrest IH]; intros Astart Hq Hin HA.
  - contradiction.
  - inversion Hq as [|? ? Hqc Hqrest]; subst. rewrite total_N_cons.
    pose proof (total_N_nonneg rest Hrest). pose proof (inv_N c Hc).
    cbn in Hin. apply in_app_or in Hin. destruct Hin as [Hin | Hin].
    + apply in_map_iff in Hin. destruct Hin as (e0 & <- & He0). cbn in HA.
      apply in_map_iff in HA. destruct HA as (x & <- & Hx).
      unfold qubits_nonneg in Hqc. rewrite Forall_forall in Hqc.
      specialize (Hqc e0 He0). rewrite Forall_forall in Hqc. specialize (Hqc x Hx).
      destruct (inv_gates c Hc) as (_ & Hok & _). rewrite Forall_forall in Hok.
      destruct (Hok e0 He0) as (_ & _ & Hlt). rewrite Forall_forall in Hlt.
      specialize (Hlt x Hx). lia.
    + specialize (IH (Astart + cN c) Hqrest Hin HA). lia.
Qed.

Lemma adjoin_gates_key (cs : list Circuit) (Astart : Z) (e : coord * Gate) :
  Forall circuit_inv cs -> Forall gates_valid cs ->
  In e (adjoin_gates cs Astart) -> snd (fst e) <> [].
Proof.
  intros Hcs. revert Astart. induction Hcs as [|c rest Hc Hrest IH]; intros Astart Hv Hin.
  - contradiction.
  - inversion Hv as [|? ? Hvc Hvrest]; subst.
    cbn in Hin. apply in_app_or in Hin. destruct Hin as [Hin | Hin].
    + apply in_map_iff in Hin. destruct Hin as (e0 & <- & H0). cbn.
      pose proof (gates_valid_key c e0 Hc Hvc H0) as Hne.
      destruct (snd (fst e0)); [contradiction | discriminate].
    + now apply (IH (Astart + cN c)).
Qed.

(** Entries on disjoint sets of qubits can share a dictionary. *)
Lemma placeable_app_qubits (N : Z) (l1 l2 : list (coord * Gate)) :
  placeable N l1 -> placeable N l2 ->
  (forall e1, In e1 l1 -> snd (fst e1) <> []) ->
  (forall e1 e2 A B, In e1 l1 -> In e2 l2 -> In A (snd (fst e1)) -> In B (snd (fst e2)) ->
     A <> B) ->
  placeable N (l1 ++ l2).
Proof.
  intros (N1 & O1 & D1) (N2 & O2 & D2) Hne Hdis. split; [|split].
  - rewrite map_app. apply NoDup_app_build; auto.
    intros k H1 H2. apply in_map_iff in H1, H2.
    destruct H1 as (e1 & <- & H1), H2 as (e2 & E & H2).
    specialize (Hne e1 H1). destruct (snd (fst e1)) as [|A key] eqn:Ek; [contradiction|].
    apply (Hdis e1 e2 A A H1 H2); [rewrite Ek; now left | | reflexivity].
    rewrite E, Ek. now left.
  - apply Forall_app. auto.
  - rewrite map_app. apply ForallOrdPairs_app. split; [exact D1|]. split; [exact D2|].
    intros k1 k2 H1 H2 s Hs1 Hs2. apply in_map_iff in H1, H2.
    destruct H1 as (e1 & <- & H1), H2 as (e2 & <- & H2).
    apply key_slots_In in Hs1, Hs2. destruct Hs1 as [_ Hs1], Hs2 as [_ Hs2].
    now apply (Hdis e1 e2 (snd s) (snd s) H1 H2).
Qed.

Lemma adjoin_gates_placeable (N : Z) (cs : list Circuit) (Astart : Z) :
  0 <= Astart -> Astart + total_N cs <= N ->
  Forall circuit_inv cs -> Forall gates_valid cs -> Forall qubits_nonneg cs ->
  placeable N (adjoin_gates cs Astart).
Proof.
  intros HA HN Hcs. revert Astart HA HN.
  induction Hcs as [|c rest Hc Hrest IH]; intros Astart HA HN Hv Hq.
  - repeat split; constructor.
  - inversion Hv as [|? ? Hvc Hvrest]; subst. inversion Hq as [|? ? Hqc Hqrest]; subst.
    rewrite total_N_cons in HN.
    pose proof (total_N_nonneg rest Hrest) as Hrest0. pose proof (inv_N c Hc) as HNc.
    assert (Hc1 : forall e A, In e (map (requbit (fun x => x + Astart)) (gates c)) ->
              In A (snd (fst e)) -> Astart <= A < Astart + cN c).
    { intros e A He HAe.
      pose proof (adjoin_gates_qubits [c] Astart e A) as G.
      cbn [adjoin_gates] in G. rewrite app_nil_r in G.
      rewrite total_N_cons in G. change (total_N []) with 0 in G.
      specialize (G (Forall_cons c Hc (Forall_nil _)) (Forall_cons c Hqc (Forall_nil _))
                    He HAe). lia. }
    cbn [adjoin_gates]. apply placeable_app_qubits.
    + apply (requbit_placeable (cN c)); [apply (inv_gates c Hc) | |].
      * intros kg A Hkg HAk.
        assert (Astart <= A + Astart < Astart + cN c); [|lia].
        apply (Hc1 (requbit (fun x => x + Astart) kg)); [now apply in_map|].
        cbn. apply in_map_iff. now exists A.
      * intros. lia.
    + apply IH; auto; lia.
    + intros e He.
      apply (adjoin_gates_key [c] Astart e (Forall_cons c Hc (Forall_nil _))
               (Forall_cons c Hvc (Forall_nil _))).
      cbn [adjoin_gates]. now rewrite app_nil_r.
    + intros e1 e2 A B H1 H2 HA1 HB2.
      pose proof (Hc1 e1 A H1 HA1).
      pose proof (adjoin_gates_qubits rest (Astart + cN c) e2 B Hrest Hqrest H2 HB2). lia.
Qed.

Lemma adjoin_loop (cp : bool) (cs : list Circuit) (circuit : Circuit) (Astart : Z) :
  circuit_inv circuit ->
  (cp = true -> Forall gates_valid cs) ->
  placeable (cN circuit) (gates circuit ++ adjoin_gates cs Astart) ->
  exists c', foldM (adjoin_circuit cp) cs (circuit, Astart) = Ok (c', Astart + total_N cs)
    /\ gates c' = gates circuit ++ adjoin_gates cs Astart
    /\ cN c' = cN circuit /\ circuit_inv c' /\ (reachable circuit -> reachable c').
Proof.
  revert circuit Astart. induction cs as [|c rest IH]; intros circuit Astart Hinv Hv Hp.
  - exists circuit. cbn. rewrite app_nil_r. change (total_N []) with 0.
    rewrite Z.add_0_r. auto.
  - cbn [foldM adjoin_circuit adjoin_gates] in *.
    rewrite foldM_ext with (g := fun s x => add_entry s (requbit (fun x => x + Astart) x)).
    2:{ intros s [[T key2] g] Hin. unfold adjoin_gate. destruct cp; [|reflexivity].
        specialize (Hv eq_refl). inversion Hv as [|? ? Hvc _]; subst.
        unfold gates_valid in Hvc. rewrite Forall_forall in Hvc. specialize (Hvc _ Hin).
        cbn in Hvc. rewrite Hvc. reflexivity. }
    rewrite foldM_map. rewrite app_assoc in Hp.
    destruct (place_all (map (requbit (fun x => x + Astart)) (gates c)) circuit Hinv)
      as (c1 & E1 & G1 & N1 & I1 & R1).
    { now apply placeable_app_l in Hp. }
    rewrite E1. cbn [bind].
    destruct (IH c1 (Astart + cN c) I1) as (c' & E' & G' & N' & I' & R').
    { intros Hcp. specialize (Hv Hcp). now inversion Hv. }
    { rewrite N1, G1. exact Hp. }
    exists c'. split; [rewrite E', total_N_cons; f_equal; f_equal; lia|].
    split; [now rewrite G', G1, app_assoc|].
    split; [congruence|]. split; [exact I' | auto].
Qed.

(** What [adjoin] returns. *)
Lemma adjoin_spec (cs : list Circuit) (cp : bool) :
  cs <> [] -> Forall reachable cs -> Forall gates_valid cs -> Forall qubits_nonneg cs ->
  exists c', adjoin cs cp = Ok c' /\ cN c' = total_N cs
    /\ gates c' = adjoin_gates cs 0 /\ reachable c'.
Proof.
  intros Hne Hr Hv Hq.
  assert (Hinv : Forall circuit_inv cs).
  { eapply Forall_impl; [|exact Hr]. apply reachable_inv. }
  assert (HN0 : 0 < total_N cs).
  { destruct cs as [|c rest]; [contradiction|]. rewrite total_N_cons.
    inversion Hinv as [|? ? Hc Hrest]; subst.
    pose proof (inv_N c Hc). pose proof (total_N_nonneg rest Hrest). lia. }
  unfold adjoin.
  set (c00 := mkCircuit (total_N cs) [] [] []).
  assert (Hinit : Circuit_init (total_N cs) = Ok c00).
  { unfold Circuit_init. destruct (Z.leb_spec (total_N cs) 0); [lia | reflexivity]. }
  rewrite Hinit. cbn [bind].
  destruct (adjoin_loop cp cs c00 0) as (c' & E' & G' & N' & I' & R').
  - now apply (Circuit_init_inv (total_N cs)).
  - intros _. exact Hv.
  - cbn [gates c00 app cN]. apply adjoin_gates_placeable; auto; lia.
  - rewrite E'. cbn [bind fst]. exists c'. split; [reflexivity|]. split; [exact N'|].
    split; [exact G'|]. apply R'. now apply (reach_init (total_N cs)).
Qed.

(** ** [deadjoin] *)

Local Open Scope Z_scope.

Lemma Tmap_get_In (l : list Z) (i T : Z) :
  In T l ->
  exists k, Tmap_get l i T = Ok (i + Z.of_nat k) /\ (k < length l)%nat /\ nth k l 0 = T.
Proof.
  revert i. induction l as [|x l IH]; intros i Hin; [contradiction|].
  cbn [Tmap_get]. destruct (in_dec Z.eq_dec T l) as [Hl | Hl].
  - destruct (IH (i + 1) Hl) as (k & E & Hk & En). rewrite E.
    exists (S k). split; [f_equal; lia|]. split; [cbn; lia | exact En].
  - rewrite (Tmap_get_absent l (i + 1) T Hl).
    destruct Hin as [-> | Hin]; [|contradiction]. rewrite Z.eqb_refl.
    exists 0%nat. split; [f_equal; lia|]. split; [cbn; lia | reflexivity].
Qed.

Lemma rank_in_In (l : list Z) (T : Z) :
  In T l ->
  0 <= rank_in l T < zlen l /\ nth (Z.to_nat (rank_in l T)) l 0 = T
  /\ Tmap_get l 0 T = Ok (rank_in l T).
Proof.
  intros Hin. unfold rank_in. destruct (Tmap_get_In l 0 T Hin) as (k & E & Hk & En).
  rewrite E. cbn. unfold zlen. rewrite Nat2Z.id. split; [lia|]. split; [exact En | reflexivity].
Qed.

Lemma rank_in_inj (l : list Z) (A B : Z) :
  In A l -> In B l -> rank_in l A = rank_in l B -> A = B.
Proof.
  intros HA HB E. destruct (rank_in_In l A HA) as (_ & EA & _).
  destruct (rank_in_In l B HB) as (_ & EB & _). rewrite E in EA. congruence.
Qed.

Lemma in_keys_spec (keys : list Z) (kg : coord * Gate) :
  in_keys keys kg = true <-> forall x, In x (snd (fst kg)) -> In x keys.
Proof.
  unfold in_keys. rewrite forallb_forall. split; intros H x Hx.
  - apply existsb_eqb_In. now apply H.
  - apply existsb_eqb_In. now apply H.
Qed.

(** What [deadjoin] returns. *)
Lemma deadjoin_spec (self : Circuit) (keys : list Z) (cp : bool) :
  reachable self -> keys <> [] -> Forall (fun A => A < cN self) keys ->
  (cp = true -> gates_valid self) ->
  exists c', deadjoin self keys cp = Ok c' /\ cN c' = zlen keys
    /\ gates c' = map (requbit (rank_in keys)) (filter (in_keys keys) (gates self))
    /\ reachable c'.
Proof.
  intros Hr Hne Hlt Hv. pose proof (reachable_inv self Hr) as Hc.
  unfold deadjoin.
  assert (E : existsb (fun Aref => Aref >=? cN self) keys = false).
  { destruct (existsb _ keys) eqn:E; [|reflexivity]. exfalso.
    apply existsb_exists in E. destruct E as (x & Hx & Hge).
    rewrite Forall_forall in Hlt. specialize (Hlt x Hx).
    destruct (Z.geb_spec x (cN self)); [lia | discriminate]. }
  rewrite E.
  assert (Hlen : 0 < zlen keys).
  { destruct keys; [contradiction|]. unfold zlen. cbn [length]. lia. }
  set (c00 := mkCircuit (zlen keys) [] [] []).
  assert (Hinit : Circuit_init (zlen keys) = Ok c00).
  { unfold Circuit_init. destruct (Z.leb_spec (zlen keys) 0); [lia | reflexivity]. }
  rewrite Hinit. cbn [bind].
  rewrite (foldM_filter_map _ (in_keys keys) (requbit (rank_in keys))).
  2:{ intros s [[T key2] g] Hin.
      pose proof (in_keys_spec keys ((T, key2), g)) as Hk.
      unfold in_keys in *. cbn [fst snd] in *.
      destruct (forallb (fun x => existsb (Z.eqb x) keys) key2) eqn:Ek; [|reflexivity].
      rewrite (mapM_ok _ (rank_in keys)).
      2:{ intros x Hx. apply rank_in_In. now apply (proj1 Hk eq_refl). }
      cbn [bind]. unfold add_entry, requbit. cbn [fst snd].
      destruct cp; [|reflexivity].
      specialize (Hv eq_refl). unfold gates_valid in Hv. rewrite Forall_forall in Hv.
      specialize (Hv _ Hin). cbn in Hv. rewrite Hv. reflexivity. }
  destruct (place_all (map (requbit (rank_in keys)) (filter (in_keys keys) (gates self))) c00)
    as (c' & E' & G' & N' & I' & R').
  - now apply (Circuit_init_inv (zlen keys)).
  - cbn [gates c00 app cN]. apply (requbit_placeable (cN self)).
    + apply placeable_filter. apply (inv_gates self Hc).
    + intros kg A Hkg HA. apply filter_In in Hkg. destruct Hkg as [_ Hk].
      apply (rank_in_In keys A). now apply (proj1 (in_keys_spec keys kg) Hk).
    + intros kg1 kg2 A B H1 H2 HA HB. apply filter_In in H1, H2.
      destruct H1 as [_ H1], H2 as [_ H2]. apply rank_in_inj.
      * now apply (proj1 (in_keys_spec keys kg1) H1).
      * now apply (proj1 (in_keys_spec keys kg2) H2).
  - exists c'. split; [exact E'|]. split; [exact N'|]. split; [exact G'|].
    apply R'. now apply (reach_init (zlen keys)).
Qed.

(** ** [deadjoin] after [adjoin] *)

Lemma adjoin_gates_app (cs1 cs2 : list Circuit) (Astart : Z) :
  adjoin_gates (cs1 ++ cs2) Astart
  = adjoin_gates cs1 Astart ++ adjoin_gates cs2 (Astart + total_N cs1).
Proof.
  revert Astart. induction cs1 as [|c cs1 IH]; intros Astart.
  - cbn. change (total_N []) with 0. now rewrite Z.add_0_r.
  - cbn [app adjoin_gates]. rewrite IH, total_N_cons, <- app_assoc.
    do 3 f_equal. lia.
Qed.

Lemma filter_none {A} (p : A -> bool) (l : list A) :
  (forall x, In x l -> p x = false) -> filter p l = [].
Proof.
  induction l as [|a l IH]; intros H; cbn; [reflexivity|].
  rewrite H by now left. apply IH. intros. apply H. now right.
Qed.

Lemma filter_all {A} (p : A -> bool) (l : list A) :
  (forall x, In x l -> p x = true) -> filter p l = l.
Proof.
  induction l as [|a l IH]; intros H; cbn; [reflexivity|].
  rewrite H by now left. f_equal. apply IH. intros. apply H. now right.
Qed.

Lemma range2_length (a b : Z) : zlen (range2 a b) = Z.max 0 (b - a).
Proof. unfold zlen, range2. rewrite length_map, length_seq. lia. Qed.

Lemma range2_nth (a b : Z) (k : nat) :
  (Z.of_nat k < b - a) -> nth k (range2 a b) 0 = a + Z.of_nat k.
Proof.
  intros Hk. unfold range2.
  rewrite (nth_indep _ 0 (a + Z.of_nat 0)) by (rewrite length_map, length_seq; lia).
  rewrite (map_nth (fun i => a + Z.of_nat i)), seq_nth by lia. reflexivity.
Qed.

Lemma rank_in_range2 (a n x : Z) :
  0 <= x < n -> rank_in (range2 a (a + n)) (x + a) = x.
Proof.
  intros Hx.
  destruct (rank_in_In (range2 a (a + n)) (x + a)) as (Hr & En & _).
  { apply range2_In. lia. }
  rewrite range2_length in Hr. rewrite range2_nth in En by lia. lia.
Qed.

Lemma adjoin_gates_valid (cs : list Circuit) (Astart : Z) :
  Forall gates_valid cs ->
  Forall (fun kg => Gate_copy (snd kg) = Ok (snd kg)) (adjoin_gates cs Astart).
Proof.
  intros Hv. revert Astart. induction Hv as [|c rest Hc _ IH]; intros Astart; cbn.
  - constructor.
  - apply Forall_app. split; [|apply IH].
    unfold gates_valid in Hc. rewrite Forall_forall in *. intros x Hx.
    apply in_map_iff in Hx. destruct Hx as (e & <- & He). cbn. now apply Hc.
Qed.

(** X25. [deadjoin] undoes [adjoin]: for circuits built by [add_gate] whose
    gates pass the constructor's checks and sit on qubits [A >= 0], taking
    from the adjoined circuit the qubits of one of the circuits, in order,
    gives a circuit with the qubits and the gates dictionary of that
    circuit. *)
Theorem deadjoin_of_adjoin (pre post : list Circuit) (c : Circuit) (cp : bool) :
  Forall reachable (pre ++ c :: post) -> Forall gates_valid (pre ++ c :: post) ->
  Forall qubits_nonneg (pre ++ c :: post) ->
  exists big c',
    adjoin (pre ++ c :: post) cp = Ok big
    /\ deadjoin big (range2 (total_N pre) (total_N pre + cN c)) cp = Ok c'
    /\ cN c' = cN c /\ gates c' = gates c.
Proof.
  intros Hr Hv Hq.
  assert (Hinv : Forall circuit_inv (pre ++ c :: post)).
  { eapply Forall_impl; [|exact Hr]. apply reachable_inv. }
  destruct (adjoin_spec (pre ++ c :: post) cp) as (big & Eb & Nb & Gb & Rb); auto.
  { destruct pre; discriminate. }
  apply Forall_app in Hinv, Hv, Hq.
  destruct Hinv as [Ipre Ic], Hv as [Vpre Vc], Hq as [Qpre Qc].
  inversion Ic as [|? ? Ic0 Ipost]; subst. inversion Vc as [|? ? Vc0 Vpost]; subst.
  inversion Qc as [|? ? Qc0 Qpost]; subst.
  pose proof (inv_N c Ic0) as HNc.
  pose proof (total_N_nonneg pre Ipre) as Hpre0.
  pose proof (total_N_nonneg post Ipost) as Hpost0.
  set (S := total_N pre) in *. set (keys := range2 S (S + cN c)).
  destruct (deadjoin_spec big keys cp Rb) as (c' & Ed & Nd & Gd & _).
  - intros E. pose proof (range2_length S (S + cN c)) as L. fold keys in L.
    rewrite E in L. cbn in L. lia.
  - rewrite Forall_forall. intros x Hx. apply range2_In in Hx.
    rewrite Nb, total_N_app, total_N_cons. fold S. lia.
  - intros _. unfold gates_valid. rewrite Gb. apply adjoin_gates_valid.
    apply Forall_app. split; [exact Vpre | now constructor].
  - exists big, c'. split; [exact Eb|]. split; [exact Ed|].
    split; [rewrite Nd; unfold keys; rewrite range2_length; lia|].
    rewrite Gd, Gb, adjoin_gates_app. cbn [adjoin_gates]. rewrite Z.add_0_l. fold S.
    rewrite !filter_app, filter_none, filter_all, filter_none.
    + rewrite app_nil_r. cbn [app]. rewrite map_map.
      rewrite <- (map_id (gates c)) at 2. apply map_ext_in.
      intros [[T key] g] Hin. unfold requbit. cbn [fst snd]. f_equal. f_equal.
      rewrite map_map. rewrite <- (map_id key) at 2. apply map_ext_in. intros x Hx.
      apply rank_in_range2.
      unfold qubits_nonneg in Qc0. rewrite Forall_forall in Qc0.
      specialize (Qc0 _ Hin). cbn in Qc0. rewrite Forall_forall in Qc0.
      destruct (inv_gates c Ic0) as (_ & Hok & _). rewrite Forall_forall in Hok.
      destruct (Hok _ Hin) as (_ & _ & Hlt). cbn in Hlt. rewrite Forall_forall in Hlt.
      split; [now apply Qc0 | now apply Hlt].
    + intros e He. destruct (in_keys keys e) eqn:Ek; [|reflexivity]. exfalso.
      pose proof (adjoin_gates_key post _ e Ipost Vpost He) as Hkey.
      destruct (snd (fst e)) as [|A key] eqn:Ekey; [contradiction|].
      assert (HA : In A (snd (fst e))) by (rewrite Ekey; now left).
      pose proof (adjoin_gates_qubits post _ e A Ipost Qpost He HA).
      apply (proj1 (in_keys_spec keys e) Ek) in HA. apply range2_In in HA. lia.
    + intros e He. apply in_keys_spec. intros A HA. apply range2_In.
      pose proof (adjoin_gates_qubits [c] S e A (Forall_cons c Ic0 (Forall_nil _))
                    (Forall_cons c Qc0 (Forall_nil _))) as G.
      cbn [adjoin_gates] in G. rewrite app_nil_r, total_N_cons in G.
      change (total_N []) with 0 in G. specialize (G He HA). lia.
    + intros e He. destruct (in_keys keys e) eqn:Ek; [|reflexivity]. exfalso.
      pose proof (adjoin_gates_key pre _ e Ipre Vpre He) as Hkey.
      destruct (snd (fst e)) as [|A key] eqn:Ekey; [contradiction|].
      assert (HA : In A (snd (fst e))) by (rewrite Ekey; now left).
      pose proof (adjoin_gates_qubits pre _ e A Ipre Qpre He HA).
      apply (proj1 (in_keys_spec keys e) Ek) in HA. apply range2_In in HA. fold S in H. lia.
Qed.

Lemma circuit_X0_reachable : reachable circuit_X0.
Proof.
  unfold circuit_X0. apply reachable_add; [|reflexivity]. now apply (reach_init 1).
Qed.

Lemma deadjoin_of_adjoin_witness :
  exists big c',
    adjoin ([circuit_H0_X1] ++ circuit_X0 :: []) true = Ok big
    /\ deadjoin big (range2 (total_N [circuit_H0_X1])
                       (total_N [circuit_H0_X1] + cN circuit_X0)) true = Ok c'
    /\ cN c' = cN circuit_X0 /\ gates c' = gates circuit_X0.
Proof.
  apply (deadjoin_of_adjoin [circuit_H0_X1] [] circuit_X0 true).
  - repeat constructor; [exact circuit_H0_X1_reachable | exact circuit_X0_reachable].
  - repeat constructor.
  - repeat constructor; cbn; lia.
Defined.

(** X23. [adjoin] of a non-empty list of circuits built by [add_gate], whose
    gates pass the constructor's checks and sit on qubits [A >= 0], returns
    a circuit on [sum(x.N)] qubits whose gates are those of the circuits in
    list order at their own moments, the qubits of each circuit shifted by
    the sum of [N] of the circuits before it; [adjoin([])] raises. *)
Theorem adjoin_side_by_side (cs : list Circuit) (cp : bool) :
  cs <> [] -> Forall reachable cs -> Forall gates_valid cs -> Forall qubits_nonneg cs ->
  (exists c', adjoin cs cp = Ok c' /\ cN c' = total_N cs
     /\ gates c' = adjoin_gates cs 0 /\ reachable c')
  /\ adjoin [] cp = Raise (RuntimeError "N <= 0").
Proof.
  intros Hne Hr Hv Hq. split; [now apply adjoin_spec | reflexivity].
Qed.

Lemma adjoin_side_by_side_witness :
  (exists c', adjoin [circuit_H0_X1; circuit_X0] true = Ok c'
     /\ cN c' = total_N [circuit_H0_X1; circuit_X0]
     /\ gates c' = adjoin_gates [circuit_H0_X1; circuit_X0] 0 /\ reachable c')
  /\ adjoin [] true = Raise (RuntimeError "N <= 0").
Proof.
  apply (adjoin_side_by_side [circuit_H0_X1; circuit_X0] true).
  - discriminate.
  - repeat constructor; [exact circuit_H0_X1_reachable | exact circuit_X0_reachable].
  - repeat constructor.
  - repeat constructor; cbn; lia.
Defined.

(** X24. [deadjoin(keys)] on a circuit built by [add_gate] raises when
    [keys] is empty or holds an index [>= N]; otherwise it returns a circuit
    on [len(keys)] qubits holding, in dictionary order and at their own
    moments, exactly the gates all of whose qubits occur in [keys], each
    qubit replaced by its (last) index in [keys]. *)
Theorem deadjoin_selects_qubits (self : Circuit) (keys : list Z) (cp : bool) :
  reachable self -> (cp = true -> gates_valid self) ->
  (keys = [] -> raises (deadjoin self keys cp))
  /\ ((exists A, In A keys /\ cN self <= A) -> raises (deadjoin self keys cp))
  /\ (keys <> [] -> Forall (fun A => A < cN self) keys ->
      (exists c', deadjoin self keys cp = Ok c' /\ cN c' = zlen keys
         /\ gates c' = map (requbit (rank_in keys)) (filter (in_keys keys) (gates self))
         /\ reachable c')
      /\ (forall kg, In kg (gates self) ->
            (in_keys keys kg = true <-> forall A, In A (snd (fst kg)) -> In A keys))
      /\ (forall A, In A keys ->
            0 <= rank_in keys A < zlen keys /\ nth (Z.to_nat (rank_in keys A)) keys 0 = A)).
Proof.
  intros Hr Hv. split; [|split].
  - intros ->. unfold deadjoin. cbn. eexists. reflexivity.
  - intros (A & HA & Hge). unfold deadjoin.
    assert (E : existsb (fun Aref => Aref >=? cN self) keys = true).
    { apply existsb_exists. exists A. split; [exact HA|].
      destruct (Z.geb_spec A (cN self)); [reflexivity | lia]. }
    rewrite E. eexists. reflexivity.
  - intros Hne Hlt. split; [now apply deadjoin_spec|]. split.
    + intros kg _. apply in_keys_spec.
    + intros A HA. destruct (rank_in_In keys A HA) as (H1 & H2 & _). auto.
Qed.

Lemma deadjoin_selects_qubits_witness :
  ([0] = [] -> raises (deadjoin circuit_H0_X1 [0] true))
  /\ ((exists A, In A [0] /\ cN circuit_H0_X1 <= A) -> raises (deadjoin circuit_H0_X1 [0] true))
  /\ ([0] <> [] -> Forall (fun A => A < cN circuit_H0_X1) [0] ->
      (exists c', deadjoin circuit_H0_X1 [0] true = Ok c' /\ cN c' = zlen [0]
         /\ gates c' = map (requbit (rank_in [0])) (filter (in_keys [0]) (gates circuit_H0_X1))
         /\ reachable c')
      /\ (forall kg, In kg (gates circuit_H0_X1) ->
            (in_keys [0] kg = true <-> forall A, In A (snd (fst kg)) -> In A [0]))
      /\ (forall A, In A [0] ->
            0 <= rank_in [0] A < zlen [0] /\ nth (Z.to_nat (rank_in [0] A)) [0] 0 = A)).
Proof.
  apply (deadjoin_selects_qubits circuit_H0_X1 [0] true).
  - exact circuit_H0_X1_reachable.
  - intros _. repeat constructor.
Defined.

(** ** Loops over ranges *)

Lemma foldM_app {A St} (f : St -> A -> result St) (l1 l2 : list A) (s : St) :
  foldM f (l1 ++ l2) s = do s' <- foldM f l1 s ;; foldM f l2 s'.
Proof.
  revert s. induction l1 as [|x l1 IH]; intros s; cbn; [reflexivity|].
  destruct (f s x); cbn; [apply IH | reflexivity].
Qed.

Lemma range_succ (t : Z) : 0 <= t -> range (t + 1) = range t ++ [t].
Proof.
  intros Ht. unfold range. replace (Z.to_nat (t + 1)) with (S (Z.to_nat t)) by lia.
  rewrite seq_S, map_app. cbn. f_equal. f_equal. lia.
Qed.

Lemma combine_seq {X} (l : list X) (s : nat) (d : X) :
  combine (map Z.of_nat (seq s (length l))) l
  = map (fun i => (Z.of_nat i, nth (i - s) l d)) (seq s (length l)).
Proof.
  revert s. induction l as [|a l IH]; intros s; [reflexivity|].
  cbn [length seq map combine]. rewrite Nat.sub_diag. cbn [nth]. f_equal.
  rewrite IH. apply map_ext_in. intros i Hi. apply in_seq in Hi. f_equal.
  replace (i - s)%nat with (S (i - S s)) by lia. reflexivity.
Qed.

Lemma enumerate_map {X} (l : list X) (d : X) :
  enumerate l = map (fun i => (i, nth (Z.to_nat i) l d)) (range (zlen l)).
Proof.
  unfold enumerate, range, zlen. rewrite Nat2Z.id, (combine_seq l 0 d), map_map.
  apply map_ext. intros i. now rewrite Nat.sub_0_r, Nat2Z.id.
Qed.

Lemma enumerate_row (row : list Z) (nm : Z) (f : Z -> Z) :
  zlen row = nm -> (forall T, 0 <= T < nm -> nth (Z.to_nat T) row 0 = f T) ->
  enumerate row = map (fun T => (T, f T)) (range nm).
Proof.
  intros Hlen Hv. rewrite (enumerate_map row 0), Hlen. apply map_ext_in.
  intros T HT. apply range_In in HT. now rewrite Hv.
Qed.

Lemma enumerate_plan (nm N : Z) (f : Z -> Z -> Z) (plan : plan_t) :
  plan_is nm N f plan ->
  exists rows : Z -> list Z,
    enumerate plan = map (fun A => (A, rows A)) (range N)
    /\ forall A, 0 <= A < N ->
         zlen (rows A) = nm /\ forall T, 0 <= T < nm -> nth (Z.to_nat T) (rows A) 0 = f T A.
Proof.
  intros (Hl & H). exists (fun A => nth (Z.to_nat A) plan []). split.
  - rewrite (enumerate_map plan []), Hl. reflexivity.
  - intros A HA. destruct (H A HA) as (row & Hr & Hlen & Hv).
    rewrite (nth_error_nth _ _ _ Hr). auto.
Qed.

(** A loop over [range n] whose state satisfies [I t] after [t] rounds. *)
Lemma foldM_range {St} (f : St -> Z -> result St) (I : Z -> St -> Prop) (n : Z) (s0 : St) :
  0 <= n -> I 0 s0 ->
  (forall t s, 0 <= t < n -> I t s -> exists s', f s t = Ok s' /\ I (t + 1) s') ->
  exists s', foldM f (range n) s0 = Ok s' /\ I n s'.
Proof.
  intros Hn H0 Hstep.
  assert (G : forall t, 0 <= t -> t <= n -> exists s', foldM f (range t) s0 = Ok s' /\ I t s').
  { intros t Ht. pattern t. apply natlike_ind; [| |exact Ht].
    - intros _. exists s0. split; [reflexivity | exact H0].
    - clear t Ht. intros t Ht IH Hle. unfold Z.succ in *.
      destruct (IH ltac:(lia)) as (s & E & Hs).
      destruct (Hstep t s ltac:(lia) Hs) as (s' & E' & Hs').
      exists s'. split; [|exact Hs'].
      rewrite range_succ, foldM_app, E by exact Ht. cbn [bind foldM]. now rewrite E'. }
  apply G; lia.
Qed.

(** ** Groups of a single gate *)

Lemma group_single (N : Z) (L : list (coord * Gate)) (e : coord * Gate) :
  simulable N e -> group_ok N L (e, [e]).
Proof.
  intros Hs. constructor; cbn [fst snd].
  - exists e. split; [now left | reflexivity].
  - intros m q [<- | []] H. exact H.
  - intros q. unfold wire. cbn. destruct (touches q e); repeat constructor.
  - intros q m1 m2 x [<- | []] [<- | []] _ _ _ _ H1 H2. unfold time_lt in *. lia.
  - intros psi. apply agree_refl.
  - exact Hs.
Qed.

Lemma StronglySorted_time_NoDup (M : list (coord * Gate)) :
  StronglySorted time_lt M -> NoDup M.
Proof.
  induction 1 as [|a M HM IH Ha]; constructor; [|exact IH].
  intros Hin. rewrite Forall_forall in Ha. specialize (Ha a Hin). unfold time_lt in Ha. lia.
Qed.

Lemma StronglySorted_filter {X} (R : X -> X -> Prop) (p : X -> bool) (l : list X) :
  StronglySorted R l -> StronglySorted R (filter p l).
Proof.
  induction 1 as [|a l Hl IH Ha]; cbn; [constructor|].
  destruct (p a); [|exact IH]. constructor; [exact IH|].
  rewrite Forall_forall in *. intros y Hy. apply filter_In in Hy. now apply Ha.
Qed.

Lemma StronglySorted_snoc {X} (R : X -> X -> Prop) (l : list X) (x : X) :
  StronglySorted R l -> (forall y, In y l -> R y x) -> StronglySorted R (l ++ [x]).
Proof.
  induction 1 as [|a l Hl IH Ha]; intros H; cbn.
  - repeat constructor.
  - constructor; [apply IH; intros; apply H; now right|].
    apply Forall_app. split; [exact Ha|]. constructor; [apply H; now left | constructor].
Qed.

(** ** Pass 1 of the compressor *)

Section Pass1.
Variables (nm N : Z) (c1 : Circuit).
Hypothesis Hc1 : circuit_inv c1.
Hypothesis HN : cN c1 = N.
Hypothesis Hsim : Forall (simulable N) (gates c1).
Hypothesis Htimes : forall e, In e (gates c1) -> fst (fst e) < nm.

Lemma pass1_placeable : placeable N (gates c1).
Proof. rewrite <- HN. apply inv_gates, Hc1. Qed.

Lemma pass1_slots : slot_unique (gates c1).
Proof. apply (placeable_slot_unique N), pass1_placeable. Qed.

Lemma pass1_keys : NoDup (map fst (gates c1)).
Proof. destruct pass1_placeable as (H & _). exact H. Qed.

Lemma pass1_time0 (e : coord * Gate) : In e (gates c1) -> 0 <= fst (fst e).
Proof.
  intros He. destruct pass1_placeable as (_ & HeL & _). rewrite Forall_forall in HeL.
  apply (HeL e He).
Qed.

Lemma covered1_step (F : list ((coord * Gate) * list (coord * Gate))) (A t : Z) :
  covered1 (gates c1) F A t ->
  (forall g, ~ In ((t, [A]), g) (gates c1)) ->
  covered1 (gates c1) F A (t + 1).
Proof.
  intros H Hno x. rewrite (H x). split; intros (Hx & q & K & Hq); (split; [exact Hx|]);
    exists q; (split; [exact K|]); destruct Hq as [Hq | [-> Hq]]; auto.
  - right. split; [reflexivity | lia].
  - destruct (Z.eq_dec (fst (fst x)) t) as [E | E]; [|right; split; [reflexivity | lia]].
    exfalso. destruct x as [[T key] g]. cbn [fst snd] in *. subst. exact (Hno g Hx).
Qed.

(** Placing the gate of a finished chain. *)
Lemma flush_ok (c2 : Circuit) (F : list ((coord * Gate) * list (coord * Gate)))
    (A t Tstar : Z) (U : matrix) (M : list (coord * Gate)) :
  0 <= A < N -> fusion_inv N (gates c1) c2 F ->
  covered1 (gates c1) F A Tstar -> chain_of N (gates c1) A t Tstar U M ->
  exists gh c2',
    Gate_U1 U = Ok gh /\ add_gate_to c2 Tstar [A] gh = Ok c2'
    /\ fusion_inv N (gates c1) c2' (F ++ [(((Tstar, [A]), gh), M)])
    /\ covered1 (gates c1) (F ++ [(((Tstar, [A]), gh), M)]) A t.
Proof.
  intros HA HF Hcov (HU & (g0 & rest & EM) & Hsort & Hall & Hcover & Hact).
  destruct (Gate_U1_ok U HU) as (gh & Egh & EU & ENg & Ecopy).
  set (h := ((Tstar, [A]), gh) : coord * Gate).
  rewrite Forall_forall in Hall.
  assert (Hgrp : group_ok N (gates c1) (h, M)).
  { constructor; cbn [fst snd].
    - exists ((Tstar, [A]), g0). split; [rewrite EM; now left | reflexivity].
    - intros m q Hm Hq. destruct (Hall m Hm) as (_ & K & _).
      apply touches_In in Hq. rewrite K in Hq. apply touches_In. exact Hq.
    - intros q. unfold wire. now apply StronglySorted_filter.
    - intros q m1 m2 x Hm1 Hm2 Hx Hq1 Hq2 Hqx H1 H2.
      destruct (Hall m1 Hm1) as (_ & K1 & Ht1). destruct (Hall m2 Hm2) as (_ & K2 & Ht2).
      assert (q = A) by (apply (touches_single q A m1 K1 Hq1)). subst q.
      apply Hcover; auto. unfold time_lt in *. lia.
    - intros psi. unfold act, h. cbn [fst snd]. rewrite EU. apply Hact.
    - unfold simulable, h. cbn [fst snd]. rewrite ENg. split; [exact Ecopy|].
      split; [now left|]. split; [reflexivity|].
      split; [repeat constructor; lia | constructor; [intros [] | constructor]]. }
  destruct (fusion_add N (gates c1) c2 F h M pass1_placeable HF Hgrp)
    as (c2' & Eadd & HF').
  - now apply StronglySorted_time_NoDup.
  - intros x Hx. apply (Hall x Hx).
  - intros x Hx Hin. apply Hcov in Hin. destruct Hin as (_ & q & K & Hq).
    destruct (Hall x Hx) as (_ & K' & Ht). rewrite K' in K. injection K as <-.
    destruct Hq as [Hq | [_ Hq]]; lia.
  - exists gh, c2'. split; [exact Egh|]. split; [exact Eadd|]. split; [exact HF'|].
    intros x. rewrite flat_map_app. cbn [flat_map snd]. rewrite app_nil_r, in_app_iff.
    rewrite (Hcov x). split.
    + intros [(Hx & q & K & Hq) | Hx].
      * split; [exact Hx|]. exists q. split; [exact K|].
        destruct Hq as [Hq | [-> Hq]]; [now left|]. right. split; [reflexivity|].
        assert (Hm0 : In ((Tstar, [A]), g0) M) by (rewrite EM; now left).
        destruct (Hall _ Hm0) as (_ & _ & Ht0). cbn [fst] in Ht0. lia.
      * destruct (Hall x Hx) as (HxL & K & Ht). split; [exact HxL|]. exists A.
        split; [exact K|]. right. split; [reflexivity | lia].
    + intros (Hx & q & K & Hq). destruct Hq as [Hq | [-> Hq]].
      * left. split; [exact Hx|]. exists q. auto.
      * destruct (Z.lt_ge_cases (fst (fst x)) Tstar) as [Hlt | Hge].
        -- left. split; [exact Hx|]. exists A. auto.
        -- right. apply Hcover; [exact Hx | | lia]. apply touches_In. rewrite K. now left.
Qed.

(** The chain takes in the 1-body gate at the moment [t]. *)
Lemma chain_extend (F : list ((coord * Gate) * list (coord * Gate)))
    (A t : Z) (ch : chain) (g : Gate) :
  0 <= A < N -> 0 <= t -> In ((t, [A]), g) (gates c1) ->
  chain_inv N (gates c1) A t F ch ->
  exists Tstar U M,
    match ch with
    | None => Some (t, Gate_U g)
    | Some (Tstar, U) => Some (Tstar, mdot (Gate_U g) U)
    end = Some (Tstar, U)
    /\ covered1 (gates c1) F A Tstar /\ chain_of N (gates c1) A (t + 1) Tstar U M.
Proof.
  intros HA Ht Hin Hch. set (x := ((t, [A]), g) : coord * Gate) in *.
  assert (Hsx : simulable N x) by (rewrite Forall_forall in Hsim; now apply Hsim).
  assert (HUg : has_shape (Gate_U g) 2 2 = true).
  { destruct (simulable_cases _ _ Hsx) as [(A' & K & _ & _ & H) | (A' & B' & K & _)];
      cbn [fst snd x] in *; [exact H | discriminate]. }
  assert (Hat : forall y, In y (gates c1) -> touches A y = true -> fst (fst y) = t -> y = x).
  { intros y Hy Hq Et. apply (pass1_slots y x A); auto.
    apply touches_In. cbn. now left. }
  destruct ch as [[Tstar U]|]; cbn [chain_inv] in Hch.
  - destruct Hch as (Hcov & M & HU & (g0 & rest & EM) & Hsort & Hall & Hcover & Hact).
    exists Tstar, (mdot (Gate_U g) U), (M ++ [x]). split; [reflexivity|].
    split; [exact Hcov|]. rewrite Forall_forall in Hall. split; [|split; [|split; [|split; [|split]]]].
    + now apply mdot_shape22.
    + exists g0, (rest ++ [x]). rewrite EM. reflexivity.
    + apply StronglySorted_snoc; [exact Hsort|]. intros y Hy.
      destruct (Hall y Hy) as (_ & _ & Hty). unfold time_lt, x. cbn. lia.
    + apply Forall_app. split.
      * apply Forall_forall. intros y Hy. destruct (Hall y Hy) as (H1 & H2 & H3).
        split; [exact H1|]. split; [exact H2 | lia].
      * constructor; [|constructor]. split; [exact Hin|]. split; [reflexivity|].
        assert (Hm0 : In ((Tstar, [A]), g0) M) by (rewrite EM; now left).
        destruct (Hall _ Hm0) as (_ & _ & Ht0). cbn [fst x] in *. lia.
    + intros y Hy Hq Hty. apply in_or_app.
      destruct (Z.eq_dec (fst (fst y)) t) as [E | E].
      * right. left. symmetry. now apply Hat.
      * left. apply Hcover; auto. lia.
    + intros psi. rewrite act_all_app. cbn [act_all fold_left].
      unfold act at 1. cbn [fst snd x].
      eapply agree_trans; [apply act1_mdot; auto; lia|].
      apply act1_agree. apply Hact.
  - exists t, (Gate_U g), [x]. split; [reflexivity|]. split; [exact Hch|].
    split; [exact HUg|]. split; [exists g, []; reflexivity|].
    split; [repeat constructor|]. split; [|split].
    + constructor; [|constructor]. split; [exact Hin|]. split; [reflexivity|]. cbn. lia.
    + intros y Hy Hq Hty. left. symmetry. apply Hat; auto. lia.
    + intros psi. apply agree_refl.
Qed.

(** The chain passes an empty slot. *)
Lemma chain_skip (A t Tstar : Z) (U : matrix) (M : list (coord * Gate)) :
  at_slot (gates c1) t A = None ->
  chain_of N (gates c1) A t Tstar U M -> chain_of N (gates c1) A (t + 1) Tstar U M.
Proof.
  intros Hn (HU & Hhd & Hsort & Hall & Hcover & Hact).
  split; [exact HU|]. split; [exact Hhd|]. split; [exact Hsort|]. split; [|split; [|exact Hact]].
  - eapply Forall_impl; [|exact Hall]. intros y (H1 & H2 & H3). split; [exact H1|].
    split; [exact H2 | lia].
  - intros y Hy Hq Hty. destruct (Z.eq_dec (fst (fst y)) t) as [E | E].
    + exfalso. exact (at_slot_None _ _ _ y Hn Hy E Hq).
    + apply Hcover; auto. lia.
Qed.

Lemma jam1_step_ok (A t : Z) (st : Circuit * chain) :
  0 <= A < N -> 0 <= t < nm ->
  pass1_inv nm N (gates c1) A t st ->
  exists st', jam1_step nm c1 A st (t, slot_val (gates c1) t A) = Ok st'
              /\ pass1_inv nm N (gates c1) A (t + 1) st'.
Proof.
  intros HA Ht ((F & HF & Hch) & _). destruct st as [c2 ch]. cbn [fst snd] in *.
  unfold jam1_step.
  destruct (slot_val_cases N (gates c1) t A Hsim)
    as [(Hn & E) | [(g & Hg & E) | [(B & g & HAB & Hg & E) | (B & g & HAB & Hg & E)]]];
    rewrite E.
  - (* an empty slot *)
    cbn [Z.eqb bind orb].
    assert (Hno : forall g, ~ In ((t, [A]), g) (gates c1)).
    { intros g Hin. apply (at_slot_None _ _ _ _ Hn Hin eq_refl).
      apply touches_In. cbn. now left. }
    destruct ch as [[Tstar U]|]; cbn [chain_inv] in Hch.
    + destruct Hch as (Hcov & M & HM). pose proof (chain_skip A t Tstar U M Hn HM) as HM'.
      destruct (Z.eqb_spec t (nm - 1)) as [Elast | Elast].
      * destruct (flush_ok c2 F A (t + 1) Tstar U M HA HF Hcov HM')
          as (gh & c2' & E1 & E2 & HF' & Hcov').
        rewrite E1. cbn [bind]. rewrite E2. cbn [bind]. eexists. split; [reflexivity|].
        split; [|intros H; now contradiction H]. eexists. split; [exact HF' | exact Hcov'].
      * eexists. split; [reflexivity|]. split; [|intros _; cbn; lia].
        exists F. split; [exact HF|]. split; [exact Hcov | now exists M].
    + eexists. split; [reflexivity|]. split; [|intros H; now contradiction H].
      exists F. split; [exact HF|]. now apply covered1_step.
  - (* a 1-body gate *)
    cbn [Z.eqb Pos.eqb orb].
    destruct (one_body_lookup N c1 Hsim pass1_keys t A E) as (g' & Hg' & Eg & Hin).
    rewrite Eg. cbn [bind].
    destruct (chain_extend F A t ch g' HA ltac:(lia) Hin Hch) as (Tstar & U & M & Ech & Hcov & HM).
    assert (Ech' : match ch with
                   | Some (Tstar0, U0) => Ok (Some (Tstar0, mdot (Gate_U g') U0))
                   | None => Ok (Some (t, Gate_U g'))
                   end = Ok (Some (Tstar, U))).
    { destruct ch as [[? ?]|]; now rewrite <- Ech. }
    rewrite Ech'. cbn [bind].
    destruct (Z.eqb_spec t (nm - 1)) as [Elast | Elast].
    + destruct (flush_ok c2 F A (t + 1) Tstar U M HA HF Hcov HM)
        as (gh & c2' & E1 & E2 & HF' & Hcov').
      rewrite E1. cbn [bind]. rewrite E2. cbn [bind]. eexists. split; [reflexivity|].
      split; [|intros H; now contradiction H]. eexists. split; [exact HF' | exact Hcov'].
    + eexists. split; [reflexivity|]. split; [|intros _; cbn; lia].
      exists F. split; [exact HF|]. split; [exact Hcov | now exists M].
  - (* the first qubit of a 2-body gate *)
    cbn [Z.eqb Pos.eqb orb bind].
    assert (Hno : forall g0, ~ In ((t, [A]), g0) (gates c1)).
    { intros g0 Hin. apply at_slot_Some in Hg. destruct Hg as (Hy & _ & Hq).
      assert (E0 : ((t, [A]), g0) = ((t, [A; B]), g)).
      { apply (pass1_slots _ _ A); auto. apply touches_In. cbn. now left. }
      discriminate. }
    destruct ch as [[Tstar U]|]; cbn [chain_inv] in Hch.
    + destruct Hch as (Hcov & M & HM).
      destruct (flush_ok c2 F A t Tstar U M HA HF Hcov HM)
        as (gh & c2' & E1 & E2 & HF' & Hcov').
      rewrite E1. cbn [bind]. rewrite E2. cbn [bind]. eexists. split; [reflexivity|].
      split; [|intros H; now contradiction H]. eexists. split; [exact HF'|].
      now apply covered1_step.
    + eexists. split; [reflexivity|]. split; [|intros H; now contradiction H].
      exists F. split; [exact HF|]. now apply covered1_step.
  - (* the second qubit of a 2-body gate *)
    cbn [Z.eqb Pos.eqb orb bind].
    assert (Hno : forall g0, ~ In ((t, [A]), g0) (gates c1)).
    { intros g0 Hin. apply at_slot_Some in Hg. destruct Hg as (Hy & _ & Hq).
      assert (E0 : ((t, [A]), g0) = ((t, [B; A]), g)).
      { apply (pass1_slots _ _ A); auto. apply touches_In. cbn. now left. }
      discriminate. }
    destruct ch as [[Tstar U]|]; cbn [chain_inv] in Hch.
    + destruct Hch as (Hcov & M & HM).
      destruct (flush_ok c2 F A t Tstar U M HA HF Hcov HM)
        as (gh & c2' & E1 & E2 & HF' & Hcov').
      rewrite E1. cbn [bind]. rewrite E2. cbn [bind]. eexists. split; [reflexivity|].
      split; [|intros H; now contradiction H]. eexists. split; [exact HF'|].
      now apply covered1_step.
    + eexists. split; [reflexivity|]. split; [|intros H; now contradiction H].
      exists F. split; [exact HF|]. now apply covered1_step.
Qed.

End Pass1.

Lemma copy_run (c : Circuit) :
  circuit_inv c -> gates_valid c ->
  exists c', copy c = Ok c' /\ cN c' = cN c /\ gates c' = gates c /\ circuit_inv c'.
Proof.
  intros Hc Hv. pose proof (inv_N c Hc) as HN. unfold copy, Circuit_init.
  destruct (Z.leb_spec (cN c) 0); [lia|]. cbn [bind].
  set (c0 := mkCircuit (cN c) [] [] []).
  assert (Hinit : Circuit_init (cN c) = Ok c0).
  { unfold Circuit_init. destruct (Z.leb_spec (cN c) 0); [lia | reflexivity]. }
  rewrite foldM_ext with (g := add_entry).
  2:{ intros s [[T key2] g] Hin. unfold gates_valid in Hv. rewrite Forall_forall in Hv.
      specialize (Hv _ Hin). cbn in Hv. rewrite Hv. reflexivity. }
  destruct (place_all (gates c) c0) as (c' & Hf & Hg & HN' & Hc' & _).
  - now apply (Circuit_init_inv (cN c)).
  - cbn. apply (inv_gates c Hc).
  - cbn in Hg. exists c'. auto.
Qed.

Lemma simulable_gates_valid (c : Circuit) :
  Forall (simulable (cN c)) (gates c) -> gates_valid c.
Proof.
  intros H. unfold gates_valid. eapply Forall_impl; [|exact H]. now intros e (He & _).
Qed.

Lemma fusion_inv_init (N : Z) (L : list (coord * Gate)) :
  0 < N -> fusion_inv N L (mkCircuit N [] [] []) [].
Proof.
  intros HN. split; [apply (Circuit_init_inv N)|].
  { unfold Circuit_init. destruct (Z.leb_spec N 0); [lia | reflexivity]. }
  split; [reflexivity|]. split; [reflexivity|]. split; [constructor|].
  split; [constructor | intros x []].
Qed.

Section Pass1Loops.
Variables (nm N : Z) (c1 : Circuit).
Hypothesis Hc1 : circuit_inv c1.
Hypothesis HN : cN c1 = N.
Hypothesis Hsim : Forall (simulable N) (gates c1).
Hypothesis Htimes : forall e, In e (gates c1) -> fst (fst e) < nm.
Hypothesis Hnm : 0 <= nm.

Lemma jam1_row_ok (A : Z) (row : list Z) (c2 : Circuit)
    (F : list ((coord * Gate) * list (coord * Gate))) :
  0 <= A < N -> zlen row = nm ->
  (forall T, 0 <= T < nm -> nth (Z.to_nat T) row 0 = slot_val (gates c1) T A) ->
  fusion_inv N (gates c1) c2 F -> covered1 (gates c1) F A 0 ->
  exists c2' F', jam1_row nm c1 c2 (A, row) = Ok c2'
    /\ fusion_inv N (gates c1) c2' F' /\ covered1 (gates c1) F' (A + 1) 0.
Proof.
  intros HA Hlen Hv HF Hcov. unfold jam1_row. cbn [fst snd].
  rewrite (enumerate_row row nm (fun T => slot_val (gates c1) T A) Hlen Hv).
  rewrite <- (foldM_map (fun T => (T, slot_val (gates c1) T A)) (jam1_step nm c1 A)).
  destruct (foldM_range (fun s T => jam1_step nm c1 A s (T, slot_val (gates c1) T A))
              (pass1_inv nm N (gates c1) A) nm (c2, None) Hnm) as (st & E & Hst).
  - split; [|intros H; now contradiction H]. exists F. split; [exact HF | exact Hcov].
  - intros t s Ht Hs. now apply (jam1_step_ok nm N c1 Hc1 HN Hsim).
  - rewrite E. cbn [bind]. destruct st as [c2' ch]. destruct Hst as ((F' & HF' & Hch) & Hend).
    cbn [fst snd] in *.
    assert (ch = None).
    { destruct ch; [|reflexivity]. exfalso. specialize (Hend ltac:(discriminate)). lia. }
    subst ch. cbn [chain_inv] in Hch.
    exists c2', F'. split; [reflexivity|]. split; [exact HF'|].
    intros x. rewrite (Hch x). split; intros (Hx & q & K & Hq); (split; [exact Hx|]);
      exists q; (split; [exact K|]).
    + left. destruct Hq as [Hq | [-> _]]; lia.
    + pose proof (pass1_time0 N c1 Hc1 HN x Hx). pose proof (Htimes x Hx).
      destruct Hq as [Hq | [-> Hq]]; [|lia].
      destruct (Z.eq_dec q A) as [-> | Hne]; [right; split; [reflexivity | lia] | left; lia].
Qed.

Lemma jam1_rows_ok (plan : plan_t) :
  0 < N -> plan_is nm N (slot_val (gates c1)) plan ->
  exists c2 F, foldM (jam1_row nm c1) (enumerate plan) (mkCircuit N [] [] []) = Ok c2
    /\ fusion_inv N (gates c1) c2 F
    /\ forall x, In x (flat_map snd F) <-> In x (gates c1) /\ exists q, snd (fst x) = [q].
Proof.
  intros HN0 Hplan.
  destruct (enumerate_plan nm N _ plan Hplan) as (rows & Eenum & Hrows). rewrite Eenum.
  rewrite <- (foldM_map (fun A => (A, rows A)) (jam1_row nm c1)).
  destruct (foldM_range (fun s A => jam1_row nm c1 s (A, rows A))
              (fun A c2 => exists F, fusion_inv N (gates c1) c2 F /\ covered1 (gates c1) F A 0)
              N (mkCircuit N [] [] [])) as (c2 & E & F & HF & Hcov).
  - lia.
  - exists []. split; [now apply fusion_inv_init|]. intros x. cbn [flat_map]. split; [intros []|].
    intros (Hx & q & K & Hq). rewrite Forall_forall in Hsim.
    destruct (Hsim x Hx) as (_ & _ & _ & Hrange & _). rewrite K in Hrange.
    inversion Hrange as [|? ? Hq0 _]. pose proof (pass1_time0 N c1 Hc1 HN x Hx). lia.
  - intros A c2 HA (F & HF & Hcov). destruct (Hrows A HA) as (Hlen & Hv).
    destruct (jam1_row_ok A (rows A) c2 F HA Hlen Hv HF Hcov) as (c2' & F' & E' & HF' & Hcov').
    exists c2'. split; [exact E'|]. now exists F'.
  - exists c2, F. split; [exact E|]. split; [exact HF|].
    intros x. rewrite (Hcov x). split.
    + intros (Hx & q & K & Hq). split; [exact Hx|]. now exists q.
    + intros (Hx & q & K). split; [exact Hx|].
      exists q. split; [exact K|]. left. rewrite Forall_forall in Hsim.
      destruct (Hsim x Hx) as (_ & _ & _ & Hrange & _). rewrite K in Hrange.
      inversion Hrange as [|? ? Hq0 _]. lia.
Qed.

Lemma add_2body_ok (c2 : Circuit) (F : list ((coord * Gate) * list (coord * Gate))) :
  fusion_inv N (gates c1) c2 F ->
  (forall x, In x (flat_map snd F) <-> In x (gates c1) /\ exists q, snd (fst x) = [q]) ->
  exists c2', foldM add_2body (gates c1) c2 = Ok c2'
    /\ circuit_inv c2' /\ cN c2' = N /\ fuses N (gates c1) (gates c2').
Proof.
  intros HF Hcov.
  pose proof (pass1_placeable N c1 Hc1 HN) as HL.
  pose proof (placeable_NoDup _ _ HL) as HD.
  destruct (foldM_inv add_2body
              (fun pre c2 => exists F, fusion_inv N (gates c1) c2 F
                 /\ forall x, In x (flat_map snd F) <->
                      In x (gates c1)
                      /\ ((exists q, snd (fst x) = [q]) \/ (In x pre /\ gN (snd x) = 2)))
              (gates c1) c2) as (c2' & E & F' & HF' & Hcov').
  - exists F. split; [exact HF|]. intros x. rewrite (Hcov x). split.
    + intros (Hx & Hq). auto.
    + intros (Hx & [Hq | [[] _]]). auto.
  - intros pre e post s Epre (F0 & HF0 & Hcov0).
    assert (He : In e (gates c1)) by (rewrite Epre; apply in_or_app; right; now left).
    assert (Hse : simulable N e) by (rewrite Forall_forall in Hsim; now apply Hsim).
    unfold add_2body. destruct (Z.eqb_spec (gN (snd e)) 2) as [E2 | E2].
    + destruct (fusion_add N (gates c1) s F0 e [e] HL HF0 (group_single N _ e Hse))
        as (s' & Es & HF1).
      * repeat constructor. intros [].
      * intros x [<- | []]. exact He.
      * intros x [<- | []] Hin. apply Hcov0 in Hin. destruct Hin as (_ & [(q & K) | [Hpre _]]).
        -- destruct Hse as (_ & _ & Hlen & _). rewrite K, E2 in Hlen. cbn in Hlen. lia.
        -- rewrite Epre in HD. apply NoDup_remove_2 in HD. apply HD. apply in_or_app. now left.
      * exists s'. split; [exact Es|]. exists (F0 ++ [(e, [e])]). split; [exact HF1|].
        intros x. rewrite flat_map_app. cbn [flat_map snd]. rewrite app_nil_r, !in_app_iff.
        rewrite (Hcov0 x). cbn [In]. split.
        -- intros [(Hx & [Hq | [Hp H2]]) | [<- | []]]; auto. split; [exact He|]. right. auto.
        -- intros (Hx & [Hq | [[Hp | [<- | []]] H2]]); auto.
    + exists s. split; [reflexivity|]. exists F0. split; [exact HF0|].
      intros x. rewrite (Hcov0 x), in_app_iff. cbn [In]. split.
      * intros (Hx & [Hq | [Hp H2]]); auto.
      * intros (Hx & [Hq | [[Hp | [<- | []]] H2]]); auto. contradiction.
  - exists c2'. split; [exact E|]. destruct HF' as (Hc & HNc & Hrest).
    split; [exact Hc|]. split; [exact HNc|].
    apply (fusion_done N (gates c1) c2' F' HD); [split; [exact Hc | split; [exact HNc | exact Hrest]]|].
    intros x Hx. apply Hcov'. split; [exact Hx|].
    rewrite Forall_forall in Hsim.
    destruct (simulable_cases _ _ (Hsim x Hx)) as [(A & K & _) | (A & B & K & Hg & _)].
    + left. now exists A.
    + right. auto.
Qed.

End Pass1Loops.

(** What pass 1 returns. *)
Lemma compress_pass1_ok (self : Circuit) :
  circuit_inv self -> Forall (simulable (cN self)) (gates self) ->
  exists c2, compress_pass1 self = Ok c2 /\ circuit_inv c2 /\ cN c2 = cN self
    /\ fuses (cN self) (gates self) (gates c2).
Proof.
  intros Hc Hs. pose proof (inv_N self Hc) as HN0.
  destruct (copy_run self Hc (simulable_gates_valid self Hs)) as (c1 & E1 & N1 & G1 & Hc1).
  unfold compress_pass1. rewrite E1. cbn [bind].
  assert (Hs1 : Forall (simulable (cN self)) (gates c1)) by now rewrite G1.
  assert (Ht1 : forall e, In e (gates c1) -> fst (fst e) < nmoment self).
  { intros e He. rewrite G1 in He. apply (nmoment_bound self e Hc He). }
  pose proof (nmoment_nonneg self Hc) as Hnm.
  destruct (make_plan_spec (nmoment self) (cN self) (gates c1)) as (plan & Ep & Hplan);
    try assumption; try lia.
  { rewrite <- N1. apply inv_gates, Hc1. }
  rewrite Ep. cbn [bind]. unfold Circuit_init.
  destruct (Z.leb_spec (cN self) 0); [lia|]. cbn [bind].
  destruct (jam1_rows_ok (nmoment self) (cN self) c1 Hc1 N1 Hs1 Ht1 Hnm plan HN0 Hplan)
    as (c2 & F & E2 & HF & Hcov).
  rewrite E2. cbn [bind].
  destruct (add_2body_ok (cN self) c1 Hc1 N1 Hs1 c2 F HF Hcov) as (c2' & E3 & Hc2 & N2 & Hfu).
  exists c2'. rewrite G1 in Hfu. auto.
Qed.

(** ** What a fusion keeps *)

Lemma fuses_times (N : Z) (L L' : list (coord * Gate)) (P : Z -> Prop) :
  fuses N L L' -> (forall e, In e L -> P (fst (fst e))) -> forall e, In e L' -> P (fst (fst e)).
Proof.
  intros (F & P1 & P2 & HF) H e He. rewrite Forall_forall in HF.
  apply (Permutation_in _ (Permutation_sym P1)) in He. apply in_map_iff in He.
  destruct He as (g & <- & Hg). destruct (go_pivot N L g (HF g Hg)) as (p & Hp & <-).
  apply H. apply (Permutation_in _ P2). apply in_flat_map. eauto.
Qed.

Lemma fuses_nil (N : Z) (L L' : list (coord * Gate)) :
  fuses N L L' -> (L = [] <-> L' = []).
Proof.
  intros Hf. pose proof (fuses_length N L L' Hf) as Hlen.
  destruct Hf as (F & P1 & P2 & HF). split; intros ->.
  - destruct L'; [reflexivity | cbn in Hlen; lia].
  - apply Permutation_sym, Permutation_nil in P1. destruct F; [|discriminate].
    cbn in P2. now apply Permutation_nil in P2.
Qed.

Lemma fuses_run (c c' : Circuit) (w : vec) :
  circuit_inv c -> circuit_inv c' -> cN c' = cN c ->
  Forall (simulable (cN c)) (gates c) -> fuses (cN c) (gates c) (gates c') ->
  zlen w = 2 ^ cN c ->
  run_gates (cN c') (schedule c') w = run_gates (cN c) (schedule c) w.
Proof.
  intros Hc Hc' EN Hs Hf Hw. apply run_gates_fuses; auto.
  - now apply (fuses_simulable _ (gates c)).
  - now apply fuses_sound.
Qed.

(** X26. Pass 1 of [compressed], which merges the runs of 1-body gates on
    each qubit, succeeds on a well-formed circuit of 1- and 2-body gates; the
    circuit that it hands to pass 2 is well formed, has no more gates, and
    takes every state vector to the state that the circuit itself takes it
    to. *)
Theorem compress_pass1_same_map (self : Circuit) (w : vec) :
  circuit_inv self -> Forall (simulable (cN self)) (gates self) -> zlen w = 2 ^ cN self ->
  exists c2, compress_pass1 self = Ok c2 /\ circuit_inv c2 /\ cN c2 = cN self
    /\ Forall (simulable (cN self)) (gates c2)
    /\ ngate c2 <= ngate self
    /\ run_gates (cN c2) (schedule c2) w = run_gates (cN self) (schedule self) w.
Proof.
  intros Hc Hs Hw. destruct (compress_pass1_ok self Hc Hs) as (c2 & E & Hc2 & EN & Hf).
  exists c2. split; [exact E|]. split; [exact Hc2|]. split; [exact EN|].
  split; [now apply (fuses_simulable _ (gates self))|].
  split; [unfold ngate, zlen; pose proof (fuses_length _ _ _ Hf); lia|].
  now apply fuses_run.
Qed.

Lemma compress_pass1_same_map_witness :
  exists c2, compress_pass1 circuit_H0_X1 = Ok c2 /\ circuit_inv c2 /\ cN c2 = cN circuit_H0_X1
    /\ Forall (simulable (cN circuit_H0_X1)) (gates c2)
    /\ ngate c2 <= ngate circuit_H0_X1
    /\ run_gates (cN c2) (schedule c2) (zero_state 2)
       = run_gates (cN circuit_H0_X1) (schedule circuit_H0_X1) (zero_state 2).
Proof.
  apply (compress_pass1_same_map circuit_H0_X1 (zero_state 2)).
  - exact (reachable_inv _ circuit_H0_X1_reachable).
  - repeat constructor; cbn; try lia; try tauto; intros [E | []]; discriminate.
  - reflexivity.
Defined.
